(** * treego: the B+ tree and the R-tree, embedded and verified

    The two packages are embedded as state-passing functions over a store
    of nodes; the laws of the specification are then proved about those
    functions. *)
From stdpp Require Import base option list sorting gmap.
From Stdlib Require Import ZArith Lia.

(** * Shallow embedding of the B+ tree (bplustree/bplustree.go)

    Nodes live in a store (a list indexed by allocation order); a pointer
    [*node] is an index into the store and [nil] is [None].  Every Go
    function becomes a state-passing function in the option monad: [None]
    stands for a run-time panic (nil dereference, index or slice bound out
    of range) or for exhausted fuel in one of the loops that follow
    [children], [parent] or [next] links.  Keys are integers, values are
    an arbitrary type; machine integers are taken as mathematical ones. *)
Module BPlus.

Section Model.
Context {V : Type}.

Record Entry := mkEntry { Key : Z; Value : V }.

Record node := mkNode {
  isLeaf : bool;
  keys : list Z;
  children : list nat;
  entries : list Entry;
  next : option nat;
  parent : option nat }.

Record BPlusTree := mkTree {
  heap : list node;
  root : option nat;
  degree : Z }.

Definition set_keys (n : node) (ks : list Z) : node :=
  mkNode (isLeaf n) ks (children n) (entries n) (next n) (parent n).
Definition set_children (n : node) (cs : list nat) : node :=
  mkNode (isLeaf n) (keys n) cs (entries n) (next n) (parent n).
Definition set_entries (n : node) (es : list Entry) : node :=
  mkNode (isLeaf n) (keys n) (children n) es (next n) (parent n).
Definition set_next (n : node) (x : option nat) : node :=
  mkNode (isLeaf n) (keys n) (children n) (entries n) x (parent n).
Definition set_parent (n : node) (x : option nat) : node :=
  mkNode (isLeaf n) (keys n) (children n) (entries n) (next n) x.

Definition set_heap (t : BPlusTree) (h : list node) : BPlusTree :=
  mkTree h (root t) (degree t).
Definition set_root (t : BPlusTree) (r : option nat) : BPlusTree :=
  mkTree (heap t) r (degree t).

(** [p.field = ...]: read the node behind [p], write it back modified. *)
Definition modify (h : list node) (p : nat) (f : node → node) : option (list node) :=
  n ← h !! p; Some (<[p := f n]> h).

(** [&node{...}]: the fresh pointer is the current size of the store. *)
Definition alloc (h : list node) (n : node) : list node * nat :=
  (h ++ [n], length h).

Definition New (degree : Z) : BPlusTree :=
  mkTree [] None (if decide (degree < 2)%Z then 2%Z else degree).

Definition maxLeafEntries (t : BPlusTree) : Z := degree t * 2 - 1.
Definition minLeafEntries (t : BPlusTree) : Z := degree t - 1.
Definition maxInternalKeys (t : BPlusTree) : Z := degree t * 2 - 1.
Definition minInternalKeys (t : BPlusTree) : Z := degree t - 1.

Definition len {A} (l : list A) : Z := Z.of_nat (length l).

(** [i := 0; for i < len(keys) && key >= keys[i] { i++ }] *)
Fixpoint route (ks : list Z) (key : Z) : nat :=
  match ks with
  | [] => 0
  | k :: ks' => if decide (key >= k)%Z then S (route ks' key) else 0
  end.

(** [i := 0; for i < len(cs) && cs[i] != x { i++ }] *)
Fixpoint index_of (x : nat) (cs : list nat) : nat :=
  match cs with
  | [] => 0
  | c :: cs' => if decide (c = x) then 0 else S (index_of x cs')
  end.

(** [for i, e := range es { if e.Key == key {...} }]: first match. *)
Definition find_key (key : Z) (es : list Entry) : option (nat * Entry) :=
  list_find (λ e, Key e = key) es.

Fixpoint findLeaf_loop (fuel : nat) (h : list node) (key : Z) (n : nat) : option nat :=
  match fuel with
  | 0 => None
  | S fuel' =>
      nd ← h !! n;
      if isLeaf nd then Some n
      else c ← children nd !! route (keys nd) key; findLeaf_loop fuel' h key c
  end.

Definition findLeaf (t : BPlusTree) (key : Z) : option nat :=
  r ← root t; findLeaf_loop (S (length (heap t))) (heap t) key r.

Fixpoint firstLeaf_loop (fuel : nat) (h : list node) (n : nat) : option nat :=
  match fuel with
  | 0 => None
  | S fuel' =>
      nd ← h !! n;
      if isLeaf nd then Some n
      else c ← children nd !! 0; firstLeaf_loop fuel' h c
  end.

(** The result is the pointer returned, [Some None] being Go's [nil]. *)
Definition firstLeaf (t : BPlusTree) : option (option nat) :=
  match root t with
  | None => Some None
  | Some r => l ← firstLeaf_loop (S (length (heap t))) (heap t) r; Some (Some l)
  end.

(** [Search]: [Some None] is the pair (zero value, false). *)
Definition Search (t : BPlusTree) (key : Z) : option (option V) :=
  match root t with
  | None => Some None
  | Some _ =>
      leaf ← findLeaf t key;
      nd ← heap t !! leaf;
      Some (Value ∘ snd <$> find_key key (entries nd))
  end.

(** [i := 0; for i < len(es) && es[i].Key < key { i++ }] *)
Fixpoint insert_pos (key : Z) (es : list Entry) : nat :=
  match es with
  | [] => 0
  | e :: es' => if decide (Key e < key)%Z then S (insert_pos key es') else 0
  end.

Definition insertIntoLeaf (t : BPlusTree) (leaf : nat) (key : Z) (value : V)
  : option BPlusTree :=
  nd ← heap t !! leaf;
  let i := insert_pos key (entries nd) in
  let es := take i (entries nd) ++ mkEntry key value :: drop i (entries nd) in
  Some (set_heap t (<[leaf := set_entries nd es]> (heap t))).

(** Body of [splitInternal]; [insertIntoParent] is the recursive callee. *)
Definition splitInternal_with
    (insertIntoParent : BPlusTree → nat → Z → nat → option BPlusTree)
    (t : BPlusTree) (n : nat) : option BPlusTree :=
  nd ← heap t !! n;
  let mid := (length (keys nd) / 2)%nat in
  promoteKey ← keys nd !! mid;
  if decide (S mid ≤ length (children nd)) then
    let '(h1, newNode) :=
      alloc (heap t)
        (mkNode false (drop (S mid) (keys nd)) (drop (S mid) (children nd))
           [] None (parent nd)) in
    h2 ← foldl (λ oh child, h ← oh; modify h child (λ c, set_parent c (Some newNode)))
           (Some h1) (drop (S mid) (children nd));
    nd2 ← h2 !! n;
    let h3 := <[n := set_children (set_keys nd2 (take mid (keys nd2)))
                       (take (S mid) (children nd2))]> h2 in
    insertIntoParent (set_heap t h3) n promoteKey newNode
  else None.

Fixpoint insertIntoParent (fuel : nat) (t : BPlusTree) (left : nat) (key : Z)
    (right : nat) : option BPlusTree :=
  match fuel with
  | 0 => None
  | S fuel' =>
      ln ← heap t !! left;
      match parent ln with
      | None =>
          let '(h1, newRoot) :=
            alloc (heap t) (mkNode false [key] [left; right] [] None None) in
          h2 ← modify h1 left (λ c, set_parent c (Some newRoot));
          h3 ← modify h2 right (λ c, set_parent c (Some newRoot));
          Some (mkTree h3 (Some newRoot) (degree t))
      | Some p =>
          h1 ← modify (heap t) right (λ c, set_parent c (Some p));
          pn ← h1 !! p;
          let i := index_of left (children pn) in
          if decide (i ≤ length (keys pn) ∧ S i ≤ length (children pn)) then
            let ks := take i (keys pn) ++ key :: drop i (keys pn) in
            let cs := take (S i) (children pn) ++ right :: drop (S i) (children pn) in
            let h2 := <[p := set_children (set_keys pn ks) cs]> h1 in
            let t2 := set_heap t h2 in
            if decide (len ks > maxInternalKeys t)%Z
            then splitInternal_with (insertIntoParent fuel') t2 p
            else Some t2
          else None
      end
  end.

Definition splitInternal (fuel : nat) := splitInternal_with (insertIntoParent fuel).

Definition splitLeaf (fuel : nat) (t : BPlusTree) (leaf : nat) : option BPlusTree :=
  nd ← heap t !! leaf;
  let mid := (length (entries nd) / 2)%nat in
  let '(h1, newLeaf) :=
    alloc (heap t)
      (mkNode true [] [] (drop mid (entries nd)) (next nd) (parent nd)) in
  let h2 := <[leaf := set_next (set_entries nd (take mid (entries nd)))
                        (Some newLeaf)]> h1 in
  nn ← h2 !! newLeaf;
  e0 ← entries nn !! 0;
  insertIntoParent fuel (set_heap t h2) leaf (Key e0) newLeaf.

Definition Insert (t : BPlusTree) (key : Z) (value : V) : option BPlusTree :=
  match root t with
  | None =>
      let '(h1, r) :=
        alloc (heap t) (mkNode true [] [] [mkEntry key value] None None) in
      Some (mkTree h1 (Some r) (degree t))
  | Some _ =>
      leaf ← findLeaf t key;
      nd ← heap t !! leaf;
      match find_key key (entries nd) with
      | Some (i, e) =>
          Some (set_heap t
                  (<[leaf := set_entries nd
                               (<[i := mkEntry (Key e) value]> (entries nd))]>
                     (heap t)))
      | None =>
          t1 ← insertIntoLeaf t leaf key value;
          nd1 ← heap t1 !! leaf;
          if decide (len (entries nd1) > maxLeafEntries t1)%Z
          then splitLeaf (S (length (heap t1))) t1 leaf
          else Some t1
      end
  end.

(** Body of [rebalanceInternal]; [deleteFromParent] is the recursive callee. *)
Definition rebalanceInternal_with
    (deleteFromParent : BPlusTree → nat → nat → option BPlusTree)
    (t : BPlusTree) (n : nat) : option BPlusTree :=
  let h := heap t in
  nd ← h !! n;
  match parent nd with
  | None => Some t
  | Some p =>
      pn ← h !! p;
      let idx := index_of n (children pn) in
      let merge : option BPlusTree :=
        if decide (0 < idx) then
          ls ← children pn !! (idx - 1);
          lnd ← h !! ls;
          pk ← keys pn !! (idx - 1);
          let h1 := <[ls := set_keys lnd (keys lnd ++ [pk])]> h in
          nd1 ← h1 !! n;
          h2 ← modify h1 ls (λ c, set_keys c (keys c ++ keys nd1));
          nd2 ← h2 !! n;
          h3 ← modify h2 ls (λ c, set_children c (children c ++ children nd2));
          nd3 ← h3 !! n;
          h4 ← foldl (λ oh child, h ← oh; modify h child (λ c, set_parent c (Some ls)))
                 (Some h3) (children nd3);
          deleteFromParent (set_heap t h4) p (idx - 1)
        else if decide (len (children pn) - 1 > Z.of_nat idx)%Z then
          rs ← children pn !! (idx + 1);
          pk ← keys pn !! idx;
          let h1 := <[n := set_keys nd (keys nd ++ [pk])]> h in
          rnd1 ← h1 !! rs;
          h2 ← modify h1 n (λ c, set_keys c (keys c ++ keys rnd1));
          rnd2 ← h2 !! rs;
          h3 ← modify h2 n (λ c, set_children c (children c ++ children rnd2));
          rnd3 ← h3 !! rs;
          h4 ← foldl (λ oh child, h ← oh; modify h child (λ c, set_parent c (Some n)))
                 (Some h3) (children rnd3);
          deleteFromParent (set_heap t h4) p idx
        else Some t in
      let right : option BPlusTree :=
        if decide (len (children pn) - 1 > Z.of_nat idx)%Z then
          rs ← children pn !! (idx + 1);
          rnd ← h !! rs;
          if decide (len (keys rnd) > minInternalKeys t)%Z then
            borrowedKey ← keys rnd !! 0;
            borrowedChild ← children rnd !! 0;
            let h1 := <[rs := set_children (set_keys rnd (drop 1 (keys rnd)))
                                (drop 1 (children rnd))]> h in
            nd1 ← h1 !! n;
            pn1 ← h1 !! p;
            pk ← keys pn1 !! idx;
            let h2 := <[n := set_children (set_keys nd1 (keys nd1 ++ [pk]))
                               (children nd1 ++ [borrowedChild])]> h1 in
            h3 ← modify h2 borrowedChild (λ c, set_parent c (Some n));
            pn3 ← h3 !! p;
            if decide (idx < length (keys pn3)) then
              Some (set_heap t (<[p := set_keys pn3 (<[idx := borrowedKey]> (keys pn3))]> h3))
            else None
          else merge
        else merge in
      if decide (0 < idx) then
        ls ← children pn !! (idx - 1);
        lnd ← h !! ls;
        if decide (len (keys lnd) > minInternalKeys t)%Z then
          borrowedKey ← last (keys lnd);
          borrowedChild ← last (children lnd);
          let h1 := <[ls := set_children (set_keys lnd (removelast (keys lnd)))
                              (removelast (children lnd))]> h in
          nd1 ← h1 !! n;
          pn1 ← h1 !! p;
          pk ← keys pn1 !! (idx - 1);
          let h2 := <[n := set_children (set_keys nd1 (pk :: keys nd1))
                             (borrowedChild :: children nd1)]> h1 in
          h3 ← modify h2 borrowedChild (λ c, set_parent c (Some n));
          pn3 ← h3 !! p;
          if decide (idx - 1 < length (keys pn3)) then
            Some (set_heap t (<[p := set_keys pn3 (<[idx - 1 := borrowedKey]> (keys pn3))]> h3))
          else None
        else right
      else right
  end.

Fixpoint deleteFromParent (fuel : nat) (t : BPlusTree) (parent_ : nat)
    (keyIdx : nat) : option BPlusTree :=
  match fuel with
  | 0 => None
  | S fuel' =>
      pn ← heap t !! parent_;
      let childIdx := keyIdx + 1 in
      if decide (S keyIdx ≤ length (keys pn) ∧ S childIdx ≤ length (children pn)) then
        let ks := take keyIdx (keys pn) ++ drop (S keyIdx) (keys pn) in
        let cs := take childIdx (children pn) ++ drop (S childIdx) (children pn) in
        let h1 := <[parent_ := set_children (set_keys pn ks) cs]> (heap t) in
        if decide (root t = Some parent_ ∧ length ks = 0) then
          c ← cs !! 0;
          h2 ← modify h1 c (λ n, set_parent n None);
          Some (mkTree h2 (Some c) (degree t))
        else if decide (parent pn ≠ None ∧ (len ks < minInternalKeys t)%Z) then
          rebalanceInternal_with (deleteFromParent fuel') (set_heap t h1) parent_
        else Some (set_heap t h1)
      else None
  end.

Definition rebalanceInternal (fuel : nat) :=
  rebalanceInternal_with (deleteFromParent fuel).

Definition rebalanceLeaf (fuel : nat) (t : BPlusTree) (leaf : nat)
  : option BPlusTree :=
  let h := heap t in
  nd ← h !! leaf;
  match parent nd with
  | None => Some t
  | Some p =>
      pn ← h !! p;
      let idx := index_of leaf (children pn) in
      let merge : option BPlusTree :=
        if decide (0 < idx) then
          ls ← children pn !! (idx - 1);
          lnd ← h !! ls;
          let h1 := <[ls := set_entries lnd (entries lnd ++ entries nd)]> h in
          nd1 ← h1 !! leaf;
          h2 ← modify h1 ls (λ c, set_next c (next nd1));
          deleteFromParent fuel (set_heap t h2) p (idx - 1)
        else if decide (len (children pn) - 1 > Z.of_nat idx)%Z then
          rs ← children pn !! (idx + 1);
          rnd ← h !! rs;
          let h1 := <[leaf := set_entries nd (entries nd ++ entries rnd)]> h in
          rnd1 ← h1 !! rs;
          h2 ← modify h1 leaf (λ c, set_next c (next rnd1));
          deleteFromParent fuel (set_heap t h2) p idx
        else Some t in
      let right : option BPlusTree :=
        if decide (len (children pn) - 1 > Z.of_nat idx)%Z then
          rs ← children pn !! (idx + 1);
          rnd ← h !! rs;
          if decide (len (entries rnd) > minLeafEntries t)%Z then
            borrowed ← entries rnd !! 0;
            let h1 := <[rs := set_entries rnd (drop 1 (entries rnd))]> h in
            h2 ← modify h1 leaf (λ c, set_entries c (entries c ++ [borrowed]));
            rnd2 ← h2 !! rs;
            e0 ← entries rnd2 !! 0;
            pn2 ← h2 !! p;
            if decide (idx < length (keys pn2)) then
              Some (set_heap t (<[p := set_keys pn2 (<[idx := Key e0]> (keys pn2))]> h2))
            else None
          else merge
        else merge in
      if decide (0 < idx) then
        ls ← children pn !! (idx - 1);
        lnd ← h !! ls;
        if decide (len (entries lnd) > minLeafEntries t)%Z then
          borrowed ← last (entries lnd);
          let h1 := <[ls := set_entries lnd (removelast (entries lnd))]> h in
          h2 ← modify h1 leaf (λ c, set_entries c (borrowed :: entries c));
          nd2 ← h2 !! leaf;
          e0 ← entries nd2 !! 0;
          pn2 ← h2 !! p;
          if decide (idx - 1 < length (keys pn2)) then
            Some (set_heap t (<[p := set_keys pn2 (<[idx - 1 := Key e0]> (keys pn2))]> h2))
          else None
        else right
      else right
  end.

Definition Delete (t : BPlusTree) (key : Z) : option (BPlusTree * bool) :=
  match root t with
  | None => Some (t, false)
  | Some r =>
      leaf ← findLeaf t key;
      nd ← heap t !! leaf;
      match find_key key (entries nd) with
      | None => Some (t, false)
      | Some (idx, _) =>
          let es := take idx (entries nd) ++ drop (S idx) (entries nd) in
          let t1 := set_heap t (<[leaf := set_entries nd es]> (heap t)) in
          if decide (leaf = r) then
            if decide (length es = 0) then Some (set_root t1 None, true)
            else Some (t1, true)
          else if decide (len es < minLeafEntries t1)%Z then
            t2 ← rebalanceLeaf (S (length (heap t1))) t1 leaf; Some (t2, true)
          else Some (t1, true)
      end
  end.

(** Inner loop of [Range] over one leaf: the flag tells that the function
    returned from inside the loop (a key beyond [end]). *)
Fixpoint range_scan (start end_ : Z) (es : list Entry) (result : list Entry)
  : list Entry * bool :=
  match es with
  | [] => (result, false)
  | e :: es' =>
      if decide (Key e >= start ∧ Key e <= end_)%Z
      then range_scan start end_ es' (result ++ [e])
      else if decide (Key e > end_)%Z then (result, true)
      else range_scan start end_ es' result
  end.

Fixpoint range_loop (fuel : nat) (h : list node) (start end_ : Z)
    (leaf : option nat) (result : list Entry) : option (list Entry) :=
  match leaf with
  | None => Some result
  | Some l =>
      match fuel with
      | 0 => None
      | S fuel' =>
          nd ← h !! l;
          let '(result', returned) := range_scan start end_ (entries nd) result in
          if returned then Some result'
          else range_loop fuel' h start end_ (next nd) result'
      end
  end.

Definition Range (t : BPlusTree) (start end_ : Z) : option (list Entry) :=
  match root t with
  | None => Some []
  | Some _ =>
      leaf ← findLeaf t start;
      range_loop (S (length (heap t))) (heap t) start end_ (Some leaf) []
  end.

Fixpoint all_loop (fuel : nat) (h : list node) (leaf : option nat)
    (result : list Entry) : option (list Entry) :=
  match leaf with
  | None => Some result
  | Some l =>
      match fuel with
      | 0 => None
      | S fuel' => nd ← h !! l; all_loop fuel' h (next nd) (result ++ entries nd)
      end
  end.

Definition All (t : BPlusTree) : option (list Entry) :=
  match root t with
  | None => Some []
  | Some _ =>
      leaf ← firstLeaf t;
      all_loop (S (length (heap t))) (heap t) leaf []
  end.

Fixpoint len_loop (fuel : nat) (h : list node) (leaf : option nat) (count : Z)
  : option Z :=
  match leaf with
  | None => Some count
  | Some l =>
      match fuel with
      | 0 => None
      | S fuel' => nd ← h !! l; len_loop fuel' h (next nd) (count + len (entries nd))%Z
      end
  end.

Definition Len (t : BPlusTree) : option Z :=
  match root t with
  | None => Some 0%Z
  | Some _ =>
      leaf ← firstLeaf t;
      len_loop (S (length (heap t))) (heap t) leaf 0%Z
  end.

End Model.

Arguments Entry : clear implicits.
Arguments node : clear implicits.
Arguments BPlusTree : clear implicits.

End BPlus.

(** * Shallow embedding of the R-tree (package rtree)

    Same conventions as for the B+ tree: nodes live in a store, [*Node] is
    an index into it, [None] is a panic or exhausted fuel.  Items are never
    mutated by the tree, so [*Item] is modelled by the item itself.
    [float64] coordinates are modelled by exact integers: comparisons,
    [math.Min] and [math.Max] are exact on floats too, products and sums
    are taken without rounding, and NaN and the infinities are outside the
    model.  [math.MaxFloat64] is the integer of that value. *)
Module RTree.

Record Point := mkPoint { X : Z; Y : Z }.

Record Rectangle := mkRect { MinX : Z; MinY : Z; MaxX : Z; MaxY : Z }.

Definition MaxFloat64 : Z := (2 ^ 53 - 1) * 2 ^ 971.

Definition NewRectangle (minX minY maxX maxY : Z) : Rectangle :=
  mkRect minX minY maxX maxY.

Definition NewPoint (x y : Z) : Rectangle := mkRect x y x y.

Definition Area (r : Rectangle) : Z := (MaxX r - MinX r) * (MaxY r - MinY r).

Definition Margin (r : Rectangle) : Z := (MaxX r - MinX r) + (MaxY r - MinY r).

Definition Intersects (r other : Rectangle) : bool :=
  bool_decide (MinX r <= MaxX other ∧ MaxX r >= MinX other ∧
               MinY r <= MaxY other ∧ MaxY r >= MinY other)%Z.

Definition Contains (r other : Rectangle) : bool :=
  bool_decide (MinX r <= MinX other ∧ MaxX r >= MaxX other ∧
               MinY r <= MinY other ∧ MaxY r >= MaxY other)%Z.

Definition ContainsPoint (r : Rectangle) (p : Point) : bool :=
  bool_decide (X p >= MinX r ∧ X p <= MaxX r ∧ Y p >= MinY r ∧ Y p <= MaxY r)%Z.

(** [Expand] mutates its receiver; here it returns the new value. *)
Definition Expand (r other : Rectangle) : Rectangle :=
  mkRect (Z.min (MinX r) (MinX other)) (Z.min (MinY r) (MinY other))
         (Z.max (MaxX r) (MaxX other)) (Z.max (MaxY r) (MaxY other)).

Definition Union (r other : Rectangle) : Rectangle :=
  mkRect (Z.min (MinX r) (MinX other)) (Z.min (MinY r) (MinY other))
         (Z.max (MaxX r) (MaxX other)) (Z.max (MaxY r) (MaxY other)).

Definition EnlargementNeeded (r other : Rectangle) : Z :=
  Area (Union r other) - Area r.

(** [Distance] is [math.Sqrt(dx*dx + dy*dy)].  The tree only ever compares
    two distances, and the square root is strictly increasing on the
    non-negative numbers, so the model keeps the square [dx*dx + dy*dy]:
    every comparison has the outcome it has on the roots. *)
Definition DistanceSq (r : Rectangle) (p : Point) : Z :=
  let dx := Z.max 0 (Z.max (MinX r - X p) (X p - MaxX r)) in
  let dy := Z.max 0 (Z.max (MinY r - Y p) (Y p - MaxY r)) in
  dx * dx + dy * dy.

Definition len {A} (l : list A) : Z := Z.of_nat (length l).

(** [l[i]] for an [int] index: out of range is a panic. *)
Definition lookupZ {A} (l : list A) (i : Z) : option A :=
  if decide (0 <= i)%Z then l !! Z.to_nat i else None.

(** The sorting functions: [for i < len-1 { for j := i+1; j < len { if
    key(l[i]) > key(l[j]) { swap } } }]. *)
Definition swap_if {A} (key : A → Z) (l : list A) (i j : nat) : list A :=
  match l !! i, l !! j with
  | Some a, Some b => if decide (key a > key b)%Z then <[i := b]> (<[j := a]> l) else l
  | _, _ => l
  end.

Definition exchange_sort {A} (key : A → Z) (l : list A) : list A :=
  foldl (λ l1 i, foldl (λ l2 j, swap_if key l2 i j) l1 (seq (S i) (length l - S i)))
        l (seq 0 (length l - 1)).

(** The two bounding boxes of the distribution at index [i], as both
    [calculateMarginSum] and [chooseSplitIndex] compute them from the
    bounds [bs] of the entries: [r1] from entry 0 and entries [1..i-1],
    [r2] from entry [i] and entries [i+1..count-1]. *)
Definition group_bounds (bs : list Rectangle) (i : Z) : option (Rectangle * Rectangle) :=
  b0 ← bs !! 0;
  r1 ← foldl (λ (or : option Rectangle) j, r ← or; b ← lookupZ bs j; Some (Expand r b))
        (Some b0) (seqZ 1 (i - 1));
  bi ← lookupZ bs i;
  r2 ← foldl (λ (or : option Rectangle) j, r ← or; b ← lookupZ bs j; Some (Expand r b))
        (Some bi) (seqZ (i + 1) (len bs - i - 1));
  Some (r1, r2).

Definition margin_sum (minEntries : Z) (bs : list Rectangle) : option Z :=
  foldl (λ (os : option Z) i,
           sum ← os; '(r1, r2) ← group_bounds bs i; Some (sum + (Margin r1 + Margin r2))%Z)
        (Some 0%Z) (seqZ minEntries (len bs - minEntries - minEntries + 1)).

Definition overlap_area (r1 r2 : Rectangle) : Z :=
  if Intersects r1 r2 then
    let ix := (Z.min (MaxX r1) (MaxX r2) - Z.max (MinX r1) (MinX r2))%Z in
    let iy := (Z.min (MaxY r1) (MaxY r2) - Z.max (MinY r1) (MinY r2))%Z in
    (ix * iy)%Z
  else 0%Z.

(** The loop of [chooseSplitIndex]; the state is
    [(minOverlap, minArea, bestIndex)]. *)
Definition split_index (minEntries : Z) (bs : list Rectangle) : option Z :=
  st ← foldl (λ (ost : option (Z * Z * Z)) i,
           '(minOverlap, minArea, bestIndex) ← ost;
           '(r1, r2) ← group_bounds bs i;
           let overlap := overlap_area r1 r2 in
           let area := (Area r1 + Area r2)%Z in
           if decide (overlap < minOverlap ∨ (overlap = minOverlap ∧ area < minArea))%Z
           then Some (overlap, area, i)
           else Some (minOverlap, minArea, bestIndex))
        (Some (MaxFloat64, MaxFloat64, minEntries))
        (seqZ minEntries (len bs - minEntries - minEntries + 1));
  Some (snd st).

Section Model.
Context {D : Type}.

Record Item := mkItem { Bounds : Rectangle; Data : D }.

Record Node := mkNode {
  isLeaf : bool;
  bounds : Rectangle;
  children : list nat;
  items : list Item;
  parent : option nat }.

Record RTree := mkTree {
  heap : list Node;
  root : nat;
  minEntries : Z;
  maxEntries : Z;
  size : Z }.

Definition set_bounds (n : Node) (b : Rectangle) : Node :=
  mkNode (isLeaf n) b (children n) (items n) (parent n).
Definition set_children (n : Node) (cs : list nat) : Node :=
  mkNode (isLeaf n) (bounds n) cs (items n) (parent n).
Definition set_items (n : Node) (its : list Item) : Node :=
  mkNode (isLeaf n) (bounds n) (children n) its (parent n).
Definition set_parent (n : Node) (x : option nat) : Node :=
  mkNode (isLeaf n) (bounds n) (children n) (items n) x.

Definition set_heap (t : RTree) (h : list Node) : RTree :=
  mkTree h (root t) (minEntries t) (maxEntries t) (size t).
Definition set_root (t : RTree) (r : nat) : RTree :=
  mkTree (heap t) r (minEntries t) (maxEntries t) (size t).

Definition modify (h : list Node) (p : nat) (f : Node → Node) : option (list Node) :=
  n ← h !! p; Some (<[p := f n]> h).

Definition alloc (h : list Node) (n : Node) : list Node * nat :=
  (h ++ [n], length h).

Definition zeroRect : Rectangle := mkRect 0 0 0 0.

Definition NewRTree (minEntries maxEntries : Z) : RTree :=
  let minEntries :=
    if decide (minEntries < 1 ∨ minEntries > maxEntries `quot` 2)%Z
    then (maxEntries `quot` 2)%Z else minEntries in
  mkTree [mkNode true zeroRect [] [] None] 0 minEntries maxEntries 0%Z.

(** The loop of [chooseLeaf] over the children; the state is
    [(best, minEnlargement, minArea)]. *)
Definition choose_child (h : list Node) (b : Rectangle) (cs : list nat)
  : option (option nat) :=
  st ← foldl (λ (ost : option (option nat * Z * Z)) child,
           '(best, minEnlargement, minArea) ← ost;
           cn ← h !! child;
           let enlargement := EnlargementNeeded (bounds cn) b in
           let area := Area (bounds cn) in
           if decide (enlargement < minEnlargement ∨
                      (enlargement = minEnlargement ∧ area < minArea))%Z
           then Some (Some child, enlargement, area)
           else Some (best, minEnlargement, minArea))
        (Some (None, MaxFloat64, MaxFloat64)) cs;
  Some (fst (fst st)).

Fixpoint chooseLeaf (fuel : nat) (h : list Node) (node : nat) (b : Rectangle)
  : option nat :=
  match fuel with
  | 0 => None
  | S fuel' =>
      nd ← h !! node;
      if isLeaf nd then Some node
      else best ← choose_child h b (children nd);
           best ← best;
           chooseLeaf fuel' h best b
  end.

Fixpoint updateBounds (fuel : nat) (h : list Node) (node : nat)
  : option (list Node) :=
  match fuel with
  | 0 => None
  | S fuel' =>
      nd ← h !! node;
      h' ← (if isLeaf nd then
              match items nd with
              | [] => Some None
              | it :: its =>
                  Some (Some (<[node := set_bounds nd
                                          (foldl Expand (Bounds it) (Bounds <$> its))]> h))
              end
            else
              match children nd with
              | [] => Some None
              | c :: cs =>
                  cn ← h !! c;
                  h1 ← foldl (λ (oh : option (list Node)) child,
                                h ← oh; cn ← h !! child;
                                modify h node (λ n, set_bounds n (Expand (bounds n) (bounds cn))))
                         (Some (<[node := set_bounds nd (bounds cn)]> h)) cs;
                  Some (Some h1)
              end);
      match h' with
      | None => Some h
      | Some h1 =>
          nd1 ← h1 !! node;
          match parent nd1 with
          | Some p => updateBounds fuel' h1 p
          | None => Some h1
          end
      end
  end.

(** The bounds of the entries of a node, in their stored order. *)
Definition entry_bounds (h : list Node) (nd : Node) (isItems : bool)
  : option (list Rectangle) :=
  if isItems then Some (Bounds <$> items nd)
  else mapM (λ c, cn ← h !! c; Some (bounds cn)) (children nd).

Definition sortItemsByMinX (its : list Item) : list Item :=
  exchange_sort (λ it, MinX (Bounds it)) its.
Definition sortItemsByMinY (its : list Item) : list Item :=
  exchange_sort (λ it, MinY (Bounds it)) its.

(** Sorting [[]*Node] reads each node's bounds through its pointer; the
    model pairs every pointer with the bounds read and sorts the pairs. *)
Definition sortNodesBy (key : Rectangle → Z) (h : list Node) (cs : list nat)
  : option (list nat) :=
  cbs ← mapM (λ c, cn ← h !! c; Some (c, bounds cn)) cs;
  Some (fst <$> exchange_sort (λ cb, key (snd cb)) cbs).
Definition sortNodesByMinX := sortNodesBy MinX.
Definition sortNodesByMinY := sortNodesBy MinY.

(** Sort the entries of [node] in place by the lower bound on an axis. *)
Definition sort_entries (h : list Node) (node : nat) (axis : Z)
  : option (list Node) :=
  nd ← h !! node;
  if isLeaf nd then
    Some (<[node := set_items nd
                      (if decide (axis = 0%Z) then sortItemsByMinX (items nd)
                       else sortItemsByMinY (items nd))]> h)
  else
    cs ← (if decide (axis = 0%Z) then sortNodesByMinX h (children nd)
          else sortNodesByMinY h (children nd));
    Some (<[node := set_children nd cs]> h).

Definition calculateMarginSum (t : RTree) (node : nat) (isItems : bool) : option Z :=
  nd ← heap t !! node;
  bs ← entry_bounds (heap t) nd isItems;
  margin_sum (minEntries t) bs.

Definition chooseSplitAxis (t : RTree) (node : nat) : option (RTree * Z) :=
  nd ← heap t !! node;
  h1 ← sort_entries (heap t) node 0%Z;
  xMargin ← calculateMarginSum (set_heap t h1) node (isLeaf nd);
  h2 ← sort_entries h1 node 1%Z;
  yMargin ← calculateMarginSum (set_heap t h2) node (isLeaf nd);
  Some (set_heap t h2, if decide (xMargin < yMargin)%Z then 0%Z else 1%Z).

Definition chooseSplitIndex (t : RTree) (node : nat) (axis : Z) : option (RTree * Z) :=
  h1 ← sort_entries (heap t) node axis;
  nd ← h1 !! node;
  bs ← entry_bounds h1 nd (isLeaf nd);
  index ← split_index (minEntries t) bs;
  Some (set_heap t h1, index).

Fixpoint splitNode (fuel : nat) (t : RTree) (node : nat) : option RTree :=
  match fuel with
  | 0 => None
  | S fuel' =>
      '(t1, axis) ← chooseSplitAxis t node;
      '(t2, index) ← chooseSplitIndex t1 node axis;
      nd ← heap t2 !! node;
      let '(h3, newNode) :=
        alloc (heap t2) (mkNode (isLeaf nd) zeroRect [] [] (parent nd)) in
      h4 ← (if isLeaf nd then
              if decide (0 <= index <= len (items nd))%Z then
                let i := Z.to_nat index in
                h ← modify h3 newNode (λ n, set_items n (drop i (items nd)));
                modify h node (λ n, set_items n (take i (items n)))
              else None
            else
              if decide (0 <= index <= len (children nd))%Z then
                let i := Z.to_nat index in
                h ← modify h3 newNode (λ n, set_children n (drop i (children nd)));
                h ← modify h node (λ n, set_children n (take i (children n)));
                nn ← h !! newNode;
                foldl (λ (oh : option (list Node)) child,
                         h ← oh; modify h child (λ c, set_parent c (Some newNode)))
                      (Some h) (children nn)
              else None);
      h5 ← updateBounds (S (length h4)) h4 node;
      h6 ← updateBounds (S (length h5)) h5 newNode;
      nd6 ← h6 !! node;
      match parent nd6 with
      | None =>
          let '(h7, newRoot) :=
            alloc h6 (mkNode false zeroRect [node; newNode] [] None) in
          h8 ← modify h7 node (λ n, set_parent n (Some newRoot));
          h9 ← modify h8 newNode (λ n, set_parent n (Some newRoot));
          h10 ← updateBounds (S (length h9)) h9 newRoot;
          Some (set_root (set_heap t2 h10) newRoot)
      | Some p =>
          h7 ← modify h6 p (λ n, set_children n (children n ++ [newNode]));
          pn ← h7 !! p;
          if decide (len (children pn) > maxEntries t2)%Z
          then splitNode fuel' (set_heap t2 h7) p
          else h8 ← updateBounds (S (length h7)) h7 p; Some (set_heap t2 h8)
      end
  end.

Definition Insert (t : RTree) (item : Item) : option RTree :=
  let t := mkTree (heap t) (root t) (minEntries t) (maxEntries t) (size t + 1) in
  leaf ← chooseLeaf (S (length (heap t))) (heap t) (root t) (Bounds item);
  h1 ← modify (heap t) leaf (λ n, set_items n (items n ++ [item]));
  h2 ← updateBounds (S (length h1)) h1 leaf;
  nd ← h2 !! leaf;
  if decide (len (items nd) > maxEntries t)%Z
  then splitNode (S (length h2)) (set_heap t h2) leaf
  else Some (set_heap t h2).

Fixpoint searchNode (fuel : nat) (h : list Node) (node : nat) (b : Rectangle)
    (result : list Item) : option (list Item) :=
  match fuel with
  | 0 => None
  | S fuel' =>
      nd ← h !! node;
      if negb (Intersects (bounds nd) b) then Some result
      else if isLeaf nd then
        Some (foldl (λ res item, if Intersects (Bounds item) b then res ++ [item] else res)
                    result (items nd))
      else
        foldl (λ (ores : option (list Item)) child,
                 res ← ores; searchNode fuel' h child b res)
              (Some result) (children nd)
  end.

Definition Search (t : RTree) (b : Rectangle) : option (list Item) :=
  searchNode (S (length (heap t))) (heap t) (root t) b [].

Fixpoint searchPointNode (fuel : nat) (h : list Node) (node : nat) (p : Point)
    (result : list Item) : option (list Item) :=
  match fuel with
  | 0 => None
  | S fuel' =>
      nd ← h !! node;
      if negb (ContainsPoint (bounds nd) p) then Some result
      else if isLeaf nd then
        Some (foldl (λ res item, if ContainsPoint (Bounds item) p then res ++ [item] else res)
                    result (items nd))
      else
        foldl (λ (ores : option (list Item)) child,
                 res ← ores; searchPointNode fuel' h child p res)
              (Some result) (children nd)
  end.

Definition SearchPoint (t : RTree) (p : Point) : option (list Item) :=
  searchPointNode (S (length (heap t))) (heap t) (root t) p [].

(** [queueItem]: exactly one of [node] and [item] is set. *)
Inductive queueItem :=
| QNode (node : nat) (distance : Z)
| QItem (item : Item) (distance : Z).

Definition distance (q : queueItem) : Z :=
  match q with QNode _ d => d | QItem _ d => d end.

(** [minIdx := 0; for i := 1; i < len(queue); i++ { if queue[i].distance <
    queue[minIdx].distance { minIdx = i } }] *)
Definition min_index (queue : list queueItem) : nat :=
  foldl (λ minIdx i,
           match queue !! i, queue !! minIdx with
           | Some qi, Some qm => if decide (distance qi < distance qm)%Z then i else minIdx
           | _, _ => minIdx
           end)
        0 (seq 1 (length queue - 1)).

Fixpoint nn_loop (fuel : nat) (h : list Node) (p : Point) (k : Z)
    (queue : list queueItem) (result : list Item) : option (list Item) :=
  if decide (len queue > 0 ∧ len result < k)%Z then
    match fuel with
    | 0 => None
    | S fuel' =>
        let minIdx := min_index queue in
        current ← queue !! minIdx;
        let queue := take minIdx queue ++ drop (S minIdx) queue in
        match current with
        | QItem item _ => nn_loop fuel' h p k queue (result ++ [item])
        | QNode node _ =>
            nd ← h !! node;
            if isLeaf nd then
              nn_loop fuel' h p k
                (queue ++ ((λ item, QItem item (DistanceSq (Bounds item) p)) <$> items nd))
                result
            else
              qs ← mapM (λ child, cn ← h !! child;
                                  Some (QNode child (DistanceSq (bounds cn) p)))
                     (children nd);
              nn_loop fuel' h p k (queue ++ qs) result
        end
    end
  else Some result.

Definition NearestNeighbor (t : RTree) (p : Point) (k : Z) : option (list Item) :=
  rn ← heap t !! root t;
  nn_loop (S (length (heap t) + Z.to_nat (size t))) (heap t) p k
    [QNode (root t) (DistanceSq (bounds rn) p)] [].


End Model.

Arguments Item : clear implicits.
Arguments Node : clear implicits.
Arguments RTree : clear implicits.
Arguments queueItem : clear implicits.

End RTree.

(** * The B+ tree: representation invariant and laws *)
Module BPlusProofs.
Import BPlus.

(** * Abstract view of the store: a tree of pointers *)

Section Abstract.
Context {V : Type}.

(** The tree the store is meant to hold: every node with its pointer. *)
Inductive bt :=
| BLeaf (p : nat) (es : list (Entry V))
| BNode (p : nat) (ks : list Z) (cs : list bt).

Lemma bt_ind' (P : bt → Prop) :
  (∀ p es, P (BLeaf p es)) →
  (∀ p ks cs, Forall P cs → P (BNode p ks cs)) →
  ∀ t, P t.
Proof.
  intros Hl Hn. fix IH 1. intros [p es | p ks cs]; [apply Hl | apply Hn].
  induction cs as [| c cs IHcs]; constructor; [apply IH | apply IHcs].
Qed.

Definition rid (t : bt) : nat :=
  match t with BLeaf p _ => p | BNode p _ _ => p end.

Fixpoint ids (t : bt) : list nat :=
  match t with
  | BLeaf p _ => [p]
  | BNode p _ cs => p :: (cs ≫= ids)
  end.

(** In-order sequence: leaves and the separators between them. *)
Inductive item :=
| ISep (k : Z)
| ILeaf (p : nat) (es : list (Entry V)).

Fixpoint inter (cs : list (list item)) (ks : list Z) : list item :=
  match cs with
  | [] => []
  | c :: cs' =>
      c ++ match ks with
           | [] => mjoin cs'
           | k :: ks' => ISep k :: inter cs' ks'
           end
  end.

Fixpoint inorder (t : bt) : list item :=
  match t with
  | BLeaf p es => [ILeaf p es]
  | BNode _ ks cs => inter (inorder <$> cs) ks
  end.

Definition ekey (e : Entry V) : Z := 2 * Key e + 1.

Definition item_keys (it : item) : list Z :=
  match it with ISep k => [2 * k]%Z | ILeaf _ es => ekey <$> es end.
Definition item_leaf (it : item) : list nat :=
  match it with ISep _ => [] | ILeaf p _ => [p] end.
Definition item_entries (it : item) : list (Entry V) :=
  match it with ISep _ => [] | ILeaf _ es => es end.

Definition keys2 (l : list item) : list Z := l ≫= item_keys.
Definition leaf_ids (l : list item) : list nat := l ≫= item_leaf.
Definition contents (l : list item) : list (Entry V) := l ≫= item_entries.

(** Representation of a subtree whose root has parent [par]. *)
Inductive RepT (h : list (node V)) : option nat → bt → Prop :=
| RepT_leaf par p es nd :
    h !! p = Some nd → isLeaf nd = true → entries nd = es → parent nd = par →
    RepT h par (BLeaf p es)
| RepT_node par p ks cs nd :
    h !! p = Some nd → isLeaf nd = false → keys nd = ks →
    children nd = rid <$> cs → parent nd = par →
    Forall (RepT h (Some p)) cs →
    RepT h par (BNode p ks cs).

(** The leaf chain: each leaf's [next] is the following leaf. *)
Definition hd_opt (ps : list nat) (nxt : option nat) : option nat :=
  match ps with [] => nxt | q :: _ => Some q end.

Fixpoint chain (h : list (node V)) (ps : list nat) (nxt : option nat) : Prop :=
  match ps with
  | [] => True
  | p :: ps' => next <$> h !! p = Some (hd_opt ps' nxt) ∧ chain h ps' nxt
  end.

(** Shape: balanced, [length cs = S (length ks)], and at least [mn] keys or
    entries in every node but the top one, which has at least [m]. *)
Inductive wf (mn : nat) : nat → nat → bt → Prop :=
| wf_leaf m p es : m ≤ length es → wf mn m 0 (BLeaf p es)
| wf_node m ht p ks cs :
    m ≤ length ks → length cs = S (length ks) →
    Forall (wf mn mn ht) cs → wf mn m (S ht) (BNode p ks cs).

Definition sorted (l : list Z) : Prop := StronglySorted Z.lt l.

(** ** Zipper: the path from a node up to the root *)

Record frame := Frame {
  fp : nat;
  fl : list (bt * Z);
  fr : list (Z * bt) }.

Definition siblings (f : frame) : list bt := (fst <$> fl f) ++ (snd <$> fr f).
Definition fkeys (f : frame) : list Z := (snd <$> fl f) ++ (fst <$> fr f).
Definition fchildren (f : frame) (r : nat) : list nat :=
  (rid ∘ fst <$> fl f) ++ r :: (rid ∘ snd <$> fr f).
Definition fnode (f : frame) (t : bt) : bt :=
  BNode (fp f) (fkeys f) ((fst <$> fl f) ++ t :: (snd <$> fr f)).

Definition lpart (l : list (bt * Z)) : list item :=
  l ≫= (λ ck, inorder (fst ck) ++ [ISep (snd ck)]).
Definition rpart (l : list (Z * bt)) : list item :=
  l ≫= (λ kc, ISep (fst kc) :: inorder (snd kc)).

Definition cpar (ctx : list frame) : option nat := fp <$> head ctx.

Fixpoint croot (ctx : list frame) (r : nat) : nat :=
  match ctx with [] => r | f :: rest => croot rest (fp f) end.

Fixpoint plug (ctx : list frame) (t : bt) : bt :=
  match ctx with [] => t | f :: rest => plug rest (fnode f t) end.

Fixpoint ibefore (ctx : list frame) : list item :=
  match ctx with [] => [] | f :: rest => ibefore rest ++ lpart (fl f) end.
Fixpoint iafter (ctx : list frame) : list item :=
  match ctx with [] => [] | f :: rest => rpart (fr f) ++ iafter rest end.

Fixpoint idsc (ctx : list frame) : list nat :=
  match ctx with
  | [] => []
  | f :: rest => fp f :: (siblings f ≫= ids) ++ idsc rest
  end.

Definition frame_ok (h : list (node V)) (par : option nat) (f : frame) (r : nat) : Prop :=
  ∃ nd, h !! fp f = Some nd ∧ isLeaf nd = false ∧ keys nd = fkeys f ∧
        children nd = fchildren f r ∧ parent nd = par.

Fixpoint RepC (h : list (node V)) (ctx : list frame) (r : nat) : Prop :=
  match ctx with
  | [] => True
  | f :: rest =>
      frame_ok h (cpar rest) f r ∧ Forall (RepT h (Some (fp f))) (siblings f) ∧
      RepC h rest (fp f)
  end.

Definition need (mn : nat) (ctx : list frame) : nat :=
  match ctx with [] => 1 | _ => mn end.

Fixpoint wfc (mn : nat) (ht : nat) (ctx : list frame) : Prop :=
  match ctx with
  | [] => True
  | f :: rest =>
      Forall (wf mn mn ht) (siblings f) ∧ need mn rest ≤ length (fkeys f) ∧
      wfc mn (S ht) rest
  end.

(** The whole in-order sequence of the tree around the focus. *)
Definition whole (ctx : list frame) (t : bt) : list item :=
  ibefore ctx ++ inorder t ++ iafter ctx.

(** Heap part of the invariant, focused on [t] under [ctx]. *)
Record HInv (h : list (node V)) (ctx : list frame) (t : bt) : Prop := mkHInv {
  hi_ctx : RepC h ctx (rid t);
  hi_sub : RepT h (cpar ctx) t;
  hi_nodup : NoDup (ids t ++ idsc ctx);
  hi_chain : chain h (leaf_ids (whole ctx t)) None }.

Definition SInv (mn ht : nat) (ctx : list frame) (t : bt) : Prop :=
  wfc mn ht ctx ∧ wf mn (need mn ctx) ht t.

Definition OInv (ctx : list frame) (t : bt) : Prop :=
  sorted (keys2 (whole ctx t)).

End Abstract.

Arguments bt : clear implicits.
Arguments item : clear implicits.
Arguments frame : clear implicits.

(** * Basic facts: sorted lists, in-order sequences, stores *)

Section Basics.
Context {V : Type}.
Implicit Types (h : list (node V)) (t : bt V) (ctx : list (frame V)).

Definition lt_all (A B : list Z) : Prop := ∀ x y, x ∈ A → y ∈ B → (x < y)%Z.

Lemma bp_sorted_nil : sorted [].
Proof. constructor. Qed.

Lemma bp_sorted_cons x l : sorted (x :: l) ↔ sorted l ∧ lt_all [x] l.
Proof.
  unfold sorted, lt_all. split.
  - intros H. inversion H as [| ? ? Hs Hf]; subst. split; [done |].
    intros a b Ha Hb. apply list_elem_of_singleton in Ha as ->.
    rewrite Forall_forall in Hf. by apply Hf.
  - intros [Hs Hl]. constructor; [done |]. apply Forall_forall. intros y Hy.
    apply Hl; [by apply list_elem_of_singleton | done].
Qed.

Lemma bp_sorted_app A B : sorted (A ++ B) ↔ sorted A ∧ sorted B ∧ lt_all A B.
Proof.
  induction A as [| a A IH]; simpl.
  - split; [intros H; split_and!; [constructor | done | intros x y Hx; by apply elem_of_nil in Hx] | tauto].
  - rewrite !bp_sorted_cons, IH. unfold lt_all. split.
    + intros ((HA & HB & HAB) & Ha). split_and!; try done.
      * intros x y Hx Hy. apply Ha; [done | apply elem_of_app; by left].
      * intros x y [-> | Hx]%elem_of_cons Hy.
        -- apply Ha; [by apply list_elem_of_singleton | apply elem_of_app; by right].
        -- by apply HAB.
    + intros ((HA & Ha) & HB & HAB). split_and!; try done.
      * intros x y Hx Hy. apply HAB; [by apply elem_of_cons; right | done].
      * intros x y Hx [Hy | Hy]%elem_of_app; [by apply Ha |].
        apply HAB; [| done]. apply list_elem_of_singleton in Hx as ->. by apply elem_of_cons; left.
Qed.

Lemma bp_sorted_sublist A B : sublist A B → sorted B → sorted A.
Proof.
  unfold sorted. induction 1 as [| x A B HAB IH | x A B HAB IH]; intros HB.
  - done.
  - inversion HB as [| ? ? Hs Hf]; subst. constructor; [by apply IH |].
    rewrite Forall_forall in *. intros y Hy. apply Hf.
    by eapply elem_of_sublist.
  - inversion HB; subst. by apply IH.
Qed.

Lemma bp_lt_all_app_l A B C : lt_all (A ++ B) C ↔ lt_all A C ∧ lt_all B C.
Proof. unfold lt_all. setoid_rewrite elem_of_app. naive_solver. Qed.

Lemma bp_lt_all_app_r A B C : lt_all A (B ++ C) ↔ lt_all A B ∧ lt_all A C.
Proof. unfold lt_all. setoid_rewrite elem_of_app. naive_solver. Qed.

Lemma bp_lt_all_nil_l A : lt_all [] A.
Proof. intros x y Hx. by apply elem_of_nil in Hx. Qed.

Lemma bp_lt_all_nil_r A : lt_all A [].
Proof. intros x y _ Hy. by apply elem_of_nil in Hy. Qed.

Lemma bp_lt_all_cons_l a A C : lt_all (a :: A) C ↔ (∀ y, y ∈ C → (a < y)%Z) ∧ lt_all A C.
Proof. unfold lt_all. setoid_rewrite elem_of_cons. naive_solver. Qed.

Lemma bp_lt_all_cons_r a A C : lt_all A (a :: C) ↔ (∀ x, x ∈ A → (x < a)%Z) ∧ lt_all A C.
Proof. unfold lt_all. setoid_rewrite elem_of_cons. naive_solver. Qed.

(** ** The three readings of an in-order sequence distribute over [++] *)

Lemma bp_keys2_app (A B : list (item V)) : keys2 (A ++ B) = keys2 A ++ keys2 B.
Proof. apply bind_app. Qed.
Lemma bp_leaf_ids_app (A B : list (item V)) : leaf_ids (A ++ B) = leaf_ids A ++ leaf_ids B.
Proof. apply bind_app. Qed.
Lemma bp_contents_app (A B : list (item V)) : contents (A ++ B) = contents A ++ contents B.
Proof. apply bind_app. Qed.

Lemma bp_keys2_cons (a : item V) B : keys2 (a :: B) = item_keys a ++ keys2 B.
Proof. done. Qed.
Lemma bp_leaf_ids_cons (a : item V) B : leaf_ids (a :: B) = item_leaf a ++ leaf_ids B.
Proof. done. Qed.
Lemma bp_contents_cons (a : item V) B : contents (a :: B) = item_entries a ++ contents B.
Proof. done. Qed.

(** ** Interleaving children and separators *)

Lemma bp_inter_app (cl cn : list (list (item V))) kl pk kn :
  length cl = S (length kl) →
  inter (cl ++ cn) (kl ++ pk :: kn) = inter cl kl ++ ISep pk :: inter cn kn.
Proof.
  revert kl. induction cl as [| c cl IH]; intros kl Hlen; simpl in *; [lia |].
  destruct kl as [| k kl]; simpl in *.
  - destruct cl; [| simpl in *; lia]. simpl. by rewrite app_nil_r.
  - rewrite IH by lia. by rewrite <-!app_assoc.
Qed.

Lemma bp_inter_right (x : list (item V)) (fr : list (Z * bt V)) :
  inter (x :: (inorder <$> (snd <$> fr))) (fst <$> fr) = x ++ rpart fr.
Proof.
  revert x. induction fr as [| [k c] fr IH]; intros x; simpl.
  - done.
  - f_equal. f_equal. apply (IH (inorder c)).
Qed.

Lemma bp_inter_frame (fl : list (bt V * Z)) t (fr : list (Z * bt V)) :
  inter (inorder <$> ((fst <$> fl) ++ t :: (snd <$> fr))) ((snd <$> fl) ++ (fst <$> fr))
  = lpart fl ++ inorder t ++ rpart fr.
Proof.
  induction fl as [| [c k] fl IH]; simpl.
  - apply (bp_inter_right (inorder t)).
  - rewrite <-!app_assoc. simpl. f_equal. f_equal. apply IH.
Qed.

Lemma bp_inorder_fnode (f : frame V) t :
  inorder (fnode f t) = lpart (fl f) ++ inorder t ++ rpart (fr f).
Proof. apply bp_inter_frame. Qed.

Lemma bp_lpart_snoc (l : list (bt V * Z)) c k :
  lpart (l ++ [(c, k)]) = lpart l ++ inorder c ++ [ISep k].
Proof. unfold lpart. rewrite bind_app. simpl. by rewrite app_nil_r. Qed.

Lemma bp_rpart_cons (l : list (Z * bt V)) c k :
  rpart ((k, c) :: l) = ISep k :: inorder c ++ rpart l.
Proof. done. Qed.

(** ** Pointers of a tree *)

Lemma bp_rid_in_ids t : rid t ∈ ids t.
Proof. destruct t; simpl; apply elem_of_cons; by left. Qed.

Lemma bp_leaf_ids_inter_sub (cs : list (bt V)) ks :
  Forall (λ c, sublist (leaf_ids (inorder c)) (ids c)) cs →
  sublist (leaf_ids (inter (inorder <$> cs) ks)) (cs ≫= ids).
Proof.
  revert ks. induction cs as [| c cs IH]; intros ks Hf; simpl; [done |].
  apply Forall_cons in Hf as [Hc Hf].
  rewrite bp_leaf_ids_app. apply sublist_app; [done |].
  destruct ks as [| k ks].
  - clear IH. induction cs as [| c' cs IH']; simpl in *; [done |].
    apply Forall_cons in Hf as [Hc' Hf]. rewrite bp_leaf_ids_app.
    apply sublist_app; [done | by apply IH'].
  - rewrite bp_leaf_ids_cons. simpl. by apply IH.
Qed.

Lemma bp_leaf_ids_sub t : sublist (leaf_ids (inorder t)) (ids t).
Proof.
  induction t as [p es | p ks cs IH] using bt_ind'; simpl.
  - done.
  - apply sublist_cons. by apply bp_leaf_ids_inter_sub.
Qed.

End Basics.

(** * Stores that agree, and moving the focus of the zipper *)

Section Store.
Context {V : Type}.
Implicit Types (h : list (node V)) (t : bt V) (ctx : list (frame V)).

Definition same_on (l : list nat) h h' : Prop := ∀ q, q ∈ l → h' !! q = h !! q.

Lemma bp_same_on_sub l l' h h' : l' ⊆ l → same_on l h h' → same_on l' h h'.
Proof. intros Hs H q Hq. apply H. by apply Hs. Qed.

Lemma bp_same_on_app l l' h h' : same_on (l ++ l') h h' ↔ same_on l h h' ∧ same_on l' h h'.
Proof. unfold same_on. setoid_rewrite elem_of_app. naive_solver. Qed.

Lemma bp_same_on_trans l h h' h'' : same_on l h h' → same_on l h' h'' → same_on l h h''.
Proof. intros H1 H2 q Hq. rewrite H2, H1; done. Qed.

Lemma bp_RepT_same h h' par t : same_on (ids t) h h' → RepT h par t → RepT h' par t.
Proof.
  revert par. induction t as [p es | p ks cs IH] using bt_ind'; intros par Hs HR;
    inversion HR; subst.
  - econstructor; eauto. rewrite Hs; [done | apply (bp_rid_in_ids (BLeaf p _))].
  - econstructor; eauto.
    + rewrite Hs; [done | apply (bp_rid_in_ids (BNode p _ cs))].
    + rewrite Forall_forall in *. intros c Hc. apply IH; [done | | by eauto].
      intros q Hq. apply Hs. simpl. apply elem_of_cons. right.
      apply list_elem_of_bind. eauto.
Qed.

Lemma bp_RepT_lt h par t q : RepT h par t → q ∈ ids t → q < length h.
Proof.
  revert par. induction t as [p es | p ks cs IH] using bt_ind'; intros par HR Hq;
    inversion HR; subst; simpl in Hq.
  - apply list_elem_of_singleton in Hq as ->. by eapply lookup_lt_Some.
  - apply elem_of_cons in Hq as [-> | Hq]; [by eapply lookup_lt_Some |].
    apply list_elem_of_bind in Hq as (c & Hq & Hc).
    rewrite Forall_forall in *. eapply IH; eauto.
Qed.

Lemma bp_RepTs_same h h' par (cs : list (bt V)) :
  same_on (cs ≫= ids) h h' → Forall (RepT h par) cs → Forall (RepT h' par) cs.
Proof.
  intros Hs Hf. rewrite Forall_forall in *. intros c Hc.
  eapply bp_RepT_same; [| by eauto]. intros q Hq. apply Hs. apply list_elem_of_bind. eauto.
Qed.

Lemma bp_RepTs_lt h par (cs : list (bt V)) q :
  Forall (RepT h par) cs → q ∈ cs ≫= ids → q < length h.
Proof.
  intros Hf (c & Hq & Hc)%list_elem_of_bind. rewrite Forall_forall in Hf.
  eapply bp_RepT_lt; eauto.
Qed.

Lemma bp_RepC_same h h' ctx r : same_on (idsc ctx) h h' → RepC h ctx r → RepC h' ctx r.
Proof.
  revert r. induction ctx as [| f rest IH]; intros r Hs; simpl; [done |].
  simpl in Hs. intros ((nd & Hnd & Hrest) & Hsib & HC). split_and!.
  - exists nd. rewrite Hs; [done | apply elem_of_cons; by left].
  - eapply bp_RepTs_same; [| done]. intros q Hq. apply Hs.
    apply elem_of_cons. right. apply elem_of_app. by left.
  - apply IH; [| done]. intros q Hq. apply Hs.
    apply elem_of_cons. right. apply elem_of_app. by right.
Qed.

Lemma bp_RepC_lt h ctx r q : RepC h ctx r → q ∈ idsc ctx → q < length h.
Proof.
  revert r. induction ctx as [| f rest IH]; intros r; simpl; [by intros _ ?%elem_of_nil |].
  intros ((nd & Hnd & _) & Hsib & HC) [-> | [Hq | Hq]%elem_of_app]%elem_of_cons.
  - by eapply lookup_lt_Some.
  - by eapply bp_RepTs_lt.
  - by eapply IH.
Qed.

(** ** The leaf chain *)

Lemma bp_chain_app h A B nxt :
  chain h (A ++ B) nxt ↔ chain h A (hd_opt B nxt) ∧ chain h B nxt.
Proof.
  induction A as [| a A IH]; simpl; [tauto |].
  rewrite IH. destruct A; simpl; tauto.
Qed.

Lemma bp_chain_same h h' ps nxt :
  (∀ q, q ∈ ps → next <$> h' !! q = next <$> h !! q) →
  chain h ps nxt → chain h' ps nxt.
Proof.
  induction ps as [| p ps IH]; simpl; [done |]. intros Hs [Hp Hc]. split.
  - rewrite Hs; [done | apply elem_of_cons; by left].
  - apply IH; [| done]. intros q Hq. apply Hs. apply elem_of_cons. by right.
Qed.

Lemma bp_chain_lt h ps nxt q : chain h ps nxt → q ∈ ps → q < length h.
Proof.
  induction ps as [| p ps IH]; simpl; [by intros _ ?%elem_of_nil |].
  intros [Hp Hc] [-> | Hq]%elem_of_cons; [| by apply IH].
  destruct (h !! p) eqn:E; [by eapply lookup_lt_Some | done].
Qed.

(** ** Searching a child pointer *)

Lemma bp_index_of_app x (l l' : list nat) :
  x ∉ l → index_of x (l ++ x :: l') = length l.
Proof.
  induction l as [| y l IH]; simpl; intros Hx.
  - by rewrite decide_True.
  - apply not_elem_of_cons in Hx as [Hxy Hx]. rewrite decide_False by done.
    by rewrite IH.
Qed.

(** ** A node seen from one of its children *)

Lemma bp_focus (ks : list Z) (cs : list (bt V)) i :
  length cs = S (length ks) → i ≤ length ks →
  ∃ fl c fr, length fl = i ∧ ks = (snd <$> fl) ++ (fst <$> fr) ∧
             cs = (fst <$> fl) ++ c :: (snd <$> fr).
Proof.
  intros Hlen Hi.
  destruct (lookup_lt_is_Some_2 cs i) as [c Hc]; [lia |].
  exists (zip (take i cs) (take i ks)), c, (zip (drop i ks) (drop (S i) cs)).
  split_and!.
  - rewrite length_zip, !length_take. lia.
  - rewrite snd_zip, fst_zip by (rewrite ?length_take, ?length_drop; lia).
    by rewrite take_drop.
  - rewrite fst_zip, snd_zip by (rewrite ?length_take, ?length_drop; lia).
    rewrite <-(take_drop_middle cs i c) at 1 by done. done.
Qed.

(** ** Moving the focus between a node and one of its children *)

Lemma bp_cpar_cons (f : frame V) ctx : cpar (f :: ctx) = Some (fp f).
Proof. done. Qed.

Lemma bp_ids_fnode (f : frame V) t :
  ids (fnode f t) ≡ₚ ids t ++ fp f :: (siblings f ≫= ids).
Proof.
  unfold fnode, siblings. simpl. rewrite !bind_app, bind_cons.
  rewrite <-Permutation_middle. apply perm_skip.
  by rewrite (Permutation_app_swap_app _ (ids t)).
Qed.

Lemma bp_whole_fnode (f : frame V) ctx t : whole ctx (fnode f t) = whole (f :: ctx) t.
Proof. unfold whole. rewrite bp_inorder_fnode. simpl. by rewrite <-!app_assoc. Qed.

Lemma bp_RepT_fnode h par (f : frame V) t :
  RepT h par (fnode f t) ↔
  frame_ok h par f (rid t) ∧ Forall (RepT h (Some (fp f))) (siblings f) ∧
  RepT h (Some (fp f)) t.
Proof.
  unfold fnode, frame_ok, fchildren, siblings. split.
  - intros HR. inversion HR as [| ? ? ? ? nd Hnd Hl Hk Hc Hp Hf]; subst.
    apply Forall_app in Hf as [Hf1 Hf2]. apply Forall_cons in Hf2 as [Ht Hf2].
    split_and!; [| apply Forall_app; done | done].
    exists nd. split_and!; try done.
    rewrite Hc, fmap_app, fmap_cons, <-!list_fmap_compose. done.
  - intros ((nd & Hnd & Hl & Hk & Hc & Hp) & Hf & Ht).
    apply Forall_app in Hf as [Hf1 Hf2].
    econstructor; eauto.
    + rewrite Hc, fmap_app, fmap_cons, <-!list_fmap_compose. done.
    + apply Forall_app. split; [done |]. by apply Forall_cons.
Qed.

Lemma bp_HInv_fnode h ctx (f : frame V) t :
  HInv h ctx (fnode f t) ↔ HInv h (f :: ctx) t.
Proof.
  split.
  - intros [HC HT HN HCh]. apply bp_RepT_fnode in HT as (Hf & Hs & Ht).
    split.
    + simpl. done.
    + done.
    + rewrite bp_ids_fnode in HN. rewrite <-app_assoc in HN. by simpl in HN.
    + by rewrite <-bp_whole_fnode.
  - intros [HC HT HN HCh]. destruct HC as (Hf & Hs & HC).
    split.
    + done.
    + apply bp_RepT_fnode. done.
    + rewrite bp_ids_fnode. rewrite <-app_assoc. by simpl.
    + by rewrite bp_whole_fnode.
Qed.

Lemma bp_SInv_fnode mn ht ctx (f : frame V) t :
  SInv mn (S ht) ctx (fnode f t) ↔ SInv mn ht (f :: ctx) t.
Proof.
  unfold SInv, fnode, siblings. simpl. split.
  - intros [Hc Hw]. inversion Hw as [| ? ? ? ? ? Hm Hlen Hf]; subst.
    apply Forall_app in Hf as [Hf1 Hf2]. apply Forall_cons in Hf2 as [Ht Hf2].
    split_and!; try done. apply Forall_app. done.
  - intros [(Hf & Hm & Hc) Hw]. apply Forall_app in Hf as [Hf1 Hf2].
    split; [done |]. constructor; [done | |].
    + unfold fkeys. rewrite !length_app, !length_fmap. simpl. rewrite length_fmap. lia.
    + apply Forall_app. split; [done |]. by apply Forall_cons.
Qed.

Lemma bp_OInv_fnode ctx (f : frame V) t :
  OInv ctx (fnode f t) ↔ OInv (f :: ctx) t.
Proof. unfold OInv. by rewrite bp_whole_fnode. Qed.

End Store.

(** * Descending to a leaf *)

Section Descent.
Context {V : Type}.
Implicit Types (h : list (node V)) (t : bt V) (ctx : list (frame V)).

(** [key] belongs between the two halves of the context. *)
Definition routed (key : Z) ctx : Prop :=
  lt_all (keys2 (ibefore ctx)) [2 * key + 1]%Z ∧
  lt_all [2 * key + 1]%Z (keys2 (iafter ctx)).

Lemma bp_route_le ks key : route ks key ≤ length ks.
Proof. induction ks; simpl; [lia |]. case_decide; simpl; lia. Qed.

Lemma bp_route_before ks key k :
  k ∈ take (route ks key) ks → (k <= key)%Z.
Proof.
  induction ks as [| k0 ks IH]; simpl; [by intros ?%elem_of_nil |].
  case_decide; simpl; [| by intros ?%elem_of_nil].
  intros [-> | Hk]%elem_of_cons; [lia | by apply IH].
Qed.

Lemma bp_route_at ks key k :
  ks !! route ks key = Some k → (key < k)%Z.
Proof.
  induction ks as [| k0 ks IH]; simpl; [done |].
  case_decide; simpl; [by apply IH | intros [= <-]; lia].
Qed.

Lemma bp_wf_height mn m ht t : wf mn m ht t → ht < length (ids t).
Proof.
  revert m t. induction ht as [| ht IH]; intros m t Hw; inversion Hw; subst; simpl.
  - lia.
  - destruct cs as [| c cs]; simpl in *; [lia |].
    match goal with H : Forall _ (_ :: _) |- _ => apply Forall_cons in H as [Hc _] end.
    apply IH in Hc. rewrite length_app. lia.
Qed.

Lemma bp_nodup_bound (l : list nat) n :
  NoDup l → (∀ q, q ∈ l → q < n) → length l ≤ n.
Proof.
  intros Hn Hb. trans (length (seq 0 n)); [| by rewrite length_seq].
  apply submseteq_length.
  apply NoDup_submseteq; [done |]. intros q Hq. apply elem_of_seq. specialize (Hb q Hq). lia.
Qed.

Lemma bp_HInv_lt h ctx t q : HInv h ctx t → q ∈ ids t ++ idsc ctx → q < length h.
Proof.
  intros [HC HT _ _] [Hq | Hq]%elem_of_app.
  - by eapply bp_RepT_lt.
  - by eapply bp_RepC_lt.
Qed.

Lemma bp_HInv_height h ctx t mn m ht :
  HInv h ctx t → wf mn m ht t → ht < S (length h).
Proof.
  intros HI Hw. apply bp_wf_height in Hw.
  assert (length (ids t ++ idsc ctx) ≤ length h).
  { apply bp_nodup_bound; [apply HI |]. intros q. by apply bp_HInv_lt. }
  rewrite length_app in *. lia.
Qed.

Lemma bp_routed_down key (f : frame V) ctx t :
  routed key ctx → OInv ctx (fnode f t) →
  length (fl f) = route (fkeys f) key →
  routed key (f :: ctx).
Proof.
  intros [Hb Ha] HO Hlen. unfold routed. simpl.
  rewrite !bp_keys2_app, bp_lt_all_app_l, bp_lt_all_app_r.
  unfold OInv, whole in HO. rewrite bp_inorder_fnode, !bp_keys2_app in HO.
  apply bp_sorted_app in HO as (_ & HO & _).
  apply bp_sorted_app in HO as (HO & _ & _).
  apply bp_sorted_app in HO as (Hl & HO & _).
  apply bp_sorted_app in HO as (_ & Hr & _).
  split_and!; try done.
  - destruct (fl f) as [| ck fl0 _] eqn:Efl using rev_ind; [apply bp_lt_all_nil_l |].
    destruct ck as [c k]. rewrite bp_lpart_snoc, !bp_keys2_app in *. simpl in *.
    apply bp_sorted_app in Hl as (_ & Hl & H1).
    apply bp_sorted_app in Hl as (_ & _ & H2).
    assert (k <= key)%Z as Hk.
    { apply (bp_route_before (fkeys f) key). rewrite <-Hlen. unfold fkeys.
      rewrite Efl, fmap_app, <-app_assoc. simpl.
      rewrite length_app. simpl.
      rewrite take_app_ge by (rewrite length_fmap; lia).
      apply elem_of_app. right. rewrite length_fmap.
      replace (length fl0 + 1 - length fl0) with 1 by lia. simpl.
      apply elem_of_cons. by left. }
    intros x y Hx ->%list_elem_of_singleton.
    assert (x <= 2 * k)%Z; [| lia].
    apply elem_of_app in Hx as [Hx | [Hx | Hx]%elem_of_app].
    + assert (x < 2 * k)%Z; [| lia]. apply H1; [done |].
      apply elem_of_app. right. by apply list_elem_of_singleton.
    + assert (x < 2 * k)%Z; [| lia]. apply H2; [done |]. by apply list_elem_of_singleton.
    + apply list_elem_of_singleton in Hx. lia.
  - destruct (fr f) as [| [k c] fr0] eqn:Efr; [apply bp_lt_all_nil_r |].
    rewrite bp_rpart_cons in *. rewrite bp_keys2_cons in *. simpl in *.
    apply bp_sorted_cons in Hr as [_ Hr].
    assert (key < k)%Z as Hk.
    { apply (bp_route_at (fkeys f) key). rewrite <-Hlen. unfold fkeys.
      rewrite Efr. rewrite lookup_app_r by (rewrite length_fmap; lia).
      rewrite length_fmap. by replace (length (fl f) - length (fl f)) with 0 by lia. }
    intros x y ->%list_elem_of_singleton [-> | Hy]%elem_of_cons; [lia |].
    assert (2 * k < y)%Z; [| lia]. apply Hr; [by apply list_elem_of_singleton | done].
Qed.

(** [findLeaf] reaches a leaf, and the path to it is a context in which
    all the invariants hold and the key is routed. *)
Lemma bp_findLeaf_loop_spec h key mn ht :
  ∀ t ctx fuel,
    HInv h ctx t → SInv mn ht ctx t → OInv ctx t → routed key ctx → ht < fuel →
    ∃ ctx' p es,
      findLeaf_loop fuel h key (rid t) = Some p ∧
      HInv h ctx' (BLeaf p es) ∧ SInv mn 0 ctx' (BLeaf p es) ∧
      OInv ctx' (BLeaf p es) ∧ routed key ctx' ∧
      whole ctx' (BLeaf p es) = whole ctx t ∧
      croot ctx' p = croot ctx (rid t).
Proof.
  induction ht as [| ht IH]; intros t ctx fuel HI HS HO HR Hfuel.
  - destruct HS as [Hc Hw]. inversion Hw; subst.
    exists ctx, p, es. split_and!; try done.
    destruct fuel; [lia |]. simpl.
    destruct HI as [_ HT _ _]. inversion HT; subst.
    match goal with H : _ !! p = Some _ |- _ => rewrite H end. simpl.
    match goal with H : isLeaf _ = true |- _ => by rewrite H end.
  - pose proof HS as [Hc Hw]. inversion Hw as [| ? ? p ks cs Hm Hlen Hf]; subst.
    destruct (bp_focus ks cs (route ks key) Hlen (bp_route_le _ _))
      as (fl0 & c & fr0 & Hfl & Hks & Hcs).
    set (f := Frame p fl0 fr0).
    assert (BNode p ks cs = fnode f c) as Ht by (unfold fnode, fkeys; simpl; congruence).
    rewrite Ht in *.
    assert (length (fl f) = route (fkeys f) key) as Hroute.
    { simpl. unfold fkeys. simpl. by rewrite <-Hks. }
    pose proof (bp_routed_down key f ctx c HR HO Hroute) as HR'.
    apply bp_HInv_fnode in HI. apply bp_SInv_fnode in HS. apply bp_OInv_fnode in HO.
    destruct fuel as [| fuel]; [lia |].
    destruct (IH c (f :: ctx) fuel HI HS HO HR' ltac:(lia))
      as (ctx' & q & es & Hfind & HI' & HS' & HO' & HR'' & Hwh & Hroot).
    exists ctx', q, es. split_and!; try done.
    + simpl. destruct HI as [(Hfr & _) _ _ _]. destruct Hfr as (nd & Hnd & Hl & Hk & Hch & _).
      simpl in Hnd. rewrite Hnd. simpl. rewrite Hl, Hch, Hk.
      unfold fchildren. simpl. rewrite <-Hroute. simpl.
      rewrite lookup_app_r by (rewrite length_fmap; lia).
      rewrite length_fmap. replace (length fl0 - length fl0) with 0 by lia. simpl.
      done.
    + by rewrite Hwh, bp_whole_fnode.
Qed.

End Descent.

(** * The invariant of a tree, and its leaves *)

Section Leaves.
Context {V : Type}.
Implicit Types (h : list (node V)) (t : bt V) (ctx : list (frame V)).

(** ** Closing the zipper *)

Lemma bp_HInv_plug h ctx t : HInv h ctx t → HInv h [] (plug ctx t).
Proof.
  revert t. induction ctx as [| f rest IH]; intros t HI; simpl; [done |].
  apply IH. by apply bp_HInv_fnode.
Qed.

Lemma bp_SInv_plug mn ht ctx t :
  SInv mn ht ctx t → ∃ ht', SInv mn ht' [] (plug ctx t).
Proof.
  revert ht t. induction ctx as [| f rest IH]; intros ht t HS; simpl; [by eauto |].
  apply (IH (S ht)). by apply bp_SInv_fnode.
Qed.

Lemma bp_whole_plug ctx t : whole [] (plug ctx t) = whole ctx t.
Proof.
  revert t. induction ctx as [| f rest IH]; intros t; simpl; [done |].
  by rewrite IH, bp_whole_fnode.
Qed.

Lemma bp_OInv_plug ctx t : OInv ctx t → OInv [] (plug ctx t).
Proof. unfold OInv. by rewrite bp_whole_plug. Qed.

Lemma bp_rid_plug ctx t : rid (plug ctx t) = croot ctx (rid t).
Proof. revert t. induction ctx as [| f rest IH]; intros t; simpl; [done |]. by rewrite IH. Qed.

Lemma bp_whole_nil t : whole [] t = inorder t.
Proof. unfold whole. simpl. by rewrite app_nil_r. Qed.

(** ** The invariant *)

Definition models (es : list (Entry V)) (M : gmap Z V) : Prop :=
  ∀ k v, M !! k = Some v ↔ mkEntry k v ∈ es.

Definition mnof (d : Z) : nat := Z.to_nat (d - 1).

Definition Inv (T : BPlusTree V) (M : gmap Z V) : Prop :=
  (2 <= degree T)%Z ∧
  match root T with
  | None => M = ∅
  | Some r =>
      ∃ t ht, rid t = r ∧ HInv (heap T) [] t ∧ SInv (mnof (degree T)) ht [] t ∧
              OInv [] t ∧ models (contents (inorder t)) M
  end.

Lemma bp_Inv_of_zipper h ctx t ht d M :
  (2 <= d)%Z → HInv h ctx t → SInv (mnof d) ht ctx t → OInv ctx t →
  models (contents (whole ctx t)) M →
  Inv (mkTree h (Some (croot ctx (rid t))) d) M.
Proof.
  intros Hd HI HS HO HM. split; [done |]. simpl.
  destruct (bp_SInv_plug _ _ _ _ HS) as [ht' HS'].
  exists (plug ctx t), ht'. split_and!.
  - apply bp_rid_plug.
  - by apply bp_HInv_plug.
  - done.
  - by apply bp_OInv_plug.
  - by rewrite <-bp_whole_nil, bp_whole_plug.
Qed.

(** ** Entries and their keys *)

Lemma bp_contents_keys2 (l : list (item V)) e : e ∈ contents l → ekey e ∈ keys2 l.
Proof.
  unfold contents, keys2. rewrite !list_elem_of_bind.
  intros (it & He & Hit). exists it. split; [| done].
  destruct it; simpl in *; [by apply elem_of_nil in He |].
  by apply list_elem_of_fmap_2.
Qed.

Lemma bp_keys2_contents_sub (l : list (item V)) : sublist (ekey <$> contents l) (keys2 l).
Proof.
  induction l as [| it l IH]; [done |].
  rewrite bp_contents_cons, bp_keys2_cons, fmap_app.
  apply sublist_app; [| done]. destruct it; simpl; [apply sublist_nil_l | done].
Qed.

Lemma bp_sorted_key_inj (es : list (Entry V)) e e' :
  sorted (ekey <$> es) → e ∈ es → e' ∈ es → Key e = Key e' → e = e'.
Proof.
  induction es as [| a es IH]; [by intros _ ?%elem_of_nil |].
  rewrite fmap_cons. intros [Hs Hl]%bp_sorted_cons He He' Hk.
  assert (∀ x, x ∈ es → Key a ≠ Key x) as Hne.
  { intros x Hx Heq. specialize (Hl (ekey a) (ekey x)).
    unfold ekey in Hl. rewrite Heq in Hl.
    enough (2 * Key x + 1 < 2 * Key x + 1)%Z by lia.
    apply Hl; [by apply list_elem_of_singleton |]. by apply (list_elem_of_fmap_2 ekey). }
  apply elem_of_cons in He as [-> | He]; apply elem_of_cons in He' as [-> | He'].
  - done.
  - by apply Hne in He'.
  - symmetry in Hk. by apply Hne in He.
  - by apply IH.
Qed.

(** An entry with the routed key can only be in the focused leaf. *)
Lemma bp_routed_mem key ctx p (es : list (Entry V)) e :
  routed key ctx → e ∈ contents (whole ctx (BLeaf p es)) → Key e = key → e ∈ es.
Proof.
  intros [Hb Ha]. unfold whole. rewrite !bp_contents_app. simpl. rewrite app_nil_r.
  intros [He | [He | He]%elem_of_app]%elem_of_app Hk; [| done |]; subst key.
  - apply bp_contents_keys2 in He.
    specialize (Hb (ekey e) (2 * Key e + 1)%Z He). unfold ekey in Hb.
    enough (2 * Key e + 1 < 2 * Key e + 1)%Z by lia. apply Hb. by apply list_elem_of_singleton.
  - apply bp_contents_keys2 in He.
    specialize (Ha (2 * Key e + 1)%Z (ekey e)). unfold ekey in Ha.
    enough (2 * Key e + 1 < 2 * Key e + 1)%Z by lia.
    apply Ha; [by apply list_elem_of_singleton | done].
Qed.

Lemma bp_contents_whole_leaf ctx p (es : list (Entry V)) :
  contents (whole ctx (BLeaf p es)) = contents (ibefore ctx) ++ es ++ contents (iafter ctx).
Proof. unfold whole. rewrite !bp_contents_app. simpl. by rewrite app_nil_r. Qed.

Lemma bp_keys2_whole_leaf ctx p (es : list (Entry V)) :
  keys2 (whole ctx (BLeaf p es)) = keys2 (ibefore ctx) ++ (ekey <$> es) ++ keys2 (iafter ctx).
Proof. unfold whole. rewrite !bp_keys2_app. simpl. by rewrite app_nil_r. Qed.

Lemma bp_leaf_ids_whole_leaf ctx p (es : list (Entry V)) :
  leaf_ids (whole ctx (BLeaf p es)) = leaf_ids (ibefore ctx) ++ p :: leaf_ids (iafter ctx).
Proof. unfold whole. rewrite !bp_leaf_ids_app. done. Qed.

(** ** Inversion of the representation *)

Lemma bp_RepT_leaf_inv h par p (es : list (Entry V)) :
  RepT h par (BLeaf p es) →
  ∃ nd, h !! p = Some nd ∧ isLeaf nd = true ∧ entries nd = es ∧ parent nd = par.
Proof. intros HR. inversion HR; subst. eauto. Qed.

Lemma bp_RepT_node_inv h par p ks (cs : list (bt V)) :
  RepT h par (BNode p ks cs) →
  ∃ nd, h !! p = Some nd ∧ isLeaf nd = false ∧ keys nd = ks ∧
        children nd = rid <$> cs ∧ parent nd = par ∧ Forall (RepT h (Some p)) cs.
Proof. intros HR. inversion HR; subst. eauto 10. Qed.

(** ** Writing the entries of the focused leaf *)

Lemma bp_next_insert h p (nd nd' : node V) q :
  h !! p = Some nd → next nd' = next nd →
  next <$> <[p := nd']> h !! q = next <$> h !! q.
Proof.
  intros Hp Hn. destruct (decide (p = q)) as [<- | Hne].
  - rewrite list_lookup_insert_eq by (by eapply lookup_lt_Some). rewrite Hp. simpl. by rewrite Hn.
  - by rewrite list_lookup_insert_ne.
Qed.

Lemma bp_same_on_insert (l : list nat) h p (nd : node V) :
  p ∉ l → same_on l h (<[p := nd]> h).
Proof. intros Hp q Hq. apply list_lookup_insert_ne. intros ->. done. Qed.

Lemma bp_HInv_leaf_set h ctx p (es es' : list (Entry V)) nd :
  HInv h ctx (BLeaf p es) → h !! p = Some nd →
  HInv (<[p := set_entries nd es']> h) ctx (BLeaf p es').
Proof.
  intros [HC HT HN HCh] Hp.
  simpl in HN. apply NoDup_cons in HN as [Hpn HN].
  apply bp_RepT_leaf_inv in HT as (nd0 & Hp0 & Hl & He & Hpar).
  assert (nd0 = nd) as -> by congruence.
  split.
  - eapply bp_RepC_same; [| done]. by apply bp_same_on_insert.
  - econstructor; [apply list_lookup_insert_eq; by eapply lookup_lt_Some | done..].
  - simpl. by apply NoDup_cons.
  - rewrite bp_leaf_ids_whole_leaf in *.
    eapply bp_chain_same; [| done]. intros q _. by eapply bp_next_insert.
Qed.

End Leaves.

(** * Queries: Search, All, Len, Range *)

Section Queries.
Context {V : Type}.
Implicit Types (h : list (node V)) (t : bt V) (ctx : list (frame V)).

Lemma bp_routed_nil key : routed (V := V) key [].
Proof. split; [apply bp_lt_all_nil_l | apply bp_lt_all_nil_r]. Qed.

(** ** Leaves along the chain *)

Definition leaves_ok h (l : list (item V)) : Prop :=
  Forall (λ it, match it with
                | ILeaf p es => ∃ nd, h !! p = Some nd ∧ entries nd = es
                | ISep _ => True
                end) l.

Lemma bp_Forall_inter (P : item V → Prop) ls ks :
  (∀ k, P (ISep k)) → Forall (Forall P) ls → Forall P (inter ls ks).
Proof.
  intros Hsep. revert ks. induction ls as [| l ls IH]; intros ks Hf; simpl; [done |].
  apply Forall_cons in Hf as [Hl Hf]. apply Forall_app. split; [done |].
  destruct ks as [| k ks].
  - clear IH. induction ls as [| l' ls IH]; simpl; [done |].
    apply Forall_cons in Hf as [Hl' Hf]. apply Forall_app. split; [done | by apply IH].
  - apply Forall_cons. split; [done | by apply IH].
Qed.

Lemma bp_RepT_leaves h par t : RepT h par t → leaves_ok h (inorder t).
Proof.
  revert par. induction t as [p es | p ks cs IH] using bt_ind'; intros par HR.
  - apply bp_RepT_leaf_inv in HR as (nd & Hp & _ & He & _).
    apply Forall_cons. split; [by eauto | done].
  - apply bp_RepT_node_inv in HR as (nd & _ & _ & _ & _ & _ & Hf).
    simpl. apply bp_Forall_inter; [done |].
    apply Forall_fmap. rewrite Forall_forall in *. intros c Hc. simpl. eapply IH; eauto.
Qed.

Lemma bp_leaf_count h t : HInv h [] t → length (leaf_ids (inorder t)) ≤ length h.
Proof.
  intros HI. apply bp_nodup_bound.
  - eapply sublist_NoDup; [| apply bp_leaf_ids_sub]. destruct HI as [_ _ HN _].
    simpl in HN. by rewrite app_nil_r in HN.
  - intros q Hq. eapply bp_HInv_lt; [done |]. apply elem_of_app. left.
    eapply elem_of_sublist; [done | apply bp_leaf_ids_sub].
Qed.

Lemma bp_Inv_descend (T : BPlusTree V) M key r :
  Inv T M → root T = Some r →
  ∃ ctx p es,
    findLeaf T key = Some p ∧
    HInv (heap T) ctx (BLeaf p es) ∧ SInv (mnof (degree T)) 0 ctx (BLeaf p es) ∧
    OInv ctx (BLeaf p es) ∧ routed key ctx ∧
    models (contents (whole ctx (BLeaf p es))) M ∧ croot ctx p = r ∧
    leaves_ok (heap T) (whole ctx (BLeaf p es)) ∧
    length (leaf_ids (whole ctx (BLeaf p es))) ≤ length (heap T).
Proof.
  intros [Hd HI] Hr. rewrite Hr in HI.
  destruct HI as (t & ht & Hrid & HI & HS & HO & HM).
  destruct (bp_findLeaf_loop_spec (heap T) key _ ht t [] (S (length (heap T))) HI HS HO
              (bp_routed_nil key)) as (ctx & p & es & Hf & HI' & HS' & HO' & HR & Hw & Hc).
  { destruct HS as [_ Hw]. by eapply bp_HInv_height. }
  exists ctx, p, es. split_and!; try done.
  - unfold findLeaf. rewrite Hr. simpl. by rewrite <-Hrid.
  - by rewrite Hw, bp_whole_nil.
  - by rewrite Hc.
  - rewrite Hw, bp_whole_nil. eapply bp_RepT_leaves. apply HI.
  - rewrite Hw, bp_whole_nil. by apply bp_leaf_count.
Qed.

Lemma bp_entry_eta (e : Entry V) : mkEntry (Key e) (Value e) = e.
Proof. by destruct e. Qed.

(** ** Search *)

Lemma bp_Search_spec (T : BPlusTree V) M key : Inv T M → Search T key = Some (M !! key).
Proof.
  intros HI. unfold Search. destruct (root T) as [r |] eqn:Hr.
  - destruct (bp_Inv_descend T M key r HI Hr)
      as (ctx & p & es & Hf & HH & HS & HO & HR & HM & Hc & Hlok & Hcnt).
    rewrite Hf. simpl.
    destruct HH as [_ HT _ _]. apply bp_RepT_leaf_inv in HT as (nd & Hp & _ & He & _).
    rewrite Hp. simpl. rewrite He. f_equal. unfold find_key.
    destruct (list_find _ es) as [[i e] |] eqn:Hfind; simpl.
    + apply list_find_Some in Hfind as (Hi & Hk & _).
      symmetry. apply HM. rewrite <-Hk, bp_entry_eta.
      rewrite bp_contents_whole_leaf. apply elem_of_app. right. apply elem_of_app. left.
      by eapply list_elem_of_lookup_2.
    + apply list_find_None in Hfind. rewrite Forall_forall in Hfind.
      destruct (M !! key) as [v |] eqn:HMk; [| done].
      apply HM in HMk. apply (bp_routed_mem key) in HMk; [| done..].
      by apply Hfind in HMk.
  - destruct HI as [_ HI]. rewrite Hr in HI. subst M. by rewrite lookup_empty.
Qed.

Lemma bp_firstLeaf_loop_spec h mn ht :
  ∀ m t par fuel, wf mn m ht t → RepT h par t → ht < fuel →
  ∃ p es rest, firstLeaf_loop fuel h (rid t) = Some p ∧ inorder t = ILeaf p es :: rest.
Proof.
  induction ht as [| ht IH]; intros m t par fuel Hw HR Hfuel;
    inversion Hw as [| ? ? p ks cs Hm Hlen Hf]; subst;
    (destruct fuel as [| fuel]; [lia |]).
  - apply bp_RepT_leaf_inv in HR as (nd & Hp & Hl & _). simpl. rewrite Hp. simpl. rewrite Hl.
    by eauto.
  - apply bp_RepT_node_inv in HR as (nd & Hp & Hl & _ & Hc & _ & Hcs).
    destruct cs as [| c cs]; [simpl in Hlen; lia |].
    apply Forall_cons in Hf as [Hwc _]. apply Forall_cons in Hcs as [Hrc _].
    destruct (IH _ c _ fuel Hwc Hrc ltac:(lia)) as (q & es & rest & Hfl & Hin).
    simpl. rewrite Hp. simpl. rewrite Hl, Hc. simpl. rewrite Hfl, Hin. simpl. by eauto.
Qed.

Lemma bp_all_loop_spec h (l : list (item V)) :
  ∀ fuel acc, leaves_ok h l → chain h (leaf_ids l) None → length (leaf_ids l) ≤ fuel →
  all_loop fuel h (hd_opt (leaf_ids l) None) acc = Some (acc ++ contents l).
Proof.
  induction l as [| [k | p es] l IH]; intros fuel acc Hok Hch Hfuel.
  - destruct fuel; simpl; by rewrite app_nil_r.
  - apply Forall_cons in Hok as [_ Hok]. by apply IH.
  - apply Forall_cons in Hok as [(nd & Hp & He) Hok].
    rewrite bp_leaf_ids_cons, bp_contents_cons in *. simpl in *.
    destruct Hch as [Hn Hch]. rewrite Hp in Hn. simpl in Hn. injection Hn as Hn.
    destruct fuel as [| fuel]; [lia |]. simpl. rewrite Hp. simpl. rewrite Hn, He.
    rewrite IH by (done || lia). by rewrite <-app_assoc.
Qed.

Lemma bp_len_loop_spec h (l : list (item V)) :
  ∀ fuel count, leaves_ok h l → chain h (leaf_ids l) None → length (leaf_ids l) ≤ fuel →
  len_loop fuel h (hd_opt (leaf_ids l) None) count
  = Some (count + Z.of_nat (length (contents l)))%Z.
Proof.
  induction l as [| [k | p es] l IH]; intros fuel count Hok Hch Hfuel.
  - destruct fuel; simpl; f_equal; lia.
  - apply Forall_cons in Hok as [_ Hok]. by apply IH.
  - apply Forall_cons in Hok as [(nd & Hp & He) Hok].
    rewrite bp_leaf_ids_cons, bp_contents_cons in *. simpl in *.
    destruct Hch as [Hn Hch]. rewrite Hp in Hn. simpl in Hn. injection Hn as Hn.
    destruct fuel as [| fuel]; [lia |]. simpl. rewrite Hp. simpl. rewrite Hn, He.
    rewrite IH by (done || lia). f_equal. unfold len. rewrite length_app. lia.
Qed.

(** ** Range *)

Definition in_range (lo hi : Z) (e : Entry V) : Prop := (Key e >= lo ∧ Key e <= hi)%Z.

Global Instance in_range_dec lo hi e : Decision (in_range lo hi e).
Proof. unfold in_range. apply _. Defined.

Lemma bp_filter_none {A} (P : A → Prop) `{∀ x, Decision (P x)} (l : list A) :
  (∀ x, x ∈ l → ¬ P x) → filter P l = [].
Proof.
  induction l as [| a l IH]; intros Hl; [done |].
  rewrite filter_cons, decide_False by (apply Hl, elem_of_cons; by left).
  apply IH. intros x Hx. apply Hl, elem_of_cons. by right.
Qed.

Lemma bp_range_scan_spec lo hi (es : list (Entry V)) :
  ∀ acc, sorted (ekey <$> es) →
  ∃ b, range_scan lo hi es acc = (acc ++ filter (in_range lo hi) es, b) ∧
       (b = true → ∃ e, e ∈ es ∧ (hi < Key e)%Z).
Proof.
  induction es as [| e es IH]; intros acc Hs; simpl.
  - exists false. by rewrite app_nil_r.
  - rewrite fmap_cons in Hs. apply bp_sorted_cons in Hs as [Hs Hl].
    rewrite filter_cons.
    destruct (decide (in_range lo hi e)) as [Hin | Hout].
    + rewrite (decide_True (P := (Key e >= lo ∧ Key e <= hi)%Z)) by exact Hin.
      destruct (IH (acc ++ [e]) Hs) as (b & Hb & Hex). exists b. rewrite Hb.
      split; [by rewrite <-app_assoc |]. intros Hbt. destruct (Hex Hbt) as (e' & He' & ?).
      exists e'. split; [by apply elem_of_cons; right | done].
    + rewrite (decide_False (P := (Key e >= lo ∧ Key e <= hi)%Z)) by exact Hout.
      destruct (decide (Key e > hi)%Z) as [Hgt | Hle].
      * exists true. split.
        -- rewrite bp_filter_none; [by rewrite app_nil_r |]. intros x Hx [_ Hx2].
           specialize (Hl (ekey e) (ekey x)). unfold ekey in Hl.
           enough (2 * Key e + 1 < 2 * Key x + 1)%Z by lia.
           apply Hl; [by apply list_elem_of_singleton |]. by apply (list_elem_of_fmap_2 ekey).
        -- intros _. exists e. split; [by apply elem_of_cons; left | lia].
      * destruct (IH acc Hs) as (b & Hb & Hex). exists b. rewrite Hb. split; [done |].
        intros Hbt. destruct (Hex Hbt) as (e' & He' & ?).
        exists e'. split; [by apply elem_of_cons; right | done].
Qed.

Lemma bp_range_loop_spec h lo hi (l : list (item V)) :
  ∀ fuel acc, leaves_ok h l → chain h (leaf_ids l) None → sorted (keys2 l) →
  length (leaf_ids l) ≤ fuel →
  range_loop fuel h lo hi (hd_opt (leaf_ids l) None) acc
  = Some (acc ++ filter (in_range lo hi) (contents l)).
Proof.
  induction l as [| [k | p es] l IH]; intros fuel acc Hok Hch Hs Hfuel.
  - destruct fuel; simpl; by rewrite app_nil_r.
  - apply Forall_cons in Hok as [_ Hok]. rewrite bp_keys2_cons in Hs.
    apply bp_sorted_app in Hs as (_ & Hs & _). by apply IH.
  - apply Forall_cons in Hok as [(nd & Hp & He) Hok].
    rewrite bp_leaf_ids_cons, bp_contents_cons, bp_keys2_cons in *. simpl in *.
    apply bp_sorted_app in Hs as (Hse & Hs & Hlt).
    destruct Hch as [Hn Hch]. rewrite Hp in Hn. simpl in Hn. injection Hn as Hn.
    destruct fuel as [| fuel]; [lia |]. simpl. rewrite Hp. simpl. rewrite He.
    destruct (bp_range_scan_spec lo hi es acc Hse) as (b & Hb & Hex). rewrite Hb.
    rewrite filter_app. destruct b.
    + destruct (Hex eq_refl) as (e & Hein & Hhi).
      rewrite (bp_filter_none _ (contents l)); [by rewrite app_nil_r |].
      intros x Hx [_ Hx2]. apply bp_contents_keys2 in Hx.
      specialize (Hlt (ekey e) (ekey x)). unfold ekey in Hlt.
      enough (2 * Key e + 1 < 2 * Key x + 1)%Z by lia.
      apply Hlt; [by apply (list_elem_of_fmap_2 ekey) | done].
    + rewrite Hn. rewrite IH by (done || lia). by rewrite <-app_assoc.
Qed.

(** ** The specifications of the queries *)

Lemma bp_sorted_contents (l : list (item V)) : sorted (keys2 l) → sorted (ekey <$> contents l).
Proof. apply bp_sorted_sublist, bp_keys2_contents_sub. Qed.

Lemma bp_models_empty : models (V := V) [] ∅.
Proof. intros k v. rewrite lookup_empty. split; [done | by intros ?%elem_of_nil]. Qed.

Lemma bp_firstLeaf_spec (T : BPlusTree V) t ht r :
  root T = Some r → rid t = r → HInv (heap T) [] t → SInv (mnof (degree T)) ht [] t →
  ∃ p es rest, firstLeaf T = Some (Some p) ∧ inorder t = ILeaf p es :: rest.
Proof.
  intros Hr Hrid HI HS. destruct HS as [_ Hw].
  destruct (bp_firstLeaf_loop_spec (heap T) _ ht _ t None (S (length (heap T))) Hw)
    as (p & es & rest & Hf & Hin).
  - apply HI.
  - by eapply bp_HInv_height.
  - exists p, es, rest. split; [| done]. unfold firstLeaf. rewrite Hr, <-Hrid, Hf. done.
Qed.

Lemma bp_All_spec (T : BPlusTree V) M :
  Inv T M → ∃ es, All T = Some es ∧ sorted (ekey <$> es) ∧ models es M.
Proof.
  intros [Hd HI]. unfold All. destruct (root T) as [r |] eqn:Hr.
  - destruct HI as (t & ht & Hrid & HI & HS & HO & HM).
    destruct (bp_firstLeaf_spec T t ht r Hr Hrid HI HS) as (p & es & rest & Hf & Hin).
    exists (contents (inorder t)). split_and!; [| | done].
    + rewrite Hf.
      assert (hd_opt (leaf_ids (inorder t)) None = Some p) as Hhd by (by rewrite Hin).
      change (all_loop (S (length (heap T))) (heap T) (Some p) []
              = Some ([] ++ contents (inorder t))).
      rewrite <-Hhd. apply bp_all_loop_spec.
      * eapply bp_RepT_leaves. apply HI.
      * destruct HI as [_ _ _ HCh]. by rewrite bp_whole_nil in HCh.
      * pose proof (bp_leaf_count _ _ HI). lia.
    + apply bp_sorted_contents. unfold OInv in HO. by rewrite bp_whole_nil in HO.
  - subst M. exists []. split_and!; [done | constructor | apply bp_models_empty].
Qed.

Lemma bp_models_size (es : list (Entry V)) M :
  sorted (ekey <$> es) → models es M → size M = length es.
Proof.
  intros Hs HM.
  set (pairs := (λ e, (Key e, Value e)) <$> es).
  assert (NoDup pairs.*1) as Hnd.
  { unfold pairs. rewrite <-list_fmap_compose.
    clear HM. induction es as [| e es IH]; [constructor |].
    rewrite fmap_cons in Hs. apply bp_sorted_cons in Hs as [Hs Hl].
    rewrite fmap_cons. apply NoDup_cons. split; [| by apply IH].
    simpl. intros (e' & Hk & He')%list_elem_of_fmap. simpl in Hk.
    specialize (Hl (ekey e) (ekey e')). unfold ekey in Hl. rewrite Hk in Hl.
    enough (2 * Key e' + 1 < 2 * Key e' + 1)%Z by lia.
    apply Hl; [by apply list_elem_of_singleton | by apply (list_elem_of_fmap_2 ekey)]. }
  assert (M = list_to_map pairs) as ->.
  { apply map_eq. intros k. apply option_eq. intros v. unfold models in HM.
    rewrite HM, <-elem_of_list_to_map by done. unfold pairs.
    rewrite list_elem_of_fmap. split.
    - intros He. exists (mkEntry k v). done.
    - intros (e & [= -> ->] & He). by rewrite bp_entry_eta. }
  rewrite map_size_list_to_map by done. unfold pairs. by rewrite length_fmap.
Qed.

Lemma bp_Len_spec (T : BPlusTree V) M : Inv T M → Len T = Some (Z.of_nat (size M)).
Proof.
  intros [Hd HI]. unfold Len. destruct (root T) as [r |] eqn:Hr.
  - destruct HI as (t & ht & Hrid & HI & HS & HO & HM).
    destruct (bp_firstLeaf_spec T t ht r Hr Hrid HI HS) as (p & es & rest & Hf & Hin).
    rewrite Hf.
    assert (hd_opt (leaf_ids (inorder t)) None = Some p) as Hhd by (by rewrite Hin).
    change (len_loop (S (length (heap T))) (heap T) (Some p) 0%Z
            = Some (Z.of_nat (size M))).
    rewrite <-Hhd, bp_len_loop_spec.
    + f_equal. erewrite bp_models_size; [done | | done].
      apply bp_sorted_contents. unfold OInv in HO. by rewrite bp_whole_nil in HO.
    + eapply bp_RepT_leaves. apply HI.
    + destruct HI as [_ _ _ HCh]. by rewrite bp_whole_nil in HCh.
    + pose proof (bp_leaf_count _ _ HI). lia.
  - subst M. by rewrite map_size_empty.
Qed.

Lemma bp_Range_spec (T : BPlusTree V) M lo hi :
  Inv T M →
  ∃ res, Range T lo hi = Some res ∧ sorted (ekey <$> res) ∧
         ∀ e, e ∈ res ↔ M !! Key e = Some (Value e) ∧ (lo <= Key e <= hi)%Z.
Proof.
  intros HI. unfold Range. destruct (root T) as [r |] eqn:Hr.
  - destruct (bp_Inv_descend T M lo r HI Hr)
      as (ctx & p & es & Hf & HH & HS & HO & HR & HM & Hc & Hlok & Hcnt).
    destruct HI as [Hd HI]. rewrite Hr in HI.
    destruct HI as (t & ht & Hrid & HI & HSt & HOt & HMt).
    rewrite Hf. simpl.
    set (l := ILeaf p es :: iafter ctx).
    assert (whole ctx (BLeaf p es) = ibefore ctx ++ l) as Hwl by done.
    pose proof HH as [_ HT _ HCh]. rewrite Hwl, bp_leaf_ids_app in HCh.
    apply bp_chain_app in HCh as [_ HCh].
    unfold OInv in HO. rewrite Hwl, bp_keys2_app in HO.
    apply bp_sorted_app in HO as (Hsb & Hsl & Hbl).
    assert (leaves_ok (heap T) l) as Hok.
    { unfold leaves_ok in *. rewrite Hwl in Hlok. by apply Forall_app in Hlok as [_ ?]. }
    rewrite Hwl, bp_leaf_ids_app, length_app in Hcnt.
    exists (filter (in_range lo hi) (contents l)). split_and!.
    + change (range_loop (S (length (heap T))) (heap T) lo hi (hd_opt (leaf_ids l) None) []
              = Some ([] ++ filter (in_range lo hi) (contents l))).
      apply bp_range_loop_spec; try done. lia.
    + eapply bp_sorted_sublist; [| apply (bp_sorted_contents l Hsl)].
      apply fmap_sublist, sublist_filter.
    + intros e. rewrite list_elem_of_filter. unfold in_range. split.
      * intros [? He]. split; [| lia]. apply HM. rewrite bp_entry_eta, Hwl, bp_contents_app.
        apply elem_of_app. by right.
      * intros [HMe ?]. split; [lia |]. apply HM in HMe.
        rewrite bp_entry_eta, Hwl, bp_contents_app in HMe.
        apply elem_of_app in HMe as [He | He]; [| done].
        exfalso. apply bp_contents_keys2 in He. destruct HR as [Hb _].
        specialize (Hb (ekey e) (2 * lo + 1)%Z He). unfold ekey in Hb.
        enough (2 * Key e + 1 < 2 * lo + 1)%Z by lia. apply Hb. by apply list_elem_of_singleton.
  - destruct HI as [_ HI]. rewrite Hr in HI. subst M. exists []. split_and!; [done | constructor |].
    intros e. rewrite lookup_empty. split; [by intros ?%elem_of_nil | by intros [? _]].
Qed.

End Queries.

(** * Store updates: what a write preserves *)

Section Writes.
Context {V : Type}.
Implicit Types (h : list (node V)) (t : bt V) (ctx : list (frame V)).

Definition next_pres (l : list nat) h h' : Prop :=
  ∀ q, q ∈ l → next <$> h' !! q = next <$> h !! q.

Lemma bp_next_pres_same l h h' : same_on l h h' → next_pres l h h'.
Proof. intros Hs q Hq. by rewrite Hs. Qed.

Lemma bp_next_pres_trans l h h' h'' :
  next_pres l h h' → next_pres l h' h'' → next_pres l h h''.
Proof. intros H1 H2 q Hq. rewrite H2, H1; done. Qed.

Lemma bp_next_pres_insert l h p (nd nd' : node V) :
  h !! p = Some nd → next nd' = next nd → next_pres l h (<[p := nd']> h).
Proof. intros Hp Hn q _. by eapply bp_next_insert. Qed.

Lemma bp_same_on_alloc l h (n : node V) :
  (∀ q, q ∈ l → q < length h) → same_on l h (h ++ [n]).
Proof. intros Hl q Hq. apply lookup_app_l. by apply Hl. Qed.

Lemma bp_chain_pres h h' ps nxt : next_pres ps h h' → chain h ps nxt → chain h' ps nxt.
Proof. apply bp_chain_same. Qed.

Lemma bp_chain_alloc h (n : node V) ps nxt : chain h ps nxt → chain (h ++ [n]) ps nxt.
Proof.
  intros Hc. eapply bp_chain_pres; [| done]. apply bp_next_pres_same, bp_same_on_alloc.
  intros q Hq. by eapply bp_chain_lt.
Qed.

Lemma bp_inter_split (ls : list (list (item V))) ks mid pk :
  ks !! mid = Some pk → length ls = S (length ks) →
  inter (take (S mid) ls) (take mid ks) ++ ISep pk :: inter (drop (S mid) ls) (drop (S mid) ks)
  = inter ls ks.
Proof.
  intros Hpk Hlen. rewrite <-(take_drop (S mid) ls) at 3.
  rewrite <-(take_drop_middle ks mid pk Hpk) at 3.
  symmetry. apply bp_inter_app. apply lookup_lt_Some in Hpk.
  rewrite !length_take. lia.
Qed.

Lemma bp_lookup_alloc_new h (n : node V) : (h ++ [n]) !! length h = Some n.
Proof. rewrite lookup_app_r by lia. by rewrite Nat.sub_diag. Qed.

Lemma bp_RepT_root h par t :
  RepT h par t → ∃ nd, h !! rid t = Some nd ∧ parent nd = par.
Proof. intros HR. inversion HR; subst; simpl; eauto. Qed.

Lemma bp_ids_nodup_child p ks (cs : list (bt V)) c q :
  NoDup (ids (BNode p ks cs)) → c ∈ cs → q ∈ ids c → q ≠ p.
Proof.
  simpl. intros [Hp _]%NoDup_cons Hc Hq ->. apply Hp.
  apply list_elem_of_bind. eauto.
Qed.

(** Changing the parent link of the root of a subtree. *)
Lemma bp_RepT_reparent h h' par par' t nd :
  RepT h par t → NoDup (ids t) →
  h !! rid t = Some nd → h' !! rid t = Some (set_parent nd par') →
  (∀ q, q ∈ ids t → q ≠ rid t → h' !! q = h !! q) →
  RepT h' par' t.
Proof.
  intros HR HN Hnd Hnd' Hs. destruct t as [p es | p ks cs]; simpl in *.
  - apply bp_RepT_leaf_inv in HR as (nd0 & Hp & Hl & He & _).
    assert (nd0 = nd) as -> by congruence. by econstructor.
  - apply bp_RepT_node_inv in HR as (nd0 & Hp & Hl & Hk & Hc & _ & Hf).
    assert (nd0 = nd) as -> by congruence. econstructor; [done.. |].
    rewrite Forall_forall in *. intros c Hc'. eapply bp_RepT_same; [| by apply Hf].
    intros q Hq. apply Hs.
    + apply elem_of_cons. right. apply list_elem_of_bind. eauto.
    + by eapply (bp_ids_nodup_child p ks cs c).
Qed.

Lemma bp_leaf_ids_lpart (l : list (bt V * Z)) : leaf_ids (lpart l) ⊆ (fst <$> l) ≫= ids.
Proof.
  induction l as [| [c k] l IH]; [done |].
  unfold lpart. rewrite bind_cons, fmap_cons, bind_cons, !bp_leaf_ids_app. simpl.
  intros q [[Hq | Hq]%elem_of_app | Hq]%elem_of_app; apply elem_of_app.
  - left. eapply elem_of_sublist; [done | apply bp_leaf_ids_sub].
  - by apply elem_of_nil in Hq.
  - right. by apply IH.
Qed.

Lemma bp_leaf_ids_rpart (l : list (Z * bt V)) : leaf_ids (rpart l) ⊆ (snd <$> l) ≫= ids.
Proof.
  induction l as [| [k c] l IH]; [done |].
  rewrite bp_rpart_cons, fmap_cons, bind_cons, bp_leaf_ids_cons, bp_leaf_ids_app.
  change (item_leaf (ISep k)) with (@nil nat). simpl.
  intros q [Hq | Hq]%elem_of_app; apply elem_of_app.
  - left. eapply elem_of_sublist; [done | apply bp_leaf_ids_sub].
  - right. by apply IH.
Qed.

Lemma bp_leaf_ids_before ctx : leaf_ids (ibefore ctx) ⊆ idsc ctx.
Proof.
  induction ctx as [| f rest IH]; [done |]. simpl. rewrite bp_leaf_ids_app.
  intros q [Hq | Hq]%elem_of_app; apply elem_of_cons; right; apply elem_of_app.
  - right. by apply IH.
  - left. unfold siblings. rewrite bind_app. apply elem_of_app. left. by apply bp_leaf_ids_lpart.
Qed.

Lemma bp_leaf_ids_after ctx : leaf_ids (iafter ctx) ⊆ idsc ctx.
Proof.
  induction ctx as [| f rest IH]; [done |]. simpl. rewrite bp_leaf_ids_app.
  intros q [Hq | Hq]%elem_of_app; apply elem_of_cons; right; apply elem_of_app.
  - left. unfold siblings. rewrite bind_app. apply elem_of_app. right. by apply bp_leaf_ids_rpart.
  - right. by apply IH.
Qed.

Lemma bp_leaf_ids_inorder_sub t : leaf_ids (inorder t) ⊆ ids t.
Proof. intros q Hq. eapply elem_of_sublist; [done | apply bp_leaf_ids_sub]. Qed.

(** ** Disjointness of pointer lists, in a form that rewrites *)

Definition disj (A B : list nat) : Prop := ∀ x, x ∈ A → x ∉ B.
Definition below (n : nat) (A : list nat) : Prop := ∀ x, x ∈ A → x < n.

Lemma bp_NoDup_app (A B : list nat) : NoDup (A ++ B) ↔ NoDup A ∧ disj A B ∧ NoDup B.
Proof. apply NoDup_app. Qed.
Lemma bp_NoDup_cons a (A : list nat) : NoDup (a :: A) ↔ a ∉ A ∧ NoDup A.
Proof. apply NoDup_cons. Qed.
Lemma bp_NoDup_nil : NoDup (@nil nat) ↔ True.
Proof. split; [done | intros; constructor]. Qed.
Lemma bp_disj_sym A B : disj A B → disj B A.
Proof. intros H x Hx Hx'. by apply (H x). Qed.
Lemma bp_disj_app_l A B C : disj (A ++ B) C ↔ disj A C ∧ disj B C.
Proof. unfold disj. setoid_rewrite elem_of_app. naive_solver. Qed.
Lemma bp_disj_app_r A B C : disj A (B ++ C) ↔ disj A B ∧ disj A C.
Proof.
  unfold disj. split.
  - intros H. split; intros x Hx Hx'; apply (H x Hx), elem_of_app; auto.
  - intros [H1 H2] x Hx [? | ?]%elem_of_app; [by apply (H1 x) | by apply (H2 x)].
Qed.
Lemma bp_disj_cons_l a A C : disj (a :: A) C ↔ a ∉ C ∧ disj A C.
Proof. unfold disj. setoid_rewrite elem_of_cons. naive_solver. Qed.
Lemma bp_disj_cons_r a A C : disj A (a :: C) ↔ a ∉ A ∧ disj A C.
Proof.
  unfold disj. split.
  - intros H. split.
    + intros Ha. apply (H a Ha), elem_of_cons. by left.
    + intros x Hx Hx'. apply (H x Hx), elem_of_cons. by right.
  - intros [H1 H2] x Hx [-> | ?]%elem_of_cons; [done | by apply (H2 x)].
Qed.
Lemma bp_disj_nil_l A : disj [] A ↔ True.
Proof. split; [done |]. intros _ x Hx. by apply elem_of_nil in Hx. Qed.
Lemma bp_disj_nil_r A : disj A [] ↔ True.
Proof. split; [done |]. intros _ x _ Hx. by apply elem_of_nil in Hx. Qed.
Lemma bp_not_in_nil (a : nat) : a ∉ @nil nat ↔ True.
Proof. split; [done |]. intros _ Hx. by apply elem_of_nil in Hx. Qed.
Lemma bp_not_in_cons (a b : nat) A : a ∉ b :: A ↔ a ≠ b ∧ a ∉ A.
Proof. apply not_elem_of_cons. Qed.
Lemma bp_not_in_app (a : nat) A B : a ∉ A ++ B ↔ a ∉ A ∧ a ∉ B.
Proof. apply not_elem_of_app. Qed.
Lemma bp_below_app n A B : below n (A ++ B) ↔ below n A ∧ below n B.
Proof. unfold below. setoid_rewrite elem_of_app. naive_solver. Qed.
Lemma bp_below_cons n a A : below n (a :: A) ↔ a < n ∧ below n A.
Proof. unfold below. setoid_rewrite elem_of_cons. naive_solver. Qed.
Lemma bp_below_nil n : below n [] ↔ True.
Proof. split; [done |]. intros _ x Hx. by apply elem_of_nil in Hx. Qed.
Lemma bp_below_fresh n A : below n A → n ∉ A.
Proof. intros H Hn. apply H in Hn. lia. Qed.
Lemma bp_below_ne n a A : below n A → a ∈ A → a ≠ n.
Proof. intros H Ha ->. apply H in Ha. lia. Qed.
Lemma bp_disj_in A B a : disj A B → a ∈ A → a ∉ B.
Proof. intros H. apply H. Qed.
Lemma bp_disj_in' A B a : disj A B → a ∈ B → a ∉ A.
Proof. intros H Ha Ha'. by apply (H a). Qed.
Lemma bp_below_mono n m A : below n A → n ≤ m → below m A.
Proof. intros H Hnm x Hx. apply H in Hx. lia. Qed.

Lemma bp_HInv_below h ctx t : HInv h ctx t → below (length h) (ids t ++ idsc ctx).
Proof. intros HI q. by apply bp_HInv_lt. Qed.

End Writes.

(** Normalise facts about pointer lists into atoms and solve the goal. *)
Ltac nd_rw :=
  repeat first
    [ progress rewrite ?bp_NoDup_app, ?bp_NoDup_cons, ?bp_NoDup_nil,
        ?bp_disj_app_l, ?bp_disj_app_r, ?bp_disj_cons_l, ?bp_disj_cons_r,
        ?bp_disj_nil_l, ?bp_disj_nil_r, ?bp_not_in_nil, ?bp_not_in_cons, ?bp_not_in_app,
        ?bp_below_app, ?bp_below_cons, ?bp_below_nil,
        ?bind_app, ?bind_cons, ?fmap_app, ?fmap_cons
    | progress rewrite ?bp_NoDup_app, ?bp_NoDup_cons, ?bp_NoDup_nil,
        ?bp_disj_app_l, ?bp_disj_app_r, ?bp_disj_cons_l, ?bp_disj_cons_r,
        ?bp_disj_nil_l, ?bp_disj_nil_r, ?bp_not_in_nil, ?bp_not_in_cons, ?bp_not_in_app,
        ?bp_below_app, ?bp_below_cons, ?bp_below_nil,
        ?bind_app, ?bind_cons, ?fmap_app, ?fmap_cons in * ].

Ltac nd_atom :=
  first
    [ assumption
    | exact I
    | by apply bp_disj_sym
    | by apply not_eq_sym
    | lia
    | by apply bp_below_fresh
    | match goal with
      | H : below ?n ?A |- ?a ≠ ?n => apply (bp_below_ne n a A H); assumption
      | H : below ?n ?A |- ?n ≠ ?a => apply not_eq_sym, (bp_below_ne n a A H); assumption
      | H : disj ?A ?B, Ha : ?a ∈ ?A |- ?a ∉ ?B => exact (bp_disj_in A B a H Ha)
      | H : disj ?A ?B, Ha : ?a ∈ ?B |- ?a ∉ ?A => exact (bp_disj_in' A B a H Ha)
      | H : below ?n ?A |- below ?m ?A => apply (bp_below_mono n m A H); lia
      | H : ?b ∉ ?A, Ha : ?a ∈ ?A |- ?a ≠ ?b =>
          let Heq := fresh in
          intros Heq; exact (H (eq_ind a (λ x, x ∈ A) Ha b Heq))
      | H : ?b ∉ ?A, Ha : ?a ∈ ?A |- ?b ≠ ?a =>
          let Heq := fresh in
          intros Heq; exact (H (eq_ind a (λ x, x ∈ A) Ha b (eq_sym Heq)))
      | H : below ?n ?A, Ha : ?a ∈ ?A |- ?a < ?m => pose proof (H a Ha); lia
      end ].

Ltac nd_solve :=
  nd_rw;
  repeat match goal with H : _ ∧ _ |- _ => destruct H end;
  repeat split; nd_atom.

(** The same in two steps: hypotheses once, then goals only. *)
Ltac nd_rw_goal :=
  repeat progress rewrite ?bp_NoDup_app, ?bp_NoDup_cons, ?bp_NoDup_nil,
    ?bp_disj_app_l, ?bp_disj_app_r, ?bp_disj_cons_l, ?bp_disj_cons_r,
    ?bp_disj_nil_l, ?bp_disj_nil_r, ?bp_not_in_nil, ?bp_not_in_cons, ?bp_not_in_app,
    ?bp_below_app, ?bp_below_cons, ?bp_below_nil,
    ?bind_app, ?bind_cons, ?fmap_app, ?fmap_cons.

Ltac nd_norm H :=
  repeat progress rewrite ?bp_NoDup_app, ?bp_NoDup_cons, ?bp_NoDup_nil,
    ?bp_disj_app_l, ?bp_disj_app_r, ?bp_disj_cons_l, ?bp_disj_cons_r,
    ?bp_disj_nil_l, ?bp_disj_nil_r, ?bp_not_in_nil, ?bp_not_in_cons, ?bp_not_in_app,
    ?bp_below_app, ?bp_below_cons, ?bp_below_nil,
    ?bind_app, ?bind_cons, ?fmap_app, ?fmap_cons in H;
  repeat match goal with H' : _ ∧ _ |- _ => destruct H' end.

Ltac nd_goal := nd_rw_goal; repeat split; nd_atom.

Ltac same_on_goal :=
  repeat (eapply bp_same_on_trans; [| apply bp_same_on_insert; nd_goal]);
  first [ apply bp_same_on_insert; nd_goal | intros ? ?; reflexivity ].

(** [same_on l h h'] when [h'] is [h] after writes outside [l]. *)
Ltac same_on_solve :=
  repeat (eapply bp_same_on_trans; [| apply bp_same_on_insert; nd_solve]);
  first [ apply bp_same_on_insert; nd_solve | intros ? ?; reflexivity ].

Ltac ne_solve := first [ done | congruence | apply not_eq_sym; done ].

(** * Insertion: splitting nodes up the path *)

Section Insertion.
Context {V : Type}.
Local Arguments Nat.div : simpl never.
Implicit Types (h : list (node V)) (t : bt V) (ctx : list (frame V)).

(** The state between a split and the insertion of the new sibling [R]
    into the parent: [R] already carries the parent link of [L], but the
    parent does not know it yet. *)
Record PInv h ctx (L R : bt V) : Prop := mkPInv {
  pi_ctx : RepC h ctx (rid L);
  pi_l : RepT h (cpar ctx) L;
  pi_r : RepT h (cpar ctx) R;
  pi_nodup : NoDup (ids L ++ ids R ++ idsc ctx);
  pi_chain : chain h (leaf_ids (ibefore ctx ++ inorder L ++ inorder R ++ iafter ctx)) None }.

Definition reparent_all (par' : option nat) (h : list (node V)) (cs : list nat)
  : option (list (node V)) :=
  foldl (λ oh child, h ← oh; modify h child (λ c, set_parent c par')) (Some h) cs.

Lemma bp_rid_ids_sub (cs : list (bt V)) : rid <$> cs ⊆ cs ≫= ids.
Proof.
  intros q (c & -> & Hc)%list_elem_of_fmap. apply list_elem_of_bind.
  exists c. split; [apply bp_rid_in_ids | done].
Qed.

Lemma bp_reparent_loop (cs : list (bt V)) :
  ∀ h par par',
    Forall (RepT h par) cs → NoDup (cs ≫= ids) →
    ∃ h', reparent_all par' h (rid <$> cs) = Some h' ∧
          Forall (RepT h' par') cs ∧
          (∀ q, q ∉ rid <$> cs → h' !! q = h !! q) ∧
          length h' = length h ∧
          (∀ l, next_pres l h h').
Proof.
  induction cs as [| c cs IH]; intros h par par' Hf HN.
  - exists h. split_and!; try done.
  - apply Forall_cons in Hf as [Hc Hf]. rewrite bind_cons in HN.
    apply NoDup_app in HN as (HNc & Hdisj & HNcs).
    destruct (bp_RepT_root _ _ _ Hc) as (nd & Hnd & Hpar).
    set (h1 := <[rid c := set_parent nd par']> h).
    assert (rid c ∉ cs ≫= ids) as Hrc by (apply Hdisj, bp_rid_in_ids).
    assert (Forall (RepT h1 par) cs) as Hf1.
    { eapply bp_RepTs_same; [| done]. by apply bp_same_on_insert. }
    destruct (IH h1 par par' Hf1 HNcs) as (h' & Hloop & Hf' & Hsame & Hlen & Hnext).
    exists h'. split_and!.
    + unfold reparent_all in *. rewrite fmap_cons. simpl. unfold modify at 2.
      rewrite Hnd. simpl. done.
    + apply Forall_cons. split; [| done].
      eapply (bp_RepT_reparent h h' par par' c nd); try done.
      * rewrite Hsame; [by apply list_lookup_insert_eq; eapply lookup_lt_Some |].
        intros Hin. by apply Hrc, bp_rid_ids_sub.
      * intros q Hq Hne. rewrite Hsame.
        -- unfold h1. by rewrite list_lookup_insert_ne.
        -- intros Hin. by apply (Hdisj q Hq), bp_rid_ids_sub.
    + intros q Hq. rewrite fmap_cons in Hq. apply not_elem_of_cons in Hq as [Hne Hq].
      rewrite Hsame by done. unfold h1. by rewrite list_lookup_insert_ne.
    + rewrite Hlen. unfold h1. by rewrite length_insert.
    + intros l. eapply bp_next_pres_trans; [| apply Hnext].
      unfold h1. eapply bp_next_pres_insert; [done |]. by destruct nd.
Qed.

Lemma bp_half (n : nat) : n = 2 * (n / 2) + n mod 2 ∧ n mod 2 < 2.
Proof. split; [apply Nat.div_mod_eq | by apply Nat.mod_upper_bound]. Qed.

Lemma bp_split_internal h rest p ks (cs : list (bt V)) ht m callee r d :
  HInv h rest (BNode p ks cs) → wf (mnof d) m (S ht) (BNode p ks cs) →
  (2 <= d)%Z → (len ks > d * 2 - 1)%Z →
  ∃ h3 NL NR pk,
    splitInternal_with callee (mkTree h r d) p = callee (mkTree h3 r d) p pk (rid NR) ∧
    rid NL = p ∧ PInv h3 rest NL NR ∧
    wf (mnof d) (mnof d) (S ht) NL ∧ wf (mnof d) (mnof d) (S ht) NR ∧
    inorder NL ++ ISep pk :: inorder NR = inorder (BNode p ks cs).
Proof.
  intros HI Hw Hd Hover. unfold len in Hover.
  pose proof (bp_HInv_below _ _ _ HI) as Hb.
  destruct HI as [HC HT HN HCh].
  inversion Hw as [| ? ? ? ? ? Hm Hlen Hf]; subst.
  apply bp_RepT_node_inv in HT as (nd & Hp & Hl & Hk & Hc & Hpar & Hcs).
  set (mid := length ks / 2).
  pose proof (bp_half (length ks)) as Hhalf. fold mid in Hhalf.
  assert (mid < length ks) as Hmid by lia.
  destruct (lookup_lt_is_Some_2 ks mid Hmid) as [pk Hpk].
  set (csL := take (S mid) cs). set (csR := drop (S mid) cs).
  assert (cs = csL ++ csR) as Hcs_split by (unfold csL, csR; by rewrite take_drop).
  set (nn := length h).
  set (nnode := @mkNode V false (drop (S mid) ks) (drop (S mid) (rid <$> cs)) [] None
                  (cpar rest)).
  set (h1 := h ++ [nnode]).
  assert (inorder (BNode p (take mid ks) csL) ++ ISep pk :: inorder (BNode nn (drop (S mid) ks) csR)
          = inorder (BNode p ks cs)) as Hin.
  { simpl. unfold csL, csR. rewrite fmap_take, fmap_drop. apply bp_inter_split; [done |].
    by rewrite length_fmap. }
  simpl in HN, Hb. rewrite Hcs_split in HN, Hb.
  pose proof Hcs as Hcs'. pose proof Hf as Hf'.
  rewrite Hcs_split in Hcs', Hf'. apply Forall_app in Hcs' as [HcsL HcsR].
  apply Forall_app in Hf' as [HfL HfR].
  assert (p < length h) as Hltp by (by eapply lookup_lt_Some).
  assert (Forall (RepT h1 (Some p)) csR) as HcsR1.
  { eapply bp_RepTs_same; [| done]. apply bp_same_on_alloc. fold (below (length h) (csR ≫= ids)).
    nd_solve. }
  assert (NoDup (csR ≫= ids)) as HNR by nd_solve.
  destruct (bp_reparent_loop csR h1 (Some p) (Some nn) HcsR1 HNR)
    as (h2 & Hloop & HfR2 & Hsame2 & Hlen2 & Hnext2).
  assert (∀ q, q ∉ csR ≫= ids → q < length h → h2 !! q = h !! q) as Hold2.
  { intros q Hq Hlt. rewrite Hsame2.
    - unfold h1. by rewrite lookup_app_l.
    - intros Hin'. by apply Hq, bp_rid_ids_sub. }
  assert (p ∉ csR ≫= ids) as HpR by nd_solve.
  assert (h2 !! p = Some nd) as Hp2 by (rewrite Hold2; done).
  set (h3 := <[p := set_children (set_keys nd (take mid ks)) (take (S mid) (rid <$> cs))]> h2).
  exists h3, (BNode p (take mid ks) csL), (BNode nn (drop (S mid) ks) csR), pk.
  split_and!.
  - unfold splitInternal_with. simpl. rewrite Hp. simpl. rewrite Hk. fold mid. rewrite Hpk. simpl.
    rewrite decide_True by (rewrite Hc, length_fmap; lia).
    rewrite Hc, Hpar.
    change (foldl _ _ (drop (S mid) (rid <$> cs)))
      with (reparent_all (Some nn) h1 (drop (S mid) (rid <$> cs))).
    rewrite <-fmap_drop. fold csR. rewrite Hloop. simpl. rewrite Hp2. simpl.
    by rewrite Hk, Hc.
  - done.
  - assert (same_on (idsc rest) h h3) as Hs_rest.
    { intros q Hq. unfold h3. rewrite list_lookup_insert_ne.
      - apply Hold2; [nd_solve |]. revert q Hq. fold (below (length h) (idsc rest)). nd_solve.
      - intros <-. revert Hq. change (p ∉ idsc rest). nd_solve. }
    assert (same_on (csL ≫= ids) h h3) as Hs_L.
    { intros q Hq. unfold h3. rewrite list_lookup_insert_ne.
      - apply Hold2; [nd_solve |]. revert q Hq. fold (below (length h) (csL ≫= ids)). nd_solve.
      - intros <-. revert Hq. change (p ∉ csL ≫= ids). nd_solve. }
    split.
    + simpl. by eapply bp_RepC_same.
    + econstructor.
      * unfold h3. apply list_lookup_insert_eq. rewrite Hlen2. unfold h1. rewrite length_app. lia.
      * done.
      * done.
      * simpl. unfold csL. by rewrite fmap_take.
      * done.
      * by eapply bp_RepTs_same.
    + econstructor.
      * unfold h3. rewrite list_lookup_insert_ne by lia. rewrite Hsame2.
        -- apply bp_lookup_alloc_new.
        -- intros Hin'%bp_rid_ids_sub. revert Hin'. change (nn ∉ csR ≫= ids). unfold nn. nd_solve.
      * done.
      * done.
      * simpl. unfold csR. by rewrite fmap_drop.
      * done.
      * eapply bp_RepTs_same; [| done]. by apply bp_same_on_insert.
    + simpl. unfold nn. nd_solve.
    + assert (leaf_ids (ibefore rest ++ inorder (BNode p (take mid ks) csL) ++
                inorder (BNode nn (drop (S mid) ks) csR) ++ iafter rest)
              = leaf_ids (whole rest (BNode p ks cs))) as ->.
      { unfold whole. rewrite <-Hin. rewrite !bp_leaf_ids_app, bp_leaf_ids_cons.
        by rewrite <-!app_assoc. }
      unfold h3. eapply bp_chain_pres.
      { eapply bp_next_pres_insert; [done |]. done. }
      eapply bp_chain_pres; [apply Hnext2 |]. by apply bp_chain_alloc.
  - constructor; [| | done].
    + rewrite length_take. unfold mnof. lia.
    + unfold csL. rewrite !length_take. lia.
  - constructor; [| | done].
    + rewrite length_drop. unfold mnof. lia.
    + unfold csR. rewrite !length_drop. lia.
  - done.
Qed.

Lemma bp_set_parent_id (nd : node V) par : parent nd = par → set_parent nd par = nd.
Proof. intros <-. by destruct nd. Qed.

Lemma bp_take_S_app {A} (l : list A) x l' : take (S (length l)) (l ++ x :: l') = l ++ [x].
Proof. rewrite cons_middle, app_assoc. apply take_app_length'. rewrite length_app. simpl. lia. Qed.

Lemma bp_drop_S_app {A} (l : list A) x l' : drop (S (length l)) (l ++ x :: l') = l'.
Proof. rewrite cons_middle, app_assoc. apply drop_app_length'. rewrite length_app. simpl. lia. Qed.

Lemma bp_drop_SS_app {A} (l : list A) x y l' :
  drop (S (S (length l))) (l ++ x :: y :: l') = l'.
Proof.
  rewrite (cons_middle x), app_assoc.
  replace (S (length l)) with (length (l ++ [x])) by (rewrite length_app; simpl; lia).
  apply bp_drop_S_app.
Qed.

Lemma bp_PInv_below h ctx L R :
  PInv h ctx L R → below (length h) (ids L ++ ids R ++ idsc ctx).
Proof.
  intros [HC HL HR _ _] q [Hq | [Hq | Hq]%elem_of_app]%elem_of_app.
  - exact (bp_RepT_lt _ _ _ _ HL Hq).
  - exact (bp_RepT_lt _ _ _ _ HR Hq).
  - exact (bp_RepC_lt _ _ _ _ HC Hq).
Qed.

Lemma bp_rid_fst_sub (l : list (bt V * Z)) : rid ∘ fst <$> l ⊆ (fst <$> l) ≫= ids.
Proof. rewrite list_fmap_compose. apply bp_rid_ids_sub. Qed.

(** Inserting the pair [(k, R)] to the right of the focus of a frame. *)
Definition fpush (f : frame V) (k : Z) (R : bt V) : frame V :=
  Frame (fp f) (fl f) ((k, R) :: fr f).

Lemma bp_whole_fpush (f : frame V) rest L k R :
  whole (fpush f k R :: rest) L
  = ibefore (f :: rest) ++ inorder L ++ ISep k :: inorder R ++ iafter (f :: rest).
Proof.
  unfold whole, fpush. simpl. by rewrite <-!app_assoc.
Qed.

Lemma bp_leaf_ids_sep (A B C : list (item V)) k :
  leaf_ids (A ++ B ++ ISep k :: C) = leaf_ids (A ++ B ++ C).
Proof. by rewrite !bp_leaf_ids_app, bp_leaf_ids_cons. Qed.

Lemma bp_PInv_push h f rest L R k :
  PInv h (f :: rest) L R →
  ∃ nd, h !! fp f = Some nd ∧
    index_of (rid L) (children nd) = length (fl f) ∧
    keys nd = fkeys f ∧ children nd = fchildren f (rid L) ∧
    let ks := take (length (fl f)) (keys nd) ++ k :: drop (length (fl f)) (keys nd) in
    let cs := take (S (length (fl f))) (children nd) ++ rid R
                :: drop (S (length (fl f))) (children nd) in
    ks = fkeys (fpush f k R) ∧
    HInv (<[fp f := set_children (set_keys nd ks) cs]> h) (fpush f k R :: rest) L.
Proof.
  intros HP. pose proof (bp_PInv_below _ _ _ _ HP) as Hb.
  destruct HP as [HC HL HR HN HCh].
  destruct HC as ((nd & Hnd & Hleaf & Hk & Hc & Hpar) & Hsib & HC).
  simpl in HN, Hb. unfold siblings in HN, Hb, Hsib.
  assert (rid L ∉ rid ∘ fst <$> fl f) as HLfl.
  { pose proof (bp_rid_in_ids L) as HLin.
    assert (rid L ∉ (fst <$> fl f) ≫= ids) as Hn by nd_solve.
    intros Hin%bp_rid_fst_sub. done. }
  exists nd. split; [done |].
  assert (index_of (rid L) (children nd) = length (fl f)) as Hidx.
  { rewrite Hc. unfold fchildren. rewrite bp_index_of_app by done. by rewrite length_fmap. }
  split; [done |]. split; [done |]. split; [done |]. intros ks cs.
  assert (ks = fkeys (fpush f k R)) as Hks.
  { unfold ks, fkeys, fpush. simpl. rewrite Hk. unfold fkeys.
    rewrite <-(length_fmap snd (fl f)). by rewrite take_app_length, drop_app_length. }
  assert (cs = fchildren (fpush f k R) (rid L)) as Hcs.
  { unfold cs, fchildren, fpush. simpl. rewrite Hc. unfold fchildren.
    rewrite <-(length_fmap (rid ∘ fst) (fl f)).
    rewrite bp_take_S_app, bp_drop_S_app. by rewrite <-app_assoc. }
  split; [done |].
  set (h2 := <[fp f := set_children (set_keys nd ks) cs]> h).
  assert (fp f < length h) as Hlt by (by eapply lookup_lt_Some).
  split.
  - simpl. split_and!.
    + exists (set_children (set_keys nd ks) cs). split_and!; try done.
      unfold h2. by apply list_lookup_insert_eq.
    + unfold siblings, fpush. simpl. apply Forall_app. apply Forall_app in Hsib as [Hs1 Hs2].
      split; [| apply Forall_cons; split].
      * eapply bp_RepTs_same; [| done]. apply bp_same_on_insert. nd_solve.
      * eapply bp_RepT_same; [| done]. apply bp_same_on_insert. nd_solve.
      * eapply bp_RepTs_same; [| done]. apply bp_same_on_insert. nd_solve.
    + eapply bp_RepC_same; [| done]. apply bp_same_on_insert. nd_solve.
  - eapply bp_RepT_same; [| done]. apply bp_same_on_insert. nd_solve.
  - simpl. unfold siblings, fpush. simpl. nd_solve.
  - rewrite bp_whole_fpush, bp_leaf_ids_sep.
    eapply bp_chain_pres; [| done]. by eapply bp_next_pres_insert.
Qed.

Lemma bp_iip_root h L k R ht d r :
  PInv h [] L R → wf (mnof d) (mnof d) ht L → wf (mnof d) (mnof d) ht R →
  ∀ fuel, ∃ h' t',
    insertIntoParent (S fuel) (mkTree h r d) (rid L) k (rid R)
      = Some (mkTree h' (Some (rid t')) d) ∧
    HInv h' [] t' ∧ SInv (mnof d) (S ht) [] t' ∧
    inorder t' = inorder L ++ ISep k :: inorder R.
Proof.
  intros HP HwL HwR fuel. pose proof (bp_PInv_below _ _ _ _ HP) as Hb.
  destruct HP as [_ HL HR HN HCh]. simpl in HL, HR, HN, HCh, Hb.
  rewrite app_nil_r in HN, HCh, Hb.
  destruct (bp_RepT_root _ _ _ HL) as (ndL & HndL & HparL).
  destruct (bp_RepT_root _ _ _ HR) as (ndR & HndR & HparR).
  pose proof (bp_rid_in_ids L) as HLin. pose proof (bp_rid_in_ids R) as HRin.
  assert (rid L ≠ rid R) as Hne.
  { intros Heq. assert (rid L ∉ ids R) as Hn by nd_solve. apply Hn. by rewrite Heq. }
  set (nr := length h).
  set (nroot := @mkNode V false [k] [rid L; rid R] [] None None).
  set (h1 := h ++ [nroot]).
  set (h2 := <[rid L := set_parent ndL (Some nr)]> h1).
  set (h3 := <[rid R := set_parent ndR (Some nr)]> h2).
  assert (rid L < length h) as HltL by (by eapply lookup_lt_Some).
  assert (rid R < length h) as HltR by (by eapply lookup_lt_Some).
  assert (h1 !! rid L = Some ndL) as H1L by (unfold h1; by rewrite lookup_app_l).
  assert (h2 !! rid R = Some ndR) as H2R.
  { unfold h2. rewrite list_lookup_insert_ne by done. unfold h1. by rewrite lookup_app_l. }
  assert (length h1 = S (length h)) as Hlen1 by (unfold h1; rewrite length_app; simpl; lia).
  assert (∀ q, q ≠ rid L → q ≠ rid R → q < length h → h3 !! q = h !! q) as Hold.
  { intros q H1 H2 Hlt. unfold h3, h2. rewrite !list_lookup_insert_ne by done.
    unfold h1. by rewrite lookup_app_l. }
  exists h3, (BNode nr [k] [L; R]). split_and!.
  - simpl. rewrite HndL. simpl. rewrite HparL. simpl.
    unfold modify. fold nroot. fold h1. rewrite H1L. simpl. fold nr. fold h2.
    rewrite H2R. simpl. done.
  - split.
    + done.
    + econstructor.
      * unfold h3, h2. rewrite !list_lookup_insert_ne by (unfold nr; lia).
        apply bp_lookup_alloc_new.
      * done.
      * done.
      * done.
      * done.
      * apply Forall_cons. split; [| apply Forall_cons; split; [| done]].
        -- eapply (bp_RepT_reparent h h3 None (Some nr) L ndL); try done.
           ++ nd_solve.
           ++ unfold h3. rewrite list_lookup_insert_ne by done. unfold h2.
              apply list_lookup_insert_eq. lia.
           ++ intros q Hq Hq'. apply Hold; [done | |].
              ** intros ->. revert Hq. change (rid R ∉ ids L). nd_solve.
              ** revert q Hq Hq'. intros q Hq _. revert q Hq. fold (below (length h) (ids L)).
                 nd_solve.
        -- eapply (bp_RepT_reparent h h3 None (Some nr) R ndR); try done.
           ++ nd_solve.
           ++ unfold h3. apply list_lookup_insert_eq. unfold h2.
              rewrite length_insert. lia.
           ++ intros q Hq Hq'. apply Hold; [| done |].
              ** intros ->. revert Hq. change (rid L ∉ ids R). nd_solve.
              ** revert q Hq Hq'. intros q Hq _. revert q Hq. fold (below (length h) (ids R)).
                 nd_solve.
    + simpl. rewrite !app_nil_r. unfold nr. nd_solve.
    + rewrite bp_whole_nil. simpl.
      change (chain h3 (leaf_ids (inorder L ++ ISep k :: inorder R ++ [])) None).
      rewrite app_nil_r. rewrite <-(app_nil_l (inorder L ++ _)).
      rewrite bp_leaf_ids_sep. simpl.
      unfold h3. eapply bp_chain_pres; [by eapply bp_next_pres_insert |].
      unfold h2. eapply bp_chain_pres; [by eapply bp_next_pres_insert |].
      by apply bp_chain_alloc.
  - split; [done |]. constructor; simpl; [lia | done |].
    apply Forall_cons. split; [done |]. apply Forall_cons. split; done.
  - simpl. by rewrite app_nil_r.
Qed.

Lemma bp_iip_spec ctx :
  ∀ h L k R ht fuel d,
    PInv h ctx L R → wfc (mnof d) ht ctx →
    wf (mnof d) (mnof d) ht L → wf (mnof d) (mnof d) ht R →
    (2 <= d)%Z → length ctx < fuel →
    ∃ h' t' ht',
      insertIntoParent fuel (mkTree h (Some (croot ctx (rid L))) d) (rid L) k (rid R)
        = Some (mkTree h' (Some (rid t')) d) ∧
      HInv h' [] t' ∧ SInv (mnof d) ht' [] t' ∧
      inorder t' = ibefore ctx ++ inorder L ++ ISep k :: inorder R ++ iafter ctx.
Proof.
  induction ctx as [| f rest IH]; intros h L k R ht fuel d HP Hwc HwL HwR Hd Hfuel.
  - destruct fuel as [| fuel]; [simpl in Hfuel; lia |].
    destruct (bp_iip_root h L k R ht d (Some (rid L)) HP HwL HwR fuel)
      as (h' & t' & Hrun & HI & HS & Hin).
    exists h', t', (S ht). split_and!; try done.
    simpl. by rewrite app_nil_r.
  - destruct fuel as [| fuel]; [simpl in Hfuel; lia |]. simpl in Hfuel.
    destruct (bp_PInv_push h f rest L R k HP) as (nd & Hnd & Hidx & Hk & Hc & Hks & HI).
    pose proof HP as [HC HL HR HN HCh].
    destruct HC as ((nd' & Hnd' & Hleaf & _ & _ & Hpar) & Hsib & HC).
    assert (nd' = nd) as -> by congruence.
    destruct (bp_RepT_root _ _ _ HL) as (ndL & HndL & HparL).
    destruct (bp_RepT_root _ _ _ HR) as (ndR & HndR & HparR).
    destruct Hwc as (Hwsib & Hneed & Hwc).
    set (ks := take (length (fl f)) (keys nd) ++ k :: drop (length (fl f)) (keys nd)) in *.
    set (cs := take (S (length (fl f))) (children nd) ++ rid R
                 :: drop (S (length (fl f))) (children nd)) in *.
    set (h2 := <[fp f := set_children (set_keys nd ks) cs]> h) in *.
    apply bp_HInv_fnode in HI.
    assert (wf (mnof d) (need (mnof d) rest) (S ht) (fnode (fpush f k R) L)) as Hwn.
    { unfold fnode, fpush, fkeys. cbn [fl fr fp]. rewrite !fmap_cons. cbn [fst snd].
      constructor.
      - unfold fkeys in Hneed. rewrite length_app, !length_fmap in Hneed.
        rewrite length_app. cbn [length]. rewrite !length_fmap. lia.
      - rewrite !length_app. cbn [length]. rewrite !length_fmap. lia.
      - unfold siblings in Hwsib. apply Forall_app in Hwsib as [Hw1 Hw2].
        apply Forall_app. split; [done |]. apply Forall_cons. split; [done |].
        apply Forall_cons. split; done. }
    assert (insertIntoParent (S fuel) (mkTree h (Some (croot (f :: rest) (rid L))) d)
              (rid L) k (rid R)
            = if decide (len ks > d * 2 - 1)%Z
              then splitInternal_with (insertIntoParent fuel)
                     (mkTree h2 (Some (croot rest (fp f))) d) (fp f)
              else Some (mkTree h2 (Some (croot rest (fp f))) d)) as Hrun.
    { simpl. rewrite HndL. simpl. rewrite HparL. simpl.
      unfold modify. rewrite HndR. simpl.
      rewrite (bp_set_parent_id ndR) by done. rewrite list_insert_id by done.
      rewrite Hnd. simpl. rewrite Hidx.
      rewrite decide_True.
      2:{ rewrite Hk, Hc. unfold fkeys, fchildren. rewrite !length_app. simpl.
          rewrite !length_fmap. lia. }
      done. }
    rewrite Hrun. clear Hrun.
    destruct (decide (len ks > d * 2 - 1)%Z) as [Hover | Hfit].
    + unfold fnode in HI, Hwn. rewrite <-Hks in HI, Hwn.
      destruct (bp_split_internal h2 rest (fp f) ks _ ht _ (insertIntoParent fuel)
                  (Some (croot rest (fp f))) d HI Hwn Hd Hover)
        as (h3 & NL & NR & pk & Hsp & HridL & HP3 & HwNL & HwNR & Hin3).
      rewrite Hsp. rewrite <-HridL.
      destruct (IH h3 NL pk NR (S ht) fuel d HP3 Hwc HwNL HwNR Hd ltac:(lia))
        as (h' & t' & ht' & Hrun' & HI' & HS' & Hin').
      exists h', t', ht'. split_and!; try done.
      rewrite Hin'.
      change (ISep pk :: inorder NR ++ iafter rest) with ((ISep pk :: inorder NR) ++ iafter rest).
      rewrite (app_assoc (inorder NL)). rewrite Hin3. rewrite Hks.
      change (BNode (fp f) (fkeys (fpush f k R)) _) with (fnode (fpush f k R) L).
      rewrite bp_inorder_fnode. simpl.
      by repeat first [rewrite <-app_assoc | rewrite <-app_comm_cons].
    + destruct (bp_SInv_plug (mnof d) (S ht) rest (fnode (fpush f k R) L)) as [ht' HS'];
        [by split |].
      exists h2, (plug rest (fnode (fpush f k R) L)), ht'. split_and!.
      * by rewrite bp_rid_plug.
      * by apply bp_HInv_plug.
      * done.
      * rewrite <-bp_whole_nil, bp_whole_plug. unfold whole.
        rewrite bp_inorder_fnode. simpl.
        by repeat first [rewrite <-app_assoc | rewrite <-app_comm_cons].
Qed.

End Insertion.

(** * Insertion: the leaf level and [Insert] *)

Section InsertTop.
Context {V : Type}.
Local Arguments Nat.div : simpl never.
Implicit Types (h : list (node V)) (t : bt V) (ctx : list (frame V)).

Lemma bp_ekey_lt (e e' : Entry V) : (ekey e < ekey e')%Z ↔ (Key e < Key e')%Z.
Proof. unfold ekey. lia. Qed.

Lemma bp_sorted_entries_cons (e : Entry V) es :
  sorted (ekey <$> e :: es) ↔ sorted (ekey <$> es) ∧ ∀ x, x ∈ es → (Key e < Key x)%Z.
Proof.
  rewrite fmap_cons, bp_sorted_cons. split; intros [Hs Hl]; (split; [done |]).
  - intros x Hx. apply bp_ekey_lt. apply Hl; [by apply list_elem_of_singleton |].
    by apply list_elem_of_fmap_2.
  - intros a b ->%list_elem_of_singleton (x & -> & Hx)%list_elem_of_fmap.
    apply bp_ekey_lt. by apply Hl.
Qed.

Lemma bp_insert_pos_take key (es : list (Entry V)) e :
  e ∈ take (insert_pos key es) es → (Key e < key)%Z.
Proof.
  induction es as [| a es IH]; simpl; [by intros ?%elem_of_nil |].
  case_decide; simpl; [| by intros ?%elem_of_nil].
  intros [-> | He]%elem_of_cons; [done | by apply IH].
Qed.

Lemma bp_insert_pos_drop key (es : list (Entry V)) e :
  sorted (ekey <$> es) → e ∈ drop (insert_pos key es) es → (key <= Key e)%Z.
Proof.
  induction es as [| a es IH]; simpl; [by intros _ ?%elem_of_nil |].
  intros [Hs Hl]%bp_sorted_entries_cons. case_decide as Hd; simpl.
  - by apply IH.
  - intros [-> | He]%elem_of_cons; [lia |]. specialize (Hl e He). lia.
Qed.

Lemma bp_insert_pos_le key (es : list (Entry V)) : insert_pos key es ≤ length es.
Proof. induction es; simpl; [lia |]. case_decide; simpl; lia. Qed.

Lemma bp_sorted_entries_app (A B : list (Entry V)) :
  sorted (ekey <$> A ++ B) ↔
  sorted (ekey <$> A) ∧ sorted (ekey <$> B) ∧ ∀ a b, a ∈ A → b ∈ B → (Key a < Key b)%Z.
Proof.
  rewrite fmap_app, bp_sorted_app. split; intros (HA & HB & Hl); split_and!; try done.
  - intros a b Ha Hb. apply bp_ekey_lt. apply Hl; by apply list_elem_of_fmap_2.
  - intros x y (a & -> & Ha)%list_elem_of_fmap (b & -> & Hb)%list_elem_of_fmap.
    apply bp_ekey_lt. by apply Hl.
Qed.

Lemma bp_insert_pos_sorted key v (es : list (Entry V)) :
  sorted (ekey <$> es) → (∀ e, e ∈ es → Key e ≠ key) →
  sorted (ekey <$> take (insert_pos key es) es ++ mkEntry key v :: drop (insert_pos key es) es).
Proof.
  intros Hs Hne. set (i := insert_pos key es).
  rewrite <-(take_drop i es) in Hs. apply bp_sorted_entries_app in Hs as (HA & HB & Hl).
  apply bp_sorted_entries_app. split; [done |]. split.
  - apply bp_sorted_entries_cons. split; [done |]. intros x Hx. simpl.
    assert (key <= Key x)%Z.
    { eapply bp_insert_pos_drop; [| done]. rewrite <-(take_drop i es).
      by apply bp_sorted_entries_app. }
    assert (Key x ≠ key); [| lia].
    apply Hne. rewrite <-(take_drop i es). apply elem_of_app. by right.
  - intros a b Ha [-> | Hb]%elem_of_cons.
    + simpl. by eapply bp_insert_pos_take.
    + by apply Hl.
Qed.

(** Replacing the entries of the focused leaf. *)
Lemma bp_OInv_leaf_insert ctx p (es es' : list (Entry V)) key :
  OInv ctx (BLeaf p es) → routed key ctx → sorted (ekey <$> es') →
  (∀ e, e ∈ es' → e ∈ es ∨ Key e = key) →
  OInv ctx (BLeaf p es').
Proof.
  unfold OInv. rewrite !bp_keys2_whole_leaf. intros Hs [Hb Ha] Hs' Hsub.
  apply bp_sorted_app in Hs as (Hsb & Hs & Hlb).
  apply bp_sorted_app in Hs as (Hse & Hsa & Hla).
  apply bp_lt_all_app_r in Hlb as [Hlbe Hlba].
  apply bp_sorted_app. split; [done |]. split.
  - apply bp_sorted_app. split; [done |]. split; [done |].
    intros x y (e & -> & He)%list_elem_of_fmap Hy.
    destruct (Hsub e He) as [Hin | <-].
    + apply Hla; [by apply list_elem_of_fmap_2 | done].
    + apply Ha; [by apply list_elem_of_singleton | done].
  - apply bp_lt_all_app_r. split; [| done].
    intros x y Hx (e & -> & He)%list_elem_of_fmap.
    destruct (Hsub e He) as [Hin | <-].
    + apply Hlbe; [done | by apply list_elem_of_fmap_2].
    + apply Hb; [done | by apply list_elem_of_singleton].
Qed.

Lemma bp_models_leaf_insert ctx p (es es' : list (Entry V)) key v M :
  routed key ctx → models (contents (whole ctx (BLeaf p es))) M →
  (∀ e, e ∈ es' ↔ e = mkEntry key v ∨ (e ∈ es ∧ Key e ≠ key)) →
  models (contents (whole ctx (BLeaf p es'))) (<[key := v]> M).
Proof.
  intros HR HM Hes' k w. unfold models in HM.
  assert (∀ e, e ∈ contents (ibefore ctx) ∨ e ∈ contents (iafter ctx) → Key e ≠ key) as Hout.
  { intros e He Hk.
    assert (e ∈ contents (whole ctx (BLeaf p (@nil (Entry V))))) as Hin.
    { rewrite bp_contents_whole_leaf. simpl. apply elem_of_app. tauto. }
    apply (bp_routed_mem key ctx p [] e HR) in Hin; [| done]. by apply elem_of_nil in Hin. }
  rewrite bp_contents_whole_leaf. rewrite bp_contents_whole_leaf in HM.
  destruct (decide (k = key)) as [-> | Hne].
  - rewrite lookup_insert_eq. split.
    + intros [= ->]. apply elem_of_app. right. apply elem_of_app. left. apply Hes'. by left.
    + intros [Hin | [Hin | Hin]%elem_of_app]%elem_of_app.
      * exfalso. apply (Hout _ (or_introl Hin)). done.
      * apply Hes' in Hin as [[= ->] | [_ Hk]]; [done | simpl in Hk; done].
      * exfalso. apply (Hout _ (or_intror Hin)). done.
  - rewrite lookup_insert_ne by done. rewrite HM.
    rewrite !elem_of_app. rewrite Hes'. split.
    + intros [? | [? | ?]]; [tauto | | tauto]. right. left. right. done.
    + intros [? | [[[= ? ?] | [? ?]] | ?]]; [tauto | congruence | tauto | tauto].
Qed.

Lemma bp_Inv_of_inorder h t ht d M :
  (2 <= d)%Z → HInv h [] t → SInv (mnof d) ht [] t → sorted (keys2 (inorder t)) →
  models (contents (inorder t)) M →
  Inv (mkTree h (Some (rid t)) d) M.
Proof.
  intros Hd HI HS HO HM. split; [done |]. simpl. exists t, ht. split_and!; try done.
  unfold OInv. by rewrite bp_whole_nil.
Qed.

Lemma bp_length_ctx ctx : length ctx ≤ length (idsc ctx).
Proof.
  induction ctx as [| f rest IH]; simpl; [done |]. rewrite length_app. lia.
Qed.

Lemma bp_HInv_ctx_bound h ctx t : HInv h ctx t → length ctx < length h.
Proof.
  intros HI.
  assert (length (ids t ++ idsc ctx) ≤ length h).
  { apply bp_nodup_bound; [apply HI |]. intros q. by apply bp_HInv_lt. }
  rewrite length_app in *. pose proof (bp_length_ctx ctx).
  assert (0 < length (ids t)); [| lia].
  destruct t; simpl; lia.
Qed.

Lemma bp_splitLeaf_spec h ctx p (es : list (Entry V)) d fuel :
  HInv h ctx (BLeaf p es) → wfc (mnof d) 0 ctx → OInv ctx (BLeaf p es) →
  (2 <= d)%Z → (len es > d * 2 - 1)%Z → length ctx < fuel →
  ∃ h' t' ht',
    splitLeaf fuel (mkTree h (Some (croot ctx p)) d) p = Some (mkTree h' (Some (rid t')) d) ∧
    HInv h' [] t' ∧ SInv (mnof d) ht' [] t' ∧ sorted (keys2 (inorder t')) ∧
    contents (inorder t') = contents (whole ctx (BLeaf p es)).
Proof.
  intros HI Hwc HO Hd Hover Hfuel. unfold len in Hover.
  pose proof (bp_HInv_below _ _ _ HI) as Hb.
  destruct HI as [HC HT HN HCh].
  apply bp_RepT_leaf_inv in HT as (nd & Hp & Hl & He & Hpar).
  set (mid := length es / 2).
  pose proof (bp_half (length es)) as Hhalf. fold mid in Hhalf.
  assert (mid < length es) as Hmid by lia.
  assert (1 ≤ mid) as Hmid1 by lia.
  destruct (lookup_lt_is_Some_2 es mid Hmid) as [e0 He0].
  destruct (lookup_lt_is_Some_2 es 0 ltac:(lia)) as [e1 He1].
  set (nn := length h).
  set (nleaf := @mkNode V true [] [] (drop mid es) (next nd) (parent nd)).
  set (h1 := h ++ [nleaf]).
  set (h2 := <[p := set_next (set_entries nd (take mid es)) (Some nn)]> h1).
  set (L := BLeaf p (take mid es)). set (R := BLeaf nn (drop mid es)).
  simpl in HN, Hb.
  assert (p < length h) as Hltp by (by eapply lookup_lt_Some).
  assert (same_on (idsc ctx) h h2) as Hs.
  { intros q Hq. unfold h2. rewrite list_lookup_insert_ne.
    - unfold h1. rewrite lookup_app_l; [done |]. revert q Hq.
      fold (below (length h) (idsc ctx)). nd_solve.
    - intros <-. revert Hq. change (p ∉ idsc ctx). nd_solve. }
  assert (h2 !! nn = Some nleaf) as Hnn.
  { unfold h2. rewrite list_lookup_insert_ne by (unfold nn; lia). apply bp_lookup_alloc_new. }
  assert (PInv h2 ctx L R) as HP.
  { split.
    - simpl. by eapply bp_RepC_same.
    - apply (RepT_leaf h2 _ p _ (set_next (set_entries nd (take mid es)) (Some nn)));
        [| done..].
      unfold h2. apply list_lookup_insert_eq. unfold h1. rewrite length_app. lia.
    - by apply (RepT_leaf h2 _ nn _ nleaf).
    - simpl. unfold nn. nd_solve.
    - simpl. rewrite !bp_leaf_ids_app. simpl.
      rewrite bp_leaf_ids_whole_leaf in HCh.
      apply bp_chain_app in HCh as [HCb HCa]. simpl in HCb, HCa. destruct HCa as [HCp HCa].
      apply bp_chain_app. simpl. split_and!.
      + eapply bp_chain_same; [| done]. intros q Hq. f_equal. apply Hs.
        by apply bp_leaf_ids_before.
      + unfold h2. rewrite list_lookup_insert_eq; [done |].
        unfold h1. rewrite length_app. lia.
      + rewrite Hnn. simpl. rewrite Hp in HCp. simpl in HCp. done.
      + eapply bp_chain_same; [| done]. intros q Hq. f_equal. apply Hs.
        by apply bp_leaf_ids_after. }
  assert (wf (mnof d) (mnof d) 0 L) as HwL.
  { constructor. rewrite length_take. unfold mnof. lia. }
  assert (wf (mnof d) (mnof d) 0 R) as HwR.
  { constructor. rewrite length_drop. unfold mnof. lia. }
  assert (drop mid es !! 0 = Some e0) as Hd0.
  { rewrite lookup_drop. by rewrite Nat.add_0_r. }
  destruct (bp_iip_spec ctx h2 L (Key e0) R 0 fuel d HP Hwc HwL HwR Hd Hfuel)
    as (h' & t' & ht' & Hrun & HI' & HS' & Hin').
  exists h', t', ht'. split_and!; try done.
  - unfold splitLeaf. simpl. rewrite Hp. simpl. rewrite He. fold mid. fold nleaf. fold h1.
    fold nn. fold h2. rewrite Hnn. simpl. rewrite Hd0. simpl. exact Hrun.
  - rewrite Hin'. unfold OInv in HO. rewrite bp_keys2_whole_leaf in HO.
    rewrite <-(take_drop mid es) in HO.
    apply bp_sorted_app in HO as (Hsb & HO & Hlb).
    apply bp_sorted_app in HO as (Hse & Hsa & Hla).
    apply bp_sorted_entries_app in Hse as (HsL & HsR & HLR).
    rewrite fmap_app in Hlb, Hla.
    apply bp_lt_all_app_r in Hlb as [Hlbe Hlba].
    apply bp_lt_all_app_r in Hlbe as [HlbL HlbR].
    apply bp_lt_all_app_l in Hla as [HlLa HlRa].
    assert (e0 ∈ drop mid es) as He0in by (by eapply list_elem_of_lookup_2).
    assert (e1 ∈ take mid es) as He1in.
    { apply (list_elem_of_lookup_2 _ 0). rewrite lookup_take_lt by lia. done. }
    assert (∀ x, x ∈ drop mid es → (Key e0 <= Key x)%Z) as Hmin.
    { intros x Hx. destruct (drop mid es) as [| a tl] eqn:Hdr; [by apply elem_of_nil in Hx |].
      simpl in Hd0. injection Hd0 as ->.
      apply bp_sorted_entries_cons in HsR as [_ HsR].
      apply elem_of_cons in Hx as [-> | Hx]; [lia |]. specialize (HsR x Hx). lia. }
    rewrite !bp_keys2_app, bp_keys2_cons, bp_keys2_app. simpl. rewrite !app_nil_r.
    apply bp_sorted_app. split; [done |]. split.
    + apply bp_sorted_app. split; [done |]. split.
      * apply bp_sorted_cons. split.
        -- apply bp_sorted_app. split_and!; done.
        -- apply bp_lt_all_app_r. split.
           ++ intros x y ->%list_elem_of_singleton (e & -> & Hin)%list_elem_of_fmap.
              specialize (Hmin e Hin). unfold ekey. lia.
           ++ intros x y ->%list_elem_of_singleton Hy.
              specialize (HlRa (ekey e0) y (list_elem_of_fmap_2 ekey _ _ He0in) Hy).
              unfold ekey in HlRa. lia.
      * apply bp_lt_all_cons_r. split.
        -- intros x (e & -> & Hin)%list_elem_of_fmap. specialize (HLR e e0 Hin He0in).
           unfold ekey. lia.
        -- apply bp_lt_all_app_r. split; [| done].
           intros x y (a & -> & Ha)%list_elem_of_fmap (b & -> & Hb')%list_elem_of_fmap.
           apply bp_ekey_lt. by apply HLR.
    + apply bp_lt_all_app_r. split; [done |].
      apply bp_lt_all_cons_r. split.
      * intros x Hx.
        specialize (HlbL x (ekey e1) Hx (list_elem_of_fmap_2 ekey _ _ He1in)).
        specialize (HLR e1 e0 He1in He0in). unfold ekey in HlbL. lia.
      * apply bp_lt_all_app_r. split; done.
  - rewrite Hin'. rewrite bp_contents_whole_leaf.
    rewrite !bp_contents_app, bp_contents_cons, bp_contents_app. simpl.
    rewrite !app_nil_r. by rewrite (app_assoc (take mid es)), take_drop.
Qed.

Lemma bp_overwrite_mem (es : list (Entry V)) i e v :
  sorted (ekey <$> es) → es !! i = Some e →
  sorted (ekey <$> <[i := mkEntry (Key e) v]> es) ∧
  length (<[i := mkEntry (Key e) v]> es) = length es ∧
  ∀ x, x ∈ <[i := mkEntry (Key e) v]> es ↔
       x = mkEntry (Key e) v ∨ (x ∈ es ∧ Key x ≠ Key e).
Proof.
  intros Hs Hi. split_and!.
  - rewrite list_fmap_insert. rewrite list_insert_id; [done |].
    rewrite list_lookup_fmap, Hi. done.
  - by rewrite length_insert.
  - pose proof (lookup_lt_Some _ _ _ Hi) as Hlt.
    rewrite insert_take_drop by done.
    rewrite <-(take_drop_middle es i e Hi) in Hs.
    apply bp_sorted_entries_app in Hs as (HA & HB & HAB).
    apply bp_sorted_entries_cons in HB as [HB HeB].
    intros x. rewrite <-(take_drop_middle es i e Hi) at 3.
    rewrite !elem_of_app, !elem_of_cons. split.
    + intros [Hx | [-> | Hx]]; [| by left |]; right.
      * split; [by left |]. specialize (HAB x e Hx). rewrite elem_of_cons in HAB.
        specialize (HAB (or_introl eq_refl)). lia.
      * split; [by right; right |]. specialize (HeB x Hx). lia.
    + intros [-> | [[Hx | [-> | Hx]] Hne]]; [by right; left | by left | done | by right; right].
Qed.

Lemma bp_insert_mem (es : list (Entry V)) key v :
  (∀ e, e ∈ es → Key e ≠ key) →
  ∀ x, x ∈ take (insert_pos key es) es ++ mkEntry key v :: drop (insert_pos key es) es ↔
       x = mkEntry key v ∨ (x ∈ es ∧ Key x ≠ key).
Proof.
  intros Hne x. set (i := insert_pos key es).
  rewrite <-(take_drop i es) at 3.
  rewrite !elem_of_app, !elem_of_cons. split.
  - intros [Hx | [-> | Hx]]; [| by left |]; right.
    + split; [by left |]. apply Hne. rewrite <-(take_drop i es). apply elem_of_app. by left.
    + split; [by right |]. apply Hne. rewrite <-(take_drop i es). apply elem_of_app. by right.
  - intros [-> | [[Hx | Hx] _]]; [by right; left | by left | by right; right].
Qed.

(** [Insert] never fails on a well-formed tree, keeps it well formed, and
    maps [key] to [v] leaving every other key alone. *)
Lemma bp_Insert_spec (T : BPlusTree V) M key v :
  Inv T M → ∃ T', Insert T key v = Some T' ∧ Inv T' (<[key := v]> M) ∧ degree T' = degree T.
Proof.
  intros HI. pose proof HI as [Hd HI0]. destruct T as [h r d]. simpl in *.
  unfold Insert. simpl. destruct r as [r |].
  - destruct (bp_Inv_descend _ M key r HI eq_refl)
      as (ctx & p & es & Hf & HH & HS & HO & HR & HM & Hc & _ & _).
    simpl in *. rewrite Hf. simpl.
    pose proof HH as [_ HT _ _]. apply bp_RepT_leaf_inv in HT as (nd & Hp & _ & He & _).
    subst es. set (es := entries nd) in *. rewrite Hp. simpl. fold es.
    assert (sorted (ekey <$> es)) as Hses.
    { unfold OInv in HO. rewrite bp_keys2_whole_leaf in HO.
      apply bp_sorted_app in HO as (_ & HO & _). by apply bp_sorted_app in HO as (? & _ & _). }
    destruct HS as [Hwc Hw].
    assert (need (mnof d) ctx ≤ length es) as Hm by (by inversion Hw).
    unfold find_key. destruct (list_find _ es) as [[i e] |] eqn:Hfind.
    + apply list_find_Some in Hfind as (Hi & Hk & _).
      destruct (bp_overwrite_mem es i e v Hses Hi) as (Hs' & Hlen' & Hmem').
      eexists. split; [done |]. split; [| done]. rewrite <-Hc.
      apply (bp_Inv_of_zipper _ ctx (BLeaf p (<[i := mkEntry (Key e) v]> es)) 0); try done.
      * by apply (bp_HInv_leaf_set h ctx p es).
      * split; [done |]. constructor. by rewrite Hlen'.
      * subst key. eapply bp_OInv_leaf_insert; try done.
        intros x Hx. apply Hmem' in Hx as [-> | [Hx _]]; [by right | by left].
      * subst key. by eapply bp_models_leaf_insert.
    + apply list_find_None in Hfind. rewrite Forall_forall in Hfind.
      unfold insertIntoLeaf. simpl. rewrite Hp. simpl.
      fold es.
      set (es' := take (insert_pos key es) es ++ mkEntry key v :: drop (insert_pos key es) es).
      set (h1 := <[p := set_entries nd es']> h).
      assert (p < length h) as Hltp by (by eapply lookup_lt_Some).
      assert (h1 !! p = Some (set_entries nd es')) as Hp1
        by (unfold h1; by apply list_lookup_insert_eq).
      rewrite Hp1. simpl.
      assert (HInv h1 ctx (BLeaf p es')) as HH1 by (by apply (bp_HInv_leaf_set h ctx p es)).
      assert (OInv ctx (BLeaf p es')) as HO1.
      { eapply bp_OInv_leaf_insert; try done.
        - by apply bp_insert_pos_sorted.
        - intros x Hx. apply (bp_insert_mem _ key v Hfind) in Hx as [-> | [Hx _]];
            [by right | by left]. }
      assert (models (contents (whole ctx (BLeaf p es'))) (<[key := v]> M)) as HM1.
      { eapply bp_models_leaf_insert; try done. by apply bp_insert_mem. }
      assert (length es' = S (length es)) as Hlen'.
      { unfold es'. rewrite length_app. simpl. rewrite length_take, length_drop.
        pose proof (bp_insert_pos_le key es). lia. }
      unfold maxLeafEntries. simpl.
      destruct (decide (len es' > d * 2 - 1)%Z) as [Hover | Hfit].
      * destruct (bp_splitLeaf_spec h1 ctx p es' d (S (length h1)) HH1 Hwc HO1 Hd Hover)
          as (h' & t' & ht' & Hrun & HI' & HS' & HO' & Hcont).
        { pose proof (bp_HInv_ctx_bound _ _ _ HH1). lia. }
        rewrite <-Hc. unfold set_heap. simpl. rewrite Hrun. eexists. split; [done |]. split; [| done].
        apply (bp_Inv_of_inorder _ _ ht'); try done. by rewrite Hcont.
      * eexists. split; [done |]. split; [| done]. rewrite <-Hc.
        apply (bp_Inv_of_zipper _ ctx (BLeaf p es') 0); try done.
        split; [done |]. constructor. simpl. lia.
  - subst M. eexists. split; [done |]. split; [| done].
    set (nd := @mkNode V true [] [] [mkEntry key v] None None).
    change (length h) with (rid (BLeaf (length h) [mkEntry key v])).
    apply (bp_Inv_of_inorder _ _ 0); try done.
    + split.
      * done.
      * apply (RepT_leaf _ _ _ _ nd); try done. apply bp_lookup_alloc_new.
      * simpl. apply NoDup_singleton.
      * simpl. rewrite bp_lookup_alloc_new. done.
    + split; [done |]. constructor. simpl. lia.
    + simpl. constructor; [constructor | constructor].
    + simpl. intros k w. rewrite list_elem_of_singleton. split.
      * intros [[-> ->] | [_ Habs]]%lookup_insert_Some; [done | by rewrite lookup_empty in Habs].
      * intros [= -> ->]. by rewrite lookup_insert_eq.
Qed.

End InsertTop.

(** * Deletion: two adjacent children of one node *)

Section Pairs.
Context {V : Type}.
Local Arguments Nat.div : simpl never.
Implicit Types (h : list (node V)) (t A B C : bt V) (ctx rest : list (frame V)).
Implicit Types (fl : list (bt V * Z)) (fr : list (Z * bt V)).

Lemma bp_wf_weaken mn m m' ht t : wf mn m ht t → m' ≤ m → wf mn m' ht t.
Proof. intros Hw Hm. inversion Hw; subst; constructor; try done; lia. Qed.

Lemma bp_mnof_pos d : (2 <= d)%Z → 1 ≤ mnof d.
Proof. unfold mnof. lia. Qed.

(** The node [p] with the adjacent children [A] and [B] separated by [k]. *)
Definition pnode (p : nat) fl A (k : Z) B fr : bt V :=
  fnode (Frame p fl ((k, B) :: fr)) A.

Lemma bp_pnode_left p fl A k B fr :
  pnode p fl A k B fr = fnode (Frame p (fl ++ [(A, k)]) fr) B.
Proof.
  unfold pnode, fnode, fkeys. simpl. rewrite !fmap_app. simpl.
  by rewrite <-!app_assoc.
Qed.

Lemma bp_inorder_frame p fl fr t :
  inorder (fnode (Frame p fl fr) t) = lpart fl ++ inorder t ++ rpart fr.
Proof. apply bp_inorder_fnode. Qed.

Lemma bp_inorder_pnode p fl A k B fr :
  inorder (pnode p fl A k B fr)
  = lpart fl ++ inorder A ++ ISep k :: inorder B ++ rpart fr.
Proof. unfold pnode. by rewrite bp_inorder_fnode. Qed.

Lemma bp_whole_pnode rest p fl A k B fr :
  whole rest (pnode p fl A k B fr)
  = ibefore rest ++ lpart fl ++ inorder A ++ ISep k :: inorder B ++ rpart fr ++ iafter rest.
Proof.
  unfold whole. rewrite bp_inorder_pnode.
  by repeat first [rewrite <-app_assoc | rewrite <-app_comm_cons].
Qed.

Lemma bp_ids_pnode p fl A k B fr :
  ids (pnode p fl A k B fr)
  = p :: ((fst <$> fl) ≫= ids) ++ ids A ++ ids B ++ ((snd <$> fr) ≫= ids).
Proof. unfold pnode, fnode. simpl. by rewrite bind_app, !bind_cons. Qed.

(** What the store holds for such a node. *)
Record PairAt h rest p fl A k B fr (pn : node V) : Prop := mkPairAt {
  pa_p : h !! p = Some pn;
  pa_leaf : isLeaf pn = false;
  pa_keys : keys pn = (snd <$> fl) ++ k :: (fst <$> fr);
  pa_children :
    children pn = (rid ∘ fst <$> fl) ++ rid A :: rid B :: (rid ∘ snd <$> fr);
  pa_parent : parent pn = cpar rest;
  pa_A : RepT h (Some p) A;
  pa_B : RepT h (Some p) B;
  pa_fl : Forall (RepT h (Some p)) (fst <$> fl);
  pa_fr : Forall (RepT h (Some p)) (snd <$> fr);
  pa_ctx : RepC h rest p;
  pa_nodup :
    NoDup (p :: ((fst <$> fl) ≫= ids) ++ ids A ++ ids B ++ ((snd <$> fr) ≫= ids)
             ++ idsc rest);
  pa_below :
    below (length h)
      (p :: ((fst <$> fl) ≫= ids) ++ ids A ++ ids B ++ ((snd <$> fr) ≫= ids)
         ++ idsc rest);
  pa_idxA : index_of (rid A) (children pn) = length fl;
  pa_idxB : index_of (rid B) (children pn) = S (length fl);
  pa_chA : children pn !! length fl = Some (rid A);
  pa_chB : children pn !! S (length fl) = Some (rid B);
  pa_key : keys pn !! length fl = Some k;
  pa_chain : chain h (leaf_ids (whole rest (pnode p fl A k B fr))) None }.

Lemma bp_rid_snd_sub fr : rid ∘ snd <$> fr ⊆ (snd <$> fr) ≫= ids.
Proof. rewrite list_fmap_compose. apply bp_rid_ids_sub. Qed.

Lemma bp_pair_at h rest p fl A k B fr :
  HInv h rest (pnode p fl A k B fr) → ∃ pn, PairAt h rest p fl A k B fr pn.
Proof.
  intros HI. pose proof (bp_HInv_below _ _ _ HI) as Hb.
  destruct HI as [HC HT HN HCh].
  rewrite bp_ids_pnode in HN, Hb. simpl in HN, Hb. rewrite <-!app_assoc in HN, Hb.
  unfold pnode in HT. apply bp_RepT_fnode in HT as ((pn & Hp & Hl & Hk & Hc & Hpar) & Hsib & HA).
  simpl in *. unfold siblings in Hsib. simpl in Hsib.
  apply Forall_app in Hsib as [Hfl Hfr]. apply Forall_cons in Hfr as [HB Hfr].
  unfold fkeys in Hk. unfold fchildren in Hc. simpl in Hk, Hc.
  pose proof (bp_rid_in_ids A) as HAin. pose proof (bp_rid_in_ids B) as HBin.
  assert (rid A ∉ rid ∘ fst <$> fl) as HAfl.
  { assert (rid A ∉ (fst <$> fl) ≫= ids) as Hn by nd_solve.
    intros Hin%bp_rid_fst_sub. done. }
  assert (rid B ∉ rid ∘ fst <$> fl) as HBfl.
  { assert (rid B ∉ (fst <$> fl) ≫= ids) as Hn by nd_solve.
    intros Hin%bp_rid_fst_sub. done. }
  assert (rid A ≠ rid B) as Hne.
  { intros Heq. assert (rid A ∉ ids B) as Hn by nd_solve. apply Hn. by rewrite Heq. }
  exists pn. split; try done.
  - rewrite Hc. rewrite bp_index_of_app by done. by rewrite length_fmap.
  - rewrite Hc. rewrite (cons_middle (rid A)), app_assoc.
    rewrite bp_index_of_app.
    + rewrite length_app, length_fmap. simpl. lia.
    + apply not_elem_of_app. split; [done |]. rewrite list_elem_of_singleton. done.
  - rewrite Hc. rewrite <-(length_fmap (rid ∘ fst) fl). by rewrite list_lookup_middle.
  - rewrite Hc. rewrite (cons_middle (rid A)), app_assoc.
    rewrite <-(length_fmap (rid ∘ fst) fl).
    apply list_lookup_middle. rewrite length_app. simpl. lia.
  - rewrite Hk. rewrite <-(length_fmap snd fl). by rewrite list_lookup_middle.
Qed.

Lemma bp_pair_same_rest h h' rest p fl A k B fr pn :
  PairAt h rest p fl A k B fr pn →
  (∀ q, q ≠ p → q ∉ ids A ++ ids B → q < length h → h' !! q = h !! q) →
  same_on (idsc rest) h h' ∧ same_on ((fst <$> fl) ≫= ids) h h' ∧
  same_on ((snd <$> fr) ≫= ids) h h'.
Proof.
  intros HP Hsame. pose proof (pa_nodup _ _ _ _ _ _ _ _ _ HP) as HN.
  pose proof (pa_below _ _ _ _ _ _ _ _ _ HP) as Hb.
  split_and!; intros q Hq; apply Hsame.
  - intros ->. revert Hq. change (p ∉ idsc rest). nd_solve.
  - revert Hq. change (q ∉ ids A ++ ids B → False) with (q ∉ ids A ++ ids B). intros Hq. nd_solve.
  - revert q Hq. fold (below (length h) (idsc rest)). nd_solve.
  - intros ->. revert Hq. change (p ∉ (fst <$> fl) ≫= ids). nd_solve.
  - nd_solve.
  - revert q Hq. fold (below (length h) ((fst <$> fl) ≫= ids)). nd_solve.
  - intros ->. revert Hq. change (p ∉ (snd <$> fr) ≫= ids). nd_solve.
  - nd_solve.
  - revert q Hq. fold (below (length h) ((snd <$> fr) ≫= ids)). nd_solve.
Qed.

(** Rewriting both children and the separator between them. *)
Lemma bp_HInv_pair h h' rest p fl fr A B k A' B' k' pn :
  PairAt h rest p fl A k B fr pn →
  h' !! p = Some (set_keys pn ((snd <$> fl) ++ k' :: (fst <$> fr))) →
  rid A' = rid A → rid B' = rid B →
  RepT h' (Some p) A' → RepT h' (Some p) B' →
  ids A' ++ ids B' ≡ₚ ids A ++ ids B →
  (∀ q, q ≠ p → q ∉ ids A ++ ids B → q < length h → h' !! q = h !! q) →
  (∀ q, next <$> h' !! q = next <$> h !! q) →
  leaf_ids (inorder A' ++ inorder B') = leaf_ids (inorder A ++ inorder B) →
  HInv h' rest (pnode p fl A' k' B' fr).
Proof.
  intros HP Hp' HrA HrB HA' HB' Hperm Hsame Hnext Hleaf.
  destruct (bp_pair_same_rest _ _ _ _ _ _ _ _ _ _ HP Hsame) as (Hsr & Hsl & Hsf).
  destruct HP. split.
  - simpl. by eapply bp_RepC_same.
  - unfold pnode. apply bp_RepT_fnode. simpl. split_and!.
    + eexists. split; [exact Hp' |]. unfold fkeys, fchildren. simpl. split_and!; try done.
      by rewrite HrA, HrB.
    + unfold siblings. simpl. apply Forall_app. split; [by eapply bp_RepTs_same |].
      apply Forall_cons. split; [done | by eapply bp_RepTs_same].
    + done.
  - rewrite bp_ids_pnode. simpl. rewrite <-!app_assoc.
    rewrite (app_assoc (ids A')), Hperm. by rewrite <-!app_assoc.
  - rewrite bp_whole_pnode. rewrite bp_whole_pnode in pa_chain0.
    eapply bp_chain_same; [intros q _; apply Hnext |].
    rewrite !bp_leaf_ids_app, bp_leaf_ids_cons, !bp_leaf_ids_app in *.
    change (item_leaf (ISep k')) with (@nil nat).
    change (item_leaf (ISep k)) with (@nil nat) in pa_chain0.
    rewrite app_nil_l in *.
    rewrite (app_assoc (leaf_ids (inorder A'))), Hleaf. by rewrite <-!app_assoc.
Qed.

Lemma bp_disj_sub (A A' B : list nat) : A' ⊆ A → disj A B → disj A' B.
Proof. intros Hs Hd x Hx. apply Hd. by apply Hs. Qed.

Lemma bp_disj_sub_r (A B B' : list nat) : B' ⊆ B → disj A B → disj A B'.
Proof. intros Hs Hd x Hx Hx'. apply (Hd x Hx). by apply Hs. Qed.

Lemma bp_not_in_sub (a : nat) (A A' : list nat) : A' ⊆ A → a ∉ A → a ∉ A'.
Proof. intros Hs Ha Ha'. apply Ha. by apply Hs. Qed.

(** Replacing both children by one: the store after the parent has dropped
    the separator and the right child. *)
Lemma bp_HInv_merged h h' rest p fl fr A B k C pn :
  PairAt h rest p fl A k B fr pn →
  h' !! p = Some pn →
  rid C = rid A → RepT h' (Some p) C → NoDup (ids C) → ids C ⊆ ids A ++ ids B →
  (∀ q, q ≠ p → q ∉ ids A ++ ids B → q < length h → h' !! q = h !! q) →
  chain h' (leaf_ids (ibefore rest ++ lpart fl ++ inorder C ++ rpart fr ++ iafter rest)) None →
  HInv (<[p := set_children (set_keys pn ((snd <$> fl) ++ (fst <$> fr)))
                 (rid <$> (fst <$> fl) ++ C :: (snd <$> fr))]> h')
       rest (fnode (Frame p fl fr) C).
Proof.
  intros HP Hp' HrC HC' HNC Hsub Hsame Hch.
  destruct (bp_pair_same_rest _ _ _ _ _ _ _ _ _ _ HP Hsame) as (Hsr & Hsl & Hsf).
  destruct HP.
  assert (p < length h') as Hlt by (by eapply lookup_lt_Some).
  set (h2 := <[p := _]> h').
  assert (∀ l, p ∉ l → same_on l h' h2) as Hs2.
  { intros l Hl. unfold h2. by apply bp_same_on_insert. }
  simpl in pa_nodup0.
  assert (disj (ids C) ((fst <$> fl) ≫= ids)) as HdCl.
  { apply (bp_disj_sub (ids A ++ ids B)); [done |]. nd_solve. }
  assert (disj (ids C) ((snd <$> fr) ≫= ids)) as HdCr.
  { apply (bp_disj_sub (ids A ++ ids B)); [done |]. nd_solve. }
  assert (disj (ids C) (idsc rest)) as HdCc.
  { apply (bp_disj_sub (ids A ++ ids B)); [done |]. nd_solve. }
  assert (p ∉ ids C) as HpC.
  { apply (bp_not_in_sub _ (ids A ++ ids B)); [done |]. nd_solve. }
  split.
  - simpl. eapply bp_RepC_same; [apply Hs2; nd_solve |]. by eapply bp_RepC_same.
  - apply bp_RepT_fnode. simpl. split_and!.
    + eexists. split; [unfold h2; by apply list_lookup_insert_eq |].
      unfold fkeys, fchildren. simpl. split_and!; try done.
      by rewrite fmap_app, fmap_cons, <-!list_fmap_compose.
    + unfold siblings. simpl. apply Forall_app. split.
      * eapply bp_RepTs_same; [apply Hs2; nd_solve |]. by eapply bp_RepTs_same.
      * eapply bp_RepTs_same; [apply Hs2; nd_solve |]. by eapply bp_RepTs_same.
    + eapply bp_RepT_same; [apply Hs2; done | done].
  - unfold fnode. simpl. rewrite bind_app, bind_cons. nd_solve.
  - unfold whole. rewrite bp_inorder_fnode. simpl. rewrite <-!app_assoc.
    eapply bp_chain_pres; [| exact Hch]. unfold h2. by eapply bp_next_pres_insert.
Qed.

Lemma bp_whole_pnode_mid rest p fl A k B fr :
  whole rest (pnode p fl A k B fr)
  = ibefore rest ++ lpart fl ++ (inorder A ++ ISep k :: inorder B) ++ rpart fr
      ++ iafter rest.
Proof.
  rewrite bp_whole_pnode.
  by repeat first [rewrite <-app_assoc | rewrite <-app_comm_cons].
Qed.

Lemma bp_whole_left rest p fl A k t fr :
  whole (Frame p (fl ++ [(A, k)]) fr :: rest) t = whole rest (pnode p fl A k t fr).
Proof. by rewrite <-bp_whole_fnode, bp_pnode_left. Qed.

Lemma bp_whole_right rest p fl t k B fr :
  whole (Frame p fl ((k, B) :: fr) :: rest) t = whole rest (pnode p fl t k B fr).
Proof. by rewrite <-bp_whole_fnode. Qed.

Lemma bp_HInv_left h rest p fl A k t fr :
  HInv h (Frame p (fl ++ [(A, k)]) fr :: rest) t ↔ HInv h rest (pnode p fl A k t fr).
Proof. by rewrite <-bp_HInv_fnode, bp_pnode_left. Qed.

Lemma bp_HInv_right h rest p fl t k B fr :
  HInv h (Frame p fl ((k, B) :: fr) :: rest) t ↔ HInv h rest (pnode p fl t k B fr).
Proof. by rewrite <-bp_HInv_fnode. Qed.

Lemma bp_snoc_or_nil {X} (l : list X) : l = [] ∨ ∃ l' x, l = l' ++ [x].
Proof.
  destruct l as [| a l] using rev_ind; [by left | right; eauto].
Qed.

(** Closing the zipper over a rewritten pair. *)
Lemma bp_pair_finish h rest p fl fr A k B d ht :
  HInv h rest (pnode p fl A k B fr) → wfc (mnof d) (S ht) rest →
  need (mnof d) rest ≤ length fl + 1 + length fr →
  Forall (wf (mnof d) (mnof d) ht) (fst <$> fl) →
  Forall (wf (mnof d) (mnof d) ht) (snd <$> fr) →
  wf (mnof d) (mnof d) ht A → wf (mnof d) (mnof d) ht B →
  ∃ t' ht', rid t' = croot rest p ∧ HInv h [] t' ∧ SInv (mnof d) ht' [] t' ∧
    inorder t' = whole rest (pnode p fl A k B fr).
Proof.
  intros HI Hwc Hneed Hwl Hwr HwA HwB.
  destruct (bp_SInv_plug (mnof d) (S ht) rest (pnode p fl A k B fr)) as [ht' HS'].
  { split; [done |]. unfold pnode, fnode, fkeys. simpl. constructor.
    - rewrite length_app. simpl. rewrite !length_fmap. lia.
    - rewrite !length_app. simpl. rewrite !length_fmap. lia.
    - apply Forall_app. split; [done |]. apply Forall_cons. split; [done |].
      apply Forall_cons. by split. }
  exists (plug rest (pnode p fl A k B fr)), ht'. split_and!.
  - by rewrite bp_rid_plug.
  - by apply bp_HInv_plug.
  - done.
  - by rewrite <-bp_whole_nil, bp_whole_plug.
Qed.

End Pairs.

(** * Deletion: rebalancing internal nodes *)

Section Internal.
Context {V : Type}.
Local Arguments Nat.div : simpl never.
Implicit Types (h : list (node V)) (t A B C : bt V) (ctx rest : list (frame V)).
Implicit Types (fl : list (bt V * Z)) (fr : list (Z * bt V)).

Lemma bp_snoc_inv {X} (l : list X) : 0 < length l → ∃ l' x, l = l' ++ [x].
Proof.
  intros Hl. destruct (decide (l = [])) as [-> | Hne]; [simpl in Hl; lia |].
  destruct (exists_last Hne) as (l' & x & ->). eauto.
Qed.

Lemma bp_insert_middle {X} (l l' : list X) x y :
  <[length l := y]> (l ++ x :: l') = l ++ y :: l'.
Proof. rewrite insert_app_r_alt by lia. by rewrite Nat.sub_diag. Qed.

(** A sibling that cannot lend: at most [d - 1] keys (or entries). *)
Definition poor_by (sz : node V → Z) (h : list (node V)) (d : Z) (q : nat) : Prop :=
  ∃ nq, h !! q = Some nq ∧ ¬ (sz nq > d - 1)%Z.

Definition no_left_by sz (h : list (node V)) (d : Z) fl : Prop :=
  fl = [] ∨ ∃ fl' A0 k0, fl = fl' ++ [(A0, k0)] ∧ poor_by sz h d (rid A0).

Definition no_right_by sz (h : list (node V)) (d : Z) fr : Prop :=
  fr = [] ∨ ∃ k0 B0 fr', fr = (k0, B0) :: fr' ∧ poor_by sz h d (rid B0).

Definition ksize (n : node V) : Z := len (keys n).
Definition esize (n : node V) : Z := len (entries n).

Definition poor := poor_by ksize.
Definition no_left := no_left_by ksize.
Definition no_right := no_right_by ksize.

Lemma bp_ri_borrow_left h rest p fl fr pa ka ca pb kb cb k pn callee r d ht mB :
  PairAt h rest p fl (BNode pa ka ca) k (BNode pb kb cb) fr pn →
  wf (mnof d) (mnof d) (S ht) (BNode pa ka ca) → wf (mnof d) mB (S ht) (BNode pb kb cb) →
  (len ka > d - 1)%Z → (2 <= d)%Z →
  ∃ h' A' B' k',
    rebalanceInternal_with callee (mkTree h r d) pb = Some (mkTree h' r d) ∧
    HInv h' rest (pnode p fl A' k' B' fr) ∧
    inorder A' ++ ISep k' :: inorder B'
      = inorder (BNode pa ka ca) ++ ISep k :: inorder (BNode pb kb cb) ∧
    wf (mnof d) (mnof d) (S ht) A' ∧ wf (mnof d) (S mB) (S ht) B'.
Proof.
  intros HP HwA HwB Hrich Hd. unfold len in Hrich.
  pose proof HP as [Hp Hleaf Hk Hc Hpar HA HB Hfl Hfr HCx HN Hb HiA HiB HcA HcB Hkey HCh].
  apply bp_RepT_node_inv in HA as (na & Hpa & HlA & HkA & HcA' & HparA & HfA).
  apply bp_RepT_node_inv in HB as (nb & Hpb & HlB & HkB & HcB' & HparB & HfB).
  inversion HwA as [| ? ? ? ? ? HmA HlenA HfwA]; subst.
  inversion HwB as [| ? ? ? ? ? HmB HlenB HfwB]; subst.
  set (ka := keys na) in *. set (kb := keys nb) in *.
  destruct (bp_snoc_inv ka) as (ka' & bk & Hka); [lia |].
  destruct (bp_snoc_inv ca) as (ca' & bc & Hca); [lia |].
  assert (length ka = S (length ka')) as Hlka by (rewrite Hka, length_app; simpl; lia).
  assert (length ca = S (length ca')) as Hlca by (rewrite Hca, length_app; simpl; lia).
  rewrite Hca in HfA, HfwA. apply Forall_app in HfA as [HfA' HfAc]. apply Forall_app in HfwA as [HfwA' HfwAc].
  apply Forall_cons in HfAc as [HfAc _]. apply Forall_cons in HfwAc as [HfwAc _].
  destruct (bp_RepT_root _ _ _ HfAc) as (nc & Hnc & Hparc).
  pose proof (bp_rid_in_ids bc) as Hbcin.
  simpl in HN, Hb. rewrite Hca in HN, Hb.
  nd_norm HN. nd_norm Hb.
  assert (pa ≠ pb ∧ p ≠ pa ∧ p ≠ pb ∧ rid bc ≠ pa ∧ rid bc ≠ pb ∧ rid bc ≠ p) as
    (Hab & Hppa & Hppb & Hca_ne & Hcb_ne & Hcp_ne) by nd_goal.
  assert (pa < length h ∧ pb < length h ∧ p < length h ∧ rid bc < length h) as (HltA & HltB & Hltp & Hltc).
  { split_and!; by eapply lookup_lt_Some. }
  set (h1 := <[pa := set_children (set_keys na (removelast ka)) (removelast (children na))]> h).
  set (h2 := <[pb := set_children (set_keys nb (k :: kb)) (rid bc :: children nb)]> h1).
  set (h3 := <[rid bc := set_parent nc (Some pb)]> h2).
  set (h4 := <[p := set_keys pn (<[length fl := bk]> (keys pn))]> h3).
  assert (inorder (BNode pa ka' ca') ++ ISep bk :: inorder (BNode pb (k :: kb) (bc :: cb))
          = inorder (BNode pa ka ca) ++ ISep k :: inorder (BNode pb kb cb)) as Hin.
  { simpl. rewrite Hka, Hca, fmap_app.
    rewrite bp_inter_app by (rewrite length_fmap; lia).
    simpl. by rewrite !app_nil_r, <-!app_assoc. }
  exists h4, (BNode pa ka' ca'), (BNode pb (k :: kb) (bc :: cb)), bk.
  split_and!.
  - unfold rebalanceInternal_with. cbn [heap].
    rewrite Hpb. cbn [mbind option_bind]. rewrite HparB. rewrite Hp. cbn [mbind option_bind].
    simpl in HiB. rewrite HiB.
    rewrite (decide_True (P := 0 < S (length fl))) by lia.
    replace (S (length fl) - 1) with (length fl) by lia.
    simpl in HcA. rewrite HcA. cbn [mbind option_bind]. rewrite Hpa. cbn [mbind option_bind].
    rewrite decide_True by (unfold minInternalKeys, len; simpl; fold ka; lia).
    fold ka. rewrite Hka at 1. rewrite last_snoc. cbn [mbind option_bind].
    assert (last (children na) = Some (rid bc)) as Hlast.
    { rewrite HcA', Hca, fmap_app. apply last_snoc. }
    rewrite Hlast. cbn [mbind option_bind]. fold h1.
    assert (h1 !! pb = Some nb) as H1b by (unfold h1; by rewrite list_lookup_insert_ne).
    assert (h1 !! p = Some pn) as H1p by (unfold h1; by rewrite list_lookup_insert_ne).
    rewrite H1b. cbn [mbind option_bind]. rewrite H1p. cbn [mbind option_bind].
    rewrite Hkey. cbn [mbind option_bind]. fold kb. fold h2.
    assert (h2 !! rid bc = Some nc) as H2c.
    { unfold h2, h1. by rewrite !list_lookup_insert_ne. }
    unfold modify. rewrite H2c. cbn [mbind option_bind]. fold h3.
    assert (h3 !! p = Some pn) as H3p.
    { unfold h3, h2. by rewrite !list_lookup_insert_ne. }
    rewrite H3p. cbn [mbind option_bind].
    rewrite decide_True.
    2:{ rewrite Hk, length_app, length_fmap. simpl. lia. }
    done.
  - eapply (bp_HInv_pair h h4 rest p fl fr _ _ k _ _ bk pn HP).
    + unfold h4. rewrite list_lookup_insert_eq.
      2:{ unfold h3, h2, h1. by rewrite !length_insert. }
      f_equal. f_equal. rewrite Hk. rewrite <-(length_fmap snd fl). apply bp_insert_middle.
    + done.
    + done.
    + apply (RepT_node h4 _ pa ka' ca'
               (set_children (set_keys na (removelast ka)) (removelast (children na)))).
      * unfold h4, h3, h2. rewrite !list_lookup_insert_ne by done.
        unfold h1. by apply list_lookup_insert_eq.
      * done.
      * simpl. rewrite Hka. apply removelast_last.
      * simpl. rewrite HcA', Hca, fmap_app. apply removelast_last.
      * done.
      * eapply bp_RepTs_same; [| exact HfA']. unfold h4, h3, h2, h1. same_on_goal.
    + apply (RepT_node h4 _ pb (k :: kb) (bc :: cb)
               (set_children (set_keys nb (k :: kb)) (rid bc :: children nb))).
      * unfold h4, h3. rewrite !list_lookup_insert_ne by done.
        unfold h2. apply list_lookup_insert_eq. unfold h1. by rewrite length_insert.
      * done.
      * done.
      * simpl. by rewrite HcB'.
      * done.
      * apply Forall_cons. split.
        -- eapply (bp_RepT_reparent h h4 (Some pa) (Some pb) bc nc); try done.
           ++ unfold h4. rewrite list_lookup_insert_ne by done.
              unfold h3. apply list_lookup_insert_eq. unfold h2, h1.
              by rewrite !length_insert.
           ++ intros q Hq Hq'.
              assert (q ≠ pa ∧ q ≠ pb ∧ q ≠ p) as (? & ? & ?) by nd_goal.
              unfold h4, h3, h2, h1. by rewrite !list_lookup_insert_ne by ne_solve.
        -- eapply bp_RepTs_same; [| exact HfB]. unfold h4, h3, h2, h1. same_on_goal.
    + simpl. rewrite Hca, bind_app. simpl. rewrite app_nil_r.
      apply perm_skip. rewrite <-!app_assoc. apply Permutation_app_head.
      apply Permutation_middle.
    + intros q Hqp Hq Hlt. simpl in Hq. rewrite Hca in Hq.
      assert (q ≠ pa ∧ q ≠ pb ∧ q ≠ rid bc) as (? & ? & ?).
      { split_and!; intros ->; apply Hq.
        - apply elem_of_cons. by left.
        - apply elem_of_cons. right. apply elem_of_app. right. apply elem_of_cons. by left.
        - apply elem_of_cons. right. apply elem_of_app. left.
          rewrite bind_app. apply elem_of_app. right. simpl. by rewrite app_nil_r. }
      unfold h4, h3, h2, h1. by rewrite !list_lookup_insert_ne by ne_solve.
    + intros q. unfold h4.
      rewrite (bp_next_insert h3 p pn) by (done || (unfold h3, h2, h1; by rewrite !list_lookup_insert_ne)).
      unfold h3.
      rewrite (bp_next_insert h2 (rid bc) nc) by (done || (unfold h2, h1; by rewrite !list_lookup_insert_ne)).
      unfold h2.
      rewrite (bp_next_insert h1 pb nb) by (done || (unfold h1; by rewrite !list_lookup_insert_ne)).
      unfold h1. by rewrite (bp_next_insert h pa na).
    + rewrite !bp_leaf_ids_app.
      pose proof (f_equal leaf_ids Hin) as Hli.
      rewrite !bp_leaf_ids_app, !bp_leaf_ids_cons in Hli. exact Hli.
  - exact Hin.
  - constructor; [unfold mnof in *; lia | lia | done].
  - constructor; [simpl; lia | simpl; lia |]. apply Forall_cons. by split.
Qed.

Lemma bp_no_left_lookup sz h d fl (cs : list nat) x l :
  no_left_by sz h d fl → cs = (rid ∘ fst <$> fl) ++ x :: l →
  fl = [] ∨ ∃ q nq, 0 < length fl ∧ cs !! (length fl - 1) = Some q ∧ h !! q = Some nq ∧
                    ¬ (sz nq > d - 1)%Z.
Proof.
  intros [-> | (fl' & A0 & k0 & -> & nq & Hq & Hpoor)] ->; [by left |]. right.
  exists (rid A0), nq. rewrite length_app. simpl. split_and!; [lia | | done | done].
  replace (length fl' + 1 - 1) with (length fl') by lia.
  rewrite fmap_app, <-app_assoc. simpl.
  rewrite <-(length_fmap (rid ∘ fst) fl'). by rewrite list_lookup_middle.
Qed.

Lemma bp_no_right_lookup sz h d fl fr (cs : list nat) x :
  no_right_by sz h d fr → cs = (rid ∘ fst <$> fl) ++ x :: (rid ∘ snd <$> fr) →
  length cs = S (length fl) ∨
  ∃ q nq, S (S (length fl)) ≤ length cs ∧ cs !! (length fl + 1) = Some q ∧
          h !! q = Some nq ∧ ¬ (sz nq > d - 1)%Z.
Proof.
  intros [-> | (k0 & B0 & fr' & -> & nq & Hq & Hpoor)] ->.
  - left. rewrite length_app, length_fmap. simpl. lia.
  - right. exists (rid B0), nq. split_and!; [| | done | done].
    + rewrite length_app, length_fmap. simpl. lia.
    + rewrite (cons_middle x), app_assoc. simpl.
      replace (length fl + 1) with (length ((rid ∘ fst <$> fl) ++ [x]))
        by (rewrite length_app, length_fmap; simpl; lia).
      by rewrite list_lookup_middle.
Qed.

Lemma bp_ri_borrow_right h rest p fl fr pa ka ca pb kb cb k pn callee r d ht mA :
  PairAt h rest p fl (BNode pa ka ca) k (BNode pb kb cb) fr pn →
  wf (mnof d) mA (S ht) (BNode pa ka ca) → wf (mnof d) (mnof d) (S ht) (BNode pb kb cb) →
  (len kb > d - 1)%Z → (2 <= d)%Z → no_left h d fl →
  ∃ h' A' B' k',
    rebalanceInternal_with callee (mkTree h r d) pa = Some (mkTree h' r d) ∧
    HInv h' rest (pnode p fl A' k' B' fr) ∧
    inorder A' ++ ISep k' :: inorder B'
      = inorder (BNode pa ka ca) ++ ISep k :: inorder (BNode pb kb cb) ∧
    wf (mnof d) (S mA) (S ht) A' ∧ wf (mnof d) (mnof d) (S ht) B'.
Proof.
  intros HP HwA HwB Hrich Hd Hnl. unfold len in Hrich.
  pose proof HP as [Hp Hleaf Hk Hc Hpar HA HB Hfl Hfr HCx HN Hb HiA HiB HcA HcB Hkey HCh].
  apply bp_RepT_node_inv in HA as (na & Hpa & HlA & HkA & HcA' & HparA & HfA).
  apply bp_RepT_node_inv in HB as (nb & Hpb & HlB & HkB & HcB' & HparB & HfB).
  inversion HwA as [| ? ? ? ? ? HmA HlenA HfwA]; subst.
  inversion HwB as [| ? ? ? ? ? HmB HlenB HfwB]; subst.
  set (ka := keys na) in *.
  destruct (keys nb) as [| bk kb'] eqn:Hkb; [simpl in Hrich; lia |].
  destruct cb as [| bc cb']; [simpl in HlenB; lia |].
  simpl in HlenB, Hrich.
  assert (keys nb !! 0 = Some bk) as Hk0 by (by rewrite Hkb).
  assert (children nb !! 0 = Some (rid bc)) as Hc0 by (by rewrite HcB').
  apply Forall_cons in HfB as [HfBc HfB']. apply Forall_cons in HfwB as [HfwBc HfwB'].
  destruct (bp_RepT_root _ _ _ HfBc) as (nc & Hnc & Hparc).
  pose proof (bp_rid_in_ids bc) as Hbcin.
  simpl in HN, Hb. nd_norm HN. nd_norm Hb.
  assert (pa ≠ pb ∧ p ≠ pa ∧ p ≠ pb ∧ rid bc ≠ pa ∧ rid bc ≠ pb ∧ rid bc ≠ p) as
    (Hab & Hppa & Hppb & Hca_ne & Hcb_ne & Hcp_ne) by nd_goal.
  assert (pa < length h ∧ pb < length h ∧ p < length h ∧ rid bc < length h)
    as (HltA & HltB & Hltp & Hltc).
  { split_and!; by eapply lookup_lt_Some. }
  set (h1 := <[pb := set_children (set_keys nb (drop 1 (keys nb))) (drop 1 (children nb))]> h).
  set (h2 := <[pa := set_children (set_keys na (ka ++ [k])) (children na ++ [rid bc])]> h1).
  set (h3 := <[rid bc := set_parent nc (Some pa)]> h2).
  set (h4 := <[p := set_keys pn (<[length fl := bk]> (keys pn))]> h3).
  assert (inorder (BNode pa (ka ++ [k]) (ca ++ [bc])) ++ ISep bk :: inorder (BNode pb kb' cb')
          = inorder (BNode pa ka ca) ++ ISep k :: inorder (BNode pb (bk :: kb') (bc :: cb')))
    as Hin.
  { simpl. rewrite fmap_app.
    rewrite bp_inter_app by (rewrite length_fmap; lia).
    simpl. by rewrite !app_nil_r, <-!app_assoc. }
  exists h4, (BNode pa (ka ++ [k]) (ca ++ [bc])), (BNode pb kb' cb'), bk.
  split_and!.
  - unfold rebalanceInternal_with. cbn [heap].
    rewrite Hpa. cbn [mbind option_bind]. rewrite HparA. rewrite Hp. cbn [mbind option_bind].
    simpl in HiA. rewrite HiA.
    match goal with |- (if decide _ then _ else ?R) = _ => set (Rt := R) end.
    enough (Rt = Some (mkTree h4 r d)) as HRt.
    { destruct (bp_no_left_lookup ksize h d fl (children pn) _ _ Hnl Hc)
        as [-> | (q & nq & Hpos & Hq & Hnq & Hpoor)].
      - simpl. done.
      - rewrite decide_True by done. rewrite Hq. cbn [mbind option_bind].
        rewrite Hnq. cbn [mbind option_bind].
        rewrite decide_False by done. done. }
    unfold Rt. clear Rt.
    rewrite decide_True.
    2:{ unfold len. rewrite Hc, length_app, length_fmap. simpl. lia. }
    rewrite Nat.add_1_r. simpl in HcB. rewrite HcB. cbn [mbind option_bind].
    rewrite Hpb. cbn [mbind option_bind].
    rewrite decide_True by (unfold minInternalKeys, len; simpl; rewrite Hkb; simpl; lia).
    rewrite Hk0. cbn [mbind option_bind]. rewrite Hc0. cbn [mbind option_bind]. fold h1.
    assert (h1 !! pa = Some na) as H1a by (unfold h1; by rewrite list_lookup_insert_ne).
    assert (h1 !! p = Some pn) as H1p by (unfold h1; by rewrite list_lookup_insert_ne).
    rewrite H1a. cbn [mbind option_bind]. rewrite H1p. cbn [mbind option_bind].
    rewrite Hkey. cbn [mbind option_bind]. fold ka. fold h2.
    assert (h2 !! rid bc = Some nc) as H2c.
    { unfold h2, h1. by rewrite !list_lookup_insert_ne. }
    unfold modify. rewrite H2c. cbn [mbind option_bind]. fold h3.
    assert (h3 !! p = Some pn) as H3p.
    { unfold h3, h2. by rewrite !list_lookup_insert_ne. }
    rewrite H3p. cbn [mbind option_bind].
    rewrite decide_True.
    2:{ rewrite Hk, length_app, length_fmap. simpl. lia. }
    done.
  - eapply (bp_HInv_pair h h4 rest p fl fr _ _ k _ _ bk pn HP).
    + unfold h4. rewrite list_lookup_insert_eq.
      2:{ unfold h3, h2, h1. by rewrite !length_insert. }
      f_equal. f_equal. rewrite Hk. rewrite <-(length_fmap snd fl). apply bp_insert_middle.
    + done.
    + done.
    + apply (RepT_node h4 _ pa (ka ++ [k]) (ca ++ [bc])
               (set_children (set_keys na (ka ++ [k])) (children na ++ [rid bc]))).
      * unfold h4, h3. rewrite !list_lookup_insert_ne by done.
        unfold h2. apply list_lookup_insert_eq. unfold h1. by rewrite length_insert.
      * done.
      * done.
      * simpl. by rewrite HcA', fmap_app.
      * done.
      * apply Forall_app. split.
        -- eapply bp_RepTs_same; [| exact HfA]. unfold h4, h3, h2, h1. same_on_goal.
        -- apply Forall_singleton.
           eapply (bp_RepT_reparent h h4 (Some pb) (Some pa) bc nc); try done.
           ++ unfold h4. rewrite list_lookup_insert_ne by done.
              unfold h3. apply list_lookup_insert_eq. unfold h2, h1.
              by rewrite !length_insert.
           ++ intros q Hq Hq'.
              assert (q ≠ pa ∧ q ≠ pb ∧ q ≠ p) as (? & ? & ?) by nd_goal.
              unfold h4, h3, h2, h1. by rewrite !list_lookup_insert_ne by ne_solve.
    + apply (RepT_node h4 _ pb kb' cb'
               (set_children (set_keys nb (drop 1 (keys nb))) (drop 1 (children nb)))).
      * unfold h4, h3, h2. rewrite !list_lookup_insert_ne by ne_solve.
        unfold h1. by apply list_lookup_insert_eq.
      * done.
      * simpl. by rewrite Hkb.
      * simpl. by rewrite HcB'.
      * done.
      * eapply bp_RepTs_same; [| exact HfB']. unfold h4, h3, h2, h1. same_on_goal.
    + simpl. rewrite bind_app. simpl. rewrite app_nil_r.
      apply perm_skip. rewrite <-!app_assoc. apply Permutation_app_head.
      symmetry. apply Permutation_middle.
    + intros q Hqp Hq Hlt. simpl in Hq.
      assert (q ≠ pa ∧ q ≠ pb ∧ q ≠ rid bc) as (? & ? & ?).
      { split_and!; intros ->; apply Hq.
        - apply elem_of_cons. by left.
        - apply elem_of_cons. right. apply elem_of_app. right. apply elem_of_cons. by left.
        - apply elem_of_cons. right. apply elem_of_app. right. apply elem_of_cons. right.
          apply elem_of_app. by left. }
      unfold h4, h3, h2, h1. by rewrite !list_lookup_insert_ne by ne_solve.
    + intros q. unfold h4.
      rewrite (bp_next_insert h3 p pn) by (done || (unfold h3, h2, h1; by rewrite !list_lookup_insert_ne by ne_solve)).
      unfold h3.
      rewrite (bp_next_insert h2 (rid bc) nc) by (done || (unfold h2, h1; by rewrite !list_lookup_insert_ne by ne_solve)).
      unfold h2.
      rewrite (bp_next_insert h1 pa na) by (done || (unfold h1; by rewrite !list_lookup_insert_ne by ne_solve)).
      unfold h1. by rewrite (bp_next_insert h pb nb).
    + rewrite !bp_leaf_ids_app.
      pose proof (f_equal leaf_ids Hin) as Hli.
      rewrite !bp_leaf_ids_app, !bp_leaf_ids_cons in Hli. exact Hli.
  - exact Hin.
  - constructor; [rewrite length_app; simpl; lia | rewrite !length_app; simpl; lia |].
    apply Forall_app. split; [done |]. by apply Forall_singleton.
  - constructor; [unfold mnof in *; lia | lia | done].
Qed.

(** What [deleteFromParent] owes its callers, above the context [rest]. *)
Definition dfp_ok (callee : BPlusTree V → nat → nat → option (BPlusTree V))
    rest (d : Z) (ht : nat) : Prop :=
  ∀ h p pn fl fr C cB k,
    h !! p = Some pn → keys pn = (snd <$> fl) ++ k :: (fst <$> fr) →
    children pn = (rid ∘ fst <$> fl) ++ rid C :: cB :: (rid ∘ snd <$> fr) →
    HInv (<[p := set_children (set_keys pn ((snd <$> fl) ++ (fst <$> fr)))
                   (rid <$> (fst <$> fl) ++ C :: (snd <$> fr))]> h)
         rest (fnode (Frame p fl fr) C) →
    wf (mnof d) (need (mnof d) rest - 1) (S ht) (fnode (Frame p fl fr) C) →
    ∃ h' t' ht',
      callee (mkTree h (Some (croot rest p)) d) p (length fl)
        = Some (mkTree h' (Some (rid t')) d) ∧
      HInv h' [] t' ∧ SInv (mnof d) ht' [] t' ∧
      inorder t' = whole rest (fnode (Frame p fl fr) C).

Lemma bp_set_keys_twice (n : node V) x y : set_keys (set_keys n x) y = set_keys n y.
Proof. done. Qed.

Lemma bp_int_merge h rest p fl fr pa ka ca pb kb cb k pn :
  PairAt h rest p fl (BNode pa ka ca) k (BNode pb kb cb) fr pn →
  length ca = S (length ka) →
  ∃ na nb h4,
    (h !! pa = Some na ∧ keys na = ka ∧ children na = rid <$> ca) ∧
    (h !! pb = Some nb ∧ keys nb = kb ∧ children nb = rid <$> cb ∧ parent nb = Some p) ∧
    (parent na = Some p ∧ pa ≠ pb ∧ p ≠ pa ∧ p ≠ pb) ∧
    reparent_all (Some pa)
      (<[pa := set_children (set_keys na ((ka ++ [k]) ++ kb))
                 (children na ++ children nb)]> h) (children nb) = Some h4 ∧
    h4 !! p = Some pn ∧
    HInv (<[p := set_children (set_keys pn ((snd <$> fl) ++ (fst <$> fr)))
                   (rid <$> (fst <$> fl)
                      ++ BNode pa ((ka ++ [k]) ++ kb) (ca ++ cb) :: (snd <$> fr))]> h4)
         rest (fnode (Frame p fl fr) (BNode pa ((ka ++ [k]) ++ kb) (ca ++ cb))) ∧
    inorder (BNode pa ((ka ++ [k]) ++ kb) (ca ++ cb))
      = inorder (BNode pa ka ca) ++ ISep k :: inorder (BNode pb kb cb).
Proof.
  intros HP HlenA.
  pose proof HP as [Hp Hleaf Hk Hc Hpar HA HB Hfl Hfr HCx HN Hb HiA HiB HcA HcB Hkey HCh].
  apply bp_RepT_node_inv in HA as (na & Hpa & HlA & HkA & HcA' & HparA & HfA).
  apply bp_RepT_node_inv in HB as (nb & Hpb & HlB & HkB & HcB' & HparB & HfB).
  simpl in HN, Hb. nd_norm HN. nd_norm Hb.
  assert (pa ≠ pb ∧ p ≠ pa ∧ p ≠ pb) as (Hab & Hppa & Hppb) by nd_goal.
  assert (pa < length h ∧ pb < length h ∧ p < length h) as (HltA & HltB & Hltp).
  { split_and!; by eapply lookup_lt_Some. }
  set (nC := set_children (set_keys na ((ka ++ [k]) ++ kb)) (children na ++ children nb)).
  set (h3 := <[pa := nC]> h).
  assert (Forall (RepT h3 (Some pb)) cb) as HfB3.
  { eapply bp_RepTs_same; [| exact HfB]. unfold h3. same_on_goal. }
  destruct (bp_reparent_loop cb h3 (Some pb) (Some pa) HfB3 ltac:(done))
    as (h4 & Hloop & HfB4 & Hsame4 & Hlen4 & Hnext4).
  assert (inorder (BNode pa ((ka ++ [k]) ++ kb) (ca ++ cb))
          = inorder (BNode pa ka ca) ++ ISep k :: inorder (BNode pb kb cb)) as Hin.
  { simpl. rewrite fmap_app, <-app_assoc. simpl.
    by rewrite bp_inter_app by (rewrite length_fmap; lia). }
  assert (∀ q, q ≠ pa → q ∉ cb ≫= ids → h4 !! q = h !! q) as Hold.
  { intros q Hqa Hq. rewrite Hsame4.
    - unfold h3. by rewrite list_lookup_insert_ne.
    - intros Hin'%bp_rid_ids_sub. done. }
  assert (h4 !! p = Some pn) as Hp4 by (rewrite Hold; done).
  assert (h4 !! pa = Some nC) as Hpa4.
  { rewrite Hsame4.
    - unfold h3. by apply list_lookup_insert_eq.
    - intros Hin'%bp_rid_ids_sub. done. }
  exists na, nb, h4. split_and!; try done.
  - rewrite HcB' at 2. exact Hloop.
  - eapply (bp_HInv_merged h h4 rest p fl fr _ _ k _ pn HP); try done.
    + apply (RepT_node h4 _ pa _ (ca ++ cb) nC); try done.
      * simpl. by rewrite HcA', HcB', fmap_app.
      * apply Forall_app. split; [| done].
        eapply bp_RepTs_same; [| exact HfA]. intros q Hq. apply Hold.
        -- nd_goal.
        -- nd_goal.
    + simpl. nd_goal.
    + simpl. rewrite bind_app. intros q. rewrite !elem_of_cons, !elem_of_app, !elem_of_cons.
      tauto.
    + intros q Hqp Hq Hlt. simpl in Hq. apply Hold.
      * intros ->. apply Hq. apply elem_of_cons. by left.
      * intros Hq'. apply Hq. rewrite elem_of_cons, elem_of_app, elem_of_cons. tauto.
    + rewrite bp_whole_pnode in HCh.
      rewrite !bp_leaf_ids_app in *. rewrite Hin.
      rewrite bp_leaf_ids_cons, !bp_leaf_ids_app in *.
      eapply bp_chain_pres; [apply Hnext4 |].
      unfold h3. eapply bp_chain_pres; [by eapply bp_next_pres_insert |].
      by rewrite <-!app_assoc in *.
Qed.

Lemma bp_merged_wf d ht rest p fl fr C :
  need (mnof d) rest ≤ length fl + 1 + length fr →
  Forall (wf (mnof d) (mnof d) ht) (fst <$> fl) →
  Forall (wf (mnof d) (mnof d) ht) (snd <$> fr) →
  wf (mnof d) (mnof d) ht C →
  wf (mnof d) (need (mnof d) rest - 1) (S ht) (fnode (Frame p fl fr) C).
Proof.
  intros Hneed Hwl Hwr HwC. unfold fnode, fkeys. simpl. constructor.
  - rewrite length_app, !length_fmap. lia.
  - rewrite !length_app. simpl. rewrite !length_fmap. lia.
  - apply Forall_app. split; [done |]. apply Forall_cons. by split.
Qed.

Lemma bp_ri_merge_left h rest p fl fr pa ka ca pb kb cb k pn callee d ht mB :
  PairAt h rest p fl (BNode pa ka ca) k (BNode pb kb cb) fr pn →
  wf (mnof d) (mnof d) (S ht) (BNode pa ka ca) → wf (mnof d) mB (S ht) (BNode pb kb cb) →
  need (mnof d) rest ≤ length fl + 1 + length fr →
  Forall (wf (mnof d) (mnof d) (S ht)) (fst <$> fl) →
  Forall (wf (mnof d) (mnof d) (S ht)) (snd <$> fr) →
  ¬ (len ka > d - 1)%Z → no_right h d fr → dfp_ok callee rest d (S ht) →
  ∃ h' t' ht',
    rebalanceInternal_with callee (mkTree h (Some (croot rest p)) d) pb
      = Some (mkTree h' (Some (rid t')) d) ∧
    HInv h' [] t' ∧ SInv (mnof d) ht' [] t' ∧
    inorder t' = whole rest (pnode p fl (BNode pa ka ca) k (BNode pb kb cb) fr).
Proof.
  intros HP HwA HwB Hneed Hwl Hwr Hpoor Hnr Hcallee.
  pose proof HP as [Hp Hleaf Hk Hc Hpar _ _ _ _ _ _ _ HiA HiB HcA HcB Hkey _].
  inversion HwA as [| ? ? ? ? ? HmA HlenA HfwA]; subst.
  inversion HwB as [| ? ? ? ? ? HmB HlenB HfwB]; subst.
  destruct (bp_int_merge h rest p fl fr pa ka ca pb kb cb k pn HP HlenA)
    as (na & nb & h4 & (Hpa & HkA & HcA') & (Hpb & HkB & HcB' & HparB) &
        (HparA & Hab & Hppa & Hppb) & Hloop & Hp4 & HI4 & Hin).
  set (C := BNode pa ((ka ++ [k]) ++ kb) (ca ++ cb)) in *.
  assert (wf (mnof d) (mnof d) (S ht) C) as HwC.
  { constructor.
    - rewrite !length_app. simpl. lia.
    - rewrite !length_app. simpl. lia.
    - apply Forall_app. by split. }
  destruct (Hcallee h4 p pn fl fr C pb k Hp4 Hk Hc HI4
              (bp_merged_wf d (S ht) rest p fl fr C Hneed Hwl Hwr HwC))
    as (h' & t' & ht' & Hrun & HI' & HS' & Hin').
  exists h', t', ht'. split_and!; try done.
  - rewrite <-Hrun. unfold rebalanceInternal_with. cbn [heap].
    rewrite Hpb. cbn [mbind option_bind]. rewrite HparB. rewrite Hp. cbn [mbind option_bind].
    simpl in HiB. rewrite HiB.
    rewrite (decide_True (P := 0 < S (length fl))) by lia.
    replace (S (length fl) - 1) with (length fl) by lia.
    simpl in HcA. rewrite HcA. cbn [mbind option_bind]. rewrite Hpa. cbn [mbind option_bind].
    rewrite decide_False by (unfold minInternalKeys; simpl; by rewrite HkA).
    match goal with |- (if decide _ then _ else ?M) = _ => set (Mt := M) end.
    enough (Mt = callee (mkTree h4 (Some (croot rest p)) d) p (length fl)) as HMt.
    { assert (children pn = (rid ∘ fst <$> fl ++ [(BNode pa ka ca, k)]) ++ pb
                :: (rid ∘ snd <$> fr)) as Hc'.
      { rewrite Hc, fmap_app, <-app_assoc. done. }
      destruct (bp_no_right_lookup ksize h d (fl ++ [(BNode pa ka ca, k)]) fr (children pn) _
                  Hnr Hc') as [Hlen | (q & nq & Hpos & Hq & Hnq & Hpoor')];
        rewrite length_app in *; simpl in *.
      - rewrite decide_False by (unfold len; lia). done.
      - rewrite decide_True by (unfold len; lia).
        replace (S (length fl + 1)) with (length fl + 1 + 1) by lia.
        rewrite Hq. cbn [mbind option_bind]. rewrite Hnq. cbn [mbind option_bind].
        rewrite decide_False by done. done. }
    unfold Mt. clear Mt.
    rewrite (decide_True (P := 0 < S (length fl))) by lia.
    rewrite Hkey. cbn [mbind option_bind].
    rewrite (list_lookup_insert_ne _ pa pb) by done. rewrite Hpb. cbn [mbind option_bind].
    unfold modify. rewrite list_lookup_insert_eq by (by eapply lookup_lt_Some).
    cbn [mbind option_bind]. rewrite list_insert_insert_eq.
    rewrite (list_lookup_insert_ne _ pa pb) by done. rewrite Hpb. cbn [mbind option_bind].
    rewrite list_lookup_insert_eq by (by eapply lookup_lt_Some).
    cbn [mbind option_bind]. rewrite list_insert_insert_eq.
    rewrite (list_lookup_insert_ne _ pa pb) by done. rewrite Hpb. cbn [mbind option_bind].
    simpl. rewrite HkA, HkB.
    change (foldl _ _ (children nb)) with
      (reparent_all (Some pa)
         (<[pa := set_children (set_keys na ((ka ++ [k]) ++ kb))
                    (children na ++ children nb)]> h) (children nb)).
    rewrite Hloop. done.
  - rewrite Hin'. unfold whole. rewrite bp_inorder_frame, bp_inorder_pnode.
    rewrite Hin.
    by repeat first [rewrite <-app_assoc | rewrite <-app_comm_cons].
Qed.

Lemma bp_ri_merge_right h rest p fr pa ka ca pb kb cb k pn callee d ht mA :
  PairAt h rest p [] (BNode pa ka ca) k (BNode pb kb cb) fr pn →
  wf (mnof d) mA (S ht) (BNode pa ka ca) → wf (mnof d) (mnof d) (S ht) (BNode pb kb cb) →
  need (mnof d) rest ≤ 1 + length fr →
  Forall (wf (mnof d) (mnof d) (S ht)) (snd <$> fr) →
  ¬ (len kb > d - 1)%Z → dfp_ok callee rest d (S ht) →
  ∃ h' t' ht',
    rebalanceInternal_with callee (mkTree h (Some (croot rest p)) d) pa
      = Some (mkTree h' (Some (rid t')) d) ∧
    HInv h' [] t' ∧ SInv (mnof d) ht' [] t' ∧
    inorder t' = whole rest (pnode p [] (BNode pa ka ca) k (BNode pb kb cb) fr).
Proof.
  intros HP HwA HwB Hneed Hwr Hpoor Hcallee.
  pose proof HP as [Hp Hleaf Hk Hc Hpar _ _ _ _ _ _ _ HiA HiB HcA HcB Hkey _].
  inversion HwA as [| ? ? ? ? ? HmA HlenA HfwA]; subst.
  inversion HwB as [| ? ? ? ? ? HmB HlenB HfwB]; subst.
  destruct (bp_int_merge h rest p [] fr pa ka ca pb kb cb k pn HP HlenA)
    as (na & nb & h4 & (Hpa & HkA & HcA') & (Hpb & HkB & HcB' & HparB) &
        (HparA & Hab & Hppa & Hppb) & Hloop & Hp4 & HI4 & Hin).
  set (C := BNode pa ((ka ++ [k]) ++ kb) (ca ++ cb)) in *.
  assert (wf (mnof d) (mnof d) (S ht) C) as HwC.
  { constructor.
    - rewrite !length_app. simpl. lia.
    - rewrite !length_app. simpl. lia.
    - apply Forall_app. by split. }
  destruct (Hcallee h4 p pn [] fr C pb k Hp4 Hk Hc HI4
              (bp_merged_wf d (S ht) rest p [] fr C ltac:(simpl; lia) ltac:(done) Hwr HwC))
    as (h' & t' & ht' & Hrun & HI' & HS' & Hin').
  exists h', t', ht'. split_and!; try done.
  - rewrite <-Hrun. unfold rebalanceInternal_with. cbn [heap].
    rewrite Hpa. cbn [mbind option_bind]. rewrite HparA. rewrite Hp. cbn [mbind option_bind].
    simpl in HiA, HcA, HcB, Hkey. rewrite HiA.
    rewrite (decide_False (P := 0 < 0)) by lia.
    rewrite decide_True.
    2:{ unfold len. rewrite Hc. simpl. lia. }
    change (0 + 1) with 1. rewrite HcB. cbn [mbind option_bind].
    rewrite Hpb. cbn [mbind option_bind].
    rewrite decide_False by (unfold minInternalKeys; simpl; by rewrite HkB).
    rewrite Hkey. cbn [mbind option_bind].
    rewrite (list_lookup_insert_ne _ pa pb) by done. rewrite Hpb. cbn [mbind option_bind].
    unfold modify. rewrite list_lookup_insert_eq by (by eapply lookup_lt_Some).
    cbn [mbind option_bind]. rewrite list_insert_insert_eq.
    rewrite (list_lookup_insert_ne _ pa pb) by done. rewrite Hpb. cbn [mbind option_bind].
    rewrite list_lookup_insert_eq by (by eapply lookup_lt_Some).
    cbn [mbind option_bind]. rewrite list_insert_insert_eq.
    rewrite (list_lookup_insert_ne _ pa pb) by done. rewrite Hpb. cbn [mbind option_bind].
    simpl. rewrite HkA, HkB.
    change (foldl _ _ (children nb)) with
      (reparent_all (Some pa)
         (<[pa := set_children (set_keys na ((ka ++ [k]) ++ kb))
                    (children na ++ children nb)]> h) (children nb)).
    rewrite decide_True by (unfold len; rewrite Hc; simpl; lia).
    rewrite Hloop. done.
  - rewrite Hin'. unfold whole. rewrite bp_inorder_frame, bp_inorder_pnode.
    rewrite Hin.
    by repeat first [rewrite <-app_assoc | rewrite <-app_comm_cons].
Qed.

End Internal.

(** * Deletion: [rebalanceInternal] and [deleteFromParent] *)

Section Parents.
Context {V : Type}.
Local Arguments Nat.div : simpl never.
Implicit Types (h : list (node V)) (t A B C : bt V) (ctx rest : list (frame V)).
Implicit Types (fl : list (bt V * Z)) (fr : list (Z * bt V)).

Lemma bp_wf_node_inv mn m ht t :
  wf mn m (S ht) t → ∃ p ks cs, t = BNode p ks cs.
Proof. intros Hw. inversion Hw; subst. eauto. Qed.

Lemma bp_poor_of h par d p ks cs :
  RepT h par (BNode p ks cs) → ¬ (len ks > d - 1)%Z → poor h d p.
Proof.
  intros (nd & Hp & _ & Hk & _)%bp_RepT_node_inv Hpoor. exists nd.
  unfold ksize. by rewrite Hk.
Qed.

Lemma bp_pair_whole_eq rest p fl fr A k B A' k' B' :
  inorder A' ++ ISep k' :: inorder B' = inorder A ++ ISep k :: inorder B →
  whole rest (pnode p fl A' k' B' fr) = whole rest (pnode p fl A k B fr).
Proof. intros Hin. by rewrite !bp_whole_pnode_mid, Hin. Qed.

Lemma bp_ri_spec f rest h n ks cs ht d callee :
  dfp_ok callee rest d (S ht) →
  HInv h (f :: rest) (BNode n ks cs) → wfc (mnof d) (S ht) (f :: rest) →
  wf (mnof d) (mnof d - 1) (S ht) (BNode n ks cs) → (2 <= d)%Z →
  ∃ h' t' ht',
    rebalanceInternal_with callee (mkTree h (Some (croot rest (fp f))) d) n
      = Some (mkTree h' (Some (rid t')) d) ∧
    HInv h' [] t' ∧ SInv (mnof d) ht' [] t' ∧
    inorder t' = whole (f :: rest) (BNode n ks cs).
Proof.
  intros Hcallee HI (Hwsib & Hneed & Hwc) Hw Hd.
  pose proof (bp_mnof_pos d Hd) as Hmn.
  destruct f as [p fl fr]. unfold siblings, fkeys in *. simpl in *.
  apply Forall_app in Hwsib as [Hwl Hwr].
  rewrite length_app, !length_fmap in Hneed.
  assert (∀ h' A' k' B' fl0 fr0 A0 k0 B0,
    HInv h' rest (pnode p fl0 A' k' B' fr0) →
    length fl0 + 1 + length fr0 = length fl + length fr →
    Forall (wf (mnof d) (mnof d) (S ht)) (fst <$> fl0) →
    Forall (wf (mnof d) (mnof d) (S ht)) (snd <$> fr0) →
    wf (mnof d) (mnof d) (S ht) A' → wf (mnof d) (mnof d) (S ht) B' →
    inorder A' ++ ISep k' :: inorder B' = inorder A0 ++ ISep k0 :: inorder B0 →
    ∃ t' ht', rid t' = croot rest p ∧ HInv h' [] t' ∧ SInv (mnof d) ht' [] t' ∧
              inorder t' = whole rest (pnode p fl0 A0 k0 B0 fr0)) as Hfinish.
  { intros h' A' k' B' fl0 fr0 A0 k0 B0 HI' Hlen Hwl0 Hwr0 HwA' HwB' Hin.
    destruct (bp_pair_finish h' rest p fl0 fr0 A' k' B' d (S ht) HI' Hwc ltac:(lia)
                Hwl0 Hwr0 HwA' HwB') as (t' & ht' & Hrid & HI'' & HS'' & Hin'').
    exists t', ht'. split_and!; try done.
    rewrite Hin''. by apply bp_pair_whole_eq. }
  destruct (bp_snoc_or_nil fl) as [-> | (fl' & [A k] & ->)].
  - (* no left sibling *)
    destruct fr as [| [k2 B2] fr']; [simpl in Hneed; destruct rest; simpl in *; lia |].
    simpl in Hwr. apply Forall_cons in Hwr as [HwB2 Hwr].
    destruct (bp_wf_node_inv _ _ _ _ HwB2) as (pb & kb & cb & ->).
    apply bp_HInv_right in HI. destruct (bp_pair_at _ _ _ _ _ _ _ _ HI) as [pn HP].
    rewrite bp_whole_right.
    destruct (decide (len kb > d - 1)%Z) as [Hrich | Hpoor].
    + destruct (bp_ri_borrow_right h rest p [] fr' n ks cs pb kb cb k2 pn callee
                  (Some (croot rest p)) d ht _ HP Hw HwB2 Hrich Hd ltac:(by left))
        as (h' & A' & B' & k' & Hrun & HI' & Hin & HwA' & HwB').
      destruct (Hfinish h' A' k' B' [] fr' (BNode n ks cs) k2 (BNode pb kb cb) HI')
        as (t' & ht' & Hrid & HI'' & HS'' & Hin''); try done.
      { eapply bp_wf_weaken; [done | lia]. }
      exists h', t', ht'. split_and!; try done. by rewrite Hrid.
    + simpl in Hneed.
      destruct (bp_ri_merge_right h rest p fr' n ks cs pb kb cb k2 pn callee d ht _
                  HP Hw HwB2 ltac:(lia) Hwr Hpoor Hcallee)
        as (h' & t' & ht' & Hrun & HI' & HS' & Hin').
      exists h', t', ht'. by split_and!.
  - (* a left sibling [A] *)
    rewrite fmap_app in Hwl. apply Forall_app in Hwl as [Hwl HwA].
    apply Forall_cons in HwA as [HwA _]. simpl in HwA.
    destruct (bp_wf_node_inv _ _ _ _ HwA) as (pa & ka & ca & ->).
    rewrite length_app in Hneed. simpl in Hneed.
    pose proof HI as HIl. apply bp_HInv_left in HIl.
    destruct (bp_pair_at _ _ _ _ _ _ _ _ HIl) as [pn HP].
    destruct (decide (len ka > d - 1)%Z) as [Hrich | Hpoor].
    + rewrite bp_whole_left.
      destruct (bp_ri_borrow_left h rest p fl' fr pa ka ca n ks cs k pn callee
                  (Some (croot rest p)) d ht _ HP HwA Hw Hrich Hd)
        as (h' & A' & B' & k' & Hrun & HI' & Hin & HwA' & HwB').
      destruct (Hfinish h' A' k' B' fl' fr (BNode pa ka ca) k (BNode n ks cs) HI')
        as (t' & ht' & Hrid & HI'' & HS'' & Hin''); try done.
      { rewrite length_app. simpl. lia. }
      { eapply bp_wf_weaken; [done | lia]. }
      exists h', t', ht'. split_and!; try done. by rewrite Hrid.
    + assert (poor h d pa) as HpoorA.
      { destruct HP. by eapply bp_poor_of. }
      destruct fr as [| [k2 B2] fr'].
      * rewrite bp_whole_left.
        destruct (bp_ri_merge_left h rest p fl' [] pa ka ca n ks cs k pn callee d ht _
                    HP HwA Hw ltac:(simpl in *; lia) Hwl Hwr Hpoor ltac:(by left) Hcallee)
          as (h' & t' & ht' & Hrun & HI' & HS' & Hin').
        exists h', t', ht'. by split_and!.
      * simpl in Hwr. apply Forall_cons in Hwr as [HwB2 Hwr].
        destruct (bp_wf_node_inv _ _ _ _ HwB2) as (pb & kb & cb & ->).
        destruct (decide (len kb > d - 1)%Z) as [Hrich2 | Hpoor2].
        -- pose proof HI as HIr. apply bp_HInv_right in HIr.
           destruct (bp_pair_at _ _ _ _ _ _ _ _ HIr) as [pn2 HP2].
           rewrite bp_whole_right.
           destruct (bp_ri_borrow_right h rest p (fl' ++ [(BNode pa ka ca, k)]) fr'
                       n ks cs pb kb cb k2 pn2 callee
                       (Some (croot rest p)) d ht _ HP2 Hw HwB2 Hrich2 Hd)
             as (h' & A' & B' & k' & Hrun & HI' & Hin & HwA' & HwB').
           { right. by exists fl', (BNode pa ka ca), k. }
           destruct (Hfinish h' A' k' B' (fl' ++ [(BNode pa ka ca, k)]) fr'
                       (BNode n ks cs) k2 (BNode pb kb cb) HI')
             as (t' & ht' & Hrid & HI'' & HS'' & Hin''); try done.
           { rewrite !length_app. simpl. lia. }
           { rewrite fmap_app. apply Forall_app. split; [done |].
             by apply Forall_singleton. }
           { eapply bp_wf_weaken; [done | lia]. }
           exists h', t', ht'. split_and!; try done. by rewrite Hrid.
        -- rewrite bp_whole_left.
           assert (poor h d pb) as HpoorB.
           { destruct HP as [? ? ? ? ? ? ? ? Hfr' ? ? ? ? ? ? ? ? ?].
             simpl in Hfr'. apply Forall_cons in Hfr' as [HB2 _].
             by eapply bp_poor_of. }
           destruct (bp_ri_merge_left h rest p fl' ((k2, BNode pb kb cb) :: fr')
                       pa ka ca n ks cs k pn callee d ht _
                       HP HwA Hw ltac:(simpl in *; lia) Hwl
                       ltac:(simpl; by apply Forall_cons) Hpoor
                       ltac:(right; by exists k2, (BNode pb kb cb), fr') Hcallee)
             as (h' & t' & ht' & Hrun & HI' & HS' & Hin').
           exists h', t', ht'. by split_and!.
Qed.

Lemma bp_croot_in (f : frame V) rest : croot rest (fp f) ∈ idsc (f :: rest).
Proof.
  revert f. induction rest as [| g rest IH]; intros f; simpl.
  - apply elem_of_cons. by left.
  - apply elem_of_cons. right. apply elem_of_app. right. apply IH.
Qed.

Lemma bp_dfp_spec rest :
  ∀ ht fuel d,
    wfc (mnof d) (S ht) rest → (2 <= d)%Z → length rest < fuel →
    dfp_ok (deleteFromParent fuel) rest d ht.
Proof.
  induction rest as [| f rest' IH]; intros ht fuel d Hwc Hd Hfuel
    h p pn fl fr C cB k Hp Hk Hc HI Hw;
    (destruct fuel as [| fuel]; [simpl in Hfuel; lia |]).
  all: pose proof (bp_mnof_pos d Hd) as Hmn.
  all: set (ks := (snd <$> fl) ++ (fst <$> fr)) in *.
  all: set (cs := (fst <$> fl) ++ C :: (snd <$> fr)) in *.
  all: set (h1 := <[p := set_children (set_keys pn ks) (rid <$> cs)]> h) in *.
  all: assert (take (length fl) (keys pn) ++ drop (S (length fl)) (keys pn) = ks) as Hks
    by (rewrite Hk; rewrite <-(length_fmap snd fl);
        by rewrite take_app_length, (bp_drop_S_app (snd <$> fl))).
  all: assert (take (length fl + 1) (children pn) ++ drop (S (length fl + 1)) (children pn)
               = rid <$> cs) as Hcs
    by (rewrite Hc, Nat.add_1_r; rewrite <-(length_fmap (rid ∘ fst) fl);
        rewrite bp_take_S_app, bp_drop_SS_app;
        unfold cs; rewrite fmap_app, fmap_cons, <-!list_fmap_compose, <-app_assoc; done).
  all: match goal with |- context [croot ?cx _] =>
    assert (deleteFromParent (S fuel) (mkTree h (Some (croot cx p)) d) p (length fl)
       = (if decide (Some (croot cx p) = Some p ∧ length ks = 0) then
            c ← (rid <$> cs) !! 0;
            h2 ← modify h1 c (λ n, set_parent n None);
            Some (mkTree h2 (Some c) d)
          else if decide (parent pn ≠ None ∧ (len ks < d - 1)%Z) then
            rebalanceInternal_with (deleteFromParent fuel)
              (mkTree h1 (Some (croot cx p)) d) p
          else Some (mkTree h1 (Some (croot cx p)) d))) as Hrun
    by (simpl; rewrite Hp; cbn [mbind option_bind];
        rewrite decide_True
          by (rewrite Hk, Hc, !length_app; simpl; rewrite !length_fmap; lia);
        rewrite Hks, Hcs; done) end.
  all: rewrite Hrun; clear Hrun.
  all: pose proof HI as [HC HT HN HCh].
  all: apply bp_RepT_node_inv in HT as (nd1 & Hp1 & Hl1 & Hk1 & Hc1 & Hpar1 & Hf1).
  all: assert (p < length h) as Hltp by (by eapply lookup_lt_Some).
  all: assert (nd1 = set_children (set_keys pn ks) (rid <$> cs)) as ->
    by (unfold h1 in Hp1; rewrite list_lookup_insert_eq in Hp1 by done; congruence).
  all: simpl in Hpar1.
  all: inversion Hw as [| ? ? ? ? ? Hm Hlen Hfw]; subst.
  - (* the root *)
    simpl in *. destruct (decide (length ks = 0)) as [Hz | Hnz].
    + rewrite decide_True by done.
      assert (fl = [] ∧ fr = []) as [-> ->].
      { unfold ks, fkeys in *. simpl in *. rewrite length_app, !length_fmap in Hz.
        split; apply length_zero_iff_nil; lia. }
      simpl in *. apply Forall_cons in Hf1 as [HC1 _]. apply Forall_cons in Hfw as [HwC _].
      destruct (bp_RepT_root _ _ _ HC1) as (nC & HnC & HparC).
      unfold modify. rewrite HnC. cbn [mbind option_bind].
      exists (<[rid C := set_parent nC None]> h1), C, ht.
      rewrite app_nil_r in HN. apply NoDup_cons in HN as [HpC HNC].
      rewrite app_nil_r in HNC.
      split_and!.
      * done.
      * split.
        -- done.
        -- eapply (bp_RepT_reparent h1 _ (Some p) None C nC); try done.
           ++ apply list_lookup_insert_eq. by eapply lookup_lt_Some.
           ++ intros q Hq Hne. by rewrite list_lookup_insert_ne.
        -- simpl. by rewrite app_nil_r.
        -- rewrite bp_whole_nil in *. rewrite bp_inorder_frame in HCh.
           simpl in HCh. rewrite app_nil_r in HCh.
           eapply bp_chain_pres; [by eapply bp_next_pres_insert | done].
      * split; [done |]. eapply bp_wf_weaken; [done |]. simpl. lia.
      * rewrite bp_whole_nil, bp_inorder_frame. simpl. by rewrite app_nil_r.
    + rewrite decide_False by tauto.
      rewrite decide_False by (rewrite Hpar1; tauto).
      exists h1, (fnode (Frame p fl fr) C), (S ht). split_and!; try done.
      * split; [done |]. unfold fnode, fkeys. simpl. constructor; try done.
        unfold ks in Hnz. lia.
      * by rewrite bp_whole_nil.
  - (* below the root *)
    destruct Hwc as (Hwsib & Hneed & Hwc').
    rewrite decide_False.
    2:{ intros [[= Heq] _]. simpl in Heq.
        pose proof (bp_croot_in f rest') as Hin. rewrite Heq in Hin.
        simpl in HN. apply NoDup_cons in HN as [HpN _]. apply HpN.
        apply elem_of_app. by right. }
    simpl in Hpar1, Hfuel.
    destruct (decide (len ks < d - 1)%Z) as [Hunder | Hok].
    + rewrite decide_True by (by rewrite Hpar1).
      assert (dfp_ok (deleteFromParent fuel) rest' d (S ht)) as Hcal
        by (apply IH; [done | done | lia]).
      assert (wfc (mnof d) (S ht) (f :: rest')) as Hwcf by (by split_and!).
      assert (wf (mnof d) (mnof d - 1) (S ht) (BNode p ks cs)) as Hwn.
      { constructor; [| done | done]. simpl in Hm. unfold ks. unfold fkeys in Hm.
        simpl in Hm. lia. }
      destruct (bp_ri_spec f rest' h1 p ks cs ht d (deleteFromParent fuel)
                  Hcal HI Hwcf Hwn Hd) as (h' & t' & ht' & Hrun & HI' & HS' & Hin').
      exists h', t', ht'. by split_and!.
    + rewrite decide_False by tauto.
      destruct (bp_SInv_plug (mnof d) (S ht) (f :: rest') (fnode (Frame p fl fr) C))
        as [ht' HS'].
      { split; [by split_and! |]. unfold fnode, fkeys. simpl. constructor; try done.
        unfold ks, len, mnof in *. lia. }
      exists h1, (plug (f :: rest') (fnode (Frame p fl fr) C)), ht'. split_and!.
      * by rewrite bp_rid_plug.
      * by apply bp_HInv_plug.
      * done.
      * by rewrite <-bp_whole_nil, bp_whole_plug.
Qed.

End Parents.

(** * Deletion: rebalancing leaves *)

Section LeafLevel.
Context {V : Type}.
Local Arguments Nat.div : simpl never.
Implicit Types (h : list (node V)) (t A B C : bt V) (ctx rest : list (frame V)).
Implicit Types (fl : list (bt V * Z)) (fr : list (Z * bt V)).

Definition poor_leaf := @poor_by V esize.
Definition no_left_leaf := @no_left_by V esize.
Definition no_right_leaf := @no_right_by V esize.

Lemma bp_sorted_insert_before P x y Q :
  sorted (P ++ x :: Q) → (y < x)%Z → (∀ z, z ∈ P → (z < y)%Z) →
  sorted (P ++ y :: x :: Q).
Proof.
  intros (HP & HxQ & HPQ)%bp_sorted_app Hyx HPy.
  pose proof HxQ as [HQ HxQ']%bp_sorted_cons.
  apply bp_sorted_app. split; [done |]. split.
  - apply bp_sorted_cons. split; [done |].
    intros a b ->%list_elem_of_singleton [-> | Hb]%elem_of_cons; [done |].
    specialize (HxQ' x b). rewrite list_elem_of_singleton in HxQ'.
    specialize (HxQ' eq_refl Hb). lia.
  - apply bp_lt_all_cons_r. split; [done | done].
Qed.

Lemma bp_wf_leaf_inv mn m t : wf mn m 0 t → ∃ p es, t = BLeaf p es.
Proof. intros Hw. inversion Hw; subst. eauto. Qed.

Lemma bp_poor_leaf_of h par d p (es : list (Entry V)) :
  RepT h par (BLeaf p es) → ¬ (len es > d - 1)%Z → poor_leaf h d p.
Proof.
  intros (nd & Hp & _ & He & _)%bp_RepT_leaf_inv Hpoor. exists nd.
  unfold esize. by rewrite He.
Qed.

Lemma bp_rl_borrow_left h rest p fl fr pa ea pb eb k pn fuel r d :
  PairAt h rest p fl (BLeaf pa ea) k (BLeaf pb eb) fr pn →
  (len ea > d - 1)%Z → (2 <= d)%Z → mnof d - 1 ≤ length eb →
  ∃ h' A' B' k',
    rebalanceLeaf fuel (mkTree h r d) pb = Some (mkTree h' r d) ∧
    HInv h' rest (pnode p fl A' k' B' fr) ∧
    wf (mnof d) (mnof d) 0 A' ∧ wf (mnof d) (mnof d) 0 B' ∧
    contents (inorder A' ++ ISep k' :: inorder B')
      = contents (inorder (BLeaf pa ea) ++ ISep k :: inorder (BLeaf pb eb)) ∧
    (∀ K1 K2,
       sorted (K1 ++ keys2 (inorder (BLeaf pa ea) ++ ISep k :: inorder (BLeaf pb eb)) ++ K2) →
       sorted (K1 ++ keys2 (inorder A' ++ ISep k' :: inorder B') ++ K2)).
Proof.
  intros HP Hrich Hd Hmin. unfold len in Hrich.
  pose proof HP as [Hp Hleaf Hk Hc Hpar HA HB Hfl Hfr HCx HN Hb HiA HiB HcA HcB Hkey HCh].
  apply bp_RepT_leaf_inv in HA as (na & Hpa & HlA & HeA & HparA).
  apply bp_RepT_leaf_inv in HB as (nb & Hpb & HlB & HeB & HparB).
  destruct (bp_snoc_inv ea) as (ea' & b & Hea); [lia |].
  assert (length ea = S (length ea')) as Hlea by (rewrite Hea, length_app; simpl; lia).
  destruct (bp_snoc_inv ea') as (ea'' & a & Hea'); [unfold mnof in *; lia |].
  simpl in HN, Hb. nd_norm HN. nd_norm Hb.
  assert (pa ≠ pb ∧ p ≠ pa ∧ p ≠ pb) as (Hab & Hppa & Hppb) by nd_goal.
  assert (pa < length h ∧ pb < length h ∧ p < length h) as (HltA & HltB & Hltp).
  { split_and!; by eapply lookup_lt_Some. }
  set (h1 := <[pa := set_entries na (removelast (entries na))]> h).
  set (h2 := <[pb := set_entries nb (b :: entries nb)]> h1).
  set (h3 := <[p := set_keys pn (<[length fl := Key b]> (keys pn))]> h2).
  exists h3, (BLeaf pa ea'), (BLeaf pb (b :: eb)), (Key b).
  split_and!.
  - unfold rebalanceLeaf. cbn [heap].
    rewrite Hpb. cbn [mbind option_bind]. rewrite HparB. rewrite Hp. cbn [mbind option_bind].
    simpl in HiB. rewrite HiB.
    rewrite (decide_True (P := 0 < S (length fl))) by lia.
    replace (S (length fl) - 1) with (length fl) by lia.
    simpl in HcA. rewrite HcA. cbn [mbind option_bind]. rewrite Hpa. cbn [mbind option_bind].
    rewrite decide_True by (unfold minLeafEntries, len; simpl; rewrite HeA; lia).
    assert (last (entries na) = Some b) as Hlast by (rewrite HeA, Hea; apply last_snoc).
    rewrite Hlast. cbn [mbind option_bind]. fold h1.
    assert (h1 !! pb = Some nb) as H1b by (unfold h1; by rewrite list_lookup_insert_ne).
    unfold modify. rewrite H1b. cbn [mbind option_bind]. fold h2.
    assert (h2 !! pb = Some (set_entries nb (b :: entries nb))) as H2b.
    { unfold h2. apply list_lookup_insert_eq. unfold h1. by rewrite length_insert. }
    rewrite H2b. cbn [mbind option_bind]. simpl.
    assert (h2 !! p = Some pn) as H2p.
    { unfold h2, h1. by rewrite !list_lookup_insert_ne. }
    rewrite H2p. cbn [mbind option_bind].
    rewrite decide_True.
    2:{ rewrite Hk, length_app, length_fmap. simpl. lia. }
    done.
  - eapply (bp_HInv_pair h h3 rest p fl fr _ _ k _ _ (Key b) pn HP).
    + unfold h3. rewrite list_lookup_insert_eq.
      2:{ unfold h2, h1. by rewrite !length_insert. }
      f_equal. f_equal. rewrite Hk. rewrite <-(length_fmap snd fl). apply bp_insert_middle.
    + done.
    + done.
    + apply (RepT_leaf h3 _ pa ea' (set_entries na (removelast (entries na)))); try done.
      * unfold h3, h2. rewrite !list_lookup_insert_ne by done.
        unfold h1. by apply list_lookup_insert_eq.
      * simpl. rewrite HeA, Hea. apply removelast_last.
    + apply (RepT_leaf h3 _ pb (b :: eb) (set_entries nb (b :: entries nb))); try done.
      * unfold h3. rewrite !list_lookup_insert_ne by done.
        unfold h2. apply list_lookup_insert_eq. unfold h1. by rewrite length_insert.
      * simpl. by rewrite HeB.
    + done.
    + intros q Hqp Hq Hlt. simpl in Hq.
      assert (q ≠ pa ∧ q ≠ pb) as (? & ?).
      { split; intros ->; apply Hq; set_solver. }
      unfold h3, h2, h1. by rewrite !list_lookup_insert_ne by ne_solve.
    + intros q. unfold h3.
      rewrite (bp_next_insert h2 p pn)
        by (done || (unfold h2, h1; by rewrite !list_lookup_insert_ne by ne_solve)).
      unfold h2.
      rewrite (bp_next_insert h1 pb nb)
        by (done || (unfold h1; by rewrite !list_lookup_insert_ne by ne_solve)).
      unfold h1. by rewrite (bp_next_insert h pa na).
    + done.
  - constructor. unfold mnof in *. lia.
  - constructor. simpl. lia.
  - simpl. rewrite Hea. rewrite !app_nil_r. by rewrite <-app_assoc.
  - intros K1 K2 Hs.
    rewrite bp_keys2_app, bp_keys2_cons in *. simpl in *. rewrite !app_nil_r in *.
    rewrite Hea, Hea', !fmap_app in Hs. simpl in Hs.
    rewrite Hea', !fmap_app. simpl.
    repeat first [rewrite <-app_assoc in Hs | rewrite <-app_comm_cons in Hs].
    repeat first [rewrite <-app_assoc | rewrite <-app_comm_cons].
    simpl in *.
    assert (sorted (K1 ++ (ekey <$> ea'') ++ ekey a :: ekey b :: (ekey <$> eb) ++ K2)) as Hs'.
    { eapply bp_sorted_sublist; [| exact Hs].
      apply sublist_app; [done |]. apply sublist_app; [done |].
      apply sublist_skip, sublist_skip. by apply sublist_cons. }
    rewrite (app_assoc K1), (cons_middle (ekey a)), (app_assoc (K1 ++ _)).
    rewrite (app_assoc K1), (cons_middle (ekey a)), (app_assoc (K1 ++ _)) in Hs'.
    apply bp_sorted_insert_before; [done | unfold ekey; lia |].
    apply bp_sorted_app in Hs' as (HsP & Hsb & HlP).
    assert (ekey a < ekey b)%Z as Hab'.
    { apply HlP; [| apply elem_of_cons; by left].
      apply elem_of_app. right. by apply list_elem_of_singleton. }
    intros z Hz. specialize (HlP z (ekey b) Hz). rewrite elem_of_cons in HlP.
    specialize (HlP (or_introl eq_refl)).
    apply elem_of_app in Hz as [Hz | ->%list_elem_of_singleton].
    + apply bp_sorted_app in HsP as (_ & _ & Hla).
      specialize (Hla z (ekey a) Hz). rewrite list_elem_of_singleton in Hla.
      specialize (Hla eq_refl). unfold ekey in *. lia.
    + unfold ekey in *. lia.
Qed.

Lemma bp_rl_borrow_right h rest p fl fr pa ea pb eb k pn fuel r d :
  PairAt h rest p fl (BLeaf pa ea) k (BLeaf pb eb) fr pn →
  (len eb > d - 1)%Z → (2 <= d)%Z → mnof d - 1 ≤ length ea → no_left_leaf h d fl →
  ∃ h' A' B' k',
    rebalanceLeaf fuel (mkTree h r d) pa = Some (mkTree h' r d) ∧
    HInv h' rest (pnode p fl A' k' B' fr) ∧
    wf (mnof d) (mnof d) 0 A' ∧ wf (mnof d) (mnof d) 0 B' ∧
    contents (inorder A' ++ ISep k' :: inorder B')
      = contents (inorder (BLeaf pa ea) ++ ISep k :: inorder (BLeaf pb eb)) ∧
    (∀ K1 K2,
       sorted (K1 ++ keys2 (inorder (BLeaf pa ea) ++ ISep k :: inorder (BLeaf pb eb)) ++ K2) →
       sorted (K1 ++ keys2 (inorder A' ++ ISep k' :: inorder B') ++ K2)).
Proof.
  intros HP Hrich Hd Hmin Hnl. unfold len in Hrich.
  pose proof HP as [Hp Hleaf Hk Hc Hpar HA HB Hfl Hfr HCx HN Hb HiA HiB HcA HcB Hkey HCh].
  apply bp_RepT_leaf_inv in HA as (na & Hpa & HlA & HeA & HparA).
  apply bp_RepT_leaf_inv in HB as (nb & Hpb & HlB & HeB & HparB).
  destruct eb as [| b [| b' eb'']]; [simpl in Hrich; lia | simpl in Hrich; lia |].
  cbn [length] in Hrich.
  simpl in HN, Hb. nd_norm HN. nd_norm Hb.
  assert (pa ≠ pb ∧ p ≠ pa ∧ p ≠ pb) as (Hab & Hppa & Hppb) by nd_goal.
  assert (pa < length h ∧ pb < length h ∧ p < length h) as (HltA & HltB & Hltp).
  { split_and!; by eapply lookup_lt_Some. }
  set (h1 := <[pb := set_entries nb (drop 1 (entries nb))]> h).
  set (h2 := <[pa := set_entries na (entries na ++ [b])]> h1).
  set (h3 := <[p := set_keys pn (<[length fl := Key b']> (keys pn))]> h2).
  exists h3, (BLeaf pa (ea ++ [b])), (BLeaf pb (b' :: eb'')), (Key b').
  split_and!.
  - unfold rebalanceLeaf. cbn [heap].
    rewrite Hpa. cbn [mbind option_bind]. rewrite HparA. rewrite Hp. cbn [mbind option_bind].
    simpl in HiA. rewrite HiA.
    match goal with |- (if decide _ then _ else ?R) = _ => set (Rt := R) end.
    enough (Rt = Some (mkTree h3 r d)) as HRt.
    { destruct (bp_no_left_lookup esize h d fl (children pn) _ _ Hnl Hc)
        as [-> | (q & nq & Hpos & Hq & Hnq & Hpoor)].
      - simpl. done.
      - rewrite decide_True by done. rewrite Hq. cbn [mbind option_bind].
        rewrite Hnq. cbn [mbind option_bind].
        rewrite decide_False by done. done. }
    unfold Rt. clear Rt.
    rewrite decide_True.
    2:{ unfold len. rewrite Hc, length_app, length_fmap. simpl. lia. }
    rewrite Nat.add_1_r. simpl in HcB. rewrite HcB. cbn [mbind option_bind].
    rewrite Hpb. cbn [mbind option_bind].
    rewrite decide_True by (unfold minLeafEntries, len; simpl; rewrite HeB; simpl; lia).
    assert (entries nb !! 0 = Some b) as He0 by (by rewrite HeB).
    rewrite He0. cbn [mbind option_bind]. fold h1.
    assert (h1 !! pa = Some na) as H1a by (unfold h1; by rewrite list_lookup_insert_ne).
    unfold modify. rewrite H1a. cbn [mbind option_bind]. fold h2.
    assert (h2 !! pb = Some (set_entries nb (drop 1 (entries nb)))) as H2b.
    { unfold h2. rewrite list_lookup_insert_ne by done.
      unfold h1. by apply list_lookup_insert_eq. }
    rewrite H2b. cbn [mbind option_bind].
    assert (entries (set_entries nb (drop 1 (entries nb))) !! 0 = Some b') as He1
      by (simpl; by rewrite HeB).
    rewrite He1. cbn [mbind option_bind].
    assert (h2 !! p = Some pn) as H2p.
    { unfold h2, h1. by rewrite !list_lookup_insert_ne. }
    rewrite H2p. cbn [mbind option_bind].
    rewrite decide_True.
    2:{ rewrite Hk, length_app, length_fmap. simpl. lia. }
    done.
  - eapply (bp_HInv_pair h h3 rest p fl fr _ _ k _ _ (Key b') pn HP).
    + unfold h3. rewrite list_lookup_insert_eq.
      2:{ unfold h2, h1. by rewrite !length_insert. }
      f_equal. f_equal. rewrite Hk. rewrite <-(length_fmap snd fl). apply bp_insert_middle.
    + done.
    + done.
    + apply (RepT_leaf h3 _ pa _ (set_entries na (entries na ++ [b]))); try done.
      * unfold h3. rewrite !list_lookup_insert_ne by done.
        unfold h2. apply list_lookup_insert_eq. unfold h1. by rewrite length_insert.
      * simpl. by rewrite HeA.
    + apply (RepT_leaf h3 _ pb _ (set_entries nb (drop 1 (entries nb)))); try done.
      * unfold h3, h2. rewrite !list_lookup_insert_ne by ne_solve.
        unfold h1. by apply list_lookup_insert_eq.
      * simpl. by rewrite HeB.
    + done.
    + intros q Hqp Hq Hlt. simpl in Hq.
      assert (q ≠ pa ∧ q ≠ pb) as (? & ?).
      { split; intros ->; apply Hq; set_solver. }
      unfold h3, h2, h1. by rewrite !list_lookup_insert_ne by ne_solve.
    + intros q. unfold h3.
      rewrite (bp_next_insert h2 p pn)
        by (done || (unfold h2, h1; by rewrite !list_lookup_insert_ne by ne_solve)).
      unfold h2.
      rewrite (bp_next_insert h1 pa na)
        by (done || (unfold h1; by rewrite !list_lookup_insert_ne by ne_solve)).
      unfold h1. by rewrite (bp_next_insert h pb nb).
    + done.
  - constructor. rewrite length_app. simpl. lia.
  - constructor. simpl in *. unfold mnof in *. lia.
  - simpl. rewrite !app_nil_r. by rewrite <-app_assoc.
  - intros K1 K2 Hs.
    rewrite bp_keys2_app, bp_keys2_cons in *. simpl in *. rewrite !app_nil_r in *.
    rewrite !fmap_app. simpl.
    repeat first [rewrite <-app_assoc in Hs | rewrite <-app_comm_cons in Hs].
    repeat first [rewrite <-app_assoc | rewrite <-app_comm_cons].
    simpl in *.
    assert (sorted (K1 ++ (ekey <$> ea) ++ ekey b :: ekey b' :: (ekey <$> eb'') ++ K2)) as Hs'.
    { eapply bp_sorted_sublist; [| exact Hs].
      apply sublist_app; [done |]. apply sublist_app; [done |]. by apply sublist_cons. }
    rewrite (app_assoc K1), (cons_middle (ekey b)), (app_assoc (K1 ++ _)).
    rewrite (app_assoc K1), (cons_middle (ekey b)), (app_assoc (K1 ++ _)) in Hs'.
    apply bp_sorted_insert_before; [done | unfold ekey; lia |].
    apply bp_sorted_app in Hs' as (HsP & Hsb & HlP).
    assert (ekey b < ekey b')%Z as Hbb'.
    { apply HlP; [| apply elem_of_cons; by left].
      apply elem_of_app. right. by apply list_elem_of_singleton. }
    intros z Hz.
    apply elem_of_app in Hz as [Hz | ->%list_elem_of_singleton].
    + apply bp_sorted_app in HsP as (_ & _ & Hla).
      specialize (Hla z (ekey b) Hz). rewrite list_elem_of_singleton in Hla.
      specialize (Hla eq_refl). unfold ekey in *. lia.
    + unfold ekey in *. lia.
Qed.

Lemma bp_leaf_merge h rest p fl fr pa ea pb eb k pn :
  PairAt h rest p fl (BLeaf pa ea) k (BLeaf pb eb) fr pn →
  ∃ na nb,
    (h !! pa = Some na ∧ entries na = ea ∧ parent na = Some p) ∧
    (h !! pb = Some nb ∧ entries nb = eb ∧ parent nb = Some p) ∧
    (pa ≠ pb ∧ p ≠ pa ∧ p ≠ pb) ∧
    (<[pa := set_next (set_entries na (ea ++ eb)) (next nb)]> h) !! p = Some pn ∧
    HInv (<[p := set_children (set_keys pn ((snd <$> fl) ++ (fst <$> fr)))
                   (rid <$> (fst <$> fl) ++ BLeaf pa (ea ++ eb) :: (snd <$> fr))]>
            (<[pa := set_next (set_entries na (ea ++ eb)) (next nb)]> h))
         rest (fnode (Frame p fl fr) (BLeaf pa (ea ++ eb))).
Proof.
  intros HP.
  pose proof HP as [Hp Hleaf Hk Hc Hpar HA HB Hfl Hfr HCx HN Hb HiA HiB HcA HcB Hkey HCh].
  apply bp_RepT_leaf_inv in HA as (na & Hpa & HlA & HeA & HparA).
  apply bp_RepT_leaf_inv in HB as (nb & Hpb & HlB & HeB & HparB).
  simpl in HN, Hb.
  assert (pa ∉ leaf_ids (ibefore rest ++ lpart fl) ∧ pa ∉ leaf_ids (rpart fr ++ iafter rest))
    as [HpaL HpaR].
  { rewrite !bp_leaf_ids_app. nd_norm HN. split; apply not_elem_of_app; split.
    - intros Hin%bp_leaf_ids_before. done.
    - intros Hin%bp_leaf_ids_lpart. done.
    - intros Hin%bp_leaf_ids_rpart. done.
    - intros Hin%bp_leaf_ids_after. done. }
  nd_norm HN. nd_norm Hb.
  assert (pa ≠ pb ∧ p ≠ pa ∧ p ≠ pb) as (Hab & Hppa & Hppb) by nd_goal.
  assert (pa < length h ∧ pb < length h ∧ p < length h) as (HltA & HltB & Hltp).
  { split_and!; by eapply lookup_lt_Some. }
  set (nC := set_next (set_entries na (ea ++ eb)) (next nb)).
  set (h2 := <[pa := nC]> h).
  assert (h2 !! p = Some pn) as Hp2 by (unfold h2; by rewrite list_lookup_insert_ne).
  exists na, nb. split_and!; try done.
  eapply (bp_HInv_merged h h2 rest p fl fr _ _ k _ pn HP); try done.
  - apply (RepT_leaf h2 _ pa _ nC); try done. unfold h2. by apply list_lookup_insert_eq.
  - simpl. apply NoDup_singleton.
  - simpl. set_solver.
  - intros q Hqp Hq Hlt. simpl in Hq. unfold h2. rewrite list_lookup_insert_ne; [done |].
    intros ->. apply Hq. set_solver.
  - rewrite bp_whole_pnode in HCh.
    rewrite (app_assoc (ibefore rest)) in HCh. rewrite (app_assoc (ibefore rest)).
    rewrite bp_leaf_ids_app in HCh. rewrite bp_leaf_ids_app.
    apply bp_chain_app in HCh as [HC1 HC2]. apply bp_chain_app.
    change (leaf_ids (inorder (BLeaf pa ea) ++ ISep k :: inorder (BLeaf pb eb) ++
                      rpart fr ++ iafter rest))
      with (pa :: pb :: leaf_ids (rpart fr ++ iafter rest)) in HC1, HC2.
    change (leaf_ids (inorder (BLeaf pa (ea ++ eb)) ++ rpart fr ++ iafter rest))
      with (pa :: leaf_ids (rpart fr ++ iafter rest)).
    simpl in HC1, HC2. destruct HC2 as (Hnpa & Hnpb & HC2).
    simpl. split_and!.
    + eapply bp_chain_same; [| exact HC1]. intros q Hq. unfold h2.
      rewrite list_lookup_insert_ne; [done |]. intros ->. done.
    + unfold h2. rewrite list_lookup_insert_eq by done. simpl.
      rewrite Hpb in Hnpb. simpl in Hnpb. done.
    + eapply bp_chain_same; [| exact HC2]. intros q Hq. unfold h2.
      rewrite list_lookup_insert_ne; [done |]. intros ->. done.
Qed.

Lemma bp_rl_merge_left h rest p fl fr pa ea pb eb k pn fuel d :
  PairAt h rest p fl (BLeaf pa ea) k (BLeaf pb eb) fr pn →
  mnof d ≤ length ea →
  need (mnof d) rest ≤ length fl + 1 + length fr →
  Forall (wf (mnof d) (mnof d) 0) (fst <$> fl) →
  Forall (wf (mnof d) (mnof d) 0) (snd <$> fr) →
  ¬ (len ea > d - 1)%Z → no_right_leaf h d fr →
  dfp_ok (deleteFromParent fuel) rest d 0 →
  ∃ h' t' ht',
    rebalanceLeaf fuel (mkTree h (Some (croot rest p)) d) pb
      = Some (mkTree h' (Some (rid t')) d) ∧
    HInv h' [] t' ∧ SInv (mnof d) ht' [] t' ∧
    inorder t' = whole rest (fnode (Frame p fl fr) (BLeaf pa (ea ++ eb))).
Proof.
  intros HP HmA Hneed Hwl Hwr Hpoor Hnr Hcallee.
  pose proof HP as [Hp Hleaf Hk Hc Hpar _ _ _ _ _ _ _ HiA HiB HcA HcB Hkey _].
  destruct (bp_leaf_merge h rest p fl fr pa ea pb eb k pn HP)
    as (na & nb & (Hpa & HeA & HparA) & (Hpb & HeB & HparB) & (Hab & Hppa & Hppb) &
        Hp2 & HI2).
  set (C := BLeaf pa (ea ++ eb)) in *.
  assert (wf (mnof d) (mnof d) 0 C) as HwC.
  { constructor. rewrite length_app. lia. }
  destruct (Hcallee _ p pn fl fr C pb k Hp2 Hk Hc HI2
              (bp_merged_wf d 0 rest p fl fr C Hneed Hwl Hwr HwC))
    as (h' & t' & ht' & Hrun & HI' & HS' & Hin').
  exists h', t', ht'. split_and!; try done.
  rewrite <-Hrun. unfold rebalanceLeaf. cbn [heap].
  rewrite Hpb. cbn [mbind option_bind]. rewrite HparB. rewrite Hp. cbn [mbind option_bind].
  simpl in HiB. rewrite HiB.
  rewrite (decide_True (P := 0 < S (length fl))) by lia.
  replace (S (length fl) - 1) with (length fl) by lia.
  simpl in HcA. rewrite HcA. cbn [mbind option_bind]. rewrite Hpa. cbn [mbind option_bind].
  rewrite decide_False by (unfold minLeafEntries; simpl; by rewrite HeA).
  match goal with |- (if decide _ then _ else ?M) = _ => set (Mt := M) end.
  enough (Mt = deleteFromParent fuel
                 (mkTree (<[pa := set_next (set_entries na (ea ++ eb)) (next nb)]> h)
                    (Some (croot rest p)) d) p (length fl)) as HMt.
  { assert (children pn = (rid ∘ fst <$> fl ++ [(BLeaf pa ea, k)]) ++ pb
              :: (rid ∘ snd <$> fr)) as Hc'.
    { rewrite Hc, fmap_app, <-app_assoc. done. }
    destruct (bp_no_right_lookup esize h d (fl ++ [(BLeaf pa ea, k)]) fr (children pn) _
                Hnr Hc') as [Hlen | (q & nq & Hpos & Hq & Hnq & Hpoor')];
      rewrite length_app in *; simpl in *.
    - rewrite decide_False by (unfold len; lia). done.
    - rewrite decide_True by (unfold len; lia).
      replace (S (length fl + 1)) with (length fl + 1 + 1) by lia.
      rewrite Hq. cbn [mbind option_bind]. rewrite Hnq. cbn [mbind option_bind].
      rewrite decide_False by done. done. }
  unfold Mt. clear Mt.
  rewrite (decide_True (P := 0 < S (length fl))) by lia.
  rewrite (list_lookup_insert_ne _ pa pb) by done. rewrite Hpb. cbn [mbind option_bind].
  unfold modify. rewrite list_lookup_insert_eq by (by eapply lookup_lt_Some).
  cbn [mbind option_bind]. rewrite list_insert_insert_eq.
  simpl. by rewrite HeA, HeB.
Qed.

Lemma bp_rl_merge_right h rest p fr pa ea pb eb k pn fuel d :
  PairAt h rest p [] (BLeaf pa ea) k (BLeaf pb eb) fr pn →
  mnof d ≤ length eb →
  need (mnof d) rest ≤ 1 + length fr →
  Forall (wf (mnof d) (mnof d) 0) (snd <$> fr) →
  ¬ (len eb > d - 1)%Z →
  dfp_ok (deleteFromParent fuel) rest d 0 →
  ∃ h' t' ht',
    rebalanceLeaf fuel (mkTree h (Some (croot rest p)) d) pa
      = Some (mkTree h' (Some (rid t')) d) ∧
    HInv h' [] t' ∧ SInv (mnof d) ht' [] t' ∧
    inorder t' = whole rest (fnode (Frame p [] fr) (BLeaf pa (ea ++ eb))).
Proof.
  intros HP HmB Hneed Hwr Hpoor Hcallee.
  pose proof HP as [Hp Hleaf Hk Hc Hpar _ _ _ _ _ _ _ HiA HiB HcA HcB Hkey _].
  destruct (bp_leaf_merge h rest p [] fr pa ea pb eb k pn HP)
    as (na & nb & (Hpa & HeA & HparA) & (Hpb & HeB & HparB) & (Hab & Hppa & Hppb) &
        Hp2 & HI2).
  set (C := BLeaf pa (ea ++ eb)) in *.
  assert (wf (mnof d) (mnof d) 0 C) as HwC.
  { constructor. rewrite length_app. lia. }
  destruct (Hcallee _ p pn [] fr C pb k Hp2 Hk Hc HI2
              (bp_merged_wf d 0 rest p [] fr C ltac:(simpl; lia) ltac:(done) Hwr HwC))
    as (h' & t' & ht' & Hrun & HI' & HS' & Hin').
  exists h', t', ht'. split_and!; try done.
  rewrite <-Hrun. unfold rebalanceLeaf. cbn [heap].
  rewrite Hpa. cbn [mbind option_bind]. rewrite HparA. rewrite Hp. cbn [mbind option_bind].
  simpl in HiA, HcA, HcB, Hkey. rewrite HiA.
  rewrite (decide_False (P := 0 < 0)) by lia.
  rewrite decide_True.
  2:{ unfold len. rewrite Hc. simpl. lia. }
  change (0 + 1) with 1. rewrite HcB. cbn [mbind option_bind].
  rewrite Hpb. cbn [mbind option_bind].
  rewrite decide_False by (unfold minLeafEntries; simpl; by rewrite HeB).
  rewrite (list_lookup_insert_ne _ pa pb) by done. rewrite Hpb. cbn [mbind option_bind].
  unfold modify. rewrite list_lookup_insert_eq by (by eapply lookup_lt_Some).
  cbn [mbind option_bind]. rewrite list_insert_insert_eq.
  simpl. rewrite ?decide_True by (unfold len; rewrite Hc; simpl; lia).
  by rewrite HeA, HeB.
Qed.

Lemma bp_keys2_pnode rest p fl A k B fr :
  keys2 (whole rest (pnode p fl A k B fr))
  = keys2 (ibefore rest ++ lpart fl) ++ keys2 (inorder A ++ ISep k :: inorder B)
      ++ keys2 (rpart fr ++ iafter rest).
Proof.
  rewrite bp_whole_pnode_mid, !bp_keys2_app. by rewrite <-!app_assoc.
Qed.

Lemma bp_contents_pnode rest p fl A k B fr :
  contents (whole rest (pnode p fl A k B fr))
  = contents (ibefore rest ++ lpart fl) ++ contents (inorder A ++ ISep k :: inorder B)
      ++ contents (rpart fr ++ iafter rest).
Proof.
  rewrite bp_whole_pnode_mid, !bp_contents_app. by rewrite <-!app_assoc.
Qed.

Lemma bp_merged_leaf_facts rest p fl fr pa (ea eb : list (Entry V)) pb k :
  let N := whole rest (pnode p fl (BLeaf pa ea) k (BLeaf pb eb) fr) in
  let N' := whole rest (fnode (Frame p fl fr) (BLeaf pa (ea ++ eb))) in
  sublist (keys2 N') (keys2 N) ∧ contents N' = contents N.
Proof.
  intros N N'. unfold N, N'. rewrite bp_whole_pnode. unfold whole.
  rewrite bp_inorder_frame. rewrite !bp_keys2_app, !bp_contents_app, bp_keys2_cons,
    bp_contents_cons, !bp_keys2_app, !bp_contents_app.
  simpl. rewrite !app_nil_r, fmap_app. rewrite <-!app_assoc. split.
  - apply sublist_app; [done |]. apply sublist_app; [done |].
    apply sublist_app; [done |]. by apply sublist_cons.
  - done.
Qed.

End LeafLevel.

(** * Deletion: [rebalanceLeaf] and [Delete] *)

Section DeleteTop.
Context {V : Type}.
Local Arguments Nat.div : simpl never.
Implicit Types (h : list (node V)) (t A B C : bt V) (ctx rest : list (frame V)).
Implicit Types (fl : list (bt V * Z)) (fr : list (Z * bt V)).

Lemma bp_rl_spec f rest h p (es : list (Entry V)) d fuel :
  HInv h (f :: rest) (BLeaf p es) → wfc (mnof d) 0 (f :: rest) →
  mnof d - 1 ≤ length es → OInv (f :: rest) (BLeaf p es) →
  (2 <= d)%Z → length rest < fuel →
  ∃ h' t' ht',
    rebalanceLeaf fuel (mkTree h (Some (croot rest (fp f))) d) p
      = Some (mkTree h' (Some (rid t')) d) ∧
    HInv h' [] t' ∧ SInv (mnof d) ht' [] t' ∧ sorted (keys2 (inorder t')) ∧
    contents (inorder t') = contents (whole (f :: rest) (BLeaf p es)).
Proof.
  intros HI (Hwsib & Hneed & Hwc) Hmin HO Hd Hfuel.
  pose proof (bp_mnof_pos d Hd) as Hmn.
  pose proof (bp_dfp_spec rest 0 fuel d Hwc Hd Hfuel) as Hcallee.
  destruct f as [p0 fl fr]. unfold siblings, fkeys in *. simpl in *.
  apply Forall_app in Hwsib as [Hwl Hwr].
  rewrite length_app, !length_fmap in Hneed.
  unfold OInv in HO.
  assert (∀ h' A' k' B' fl0 fr0 A0 k0 B0,
    HInv h' rest (pnode p0 fl0 A' k' B' fr0) →
    length fl0 + 1 + length fr0 = length fl + length fr →
    Forall (wf (mnof d) (mnof d) 0) (fst <$> fl0) →
    Forall (wf (mnof d) (mnof d) 0) (snd <$> fr0) →
    wf (mnof d) (mnof d) 0 A' → wf (mnof d) (mnof d) 0 B' →
    contents (inorder A' ++ ISep k' :: inorder B')
      = contents (inorder A0 ++ ISep k0 :: inorder B0) →
    (∀ K1 K2, sorted (K1 ++ keys2 (inorder A0 ++ ISep k0 :: inorder B0) ++ K2) →
              sorted (K1 ++ keys2 (inorder A' ++ ISep k' :: inorder B') ++ K2)) →
    sorted (keys2 (whole rest (pnode p0 fl0 A0 k0 B0 fr0))) →
    ∃ t' ht', rid t' = croot rest p0 ∧ HInv h' [] t' ∧ SInv (mnof d) ht' [] t' ∧
              sorted (keys2 (inorder t')) ∧
              contents (inorder t') = contents (whole rest (pnode p0 fl0 A0 k0 B0 fr0)))
    as Hfinish.
  { intros h' A' k' B' fl0 fr0 A0 k0 B0 HI' Hlen Hwl0 Hwr0 HwA' HwB' Hcont Hsort Hs.
    destruct (bp_pair_finish h' rest p0 fl0 fr0 A' k' B' d 0 HI' Hwc ltac:(lia)
                Hwl0 Hwr0 HwA' HwB') as (t' & ht' & Hrid & HI'' & HS'' & Hin'').
    exists t', ht'. split_and!; try done.
    - rewrite Hin'', bp_keys2_pnode. apply Hsort.
      by rewrite <-(bp_keys2_pnode rest p0 fl0 A0 k0 B0 fr0).
    - by rewrite Hin'', !bp_contents_pnode, Hcont. }
  assert (∀ h' t' ht' fl0 fr0 pa ea pb eb k0 X,
    X = Some (mkTree h' (Some (rid t')) d) ∧ HInv h' [] t' ∧ SInv (mnof d) ht' [] t' ∧
      inorder t' = whole rest (fnode (Frame p0 fl0 fr0) (BLeaf pa (ea ++ eb))) →
    sorted (keys2 (whole rest (pnode p0 fl0 (BLeaf pa ea) k0 (BLeaf pb eb) fr0))) →
    X = Some (mkTree h' (Some (rid t')) d) ∧ HInv h' [] t' ∧ SInv (mnof d) ht' [] t' ∧
      sorted (keys2 (inorder t')) ∧
      contents (inorder t')
        = contents (whole rest (pnode p0 fl0 (BLeaf pa ea) k0 (BLeaf pb eb) fr0)))
    as Hmerged.
  { intros h' t' ht' fl0 fr0 pa ea pb eb k0 X (HX & HI' & HS' & Hin') Hs.
    destruct (bp_merged_leaf_facts rest p0 fl0 fr0 pa ea eb pb k0) as [Hsub Hcont].
    split_and!; try done.
    - rewrite Hin'. by eapply bp_sorted_sublist.
    - by rewrite Hin'. }
  destruct (bp_snoc_or_nil fl) as [-> | (fl' & [A k] & ->)].
  - (* no left sibling *)
    destruct fr as [| [k2 B2] fr']; [simpl in Hneed; destruct rest; simpl in *; lia |].
    simpl in Hwr. apply Forall_cons in Hwr as [HwB2 Hwr].
    destruct (bp_wf_leaf_inv _ _ _ HwB2) as (pb & eb & ->).
    apply bp_HInv_right in HI. destruct (bp_pair_at _ _ _ _ _ _ _ _ HI) as [pn HP].
    rewrite bp_whole_right in *.
    assert (mnof d ≤ length eb) as HmB by (by inversion HwB2).
    destruct (decide (len eb > d - 1)%Z) as [Hrich | Hpoor].
    + destruct (bp_rl_borrow_right h rest p0 [] fr' p es pb eb k2 pn fuel
                  (Some (croot rest p0)) d HP Hrich Hd Hmin ltac:(by left))
        as (h' & A' & B' & k' & Hrun & HI' & HwA' & HwB' & Hcont & Hsort).
      destruct (Hfinish h' A' k' B' [] fr' (BLeaf p es) k2 (BLeaf pb eb) HI')
        as (t' & ht' & Hrid & HI'' & HS'' & Hs'' & Hc''); try done.
      exists h', t', ht'. split_and!; try done. by rewrite Hrid.
    + simpl in Hneed.
      destruct (bp_rl_merge_right h rest p0 fr' p es pb eb k2 pn fuel d
                  HP HmB ltac:(lia) Hwr Hpoor Hcallee)
        as (h' & t' & ht' & Hrun).
      exists h', t', ht'. by eapply Hmerged.
  - (* a left sibling [A] *)
    rewrite fmap_app in Hwl. apply Forall_app in Hwl as [Hwl HwA].
    apply Forall_cons in HwA as [HwA _]. simpl in HwA.
    destruct (bp_wf_leaf_inv _ _ _ HwA) as (pa & ea & ->).
    assert (mnof d ≤ length ea) as HmA by (by inversion HwA).
    rewrite length_app in Hneed. simpl in Hneed.
    pose proof HI as HIl. apply bp_HInv_left in HIl.
    destruct (bp_pair_at _ _ _ _ _ _ _ _ HIl) as [pn HP].
    destruct (decide (len ea > d - 1)%Z) as [Hrich | Hpoor].
    + rewrite bp_whole_left in *.
      destruct (bp_rl_borrow_left h rest p0 fl' fr pa ea p es k pn fuel
                  (Some (croot rest p0)) d HP Hrich Hd Hmin)
        as (h' & A' & B' & k' & Hrun & HI' & HwA' & HwB' & Hcont & Hsort).
      destruct (Hfinish h' A' k' B' fl' fr (BLeaf pa ea) k (BLeaf p es) HI')
        as (t' & ht' & Hrid & HI'' & HS'' & Hs'' & Hc''); try done.
      { rewrite length_app. simpl. lia. }
      exists h', t', ht'. split_and!; try done. by rewrite Hrid.
    + assert (poor_leaf h d pa) as HpoorA.
      { destruct HP. by eapply bp_poor_leaf_of. }
      destruct fr as [| [k2 B2] fr'].
      * rewrite bp_whole_left in *.
        destruct (bp_rl_merge_left h rest p0 fl' [] pa ea p es k pn fuel d
                    HP HmA ltac:(simpl in *; lia) Hwl Hwr Hpoor ltac:(by left) Hcallee)
          as (h' & t' & ht' & Hrun).
        exists h', t', ht'. by eapply Hmerged.
      * simpl in Hwr. apply Forall_cons in Hwr as [HwB2 Hwr].
        destruct (bp_wf_leaf_inv _ _ _ HwB2) as (pb & eb & ->).
        destruct (decide (len eb > d - 1)%Z) as [Hrich2 | Hpoor2].
        -- pose proof HI as HIr. apply bp_HInv_right in HIr.
           destruct (bp_pair_at _ _ _ _ _ _ _ _ HIr) as [pn2 HP2].
           rewrite bp_whole_right in *.
           destruct (bp_rl_borrow_right h rest p0 (fl' ++ [(BLeaf pa ea, k)]) fr'
                       p es pb eb k2 pn2 fuel (Some (croot rest p0)) d HP2 Hrich2 Hd Hmin)
             as (h' & A' & B' & k' & Hrun & HI' & HwA' & HwB' & Hcont & Hsort).
           { right. by exists fl', (BLeaf pa ea), k. }
           destruct (Hfinish h' A' k' B' (fl' ++ [(BLeaf pa ea, k)]) fr'
                       (BLeaf p es) k2 (BLeaf pb eb) HI')
             as (t' & ht' & Hrid & HI'' & HS'' & Hs'' & Hc''); try done.
           { rewrite !length_app. simpl. lia. }
           { rewrite fmap_app. apply Forall_app. split; [done |].
             by apply Forall_singleton. }
           exists h', t', ht'. split_and!; try done. by rewrite Hrid.
        -- rewrite bp_whole_left in *.
           assert (poor_leaf h d pb) as HpoorB.
           { destruct HP as [? ? ? ? ? ? ? ? Hfr' ? ? ? ? ? ? ? ? ?].
             simpl in Hfr'. apply Forall_cons in Hfr' as [HB2 _].
             by eapply bp_poor_leaf_of. }
           destruct (bp_rl_merge_left h rest p0 fl' ((k2, BLeaf pb eb) :: fr')
                       pa ea p es k pn fuel d
                       HP HmA ltac:(simpl in *; lia) Hwl
                       ltac:(simpl; by apply Forall_cons) Hpoor
                       ltac:(right; by exists k2, (BLeaf pb eb), fr') Hcallee)
             as (h' & t' & ht' & Hrun).
           exists h', t', ht'. by eapply Hmerged.
Qed.

Lemma bp_models_leaf_delete ctx p (es es' : list (Entry V)) key M :
  routed key ctx → models (contents (whole ctx (BLeaf p es))) M →
  (∀ e, e ∈ es' ↔ e ∈ es ∧ Key e ≠ key) →
  models (contents (whole ctx (BLeaf p es'))) (delete key M).
Proof.
  intros HR HM Hes' k w. unfold models in HM.
  assert (∀ e, e ∈ contents (ibefore ctx) ∨ e ∈ contents (iafter ctx) → Key e ≠ key) as Hout.
  { intros e He Hk.
    assert (e ∈ contents (whole ctx (BLeaf p (@nil (Entry V))))) as Hin.
    { rewrite bp_contents_whole_leaf. simpl. apply elem_of_app. tauto. }
    apply (bp_routed_mem key ctx p [] e HR) in Hin; [| done]. by apply elem_of_nil in Hin. }
  rewrite bp_contents_whole_leaf. rewrite bp_contents_whole_leaf in HM.
  destruct (decide (k = key)) as [-> | Hne].
  - rewrite lookup_delete_eq. split; [done |].
    intros [Hin | [Hin | Hin]%elem_of_app]%elem_of_app; exfalso.
    + by apply (Hout _ (or_introl Hin)).
    + apply Hes' in Hin as [_ Hk]. by apply Hk.
    + by apply (Hout _ (or_intror Hin)).
  - rewrite lookup_delete_ne by done. rewrite HM.
    rewrite !elem_of_app. rewrite Hes'. simpl. tauto.
Qed.

Lemma bp_remove_mem (es : list (Entry V)) i e :
  sorted (ekey <$> es) → es !! i = Some e →
  ∀ x, x ∈ take i es ++ drop (S i) es ↔ x ∈ es ∧ Key x ≠ Key e.
Proof.
  intros Hs Hi x.
  rewrite <-(take_drop_middle es i e Hi) in Hs.
  apply bp_sorted_entries_app in Hs as (HA & HB & HAB).
  apply bp_sorted_entries_cons in HB as [HB HeB].
  rewrite <-(take_drop_middle es i e Hi) at 3.
  rewrite !elem_of_app, !elem_of_cons. split.
  - intros [Hx | Hx]; (split; [tauto |]).
    + specialize (HAB x e Hx). rewrite elem_of_cons in HAB.
      specialize (HAB (or_introl eq_refl)). lia.
    + specialize (HeB x Hx). lia.
  - intros [[Hx | [-> | Hx]] Hne]; [by left | done | by right].
Qed.

Lemma bp_croot_root ctx p : NoDup (p :: idsc ctx) → croot ctx p = p → ctx = [].
Proof.
  intros [Hp _]%NoDup_cons Hc. destruct ctx as [| f rest]; [done |].
  exfalso. apply Hp. simpl in Hc. rewrite <-Hc. apply bp_croot_in.
Qed.

(** [Delete] never fails on a well-formed tree, reports whether the key
    was there, and touches nothing when it was not. *)
Lemma bp_Delete_spec (T : BPlusTree V) M key :
  Inv T M →
  ∃ T', Delete T key = Some (T', bool_decide (is_Some (M !! key))) ∧
        Inv T' (delete key M) ∧ degree T' = degree T ∧
        (M !! key = None → T' = T).
Proof.
  intros HI. pose proof HI as [Hd HI0]. pose proof (bp_Search_spec T M key HI) as HSe.
  destruct T as [h r d]. simpl in *.
  unfold Delete. unfold Search in HSe. simpl in *. destruct r as [r |].
  - destruct (bp_Inv_descend _ M key r HI eq_refl)
      as (ctx & p & es & Hf & HH & HS & HO & HR & HM & Hc & _ & _).
    simpl in *. rewrite Hf in *. simpl in *.
    pose proof HH as [_ HT HN _]. apply bp_RepT_leaf_inv in HT as (nd & Hp & _ & He & _).
    subst es. set (es := entries nd) in *. rewrite Hp in *. simpl in *. fold es in HSe.
    assert (sorted (ekey <$> es)) as Hses.
    { unfold OInv in HO. rewrite bp_keys2_whole_leaf in HO.
      apply bp_sorted_app in HO as (_ & HO & _). by apply bp_sorted_app in HO as (? & _ & _). }
    destruct HS as [Hwc Hw].
    assert (need (mnof d) ctx ≤ length es) as Hm by (by inversion Hw).
    fold es. destruct (find_key key es) as [[i e] |] eqn:Hfind; simpl in HSe.
    + injection HSe as HSe. rewrite <-HSe.
      rewrite bool_decide_eq_true_2 by (by eexists).
      apply list_find_Some in Hfind as (Hi & Hk & _).
      set (es' := take i es ++ drop (S i) es).
      set (h1 := <[p := set_entries nd es']> h).
      pose proof (lookup_lt_Some _ _ _ Hi) as Hlti.
      assert (length es = S (length es')) as Hlen'.
      { unfold es'. rewrite length_app, length_take, length_drop. lia. }
      assert (HInv h1 ctx (BLeaf p es')) as HH1 by (by apply (bp_HInv_leaf_set h ctx p es)).
      assert (OInv ctx (BLeaf p es')) as HO1.
      { unfold OInv in *. rewrite bp_keys2_whole_leaf in *.
        eapply bp_sorted_sublist; [| exact HO].
        apply sublist_app; [done |]. apply sublist_app; [| done].
        apply fmap_sublist. unfold es'.
        rewrite <-(take_drop_middle es i e Hi) at 3.
        apply sublist_app; [done |]. by apply sublist_cons. }
      assert (models (contents (whole ctx (BLeaf p es'))) (delete key M)) as HM1.
      { eapply bp_models_leaf_delete; try done. subst key. by apply bp_remove_mem. }
      destruct (decide (p = r)) as [-> | Hpr].
      * pose proof (bp_croot_root ctx r HN Hc) as ->.
        destruct (decide (length es' = 0)) as [Hz | Hnz].
        -- eexists. split; [done |]. split_and!; try done.
           split; [done |]. simpl.
           apply map_eq. intros k'. rewrite lookup_empty.
           destruct (delete key M !! k') as [w |] eqn:Hl; [| done].
           apply HM1 in Hl. rewrite bp_contents_whole_leaf in Hl. simpl in Hl.
           apply length_zero_iff_nil in Hz. rewrite Hz in Hl.
           by apply elem_of_nil in Hl.
        -- eexists. split; [done |]. split_and!; try done.
           apply (bp_Inv_of_zipper h1 [] (BLeaf r es') 0); try done.
           split; [done |]. constructor. simpl. lia.
      * destruct ctx as [| f rest]; [simpl in Hc; done |].
        unfold minLeafEntries. simpl.
        destruct (decide (len es' < d - 1)%Z) as [Hunder | Hok].
        -- assert (mnof d - 1 ≤ length es') as Hmin by (simpl in Hm; lia).
           assert (length rest < S (length h1)) as Hfuel.
           { pose proof (bp_HInv_ctx_bound _ _ _ HH1) as Hbd. simpl in Hbd. lia. }
           destruct (bp_rl_spec f rest h1 p es' d (S (length h1)) HH1 Hwc Hmin HO1 Hd Hfuel)
             as (h' & t' & ht' & Hrun & HI' & HS' & HO' & Hcont).
           simpl in Hc. rewrite <-Hc. unfold set_heap. simpl. rewrite Hrun. simpl.
           eexists. split; [done |]. split_and!; try done.
           apply (bp_Inv_of_inorder _ _ ht'); try done. by rewrite Hcont.
        -- eexists. split; [done |]. split_and!; try done. rewrite <-Hc.
           apply (bp_Inv_of_zipper h1 (f :: rest) (BLeaf p es') 0); try done.
           split; [done |]. constructor. simpl. unfold len, mnof in *. lia.
    + injection HSe as HSe. rewrite <-HSe.
      rewrite bool_decide_eq_false_2 by (by intros [? ?]).
      eexists. split; [done |]. split_and!; try done.
      by rewrite delete_id.
  - subst M. rewrite lookup_empty. rewrite bool_decide_eq_false_2 by (by intros [? ?]).
    eexists. split; [done |]. split_and!; try done.
    all: by rewrite delete_empty.
Qed.

End DeleteTop.

(** * Trees built by a history of operations *)

Section Histories.
Context {V : Type}.
Local Arguments Nat.div : simpl never.
Implicit Types (T : BPlusTree V) (M : gmap Z V).

(** One call on the public interface that changes the tree. *)
Inductive op :=
| OpInsert (k : Z) (v : V)
| OpDelete (k : Z).

Definition step (T : BPlusTree V) (o : op) : option (BPlusTree V) :=
  match o with
  | OpInsert k v => Insert T k v
  | OpDelete k => fst <$> Delete T k
  end.

Fixpoint run (T : BPlusTree V) (ops : list op) : option (BPlusTree V) :=
  match ops with
  | [] => Some T
  | o :: ops' => T' ← step T o; run T' ops'
  end.

(** What the same history does to a finite map. *)
Definition apply_op (M : gmap Z V) (o : op) : gmap Z V :=
  match o with
  | OpInsert k v => <[k := v]> M
  | OpDelete k => delete k M
  end.

Definition replay (M : gmap Z V) (ops : list op) : gmap Z V := foldl apply_op M ops.
Definition model (ops : list op) : gmap Z V := replay ∅ ops.

(** Strictly ascending keys. *)
Definition ascending (es : list (Entry V)) : Prop :=
  StronglySorted (λ a b, (Key a < Key b)%Z) es.

Lemma bp_ascending_ekey (es : list (Entry V)) : sorted (ekey <$> es) ↔ ascending es.
Proof.
  unfold ascending. induction es as [| e es IH].
  - split; constructor.
  - rewrite bp_sorted_entries_cons, IH. split.
    + intros [Hs Hl]. constructor; [done |]. by apply Forall_forall.
    + intros Hs. inversion Hs as [| ? ? Hs' Hf]; subst. split; [done |].
      by apply Forall_forall.
Qed.

Lemma bp_New_Inv d : Inv (V := V) (New d) ∅.
Proof. split; [| done]. unfold New. simpl. case_decide; lia. Qed.

Lemma bp_step_Inv T M o :
  Inv T M → ∃ T', step T o = Some T' ∧ Inv T' (apply_op M o) ∧ degree T' = degree T.
Proof.
  intros HI. destruct o as [k v | k]; simpl.
  - apply bp_Insert_spec, HI.
  - destruct (bp_Delete_spec T M k HI) as (T' & Hrun & HI' & Hd & _).
    exists T'. rewrite Hrun. done.
Qed.

Lemma bp_run_Inv ops : ∀ T M, Inv T M → ∃ T', run T ops = Some T' ∧ Inv T' (replay M ops).
Proof.
  induction ops as [| o ops IH]; intros T M HI; simpl.
  - by exists T.
  - destruct (bp_step_Inv T M o HI) as (T1 & Hs & HI1 & _). rewrite Hs. simpl.
    by apply IH.
Qed.

Lemma bp_built d ops : ∃ T, run (New d) ops = Some T ∧ Inv T (model ops).
Proof. apply bp_run_Inv, bp_New_Inv. Qed.

Lemma bp_run_app T ops ops' : run T (ops ++ ops') = T' ← run T ops; run T' ops'.
Proof.
  revert T. induction ops as [| o ops IH]; intros T; simpl; [done |].
  destruct (step T o) as [T1 |]; simpl; [apply IH | done].
Qed.

(** ** Consequences of the invariant for the queries *)



Lemma bp_Range_exact T M lo hi :
  Inv T M →
  ∃ res, Range T lo hi = Some res ∧ ascending res ∧
         ∀ k v, mkEntry k v ∈ res ↔ M !! k = Some v ∧ (lo <= k <= hi)%Z.
Proof.
  intros HI. destruct (bp_Range_spec T M lo hi HI) as (res & Hr & Hs & Hmem).
  exists res. split; [done |]. split; [by apply bp_ascending_ekey |].
  intros k v. by rewrite Hmem.
Qed.

Lemma bp_ascending_unique (es : list (Entry V)) e e' :
  ascending es → e ∈ es → e' ∈ es → Key e = Key e' → e = e'.
Proof. intros Hs%bp_ascending_ekey. by apply bp_sorted_key_inj. Qed.

Lemma bp_ascending_one_key (es : list (Entry V)) k :
  ascending es → (∀ e, e ∈ es → Key e = k) → es = [] ∨ ∃ e, es = [e].
Proof.
  intros Hs Hk. destruct es as [| e [| e' es]]; [by left | right; by exists e |].
  exfalso. inversion Hs as [| ? ? _ Hf]; subst.
  apply Forall_cons in Hf as [Hlt _].
  rewrite (Hk e), (Hk e') in Hlt; [lia | |]; set_solver.
Qed.

End Histories.

Arguments op : clear implicits.

(** * The B+ tree laws *)

Section Laws.
Context {V : Type}.
Implicit Types (T : BPlusTree V) (M : gmap Z V).





Lemma bp_replay_app M ops ops' : replay M (ops ++ ops') = replay (replay M ops) ops'.
Proof. unfold replay. by rewrite foldl_app. Qed.

(** C3: [Range(lo, hi)] on any tree built by inserts and deletes returns
    exactly the stored entries with keys in [[lo, hi]], in strictly
    ascending key order; [Range(k, k)] is the singleton of [k] exactly when
    [k] is stored, and a range holding no stored key is empty.  The stored
    entries are those of the history replayed on a map, which is also what
    [Search] answers. *)
Theorem bp_range_exact d (ops : list (op V)) lo hi :
  ∃ T res,
    run (New d) ops = Some T ∧ Range T lo hi = Some res ∧ ascending res ∧
    (∀ k v, mkEntry k v ∈ res ↔ model ops !! k = Some v ∧ (lo <= k <= hi)%Z) ∧
    (lo = hi →
     res = match model ops !! lo with Some v => [mkEntry lo v] | None => [] end) ∧
    ((∀ k, (lo <= k <= hi)%Z → model ops !! k = None) → res = []) ∧
    (∀ k, Search T k = Some (model ops !! k)).
Proof.
  destruct (bp_built d ops) as (T & Hrun & HI).
  destruct (bp_Range_exact T (model ops) lo hi HI) as (res & Hr & Hasc & Hmem).
  exists T, res. split_and!; try done.
  - intros <-.
    destruct (bp_ascending_one_key res lo Hasc) as [-> | [e ->]].
    + intros [k v] (_ & Hk)%Hmem. simpl. lia.
    + destruct (model ops !! lo) as [v |] eqn:Hl; [| done].
      assert (mkEntry lo v ∈ []) as Hin by (apply Hmem; split; [done | lia]).
      by apply elem_of_nil in Hin.
    + destruct e as [k v].
      assert (model ops !! k = Some v ∧ (lo <= k <= lo)%Z) as [Hl Hk]
        by (apply Hmem; by apply list_elem_of_singleton).
      assert (k = lo) as -> by lia. by rewrite Hl.
  - intros Hnone. destruct res as [| [k v] res]; [done |].
    assert (model ops !! k = Some v ∧ (lo <= k <= hi)%Z) as [Hl Hk]
      by (apply Hmem; apply elem_of_cons; by left).
    by rewrite Hnone in Hl.
  - intros k. by apply bp_Search_spec.
Qed.


(** C5: on any reachable tree, [Insert(k, v1); Insert(k, v2)] leaves
    [Search(k) = (v2, true)]; the second insert leaves [Len] unchanged, the
    keys stay strictly ascending (no duplicate entry), and no other key is
    affected. *)
Theorem bp_overwrite d (ops : list (op V)) k v1 v2 :
  ∃ T T1 T2 n es,
    run (New d) ops = Some T ∧ Insert T k v1 = Some T1 ∧ Insert T1 k v2 = Some T2 ∧
    Search T2 k = Some (Some v2) ∧ Len T1 = Some n ∧ Len T2 = Some n ∧
    All T2 = Some es ∧ ascending es ∧
    (∀ k', k' ≠ k → Search T2 k' = Search T1 k').
Proof.
  destruct (bp_built d ops) as (T & Hrun & HI).
  destruct (bp_Insert_spec T _ k v1 HI) as (T1 & Hi1 & HI1 & _).
  destruct (bp_Insert_spec T1 _ k v2 HI1) as (T2 & Hi2 & HI2 & _).
  destruct (bp_All_spec T2 _ HI2) as (es & Hall & Hs & _).
  exists T, T1, T2, (Z.of_nat (size (<[k := v1]> (model ops)))), es.
  split_and!; try done.
  - rewrite (bp_Search_spec T2 _ k HI2). by rewrite lookup_insert_eq.
  - by apply bp_Len_spec.
  - rewrite (bp_Len_spec T2 _ HI2). by rewrite insert_insert_eq, !map_size_insert.
  - by apply bp_ascending_ekey.
  - intros k' Hne. rewrite (bp_Search_spec T2 _ k' HI2), (bp_Search_spec T1 _ k' HI1).
    by rewrite lookup_insert_ne.
Qed.

(** C8: when [k] is present in a reachable tree, [Delete(k)] returns true
    and a second [Delete(k)] returns false and leaves the tree, store
    included, exactly as it was. *)
Theorem bp_delete_twice d (ops : list (op V)) k :
  is_Some (model ops !! k) →
  ∃ T T1,
    run (New d) ops = Some T ∧ Search T k = Some (model ops !! k) ∧
    Delete T k = Some (T1, true) ∧ Delete T1 k = Some (T1, false).
Proof.
  intros Hk.
  destruct (bp_built d ops) as (T & Hrun & HI).
  destruct (bp_Delete_spec T _ k HI) as (T1 & Hd1 & HI1 & _ & _).
  destruct (bp_Delete_spec T1 _ k HI1) as (T2 & Hd2 & _ & _ & Hsame).
  rewrite bool_decide_eq_true_2 in Hd1 by done.
  rewrite lookup_delete_eq in Hd2, Hsame.
  rewrite bool_decide_eq_false_2 in Hd2 by (by intros [? ?]).
  rewrite (Hsame eq_refl) in Hd2.
  exists T, T1. split_and!; try done. by apply bp_Search_spec.
Qed.

(** ** The leaf chain *)

(** [for leaf != nil { ...; leaf = leaf.next }]: the leaves visited. *)
Fixpoint walk (fuel : nat) (h : list (node V)) (leaf : option nat)
  : option (list nat) :=
  match leaf with
  | None => Some []
  | Some l =>
      match fuel with
      | 0 => None
      | S fuel' => nd ← h !! l; ps ← walk fuel' h (next nd); Some (l :: ps)
      end
  end.

Definition leaf_walk (T : BPlusTree V) : option (list nat) :=
  match root T with
  | None => Some []
  | Some _ => leaf ← firstLeaf T; walk (S (length (heap T))) (heap T) leaf
  end.

(** The leaves below a node, from left to right. *)
Fixpoint leaves_below (fuel : nat) (h : list (node V)) (n : nat)
  : option (list nat) :=
  match fuel with
  | 0 => None
  | S fuel' =>
      nd ← h !! n;
      if isLeaf nd then Some [n]
      else mjoin <$> mapM (leaves_below fuel' h) (children nd)
  end.

Definition tree_leaves (T : BPlusTree V) : option (list nat) :=
  match root T with
  | None => Some []
  | Some r => leaves_below (S (length (heap T))) (heap T) r
  end.

Definition entries_at (h : list (node V)) (ps : list nat) : list (Entry V) :=
  ps ≫= λ p, default [] (entries <$> h !! p).

Lemma bp_walk_spec h (ps : list nat) :
  ∀ fuel, chain h ps None → length ps ≤ fuel → walk fuel h (hd_opt ps None) = Some ps.
Proof.
  induction ps as [| p ps IH]; intros fuel Hch Hfuel.
  - by destruct fuel.
  - simpl in Hch, Hfuel. destruct Hch as [Hn Hch].
    destruct fuel as [| fuel]; [lia |]. simpl.
    destruct (h !! p) as [nd |] eqn:Hp; [| done]. simpl in Hn. injection Hn as Hn.
    simpl. rewrite Hn, IH by (done || lia). done.
Qed.

Lemma bp_leaf_ids_inter (ls : list (list (item V))) ks :
  leaf_ids (inter ls ks) = mjoin (leaf_ids <$> ls).
Proof.
  revert ks. induction ls as [| l ls IH]; intros ks; simpl; [done |].
  rewrite bp_leaf_ids_app. f_equal. destruct ks as [| k ks].
  - clear IH. induction ls as [| l' ls IH]; simpl; [done |].
    by rewrite bp_leaf_ids_app, IH.
  - rewrite bp_leaf_ids_cons. simpl. apply IH.
Qed.

Lemma bp_leaves_below_spec h mn (t : bt V) :
  ∀ m ht par fuel, RepT h par t → wf mn m ht t → ht < fuel →
  leaves_below fuel h (rid t) = Some (leaf_ids (inorder t)).
Proof.
  induction t as [p es | p ks cs IH] using bt_ind'; intros m ht par fuel HR Hw Hfuel;
    (destruct fuel as [| fuel]; [lia |]).
  - apply bp_RepT_leaf_inv in HR as (nd & Hp & Hl & _). simpl. rewrite Hp. simpl.
    by rewrite Hl.
  - apply bp_RepT_node_inv in HR as (nd & Hp & Hl & _ & Hc & _ & Hf).
    inversion Hw as [| ? ht' ? ? ? _ _ Hfw]; subst.
    simpl. rewrite Hp. simpl. rewrite Hl, Hc.
    rewrite bp_leaf_ids_inter, <-list_fmap_compose.
    assert (mapM (leaves_below fuel h) (rid <$> cs) = Some (leaf_ids ∘ inorder <$> cs))
      as ->; [| done].
    apply mapM_Some. apply Forall2_fmap. apply Forall2_same_length_lookup_2; [done |].
    intros i c c' Hi Hi'. assert (c' = c) as -> by congruence.
    rewrite Forall_forall in IH, Hf, Hfw.
    assert (c ∈ cs) as Hin by (by eapply list_elem_of_lookup_2).
    simpl. eapply (IH c Hin); [by apply Hf | by apply Hfw | lia].
Qed.

Lemma bp_entries_at_spec h (l : list (item V)) :
  leaves_ok h l → entries_at h (leaf_ids l) = contents l.
Proof.
  unfold entries_at. induction l as [| [k | p es] l IH]; intros Hok; [done | |].
  - apply Forall_cons in Hok as [_ Hok]. by apply IH.
  - apply Forall_cons in Hok as [(nd & Hp & He) Hok].
    rewrite bp_leaf_ids_cons, bp_contents_cons. simpl. rewrite Hp. simpl.
    rewrite He. f_equal. by apply IH.
Qed.

Lemma bp_chain_Inv (T : BPlusTree V) M :
  Inv T M →
  ∃ ps es,
    leaf_walk T = Some ps ∧ NoDup ps ∧ tree_leaves T = Some ps ∧
    entries_at (heap T) ps = es ∧ All T = Some es ∧ ascending es ∧
    ∀ k v, mkEntry k v ∈ es ↔ M !! k = Some v.
Proof.
  intros HI. pose proof HI as [Hd HI0].
  unfold leaf_walk, tree_leaves, All. destruct (root T) as [r |] eqn:Hr.
  - destruct HI0 as (t & ht & Hrid & HH & HS & HO & HM).
    destruct (bp_firstLeaf_spec T t ht r Hr Hrid HH HS) as (p & es & rest & Hf & Hin).
    assert (hd_opt (leaf_ids (inorder t)) None = Some p) as Hhd by (by rewrite Hin).
    pose proof (bp_RepT_leaves _ _ _ (hi_sub _ _ _ HH)) as Hok.
    pose proof (hi_chain _ _ _ HH) as Hch. rewrite bp_whole_nil in Hch.
    pose proof (bp_leaf_count _ _ HH) as Hcnt.
    exists (leaf_ids (inorder t)), (contents (inorder t)). rewrite Hf.
    cbn [mbind option_bind].
    split_and!.
    + rewrite <-Hhd. apply bp_walk_spec; [done | lia].
    + eapply sublist_NoDup; [| apply bp_leaf_ids_sub]. destruct HH as [_ _ HN _].
      simpl in HN. by rewrite app_nil_r in HN.
    + rewrite <-Hrid. destruct HS as [_ Hw].
      eapply bp_leaves_below_spec; [apply HH | done |]. by eapply bp_HInv_height.
    + by apply bp_entries_at_spec.
    + change (all_loop (S (length (heap T))) (heap T) (Some p) []
              = Some ([] ++ contents (inorder t))).
      rewrite <-Hhd. apply bp_all_loop_spec; [done | done | lia].
    + apply bp_ascending_ekey, bp_sorted_contents. unfold OInv in HO.
      by rewrite bp_whole_nil in HO.
    + intros k v. symmetry. apply HM.
  - subst M. exists [], []. split_and!; try done.
    + constructor.
    + constructor.
    + intros k v. rewrite lookup_empty. split; [by intros ?%elem_of_nil | done].
Qed.

(** C6: on any tree built by inserts and deletes, following [next] from
    the leftmost leaf visits exactly the leaves below the root, from left to
    right and none of them twice; the entries met on the way are all stored
    entries, each once, in strictly ascending key order, and they are what
    [All] returns. *)
Theorem bp_leaf_chain d (ops : list (op V)) :
  ∃ T ps es,
    run (New d) ops = Some T ∧
    leaf_walk T = Some ps ∧ NoDup ps ∧ tree_leaves T = Some ps ∧
    entries_at (heap T) ps = es ∧ All T = Some es ∧ ascending es ∧
    (∀ k v, mkEntry k v ∈ es ↔ model ops !! k = Some v).
Proof.
  destruct (bp_built d ops) as (T & Hrun & HI).
  destruct (bp_chain_Inv T _ HI) as (ps & es & H).
  exists T, ps, es. by split.
Qed.

End Laws.

(** A concrete history and a concrete set of keys, for the instances below. *)
Definition demo_ops : list (op Z) :=
  [OpInsert 1 10; OpInsert 2 20; OpInsert 3 30; OpInsert 4 40]%Z.

Lemma bp_delete_twice_witness :
  is_Some (model demo_ops !! 2%Z) ∧
  ∃ T T1 : BPlusTree Z,
    run (New 2) demo_ops = Some T ∧ Search T 2 = Some (model demo_ops !! 2%Z) ∧
    Delete T 2 = Some (T1, true) ∧ Delete T1 2 = Some (T1, false).
Proof.
  assert (is_Some (model demo_ops !! 2%Z)) as H.
  { exists 20%Z. vm_compute. reflexivity. }
  split; [exact H |].
  exact (bp_delete_twice 2 demo_ops 2 H).
Defined.


End BPlusProofs.

(** * The R-tree: representation invariant and laws *)
Module RTreeProofs.
Import RTree.

(** * Rectangles *)

(** [covers r o]: the rectangle [r] contains the rectangle [o]; this is
    the proposition that [Contains r o] decides. *)
Definition covers (r o : Rectangle) : Prop :=
  (MinX r <= MinX o ∧ MaxX o <= MaxX r ∧ MinY r <= MinY o ∧ MaxY o <= MaxY r)%Z.

(** The bounding box that [updateBounds] computes from the bounds of the
    entries of a node: the first one, expanded by the others in turn.  A
    node without entries is left alone; [zeroRect] is what a fresh node
    holds. *)
Definition mbr (bs : list Rectangle) : Rectangle :=
  match bs with
  | [] => zeroRect
  | b :: bs' => foldl Expand b bs'
  end.

(** The minimum bounding rectangle, said without the code: [r] contains
    every rectangle of [bs], and every rectangle that does so contains [r]. *)
Definition is_mbr (bs : list Rectangle) (r : Rectangle) : Prop :=
  (∀ b, b ∈ bs → covers r b) ∧ (∀ r', (∀ b, b ∈ bs → covers r' b) → covers r' r).

Lemma rt_rect_eta r : mkRect (MinX r) (MinY r) (MaxX r) (MaxY r) = r.
Proof. by destruct r. Qed.

Lemma rt_Contains_covers r o : Contains r o = true ↔ covers r o.
Proof.
  unfold Contains, covers. rewrite bool_decide_eq_true. lia.
Qed.

Lemma rt_covers_refl r : covers r r.
Proof. unfold covers. lia. Qed.

Lemma rt_covers_trans a b c : covers a b → covers b c → covers a c.
Proof. unfold covers. lia. Qed.

Lemma rt_covers_antisym a b : covers a b → covers b a → a = b.
Proof.
  unfold covers. destruct a, b. simpl. intros. f_equal; lia.
Qed.

Lemma rt_Expand_l r o : covers (Expand r o) r.
Proof. unfold covers, Expand. simpl. lia. Qed.

Lemma rt_Expand_r r o : covers (Expand r o) o.
Proof. unfold covers, Expand. simpl. lia. Qed.

Lemma rt_Expand_least r o r' : covers r' r → covers r' o → covers r' (Expand r o).
Proof. unfold covers, Expand. simpl. lia. Qed.

Lemma rt_Union_Expand r o : Union r o = Expand r o.
Proof. done. Qed.

Lemma rt_foldl_Expand_covers bs : ∀ b,
  covers (foldl Expand b bs) b ∧ ∀ x, x ∈ bs → covers (foldl Expand b bs) x.
Proof.
  induction bs as [| a bs IH]; intros b; simpl.
  - split; [apply rt_covers_refl |]. intros x Hx. by apply elem_of_nil in Hx.
  - destruct (IH (Expand b a)) as [H1 H2]. split.
    + eapply rt_covers_trans; [exact H1 | apply rt_Expand_l].
    + intros x [-> | Hx]%elem_of_cons; [| by apply H2].
      eapply rt_covers_trans; [exact H1 | apply rt_Expand_r].
Qed.

Lemma rt_foldl_Expand_least bs : ∀ b r',
  covers r' b → (∀ x, x ∈ bs → covers r' x) → covers r' (foldl Expand b bs).
Proof.
  induction bs as [| a bs IH]; intros b r' Hb Hbs; simpl; [done |].
  apply IH.
  - apply rt_Expand_least; [done |]. apply Hbs. by left.
  - intros x Hx. apply Hbs. by right.
Qed.

Lemma rt_mbr_is_mbr bs : bs ≠ [] → is_mbr bs (mbr bs).
Proof.
  destruct bs as [| b bs]; [done |]. intros _. simpl.
  destruct (rt_foldl_Expand_covers bs b) as [H1 H2]. split.
  - intros x [-> | Hx]%elem_of_cons; [done | by apply H2].
  - intros r' Hr'. apply rt_foldl_Expand_least.
    + apply Hr'. by left.
    + intros x Hx. apply Hr'. by right.
Qed.

Lemma rt_is_mbr_unique bs r r' : is_mbr bs r → is_mbr bs r' → r = r'.
Proof.
  intros [H1 H2] [H1' H2']. apply rt_covers_antisym; [by apply H2' | by apply H2].
Qed.


Lemma rt_mbr_perm bs bs' : bs ≡ₚ bs' → mbr bs = mbr bs'.
Proof.
  intros Hp. destruct bs as [| b bs].
  - apply Permutation_nil_l in Hp. by subst.
  - assert (bs' ≠ []) as Hne.
    { intros ->. by apply Permutation_nil_r in Hp. }
    apply (rt_is_mbr_unique (b :: bs)); [by apply rt_mbr_is_mbr |].
    destruct (rt_mbr_is_mbr bs' Hne) as [H1 H2]. split.
    + intros x Hx. apply H1. by rewrite <-Hp.
    + intros r' Hr'. apply H2. intros x Hx. apply Hr'. by rewrite Hp.
Qed.


Lemma rt_Intersects_sym r w : Intersects r w = Intersects w r.
Proof. unfold Intersects. apply bool_decide_ext. lia. Qed.


Lemma rt_ContainsPoint_true r p :
  ContainsPoint r p = true ↔
  (MinX r <= X p ∧ X p <= MaxX r ∧ MinY r <= Y p ∧ Y p <= MaxY r)%Z.
Proof. unfold ContainsPoint. rewrite bool_decide_eq_true. lia. Qed.

Lemma rt_ContainsPoint_covers r o p :
  covers r o → ContainsPoint o p = true → ContainsPoint r p = true.
Proof. rewrite !rt_ContainsPoint_true. unfold covers. lia. Qed.

Lemma rt_DistanceSq_nonneg r p : (0 <= DistanceSq r p)%Z.
Proof. unfold DistanceSq. nia. Qed.


Lemma rt_DistanceSq_zero r p :
  (MinX r <= MaxX r)%Z → (MinY r <= MaxY r)%Z →
  DistanceSq r p = 0%Z ↔ ContainsPoint r p = true.
Proof.
  intros Hx Hy. rewrite rt_ContainsPoint_true. unfold DistanceSq.
  set (dx := Z.max 0 (Z.max (MinX r - X p) (X p - MaxX r))).
  set (dy := Z.max 0 (Z.max (MinY r - Y p) (Y p - MaxY r))).
  assert (0 <= dx)%Z by lia. assert (0 <= dy)%Z by lia.
  split.
  - intros Hz. assert (dx = 0 ∧ dy = 0)%Z as [Hdx Hdy] by nia. lia.
  - intros Hin. assert (dx = 0 ∧ dy = 0)%Z as [-> ->] by lia. done.
Qed.

Lemma rt_EnlargementNeeded_nonneg r o :
  (MinX r <= MaxX r)%Z → (MinY r <= MaxY r)%Z → (0 <= EnlargementNeeded r o)%Z.
Proof.
  intros Hx Hy. unfold EnlargementNeeded, Area, Union. simpl. nia.
Qed.

(** * Sequences of integers and indexing *)

Lemma rt_lookupZ_Some {A} (l : list A) i x :
  lookupZ l i = Some x ↔ (0 <= i)%Z ∧ l !! Z.to_nat i = Some x.
Proof. unfold lookupZ. case_decide; naive_solver. Qed.

Lemma rt_lookupZ_is_Some {A} (l : list A) i :
  is_Some (lookupZ l i) ↔ (0 <= i < len l)%Z.
Proof.
  unfold lookupZ, len. case_decide.
  - rewrite lookup_lt_is_Some. lia.
  - split; [by intros [? ?] | lia].
Qed.

Lemma rt_lookupZ_None {A} (l : list A) i :
  (i < 0 ∨ len l <= i)%Z → lookupZ l i = None.
Proof.
  intros Hi. destruct (lookupZ l i) eqn:E; [| done].
  assert (is_Some (lookupZ l i)) as Hs%rt_lookupZ_is_Some by done. lia.
Qed.

Lemma rt_foldl_option_None {A B} (f : option A → B → option A) (l : list B) :
  (∀ b, f None b = None) → foldl f None l = None.
Proof. intros Hf. induction l as [| b l IH]; simpl; [done |]. by rewrite Hf. Qed.

(** * The exchange sort permutes *)

Lemma rt_swap_perm {A} (l : list A) i j a b :
  l !! i = Some a → l !! j = Some b → <[i := b]> (<[j := a]> l) ≡ₚ l.
Proof.
  revert i j. induction l as [| x l IH]; intros i j Hi Hj; [done |].
  destruct i as [| i], j as [| j]; simpl in *.
  - by simplify_eq.
  - simplify_eq. clear IH. revert j Hj. induction l as [| y l IH]; intros j Hj; [done |].
    destruct j as [| j]; simpl in *.
    + simplify_eq. apply perm_swap.
    + etrans; [apply perm_swap |]. etrans; [| apply perm_swap].
      apply perm_skip. by apply IH.
  - simplify_eq. clear IH. revert i Hi. induction l as [| y l IH]; intros i Hi; [done |].
    destruct i as [| i]; simpl in *.
    + simplify_eq. apply perm_swap.
    + etrans; [apply perm_swap |]. etrans; [| apply perm_swap].
      apply perm_skip. by apply IH.
  - apply perm_skip. by apply IH.
Qed.

Lemma rt_swap_if_perm {A} (key : A → Z) (l : list A) i j : swap_if key l i j ≡ₚ l.
Proof.
  unfold swap_if. destruct (l !! i) as [a |] eqn:Hi; [| done].
  destruct (l !! j) as [b |] eqn:Hj; [| done].
  case_decide; [| done]. by apply rt_swap_perm.
Qed.

Lemma rt_foldl_perm {A B} (f : list A → B → list A) (xs : list B) :
  (∀ l x, f l x ≡ₚ l) → ∀ l, foldl f l xs ≡ₚ l.
Proof.
  intros Hf. induction xs as [| x xs IH]; intros l; simpl; [done |].
  by rewrite IH.
Qed.

Lemma rt_exchange_sort_perm {A} (key : A → Z) (l : list A) : exchange_sort key l ≡ₚ l.
Proof.
  unfold exchange_sort. apply rt_foldl_perm. intros l1 i.
  apply rt_foldl_perm. intros l2 j. apply rt_swap_if_perm.
Qed.

Lemma rt_exchange_sort_length {A} (key : A → Z) (l : list A) :
  length (exchange_sort key l) = length l.
Proof. apply Permutation_length, rt_exchange_sort_perm. Qed.

(** * The distributions of a split *)

Lemma rt_expand_range_Some (bs : list Rectangle) (js : list Z) :
  (∀ j, j ∈ js → 0 <= j < len bs)%Z →
  ∀ r, is_Some (foldl (λ (or : option Rectangle) j,
                          r ← or; b ← lookupZ bs j; Some (Expand r b)) (Some r) js).
Proof.
  induction js as [| j js IH]; intros Hjs r; simpl; [done |].
  destruct (proj2 (rt_lookupZ_is_Some bs j)) as [b Hb]; [apply Hjs; by left |].
  rewrite Hb. simpl. apply IH. intros j' Hj'. apply Hjs. by right.
Qed.

Lemma rt_group_bounds_Some (bs : list Rectangle) i :
  (1 <= i < len bs)%Z → is_Some (group_bounds bs i).
Proof.
  intros Hi. unfold group_bounds.
  destruct bs as [| b0 bs0] eqn:Hbs; [unfold len in Hi; simpl in Hi; lia |].
  rewrite <-Hbs in *. assert (bs !! 0 = Some b0) as -> by (by subst).
  cbn [mbind option_bind].
  edestruct (rt_expand_range_Some bs (seqZ 1 (i - 1))) as [r1 ->].
  { intros j Hj%elem_of_seqZ. lia. }
  cbn [mbind option_bind].
  destruct (proj2 (rt_lookupZ_is_Some bs i)) as [bi ->]; [lia |].
  cbn [mbind option_bind].
  edestruct (rt_expand_range_Some bs (seqZ (i + 1) (len bs - i - 1))) as [r2 ->].
  { intros j Hj%elem_of_seqZ. lia. }
  done.
Qed.

Lemma rt_group_bounds_None (bs : list Rectangle) i :
  (i < 0 ∨ len bs <= i)%Z → group_bounds bs i = None.
Proof.
  intros Hi. unfold group_bounds.
  destruct (bs !! 0) as [b0 |]; [| done]. cbn [mbind option_bind].
  match goal with |- mbind _ ?o = _ => destruct o as [r1 |] end; [| done].
  cbn [mbind option_bind]. by rewrite rt_lookupZ_None.
Qed.

Lemma rt_margin_sum_Some mn (bs : list Rectangle) :
  (1 <= mn)%Z → is_Some (margin_sum mn bs).
Proof.
  intros Hmn. unfold margin_sum.
  assert (∀ (ixs : list Z) s, (∀ i, i ∈ ixs → 1 <= i < len bs)%Z →
            is_Some (foldl (λ (os : option Z) i,
               sum ← os; '(r1, r2) ← group_bounds bs i;
               Some (sum + (Margin r1 + Margin r2))%Z) (Some s) ixs)) as Hgen.
  { induction ixs as [| i ixs IH]; intros s His; simpl; [done |].
    destruct (rt_group_bounds_Some bs i) as [[r1 r2] ->]; [apply His; by left |].
    simpl. apply IH. intros j Hj. apply His. by right. }
  apply Hgen. intros i Hi%elem_of_seqZ. lia.
Qed.

Lemma rt_margin_sum_None mn (bs : list Rectangle) :
  (mn <= 0)%Z → margin_sum mn bs = None.
Proof.
  intros Hmn. unfold margin_sum.
  set (f := λ (os : option Z) i,
               sum ← os; '(r1, r2) ← group_bounds bs i;
               Some (sum + (Margin r1 + Margin r2))%Z).
  assert (∀ b, f None b = None) as HfN by done.
  destruct (decide (mn < 0)%Z) as [Hneg | Hnn].
  - rewrite seqZ_cons by (unfold len; lia). simpl.
    rewrite (rt_group_bounds_None bs mn) by lia. simpl.
    by apply rt_foldl_option_None.
  - assert (mn = 0%Z) as -> by lia.
    replace (len bs - 0 - 0 + 1)%Z with (Z.of_nat (S (length bs))) by (unfold len; lia).
    rewrite seqZ_S, foldl_app. simpl.
    match goal with |- f ?o _ = _ => destruct o as [s |] end; [| done].
    unfold f. simpl. by rewrite (rt_group_bounds_None bs (0 + Z.of_nat (length bs))%Z) by (unfold len; lia).
Qed.

Lemma rt_split_index_range mn (bs : list Rectangle) :
  (1 <= mn)%Z → (mn + mn <= len bs)%Z →
  ∃ i, split_index mn bs = Some i ∧ (mn <= i <= len bs - mn)%Z.
Proof.
  intros Hmn Hlen. unfold split_index.
  match goal with |- ∃ i, (foldl ?f _ _ ≫= _) = _ ∧ _ => set (F := f) end.
  assert (∀ (ixs : list Z) st, (∀ i, i ∈ ixs → mn <= i <= len bs - mn)%Z →
            (mn <= snd st <= len bs - mn)%Z →
            ∃ st', foldl F (Some st) ixs = Some st' ∧
               (mn <= snd st' <= len bs - mn)%Z) as Hgen.
  { induction ixs as [| i ixs IH]; intros [[mo ma] bi] His Hst; simpl.
    - by eexists.
    - assert (mn <= i <= len bs - mn)%Z as Hi by (apply His; by left).
      destruct (rt_group_bounds_Some bs i) as [[r1 r2] ->]; [lia |]. simpl.
      case_decide; apply IH; try done; intros j Hj; apply His; by right. }
  destruct (Hgen (seqZ mn (len bs - mn - mn + 1)) (MaxFloat64, MaxFloat64, mn))
    as (st' & -> & Hst').
  - intros i Hi%elem_of_seqZ. lia.
  - simpl. lia.
  - simpl. by eexists.
Qed.

(** * The shape of the store of an R-tree *)

Section Structure.
Context {D : Type}.
Implicit Types (h : list (Node D)) (nd : Node D) (N : list nat) (ht : nat → nat).
Implicit Types (p q r c : nat).

(** The bounds a pointer leads to. *)
Definition bounds_at h c : Rectangle := from_option bounds zeroRect (h !! c).

(** The bounds of the entries of a node: of its items for a leaf, of its
    children for an internal node. *)
Definition entries_of h nd : list Rectangle :=
  if isLeaf nd then Bounds <$> items nd else bounds_at h <$> children nd.

(** The node at [p] holds the bounding box of its entries. *)
Definition BOK h p : Prop :=
  ∀ nd, h !! p = Some nd → bounds nd = mbr (entries_of h nd).

(** [Chain h q p]: [p] is [q] or is reached from [q] through [parent]. *)
Inductive Chain h : nat → nat → Prop :=
| Chain_here q : Chain h q q
| Chain_up q nd q' p :
    h !! q = Some nd → parent nd = Some q' → Chain h q' p → Chain h q p.

(** Two stores that differ in the [bounds] fields only. *)
Definition sbb h h' : Prop :=
  length h' = length h ∧
  ∀ p nd, h !! p = Some nd → ∃ b, h' !! p = Some (set_bounds nd b).

(** The items a node holds, if it is a leaf. *)
Definition leaf_items h p : list (Item D) :=
  match h !! p with
  | Some nd => if isLeaf nd then items nd else []
  | None => []
  end.

Definition all_items h N : list (Item D) := N ≫= leaf_items h.

(** The nodes [N] of the store [h] form a tree with root [r], in which the
    node at [p] has height [ht p].  Nothing is said about the bounds.  An
    orphan [o] is a node that a split has just made: it knows its parent,
    and the parent does not list it yet. *)
Record Struct (o : option nat) h r N ht : Prop := {
  st_nodup : NoDup N;
  st_root : r ∈ N;
  st_in : ∀ p, p ∈ N → is_Some (h !! p);
  st_root_par : ∀ nd, h !! r = Some nd → parent nd = None;
  st_par : ∀ p nd, p ∈ N → p ≠ r → o ≠ Some p → h !! p = Some nd →
    ∃ q qn, parent nd = Some q ∧ q ∈ N ∧ h !! q = Some qn ∧
            isLeaf qn = false ∧ p ∈ children qn;
  st_orph : ∀ p nd, o = Some p → h !! p = Some nd →
    p ∈ N ∧ p ≠ r ∧
    (∀ q qn, q ∈ N → h !! q = Some qn → isLeaf qn = false → p ∉ children qn) ∧
    ∀ q, parent nd = Some q →
         q ∈ N ∧ ht q = S (ht p) ∧ ∃ qn, h !! q = Some qn ∧ isLeaf qn = false;
  st_leaf : ∀ p nd, p ∈ N → h !! p = Some nd → isLeaf nd = true →
    ht p = 0 ∧ (p ≠ r → items nd ≠ []);
  st_node : ∀ p nd, p ∈ N → h !! p = Some nd → isLeaf nd = false →
    children nd ≠ [] ∧ NoDup (children nd) ∧
    ∀ c, c ∈ children nd →
         c ∈ N ∧ ht p = S (ht c) ∧ ∃ cn, h !! c = Some cn ∧ parent cn = Some p;
  st_ht : ∀ p, p ∈ N → ht p ≤ ht r;
  st_fuel : ht r < length h }.

(** The invariant of the tree [t] that holds the items [all]. *)
Definition RInv (t : RTree D) (all : list (Item D)) : Prop :=
  (minEntries t <= maxEntries t `quot` 2)%Z ∧
  size t = len all ∧
  ∃ N ht, Struct None (heap t) (root t) N ht ∧
          (∀ p, p ∈ N → BOK (heap t) p) ∧
          all_items (heap t) N ≡ₚ all.

(** ** Stores that differ in the bounds only *)

Lemma rt_set_bounds_twice nd b b' : set_bounds (set_bounds nd b) b' = set_bounds nd b'.
Proof. done. Qed.

Lemma rt_set_bounds_id nd : set_bounds nd (bounds nd) = nd.
Proof. by destruct nd. Qed.

Lemma rt_sbb_refl h : sbb h h.
Proof.
  split; [done |]. intros p nd Hp. exists (bounds nd). by rewrite rt_set_bounds_id.
Qed.

Lemma rt_sbb_trans h1 h2 h3 : sbb h1 h2 → sbb h2 h3 → sbb h1 h3.
Proof.
  intros [Hl1 H1] [Hl2 H2]. split; [congruence |].
  intros p nd Hp. destruct (H1 p nd Hp) as [b Hb].
  destruct (H2 p _ Hb) as [b' Hb']. exists b'. by rewrite Hb'.
Qed.

Lemma rt_sbb_sym h h' : sbb h h' → sbb h' h.
Proof.
  intros [Hl H]. split; [done |]. intros p nd' Hp.
  assert (is_Some (h !! p)) as [nd Hnd].
  { apply lookup_lt_is_Some. rewrite <-Hl. by eapply lookup_lt_Some. }
  destruct (H p nd Hnd) as [b Hb]. rewrite Hb in Hp. injection Hp as <-.
  exists (bounds nd). by rewrite Hnd, rt_set_bounds_twice, rt_set_bounds_id.
Qed.

Lemma rt_sbb_insert h q nd b : h !! q = Some nd → sbb h (<[q := set_bounds nd b]> h).
Proof.
  intros Hq. split; [by rewrite length_insert |]. intros p nd' Hp.
  destruct (decide (p = q)) as [-> | Hne].
  - simplify_eq. exists b. apply list_lookup_insert_eq. by eapply lookup_lt_Some.
  - exists (bounds nd'). by rewrite list_lookup_insert_ne, rt_set_bounds_id.
Qed.

Lemma rt_sbb_lookup h h' p nd' :
  sbb h h' → h' !! p = Some nd' →
  ∃ nd, h !! p = Some nd ∧ nd' = set_bounds nd (bounds nd').
Proof.
  intros Hs Hp. destruct (rt_sbb_sym _ _ Hs) as [_ H].
  destruct (H p nd' Hp) as [b Hb]. eexists. split; [done |]. by destruct nd'.
Qed.

Lemma rt_sbb_fields h h' p nd nd' :
  sbb h h' → h !! p = Some nd → h' !! p = Some nd' →
  isLeaf nd' = isLeaf nd ∧ children nd' = children nd ∧
  items nd' = items nd ∧ parent nd' = parent nd.
Proof.
  intros [_ H] Hp Hp'. destruct (H p nd Hp) as [b Hb]. by simplify_eq.
Qed.

Lemma rt_sbb_is_Some h h' p : sbb h h' → is_Some (h !! p) → is_Some (h' !! p).
Proof. intros [_ H] [nd Hp]. destruct (H p nd Hp) as [b Hb]. by eexists. Qed.

Lemma rt_Chain_sbb h h' q p : sbb h h' → Chain h q p → Chain h' q p.
Proof.
  intros [_ H] Hc. induction Hc as [q | q nd q' p Hq Hpar _ IH].
  - constructor.
  - destruct (H q nd Hq) as [b Hb]. by eapply Chain_up.
Qed.

Lemma rt_leaf_items_sbb h h' p : sbb h h' → leaf_items h' p = leaf_items h p.
Proof.
  intros Hs. unfold leaf_items. destruct (h !! p) as [nd |] eqn:Hp.
  - destruct Hs as [_ H]. destruct (H p nd Hp) as [b ->]. done.
  - destruct (h' !! p) as [nd' |] eqn:Hp'; [| done].
    destruct (rt_sbb_lookup _ _ _ _ Hs Hp') as (nd & Hnd & _). congruence.
Qed.

Lemma rt_all_items_sbb h h' N : sbb h h' → all_items h' N = all_items h N.
Proof.
  intros Hs. unfold all_items. apply list_bind_ext; [| done].
  intros p. by apply rt_leaf_items_sbb.
Qed.

(** Two nodes with the same place in the tree: the same kind, the same
    parent, the same entries up to their order. *)
Definition seqv nd nd' : Prop :=
  isLeaf nd' = isLeaf nd ∧ parent nd' = parent nd ∧
  items nd' ≡ₚ items nd ∧ children nd' ≡ₚ children nd.

(** Two stores related node by node. *)
Definition pw (R : Node D → Node D → Prop) h h' : Prop :=
  length h' = length h ∧ ∀ p nd, h !! p = Some nd → ∃ nd', h' !! p = Some nd' ∧ R nd nd'.

(** What the shape of the tree needs of a node that replaces another. *)
Definition shape nd nd' : Prop :=
  isLeaf nd' = isLeaf nd ∧ parent nd' = parent nd ∧
  (items nd' = [] → items nd = []) ∧ children nd' ≡ₚ children nd.

Lemma rt_seqv_refl nd : seqv nd nd.
Proof. done. Qed.

Lemma rt_shape_refl nd : shape nd nd.
Proof. done. Qed.

Lemma rt_seqv_shape nd nd' : seqv nd nd' → shape nd nd'.
Proof.
  intros (E1 & E2 & E3 & E4). repeat split; try done.
  intros Hnil. rewrite Hnil in E3. by apply Permutation_nil_l in E3.
Qed.

Lemma rt_pw_back R h h' p nd' :
  pw R h h' → h' !! p = Some nd' → ∃ nd, h !! p = Some nd ∧ R nd nd'.
Proof.
  intros [Hl H] Hp.
  assert (is_Some (h !! p)) as [nd Hnd].
  { apply lookup_lt_is_Some. rewrite <-Hl. by eapply lookup_lt_Some. }
  destruct (H p nd Hnd) as (nd2 & Hnd2 & HR). exists nd. split; [done |]. congruence.
Qed.

Lemma rt_pw_insert (R : Node D → Node D → Prop) h q nd nd' :
  (∀ x, R x x) → h !! q = Some nd → R nd nd' → pw R h (<[q := nd']> h).
Proof.
  intros Hrefl Hq HR. split; [by rewrite length_insert |]. intros p pn Hp.
  destruct (decide (p = q)) as [-> | Hne].
  - simplify_eq. exists nd'. split; [| done].
    apply list_lookup_insert_eq. by eapply lookup_lt_Some.
  - exists pn. by rewrite list_lookup_insert_ne.
Qed.

Lemma rt_pw_trans (R : Node D → Node D → Prop) h1 h2 h3 :
  (∀ x y z, R x y → R y z → R x z) → pw R h1 h2 → pw R h2 h3 → pw R h1 h3.
Proof.
  intros Htr [Hl1 H1] [Hl2 H2]. split; [congruence |]. intros p nd Hp.
  destruct (H1 p nd Hp) as (nd2 & Hp2 & HR). destruct (H2 p nd2 Hp2) as (nd3 & Hp3 & HR').
  exists nd3. eauto.
Qed.

Lemma rt_sbb_pw h h' : sbb h h' → pw seqv h h'.
Proof.
  intros [Hl H]. split; [done |]. intros p nd Hp. destruct (H p nd Hp) as [b Hb].
  by eexists.
Qed.

Lemma rt_Struct_shape o h h' r N ht :
  Struct o h r N ht → pw shape h h' → Struct o h' r N ht.
Proof.
  intros HS Hs.
  assert (∀ p nd', h' !! p = Some nd' → ∃ nd, h !! p = Some nd ∧ shape nd nd') as Hback.
  { intros p nd' Hp. by eapply rt_pw_back. }
  assert (∀ p nd, h !! p = Some nd → ∃ nd', h' !! p = Some nd' ∧ shape nd nd') as Hfwd.
  { by destruct Hs. }
  destruct HS. split; [done | done | | | | | | | done |].
  - intros p Hp. destruct (st_in0 p Hp) as [nd Hnd].
    destruct (Hfwd _ _ Hnd) as (nd' & -> & _). done.
  - intros nd' Hr. destruct (Hback _ _ Hr) as (nd & Hnd & _ & -> & _). eauto.
  - intros p nd' Hp Hpr Ho Hl. destruct (Hback _ _ Hl) as (nd & Hnd & _ & Hpa & _).
    destruct (st_par0 p nd Hp Hpr Ho Hnd) as (q & qn & H1 & H2 & H3 & H4 & H5).
    destruct (Hfwd _ _ H3) as (qn' & Hq' & E1 & _ & _ & E2).
    exists q, qn'. rewrite Hpa, E1, E2. done.
  - intros p nd' Ho Hl. destruct (Hback _ _ Hl) as (nd & Hnd & _ & Hpa & _).
    destruct (st_orph0 p nd Ho Hnd) as (H1 & H2 & H2' & H3). split; [done |]. split; [done |].
    split.
    { intros q qn' Hq Hqn' Hleaf. destruct (Hback _ _ Hqn') as (qn & Hqn & E1 & _ & _ & E2).
      rewrite E2. apply (H2' q qn Hq Hqn). congruence. }
    intros q Hq. rewrite Hpa in Hq. destruct (H3 q Hq) as (H4 & H5 & qn & H6 & H7).
    split; [done |]. split; [done |].
    destruct (Hfwd _ _ H6) as (qn' & Hq' & E1 & _). exists qn'. by rewrite E1.
  - intros p nd' Hp Hl Hleaf. destruct (Hback _ _ Hl) as (nd & Hnd & E1 & _ & E3 & _).
    destruct (st_leaf0 p nd Hp Hnd) as [H1 H2]; [by rewrite <-E1 |]. split; [done |].
    intros Hpr Hnil. apply (H2 Hpr). by apply E3.
  - intros p nd' Hp Hl Hleaf. destruct (Hback _ _ Hl) as (nd & Hnd & E1 & _ & _ & E2).
    destruct (st_node0 p nd Hp Hnd) as (H1 & H2 & H3); [by rewrite <-E1 |].
    split; [| split].
    + intros Hnil. apply H1. rewrite Hnil in E2. by apply Permutation_nil_l in E2.
    + by rewrite E2.
    + intros c Hc. rewrite E2 in Hc.
      destruct (H3 c Hc) as (H4 & H5 & cn & H6 & H7). split; [done |]. split; [done |].
      destruct (Hfwd _ _ H6) as (cn' & Hc' & _ & E4 & _). exists cn'. by rewrite E4.
  - destruct Hs as [-> _]. done.
Qed.

Lemma rt_pw_weaken (R R' : Node D → Node D → Prop) h h' :
  (∀ nd nd', R nd nd' → R' nd nd') → pw R h h' → pw R' h h'.
Proof.
  intros HR [Hl H]. split; [done |]. intros p nd Hp.
  destruct (H p nd Hp) as (nd' & Hp' & Hr). eauto.
Qed.

Lemma rt_Struct_pw o h h' r N ht : Struct o h r N ht → pw seqv h h' → Struct o h' r N ht.
Proof.
  intros HS Hs. eapply rt_Struct_shape; [done |].
  eapply rt_pw_weaken; [apply rt_seqv_shape | done].
Qed.

Lemma rt_Struct_sbb o h h' r N ht : Struct o h r N ht → sbb h h' → Struct o h' r N ht.
Proof. intros HS Hs. eapply rt_Struct_pw; [done |]. by apply rt_sbb_pw. Qed.

Lemma rt_Chain_pw h h' q p : pw seqv h h' → Chain h q p → Chain h' q p.
Proof.
  intros [_ H] Hc. induction Hc as [q | q nd q' p Hq Hpar _ IH].
  - constructor.
  - destruct (H q nd Hq) as (nd' & Hnd' & _ & Hpa & _).
    apply (Chain_up h' q nd' q' p Hnd'); [congruence | done].
Qed.

Lemma rt_leaf_items_pw h h' p : pw seqv h h' → leaf_items h' p ≡ₚ leaf_items h p.
Proof.
  intros Hs. unfold leaf_items. destruct (h !! p) as [nd |] eqn:Hp.
  - destruct Hs as [_ H]. destruct (H p nd Hp) as (nd' & -> & E1 & _ & E2 & _).
    rewrite E1. by destruct (isLeaf nd).
  - destruct (h' !! p) as [nd' |] eqn:Hp'; [| done].
    destruct (rt_pw_back _ _ _ _ _ Hs Hp') as (nd & Hnd & _). congruence.
Qed.

Lemma rt_all_items_pw h h' N : pw seqv h h' → all_items h' N ≡ₚ all_items h N.
Proof.
  intros Hs. unfold all_items. induction N as [| p N IH]; [done |].
  rewrite !bind_cons. by rewrite IH, (rt_leaf_items_pw h h').
Qed.

(** ** Parents and chains *)

Lemma rt_Struct_parent o h r N ht q nd q' :
  Struct o h r N ht → q ∈ N → h !! q = Some nd → parent nd = Some q' →
  q' ∈ N ∧ ht q' = S (ht q) ∧
  ∃ qn, h !! q' = Some qn ∧ isLeaf qn = false ∧ (o ≠ Some q → q ∈ children qn).
Proof.
  intros HS Hq Hnd Hpar.
  destruct (decide (q = r)) as [-> | Hqr].
  { rewrite (st_root_par _ _ _ _ _ HS _ Hnd) in Hpar. done. }
  destruct (decide (o = Some q)) as [Ho | Ho].
  - destruct (st_orph _ _ _ _ _ HS q nd Ho Hnd) as (_ & _ & _ & H3).
    destruct (H3 q' Hpar) as (H4 & H5 & qn & H6 & H7). split; [done |]. split; [done |].
    exists qn. done.
  - destruct (st_par _ _ _ _ _ HS q nd Hq Hqr Ho Hnd) as (q2 & qn & H1 & H2 & H3 & H4 & H5).
    assert (q2 = q') as -> by congruence. split; [done |].
    destruct (st_node _ _ _ _ _ HS q' qn H2 H3 H4) as (_ & _ & Hc).
    destruct (Hc q H5) as (_ & Hht & _). split; [done |]. exists qn. done.
Qed.

Lemma rt_Chain_ht o h r N ht q p :
  Struct o h r N ht → q ∈ N → Chain h q p → p ∈ N ∧ (p = q ∨ ht q < ht p).
Proof.
  intros HS Hq Hc. induction Hc as [q | q nd q' p Hnd Hpar _ IH]; [by auto |].
  destruct (rt_Struct_parent _ _ _ _ _ _ _ _ HS Hq Hnd Hpar) as (Hq' & Hht & _).
  destruct (IH Hq') as [Hp [-> | Hlt]]; (split; [done |]); right; lia.
Qed.

Lemma rt_Chain_child o h r N ht q p pn c :
  Struct o h r N ht → q ∈ N → p ∈ N → h !! p = Some pn → isLeaf pn = false →
  c ∈ children pn → Chain h q c → Chain h q p.
Proof.
  intros HS Hq Hp Hpn Hleaf Hc Hch.
  destruct (st_node _ _ _ _ _ HS p pn Hp Hpn Hleaf) as (_ & _ & Hcs).
  destruct (Hcs c Hc) as (HcN & Hht & cn & Hcn & Hpar).
  clear Hq. induction Hch as [q | q nd q' c' Hnd Hpar' Hch IH].
  - eapply Chain_up; [done | done | constructor].
  - eapply Chain_up; [done | done |]. by apply IH.
Qed.

Lemma rt_Chain_mono h h' q p :
  (∀ x nd, Chain h q x → h !! x = Some nd →
           ∃ nd', h' !! x = Some nd' ∧ parent nd' = parent nd) →
  Chain h q p → Chain h' q p.
Proof.
  intros Hsame Hc. induction Hc as [q | q nd q' p Hnd Hpar Hc IH]; [constructor |].
  destruct (Hsame q nd (Chain_here _ _) Hnd) as (nd' & Hnd' & Hpar').
  apply (Chain_up h' q nd' q' p Hnd'); [congruence |]. apply IH.
  intros x xn Hx Hxn. apply Hsame; [| done]. by eapply Chain_up.
Qed.

(** ** Bounds of the entries *)

Lemma rt_entries_of_ext h h' nd nd' :
  isLeaf nd' = isLeaf nd → items nd' = items nd → children nd' = children nd →
  (isLeaf nd = false → ∀ c, c ∈ children nd → bounds_at h' c = bounds_at h c) →
  entries_of h' nd' = entries_of h nd.
Proof.
  intros E1 E2 E3 Hc. unfold entries_of. rewrite E1, E2, E3.
  destruct (isLeaf nd); [done |]. apply list_fmap_ext.
  intros i c Hi. apply Hc; [done |]. by eapply list_elem_of_lookup_2.
Qed.

Lemma rt_BOK_ext h h' p :
  (∀ nd', h' !! p = Some nd' →
     ∃ nd, h !! p = Some nd ∧ isLeaf nd' = isLeaf nd ∧ items nd' = items nd ∧
           children nd' = children nd ∧ bounds nd' = bounds nd ∧
           (isLeaf nd = false → ∀ c, c ∈ children nd → bounds_at h' c = bounds_at h c)) →
  BOK h p → BOK h' p.
Proof.
  intros Hext Hok nd' Hp'. destruct (Hext nd' Hp') as (nd & Hp & E1 & E2 & E3 & E4 & Hc).
  rewrite E4, (Hok nd Hp). f_equal. symmetry. by apply rt_entries_of_ext.
Qed.

Lemma rt_bounds_at_insert_ne h q nd c : c ≠ q → bounds_at (<[q := nd]> h) c = bounds_at h c.
Proof. intros Hne. unfold bounds_at. by rewrite list_lookup_insert_ne. Qed.

Lemma rt_entries_nonempty o h r N ht p nd :
  Struct o h r N ht → p ∈ N → h !! p = Some nd →
  (isLeaf nd = true → items nd ≠ []) → entries_of h nd ≠ [].
Proof.
  intros HS Hp Hnd Hit. unfold entries_of. destruct (isLeaf nd) eqn:Hleaf.
  - specialize (Hit eq_refl). by destruct (items nd).
  - destruct (st_node _ _ _ _ _ HS p nd Hp Hnd Hleaf) as (Hne & _).
    by destruct (children nd).
Qed.

(** ** One step of [updateBounds] *)

Lemma rt_modify_Some h p (f : Node D → Node D) n :
  h !! p = Some n → modify h p f = Some (<[p := f n]> h).
Proof. intros Hp. unfold modify. by rewrite Hp. Qed.

Definition recompute h q nd : list (Node D) :=
  <[q := set_bounds nd (mbr (entries_of h nd))]> h.

Lemma rt_expand_children h q nd cs : ∀ b,
  h !! q = Some nd → (∀ c, c ∈ cs → c ≠ q ∧ is_Some (h !! c)) →
  foldl (λ (oh : option (list (Node D))) child,
           h ← oh; cn ← h !! child;
           modify h q (λ n, set_bounds n (Expand (bounds n) (bounds cn))))
        (Some (<[q := set_bounds nd b]> h)) cs
  = Some (<[q := set_bounds nd (foldl Expand b (bounds_at h <$> cs))]> h).
Proof.
  intros b Hq. revert b. induction cs as [| c cs IH]; intros b Hcs; [done |].
  destruct (Hcs c) as [Hne [cn Hcn]]; [by left |].
  assert (bounds_at h c = bounds cn) as Hbc by (unfold bounds_at; by rewrite Hcn).
  cbn [foldl fmap list_fmap]. cbn [mbind option_bind].
  rewrite list_lookup_insert_ne by done. rewrite Hcn. cbn [mbind option_bind].
  rewrite (rt_modify_Some _ _ _ (set_bounds nd b))
    by (apply list_lookup_insert_eq; by eapply lookup_lt_Some).
  rewrite list_insert_insert_eq, Hbc.
  apply IH. intros c' Hc'. apply Hcs. by right.
Qed.

Lemma rt_updateBounds_unfold fuel h q nd :
  h !! q = Some nd → entries_of h nd ≠ [] →
  (isLeaf nd = false → ∀ c, c ∈ children nd → c ≠ q ∧ is_Some (h !! c)) →
  updateBounds (S fuel) h q =
    match parent nd with
    | Some p => updateBounds fuel (recompute h q nd) p
    | None => Some (recompute h q nd)
    end.
Proof.
  intros Hq Hne Hcs. cbn [updateBounds]. rewrite Hq. cbn [mbind option_bind].
  unfold recompute, entries_of in *. destruct (isLeaf nd) eqn:Hleaf.
  - destruct (items nd) as [| it its] eqn:Hits; [done |].
    cbn [mbind option_bind fmap list_fmap mbr].
    rewrite list_lookup_insert_eq by (by eapply lookup_lt_Some).
    cbn [mbind option_bind]. done.
  - destruct (children nd) as [| c cs] eqn:Hcs'; [done |].
    destruct (Hcs eq_refl c) as [Hcq [cn Hcn]]; [by left |].
    rewrite Hcn. cbn [mbind option_bind].
    rewrite (rt_expand_children h q nd cs (bounds cn) Hq).
    2:{ intros c' Hc'. apply (Hcs eq_refl). by right. }
    cbn [mbind option_bind fmap list_fmap mbr].
    rewrite list_lookup_insert_eq by (by eapply lookup_lt_Some).
    cbn [mbind option_bind].
    assert (bounds_at h c = bounds cn) as -> by (unfold bounds_at; by rewrite Hcn).
    done.
Qed.

Lemma rt_recompute_sbb h q nd : h !! q = Some nd → sbb h (recompute h q nd).
Proof. apply rt_sbb_insert. Qed.

Lemma rt_Struct_children o h r N ht p nd :
  Struct o h r N ht → p ∈ N → h !! p = Some nd → isLeaf nd = false →
  ∀ c, c ∈ children nd → c ≠ p ∧ is_Some (h !! c) ∧ ht c < ht p.
Proof.
  intros HS Hp Hnd Hleaf c Hc.
  destruct (st_node _ _ _ _ _ HS p nd Hp Hnd Hleaf) as (_ & _ & Hcs).
  destruct (Hcs c Hc) as (HcN & Hht & cn & Hcn & _).
  split; [intros ->; lia |]. split; [by eexists | lia].
Qed.

Lemma rt_recompute_BOK_self o h r N ht q nd :
  Struct o h r N ht → q ∈ N → h !! q = Some nd → BOK (recompute h q nd) q.
Proof.
  intros HS Hq Hnd nd' Hnd'. unfold recompute in *.
  rewrite list_lookup_insert_eq in Hnd' by (by eapply lookup_lt_Some).
  injection Hnd' as <-. cbn [bounds set_bounds]. f_equal. symmetry.
  apply rt_entries_of_ext; try done. intros Hleaf c Hc.
  apply rt_bounds_at_insert_ne.
  by destruct (rt_Struct_children _ _ _ _ _ _ _ HS Hq Hnd Hleaf c Hc) as [? _].
Qed.

Lemma rt_recompute_BOK_other o h r N ht q nd p :
  Struct o h r N ht → q ∈ N → h !! q = Some nd → p ∈ N → p ≠ q →
  parent nd ≠ Some p → BOK h p → BOK (recompute h q nd) p.
Proof.
  intros HS Hq Hnd Hp Hpq Hpar. apply rt_BOK_ext. intros pn' Hpn'.
  unfold recompute in *. rewrite list_lookup_insert_ne in Hpn' by done.
  exists pn'. repeat (split; [done |]). intros Hleaf c Hc.
  apply rt_bounds_at_insert_ne. intros ->.
  destruct (st_node _ _ _ _ _ HS p pn' Hp Hpn' Hleaf) as (_ & _ & Hcs).
  destruct (Hcs q Hc) as (_ & _ & cn & Hcn & Hpar'). congruence.
Qed.

(** ** [updateBounds] recomputes the bounds along the chain of parents *)

Lemma rt_updateBounds_spec o r N ht fuel : ∀ h q,
  Struct o h r N ht → q ∈ N →
  (∀ nd, h !! q = Some nd → isLeaf nd = true → items nd ≠ []) →
  ht r - ht q < fuel →
  ∃ h', updateBounds fuel h q = Some h' ∧ sbb h h' ∧
        ∀ p, p ∈ N → Chain h q p ∨ BOK h p → BOK h' p.
Proof.
  induction fuel as [| fuel IH]; intros h q HS Hq Hne Hfuel; [lia |].
  destruct (st_in _ _ _ _ _ HS q Hq) as [nd Hnd].
  rewrite (rt_updateBounds_unfold fuel h q nd Hnd).
  2:{ eapply rt_entries_nonempty; eauto. }
  2:{ intros Hleaf c Hc.
      destruct (rt_Struct_children _ _ _ _ _ _ _ HS Hq Hnd Hleaf c Hc) as (? & ? & _).
      done. }
  pose proof (rt_recompute_sbb h q nd Hnd) as Hs1.
  pose proof (rt_Struct_sbb _ _ _ _ _ _ HS Hs1) as HS1.
  pose proof (rt_recompute_BOK_self _ _ _ _ _ _ _ HS Hq Hnd) as Hself.
  destruct (parent nd) as [q' |] eqn:Hpar.
  - destruct (rt_Struct_parent _ _ _ _ _ _ _ _ HS Hq Hnd Hpar) as (Hq' & Hht & qn & Hqn & Hql & _).
    destruct (IH (recompute h q nd) q' HS1 Hq') as (h' & Hrun & Hs' & Hok).
    { intros qn' Hqn' Hleaf. destruct (rt_sbb_fields _ _ _ _ _ Hs1 Hqn Hqn') as (E & _).
      congruence. }
    { pose proof (st_ht _ _ _ _ _ HS q' Hq'). lia. }
    exists h'. split; [done |]. split; [by eapply rt_sbb_trans |].
    intros p Hp Hcase. apply Hok; [done |].
    destruct (decide (p = q)) as [-> | Hpq]; [by right |].
    destruct (decide (p = q')) as [-> | Hpq']; [left; constructor |].
    destruct Hcase as [Hc | Hb].
    + left. apply (rt_Chain_sbb h); [done |].
      inversion Hc as [| ? nd2 q2 ? Hnd2 Hpar2 Hc2]; subst; [done |].
      assert (q2 = q') as -> by congruence. done.
    + right. eapply rt_recompute_BOK_other; eauto. congruence.
  - exists (recompute h q nd). split; [done |]. split; [done |].
    intros p Hp Hcase. destruct (decide (p = q)) as [-> | Hpq]; [done |].
    destruct Hcase as [Hc | Hb].
    + inversion Hc as [| ? nd2 q2 ? Hnd2 Hpar2 Hc2]; subst; [done | congruence].
    + eapply rt_recompute_BOK_other; eauto. congruence.
Qed.

End Structure.

(** * Choosing the split: sorting the entries of a node *)

Section Sorting.
Context {D : Type}.
Implicit Types (h : list (Node D)) (nd : Node D) (N : list nat) (ht : nat → nat).
Implicit Types (p q r c : nat) (t : RTree D).

(** The same node with its entries in another order. *)
Definition reord nd nd' : Prop := seqv nd nd' ∧ bounds nd' = bounds nd.

Lemma rt_reord_refl nd : reord nd nd.
Proof. done. Qed.

Lemma rt_reord_trans nd1 nd2 nd3 : reord nd1 nd2 → reord nd2 nd3 → reord nd1 nd3.
Proof.
  intros [(E1 & E2 & E3 & E4) E5] [(F1 & F2 & F3 & F4) F5].
  split; [| congruence]. split; [congruence |]. split; [congruence |].
  split; by etrans.
Qed.

Lemma rt_pw_reord_seqv h h' : pw reord h h' → pw seqv h h'.
Proof.
  intros [Hl H]. split; [done |]. intros p nd Hp.
  destruct (H p nd Hp) as (nd' & Hp' & [Hs _]). eauto.
Qed.

Lemma rt_bounds_at_reord h h' c : pw reord h h' → bounds_at h' c = bounds_at h c.
Proof.
  intros Hs. unfold bounds_at. destruct (h !! c) as [nd |] eqn:Hc.
  - destruct Hs as [_ H]. destruct (H c nd Hc) as (nd' & -> & _ & Hb). done.
  - destruct (h' !! c) as [nd' |] eqn:Hc'; [| done].
    destruct (rt_pw_back _ _ _ _ _ Hs Hc') as (nd & Hnd & _). congruence.
Qed.

Lemma rt_entries_of_reord h h' nd nd' :
  pw reord h h' → reord nd nd' → entries_of h' nd' ≡ₚ entries_of h nd.
Proof.
  intros Hs [(E1 & _ & E3 & E4) _]. unfold entries_of. rewrite E1.
  destruct (isLeaf nd).
  - by rewrite E3.
  - rewrite E4. erewrite list_fmap_ext; [done |]. intros i c _.
    by apply rt_bounds_at_reord.
Qed.

Lemma rt_BOK_reord h h' p : pw reord h h' → BOK h p → BOK h' p.
Proof.
  intros Hs Hok nd' Hp'. destruct (rt_pw_back _ _ _ _ _ Hs Hp') as (nd & Hp & Hr).
  destruct Hr as [Hsq Hb]. rewrite Hb, (Hok nd Hp).
  apply rt_mbr_perm. symmetry. by apply rt_entries_of_reord.
Qed.

Lemma rt_child_bounds_Some h cs :
  (∀ c, c ∈ cs → is_Some (h !! c)) →
  mapM (λ c, cn ← h !! c; Some (bounds cn)) cs = Some (bounds_at h <$> cs).
Proof.
  intros Hcs. apply mapM_Some. apply Forall2_fmap_r, Forall2_same_length_lookup_2; [done |].
  intros i c c' Hc Hc'. assert (c' = c) as -> by congruence.
  destruct (Hcs c) as [cn Hcn]; [by eapply list_elem_of_lookup_2 |].
  unfold bounds_at, compose. by rewrite Hcn.
Qed.

Lemma rt_entry_bounds_Some h nd :
  (isLeaf nd = false → ∀ c, c ∈ children nd → is_Some (h !! c)) →
  entry_bounds h nd (isLeaf nd) = Some (entries_of h nd).
Proof.
  intros Hcs. unfold entry_bounds, entries_of. destruct (isLeaf nd); [done |].
  by apply rt_child_bounds_Some, Hcs.
Qed.

Lemma rt_sortNodesBy_perm key h cs :
  (∀ c, c ∈ cs → is_Some (h !! c)) →
  ∃ cs', sortNodesBy key h cs = Some cs' ∧ cs' ≡ₚ cs.
Proof.
  intros Hcs. unfold sortNodesBy.
  assert (mapM (λ c, cn ← h !! c; Some (c, bounds cn)) cs
          = Some ((λ c, (c, bounds_at h c)) <$> cs)) as ->.
  { apply mapM_Some. apply Forall2_fmap_r, Forall2_same_length_lookup_2; [done |].
    intros i c c' Hc Hc'. assert (c' = c) as -> by congruence.
    destruct (Hcs c) as [cn Hcn]; [by eapply list_elem_of_lookup_2 |].
    unfold bounds_at, compose. by rewrite Hcn. }
  cbn [mbind option_bind]. eexists. split; [done |].
  rewrite rt_exchange_sort_perm. rewrite <-list_fmap_compose.
  erewrite (list_fmap_ext _ id); [by rewrite list_fmap_id | done].
Qed.

Lemma rt_sort_entries_spec h node axis nd :
  h !! node = Some nd →
  (isLeaf nd = false → ∀ c, c ∈ children nd → is_Some (h !! c)) →
  ∃ nd', sort_entries h node axis = Some (<[node := nd']> h) ∧ reord nd nd'.
Proof.
  intros Hnd Hcs. unfold sort_entries. rewrite Hnd. cbn [mbind option_bind].
  destruct (isLeaf nd) eqn:Hleaf.
  - eexists. split; [done |]. split; [| done]. split; [done |]. split; [done |].
    split; [| done]. cbn [items set_items].
    case_decide; apply rt_exchange_sort_perm.
  - destruct (rt_sortNodesBy_perm MinX h (children nd) (Hcs eq_refl)) as (cx & Hx & Hpx).
    destruct (rt_sortNodesBy_perm MinY h (children nd) (Hcs eq_refl)) as (cy & Hy & Hpy).
    unfold sortNodesByMinX, sortNodesByMinY. case_decide.
    + rewrite Hx. cbn [mbind option_bind]. eexists. split; [done |]. by repeat split.
    + rewrite Hy. cbn [mbind option_bind]. eexists. split; [done |]. by repeat split.
Qed.

Lemma rt_reord_children_in h node nd nd' :
  reord nd nd' →
  (isLeaf nd = false → ∀ c, c ∈ children nd → c ≠ node ∧ is_Some (h !! c)) →
  isLeaf nd' = false → ∀ c, c ∈ children nd' → is_Some (<[node := nd']> h !! c).
Proof.
  intros [(E1 & _ & _ & E4) _] Hcs Hleaf c Hc. rewrite E4 in Hc.
  destruct (Hcs (eq_trans (eq_sym E1) Hleaf) c Hc) as [Hne Hs].
  by rewrite list_lookup_insert_ne.
Qed.

Lemma rt_entries_of_length h nd :
  length (entries_of h nd) = if isLeaf nd then length (items nd) else length (children nd).
Proof. unfold entries_of. destruct (isLeaf nd); by rewrite length_fmap. Qed.

Lemma rt_calculateMarginSum_Some t node nd :
  heap t !! node = Some nd → (1 <= minEntries t)%Z →
  (isLeaf nd = false → ∀ c, c ∈ children nd → is_Some (heap t !! c)) →
  is_Some (calculateMarginSum t node (isLeaf nd)).
Proof.
  intros Hnd Hmn Hcs. unfold calculateMarginSum. rewrite Hnd. cbn [mbind option_bind].
  rewrite (rt_entry_bounds_Some _ _ Hcs). cbn [mbind option_bind].
  by apply rt_margin_sum_Some.
Qed.

(** The number of entries of a node. *)
Definition count nd : nat :=
  if isLeaf nd then length (items nd) else length (children nd).

Lemma rt_count_reord nd nd' : reord nd nd' → count nd' = count nd.
Proof.
  intros [(E1 & _ & E3 & E4) _]. unfold count. rewrite E1.
  destruct (isLeaf nd); by apply Permutation_length.
Qed.

(** The two choices of a split: the store afterwards holds the node with
    its entries reordered, and the index leaves [minEntries] entries on
    either side. *)
Lemma rt_choose_spec t node nd :
  heap t !! node = Some nd → (1 <= minEntries t)%Z →
  (minEntries t + minEntries t <= Z.of_nat (count nd))%Z →
  (isLeaf nd = false → ∀ c, c ∈ children nd → c ≠ node ∧ is_Some (heap t !! c)) →
  ∃ h2 axis nd' index,
    chooseSplitAxis t node = Some (set_heap t h2, axis) ∧
    chooseSplitIndex (set_heap t h2) node axis
      = Some (set_heap t (<[node := nd']> (heap t)), index) ∧
    reord nd nd' ∧ (minEntries t <= index <= Z.of_nat (count nd) - minEntries t)%Z.
Proof.
  intros Hnd Hmn Hcount Hcs.
  assert (length (heap t) > node) as Hlt by (by eapply lookup_lt_Some).
  destruct (rt_sort_entries_spec (heap t) node 0%Z nd Hnd) as (nd1 & Hs1 & Hr1).
  { intros Hl c Hc. by destruct (Hcs Hl c Hc). }
  set (h1 := <[node := nd1]> (heap t)) in *.
  assert (h1 !! node = Some nd1) as Hnd1 by (by apply list_lookup_insert_eq).
  pose proof (rt_reord_children_in (heap t) node nd nd1 Hr1 Hcs) as Hcs1.
  destruct (rt_calculateMarginSum_Some (set_heap t h1) node nd1 Hnd1 Hmn Hcs1) as [xm Hxm].
  destruct (rt_sort_entries_spec h1 node 1%Z nd1 Hnd1 Hcs1) as (nd2 & Hs2 & Hr2').
  assert (reord nd nd2) as Hr2 by (by eapply rt_reord_trans).
  set (h2 := <[node := nd2]> (heap t)).
  assert (<[node := nd2]> h1 = h2) as Eh2 by apply list_insert_insert_eq.
  rewrite Eh2 in Hs2.
  assert (h2 !! node = Some nd2) as Hnd2 by (by apply list_lookup_insert_eq).
  pose proof (rt_reord_children_in (heap t) node nd nd2 Hr2 Hcs) as Hcs2.
  destruct (rt_calculateMarginSum_Some (set_heap t h2) node nd2 Hnd2 Hmn Hcs2) as [ym Hym].
  exists h2, (if decide (xm < ym)%Z then 0%Z else 1%Z).
  destruct (rt_sort_entries_spec h2 node (if decide (xm < ym)%Z then 0%Z else 1%Z) nd2 Hnd2 Hcs2)
    as (nd3 & Hs3 & Hr3').
  assert (reord nd nd3) as Hr3 by (by eapply rt_reord_trans).
  set (h3 := <[node := nd3]> (heap t)).
  assert (<[node := nd3]> h2 = h3) as Eh3 by apply list_insert_insert_eq.
  rewrite Eh3 in Hs3.
  assert (h3 !! node = Some nd3) as Hnd3 by (by apply list_lookup_insert_eq).
  pose proof (rt_reord_children_in (heap t) node nd nd3 Hr3 Hcs) as Hcs3.
  destruct (rt_split_index_range (minEntries t) (entries_of h3 nd3))
    as (index & Hidx & Hrange); [done | |].
  { unfold len. rewrite rt_entries_of_length. fold (count nd3).
    rewrite (rt_count_reord nd nd3 Hr3). done. }
  exists nd3, index. split; [| split; [| split; [done |]]].
  - unfold chooseSplitAxis. rewrite Hnd. cbn [mbind option_bind].
    rewrite Hs1. cbn [mbind option_bind].
    assert (isLeaf nd1 = isLeaf nd) as E1 by (by destruct Hr1 as [(? & _) _]).
    rewrite <-E1. rewrite Hxm. cbn [mbind option_bind].
    rewrite Hs2. cbn [mbind option_bind].
    assert (isLeaf nd2 = isLeaf nd1) as E2 by (by destruct Hr2' as [(? & _) _]).
    rewrite <-E2. rewrite Hym. cbn [mbind option_bind]. done.
  - unfold chooseSplitIndex. cbn [heap set_heap]. rewrite Hs3.
    cbn [mbind option_bind]. rewrite Hnd3. cbn [mbind option_bind].
    rewrite (rt_entry_bounds_Some h3 nd3 Hcs3). cbn [mbind option_bind].
    change (minEntries (set_heap t h2)) with (minEntries t).
    rewrite Hidx. done.
  - unfold len in Hrange. rewrite rt_entries_of_length in Hrange. fold (count nd3) in Hrange.
    by rewrite (rt_count_reord nd nd3 Hr3) in Hrange.
Qed.

(** With [minEntries ≤ 0] the distributions of a split run out of the
    entries, and the split panics. *)
Lemma rt_calculateMarginSum_None t node isItems :
  (minEntries t <= 0)%Z → calculateMarginSum t node isItems = None.
Proof.
  intros Hmn. unfold calculateMarginSum.
  destruct (heap t !! node) as [nd |]; [| done]. cbn [mbind option_bind].
  destruct (entry_bounds (heap t) nd isItems) as [bs |]; [| done]. cbn [mbind option_bind].
  by apply rt_margin_sum_None.
Qed.

Lemma rt_chooseSplitAxis_None t node :
  (minEntries t <= 0)%Z → chooseSplitAxis t node = None.
Proof.
  intros Hmn. unfold chooseSplitAxis.
  destruct (heap t !! node) as [nd |]; [| done]. cbn [mbind option_bind].
  destruct (sort_entries (heap t) node 0) as [h1 |]; [| done]. cbn [mbind option_bind].
  by rewrite rt_calculateMarginSum_None.
Qed.

Lemma rt_splitNode_None fuel t node : (minEntries t <= 0)%Z → splitNode fuel t node = None.
Proof.
  intros Hmn. destruct fuel as [| fuel]; [done |]. cbn [splitNode].
  by rewrite rt_chooseSplitAxis_None.
Qed.

End Sorting.

(** * Splitting a node: the entries are dealt out to a new node *)

Section Distribute.
Context {D : Type}.
Implicit Types (p q c : nat).

Variables (h h4 : list (Node D)) (r : nat) (N : list nat) (ht : nat → nat).
Variables (node : nat) (nd nd1 nn : Node D).

(** The children that move to the new node. *)
Definition moved_of (nd nn : Node D) : list nat :=
  if isLeaf nd then [] else children nn.

Definition ht_with (ht : nat → nat) (x v : nat) : nat → nat :=
  λ p, if decide (p = x) then v else ht p.

Let newNode := length h.
Let moved := moved_of nd nn.
Let ht' := ht_with ht newNode (ht node).

Hypothesis HS : Struct None h r N ht.
Hypothesis Hnode : node ∈ N.
Hypothesis Hnd : h !! node = Some nd.
Hypothesis D1 : isLeaf nd1 = isLeaf nd.
Hypothesis D2 : isLeaf nn = isLeaf nd.
Hypothesis D3 : parent nd1 = parent nd.
Hypothesis D4 : parent nn = parent nd.
Hypothesis D5 : bounds nd1 = bounds nd.
Hypothesis DL : isLeaf nd = true →
  items nd = items nd1 ++ items nn ∧ items nd1 ≠ [] ∧ items nn ≠ [].
Hypothesis DI : isLeaf nd = false →
  children nd = children nd1 ++ children nn ∧ children nd1 ≠ [] ∧ children nn ≠ [].
Hypothesis H4len : length h4 = S (length h).
Hypothesis H4node : h4 !! node = Some nd1.
Hypothesis H4new : h4 !! newNode = Some nn.
Hypothesis H4moved : ∀ p pn, p ∈ moved → h !! p = Some pn →
  h4 !! p = Some (set_parent pn (Some newNode)).
Hypothesis H4rest : ∀ p, p ≠ node → p ≠ newNode → p ∉ moved → h4 !! p = h !! p.

Lemma rt_dist_fresh p : p ∈ N → p ≠ newNode.
Proof.
  intros Hp ->. destruct (st_in _ _ _ _ _ HS _ Hp) as [x Hx].
  apply lookup_lt_Some in Hx. unfold newNode in Hx. lia.
Qed.

Lemma rt_dist_ht p : p ∈ N → ht' p = ht p.
Proof.
  intros Hp. unfold ht', ht_with. rewrite decide_False; [done |]. by apply rt_dist_fresh.
Qed.

Lemma rt_dist_ht_new : ht' newNode = ht node.
Proof. unfold ht', ht_with. by rewrite decide_True. Qed.

Lemma rt_dist_moved c :
  c ∈ moved →
  isLeaf nd = false ∧ c ∈ children nn ∧ c ∈ children nd ∧ c ∈ N ∧
  ht node = S (ht c) ∧ c ≠ node ∧ c ∉ children nd1 ∧
  ∃ cn, h !! c = Some cn ∧ parent cn = Some node.
Proof.
  unfold moved, moved_of. destruct (isLeaf nd) eqn:Hleaf; [by intros ?%elem_of_nil |].
  intros Hc. destruct (DI eq_refl) as (Hcs & _ & _).
  destruct (st_node _ _ _ _ _ HS node nd Hnode Hnd Hleaf) as (_ & Hnodup & Hch).
  assert (c ∈ children nd) as Hcin by (rewrite Hcs; set_solver).
  destruct (Hch c Hcin) as (HcN & Hht & cn & Hcn & Hpar).
  repeat split; try done.
  - intros ->. lia.
  - rewrite Hcs in Hnodup. apply NoDup_app in Hnodup as (_ & Hdisj & _).
    intros Hin. by apply (Hdisj c).
  - by exists cn.
Qed.

(** What the new store holds at a node of the old tree. *)
Lemma rt_dist_view p :
  p ∈ N →
  ∃ pn pn4, h !! p = Some pn ∧ h4 !! p = Some pn4 ∧
    isLeaf pn4 = isLeaf pn ∧ bounds pn4 = bounds pn ∧
    (p ≠ node → items pn4 = items pn ∧ children pn4 = children pn) ∧
    parent pn4 = (if decide (p ∈ moved) then Some newNode else parent pn).
Proof.
  intros Hp. destruct (st_in _ _ _ _ _ HS _ Hp) as [pn Hpn].
  pose proof (rt_dist_fresh p Hp) as Hfresh.
  destruct (decide (p ∈ moved)) as [Hm | Hm].
  - destruct (rt_dist_moved p Hm) as (_ & _ & _ & _ & _ & Hne & _).
    exists pn, (set_parent pn (Some newNode)). rewrite (H4moved p pn Hm Hpn). done.
  - destruct (decide (p = node)) as [-> | Hne].
    + exists nd, nd1. assert (pn = nd) as -> by congruence. done.
    + exists pn, pn. rewrite (H4rest p Hne Hfresh Hm). done.
Qed.

Lemma rt_dist_root_not_moved : r ∉ moved.
Proof.
  intros Hm. destruct (rt_dist_moved r Hm) as (_ & _ & _ & _ & Hht & _).
  pose proof (st_ht _ _ _ _ _ HS node Hnode). lia.
Qed.

Lemma rt_dist_Struct : Struct (Some newNode) h4 r (N ++ [newNode]) ht'.
Proof.
  split.
  - apply NoDup_app. split; [apply (st_nodup _ _ _ _ _ HS) |]. split; [| apply NoDup_singleton].
    intros p Hp ->%list_elem_of_singleton. by apply (rt_dist_fresh newNode).
  - apply elem_of_app. left. apply (st_root _ _ _ _ _ HS).
  - intros p [Hp | ->%list_elem_of_singleton]%elem_of_app; [| by eexists].
    destruct (rt_dist_view p Hp) as (pn & pn4 & _ & -> & _). done.
  - intros n4 Hr. destruct (rt_dist_view r (st_root _ _ _ _ _ HS))
      as (pn & pn4 & Hpn & Hpn4 & _ & _ & _ & Hpar).
    assert (n4 = pn4) as -> by congruence. rewrite Hpar.
    rewrite decide_False by apply rt_dist_root_not_moved.
    by apply (st_root_par _ _ _ _ _ HS).
  - intros p n4 [Hp | ->%list_elem_of_singleton]%elem_of_app Hpr Ho Hn4; [| done].
    destruct (rt_dist_view p Hp) as (pn & pn4 & Hpn & Hpn4 & _ & _ & Hrest & Hpar).
    assert (n4 = pn4) as -> by congruence. rewrite Hpar.
    destruct (decide (p ∈ moved)) as [Hm | Hm].
    + destruct (rt_dist_moved p Hm) as (Hleaf & Hin & _).
      exists newNode, nn. split; [done |]. split; [set_solver |]. split; [done |].
      split; [congruence | done].
    + destruct (st_par _ _ _ _ _ HS p pn Hp Hpr) as (q & qn & H1 & H2 & H3 & H4 & H5);
        [done | done |].
      destruct (rt_dist_view q H2) as (qn' & qn4 & Hqn' & Hqn4 & Hl & _ & Hrest' & _).
      assert (qn' = qn) as -> by congruence.
      exists q, qn4. split; [done |]. split; [set_solver |]. split; [done |].
      split; [congruence |].
      destruct (decide (q = node)) as [-> | Hqn].
      * assert (qn = nd) as -> by congruence. assert (qn4 = nd1) as -> by congruence.
        destruct (DI H4) as (Hcs & _). rewrite Hcs in H5.
        apply elem_of_app in H5 as [H5 | H5]; [done |].
        exfalso. apply Hm. unfold moved, moved_of. by rewrite H4.
      * destruct (Hrest' Hqn) as [_ ->]. done.
  - intros p n4 Ho Hn4. injection Ho as <-.
    assert (n4 = nn) as -> by congruence.
    split; [set_solver |]. split.
    { intros E. apply (rt_dist_fresh r); [apply (st_root _ _ _ _ _ HS) | done]. }
    split.
    { intros q qn4 [Hq | ->%list_elem_of_singleton]%elem_of_app Hqn4 Hleaf Hin.
      - destruct (rt_dist_view q Hq) as (qn & qn4' & Hqn & Hqn4' & Hl & _ & Hrest & _).
        assert (qn4' = qn4) as -> by congruence.
        assert (newNode ∈ children qn) as Hin'.
        { destruct (decide (q = node)) as [-> | Hne].
          - assert (qn = nd) as -> by congruence. assert (qn4 = nd1) as -> by congruence.
            destruct DI as (-> & _); [congruence |]. set_solver.
          - by destruct (Hrest Hne) as [_ <-]. }
        destruct (st_node _ _ _ _ _ HS q qn Hq Hqn) as (_ & _ & Hch); [congruence |].
        destruct (Hch _ Hin') as (HN & _). by apply (rt_dist_fresh newNode).
      - assert (qn4 = nn) as -> by congruence.
        assert (newNode ∈ moved) as Hm.
        { unfold moved, moved_of. by rewrite <-D2, Hleaf. }
        destruct (rt_dist_moved _ Hm) as (_ & _ & _ & HN & _).
        by apply (rt_dist_fresh newNode). }
    intros q Hq. rewrite D4 in Hq.
    destruct (rt_Struct_parent _ _ _ _ _ _ _ _ HS Hnode Hnd Hq) as (HqN & Hht & qn & Hqn & Hql & _).
    split; [set_solver |]. rewrite rt_dist_ht_new, (rt_dist_ht q HqN). split; [done |].
    destruct (rt_dist_view q HqN) as (qn' & qn4 & Hqn' & Hqn4 & Hl & _).
    exists qn4. split; [done |]. congruence.
  - intros p n4 [Hp | ->%list_elem_of_singleton]%elem_of_app Hn4 Hleaf.
    + rewrite (rt_dist_ht p Hp).
      destruct (rt_dist_view p Hp) as (pn & pn4 & Hpn & Hpn4 & Hl & _ & Hrest & _).
      assert (n4 = pn4) as -> by congruence.
      destruct (st_leaf _ _ _ _ _ HS p pn Hp Hpn) as [H0 Hne]; [congruence |].
      split; [done |]. intros Hpr.
      destruct (decide (p = node)) as [-> | Hpn'].
      * assert (pn = nd) as -> by congruence. assert (pn4 = nd1) as -> by congruence.
        destruct DL as (_ & ? & _); [congruence | done].
      * destruct (Hrest Hpn') as [-> _]. by apply Hne.
    + assert (n4 = nn) as -> by congruence. rewrite rt_dist_ht_new.
      assert (isLeaf nd = true) as Hl by congruence.
      destruct (st_leaf _ _ _ _ _ HS node nd Hnode Hnd Hl) as [H0 _].
      split; [done |]. intros _. by destruct (DL Hl) as (_ & _ & ?).
  - intros p n4 [Hp | ->%list_elem_of_singleton]%elem_of_app Hn4 Hleaf.
    + rewrite (rt_dist_ht p Hp).
      destruct (rt_dist_view p Hp) as (pn & pn4 & Hpn & Hpn4 & Hl & _ & Hrest & _).
      assert (n4 = pn4) as -> by congruence.
      destruct (st_node _ _ _ _ _ HS p pn Hp Hpn) as (Hne & Hnodup & Hch); [congruence |].
      destruct (decide (p = node)) as [-> | Hpn'].
      * assert (pn = nd) as -> by congruence. assert (pn4 = nd1) as -> by congruence.
        destruct DI as (Hcs & Hne1 & _); [congruence |].
        split; [done |]. rewrite Hcs in Hnodup.
        pose proof Hnodup as (Hnd1 & Hdisj & _)%NoDup_app. split; [done |].
        intros c Hc. destruct (Hch c) as (HcN & Hht & cn & Hcn & Hpar); [rewrite Hcs; set_solver |].
        split; [set_solver |]. rewrite (rt_dist_ht c HcN). split; [done |].
        exists cn. split; [| done]. rewrite H4rest; [done | | |].
        -- intros ->. lia.
        -- by apply rt_dist_fresh.
        -- intros Hm. destruct (rt_dist_moved c Hm) as (_ & _ & _ & _ & _ & _ & Hnot & _). done.
      * destruct (Hrest Hpn') as [_ ->]. split; [done |]. split; [done |].
        intros c Hc. destruct (Hch c Hc) as (HcN & Hht & cn & Hcn & Hpar).
        split; [set_solver |]. rewrite (rt_dist_ht c HcN). split; [done |].
        destruct (rt_dist_view c HcN) as (cn' & cn4 & Hcn' & Hcn4 & _ & _ & _ & Hpar4).
        assert (cn' = cn) as -> by congruence.
        exists cn4. split; [done |]. rewrite Hpar4.
        rewrite decide_False; [done |]. intros Hm.
        destruct (rt_dist_moved c Hm) as (_ & _ & _ & _ & _ & _ & _ & cn2 & Hcn2 & Hpar2).
        congruence.
    + assert (n4 = nn) as -> by congruence.
      assert (isLeaf nd = false) as Hl by congruence.
      destruct (DI Hl) as (Hcs & _ & Hne).
      destruct (st_node _ _ _ _ _ HS node nd Hnode Hnd Hl) as (_ & Hnodup & Hch).
      split; [done |]. rewrite Hcs in Hnodup.
      pose proof Hnodup as (_ & _ & Hnn)%NoDup_app. split; [done |].
      intros c Hc. assert (c ∈ moved) as Hm by (unfold moved, moved_of; by rewrite Hl).
      destruct (rt_dist_moved c Hm) as (_ & _ & _ & HcN & Hht & _ & _ & cn & Hcn & _).
      split; [set_solver |]. rewrite rt_dist_ht_new, (rt_dist_ht c HcN). split; [done |].
      exists (set_parent cn (Some newNode)). split; [| done]. by apply H4moved.
  - intros p [Hp | ->%list_elem_of_singleton]%elem_of_app.
    + rewrite (rt_dist_ht p Hp), (rt_dist_ht r (st_root _ _ _ _ _ HS)).
      by apply (st_ht _ _ _ _ _ HS).
    + rewrite rt_dist_ht_new, (rt_dist_ht r (st_root _ _ _ _ _ HS)).
      by apply (st_ht _ _ _ _ _ HS).
  - rewrite (rt_dist_ht r (st_root _ _ _ _ _ HS)), H4len.
    pose proof (st_fuel _ _ _ _ _ HS). lia.
Qed.

Lemma rt_dist_bounds_at c : c ≠ newNode → bounds_at h4 c = bounds_at h c.
Proof.
  intros Hc. unfold bounds_at.
  destruct (decide (c = node)) as [-> | Hne]; [by rewrite H4node, Hnd |].
  destruct (decide (c ∈ moved)) as [Hm | Hm].
  - destruct (rt_dist_moved c Hm) as (_ & _ & _ & _ & _ & _ & _ & cn & Hcn & _).
    by rewrite (H4moved c cn Hm Hcn), Hcn.
  - by rewrite H4rest.
Qed.

Lemma rt_dist_BOK p : p ∈ N → p ≠ node → BOK h p → BOK h4 p.
Proof.
  intros Hp Hne. apply rt_BOK_ext. intros pn4' Hpn4'.
  destruct (rt_dist_view p Hp) as (pn & pn4 & Hpn & Hpn4 & Hl & Hb & Hrest & _).
  assert (pn4' = pn4) as -> by congruence. destruct (Hrest Hne) as [Hi Hc].
  exists pn. repeat (split; [done |]). intros Hleaf c Hcin.
  apply rt_dist_bounds_at.
  destruct (st_node _ _ _ _ _ HS p pn Hp Hpn Hleaf) as (_ & _ & Hch).
  destruct (Hch c Hcin) as (HcN & _). by apply rt_dist_fresh.
Qed.

Lemma rt_dist_Chain p : Chain h node p → Chain h4 node p.
Proof.
  apply rt_Chain_mono. intros x xn Hx Hxn.
  destruct (rt_Chain_ht _ _ _ _ _ _ _ HS Hnode Hx) as [HxN Hcase].
  destruct (rt_dist_view x HxN) as (pn & pn4 & Hpn & Hpn4 & _ & _ & _ & Hpar).
  assert (pn = xn) as -> by congruence. exists pn4. split; [done |]. rewrite Hpar.
  rewrite decide_False; [done |]. intros Hm.
  destruct (rt_dist_moved x Hm) as (_ & _ & _ & _ & Hht & Hne & _).
  destruct Hcase as [-> | Hlt]; [done | lia].
Qed.

Lemma rt_dist_leaf_items p : p ∈ N → p ≠ node → leaf_items h4 p = leaf_items h p.
Proof.
  intros Hp Hne. unfold leaf_items.
  destruct (rt_dist_view p Hp) as (pn & pn4 & -> & -> & -> & _ & Hrest & _).
  by destruct (Hrest Hne) as [-> _].
Qed.

Lemma rt_dist_all_items : all_items h4 (N ++ [newNode]) ≡ₚ all_items h N.
Proof.
  unfold all_items. rewrite bind_app.
  destruct (list_elem_of_split _ _ Hnode) as (N1 & N2 & HN).
  pose proof (st_nodup _ _ _ _ _ HS) as Hnodup. rewrite HN in Hnodup.
  apply NoDup_app in Hnodup as (_ & Hdisj & [Hnot _]%NoDup_cons).
  assert (∀ l, (∀ p, p ∈ l → p ∈ N ∧ p ≠ node) →
            l ≫= leaf_items h4 = l ≫= leaf_items h) as Hsame.
  { intros l Hl. apply Forall_bind_ext, Forall_forall. intros p Hp.
    destruct (Hl p Hp). by apply rt_dist_leaf_items. }
  rewrite HN. rewrite !bind_app, !bind_cons.
  rewrite (Hsame N1), (Hsame N2).
  2:{ intros p Hp. split; [rewrite HN; set_solver |]. by intros ->. }
  2:{ intros p Hp. split; [rewrite HN; set_solver |]. intros ->. by apply (Hdisj node); [| left]. }
  change ([] ≫= leaf_items h4) with (@nil (Item D)). rewrite app_nil_r.
  assert (leaf_items h4 node ++ leaf_items h4 newNode ≡ₚ leaf_items h node) as Hsplit.
  { unfold leaf_items. rewrite H4node, H4new, Hnd, D1, D2.
    destruct (isLeaf nd) eqn:Hleaf; [| done]. by destruct (DL eq_refl) as (-> & _). }
  rewrite <-Hsplit. rewrite <-!app_assoc. apply Permutation_app_head.
  apply Permutation_app_head. apply Permutation_app_comm.
Qed.

End Distribute.

(** * Splitting a node: the new node is listed by the parent *)

Section Adopt.
Context {D : Type}.
Implicit Types (p c : nat).

Variables (h : list (Node D)) (r : nat) (N : list nat) (ht : nat → nat).
Variables (x q : nat) (xn qn : Node D).

Hypothesis HS : Struct (Some x) h r N ht.
Hypothesis Hx : h !! x = Some xn.
Hypothesis Hpar : parent xn = Some q.
Hypothesis Hq : h !! q = Some qn.

Let h7 := <[q := set_children qn (children qn ++ [x])]> h.

Lemma rt_adopt_facts :
  x ∈ N ∧ x ≠ r ∧ q ∈ N ∧ ht q = S (ht x) ∧ isLeaf qn = false ∧ x ∉ children qn ∧ x ≠ q.
Proof.
  destruct (st_orph _ _ _ _ _ HS x xn eq_refl Hx) as (H1 & H2 & H3 & H4).
  destruct (H4 q Hpar) as (H5 & H6 & qn' & H7 & H8).
  assert (qn' = qn) as -> by congruence.
  repeat split; try done.
  - by apply (H3 q qn).
  - intros ->. lia.
Qed.

Lemma rt_adopt_view p pn7 :
  h7 !! p = Some pn7 →
  ∃ pn, h !! p = Some pn ∧ isLeaf pn7 = isLeaf pn ∧ items pn7 = items pn ∧
        parent pn7 = parent pn ∧ bounds pn7 = bounds pn ∧
        children pn7 = (if decide (p = q) then children pn ++ [x] else children pn).
Proof.
  unfold h7. intros Hp. destruct (decide (p = q)) as [-> | Hne].
  - rewrite list_lookup_insert_eq in Hp by (by eapply lookup_lt_Some).
    injection Hp as <-. by exists qn.
  - rewrite list_lookup_insert_ne in Hp by done. by exists pn7.
Qed.

Lemma rt_adopt_fwd p pn :
  h !! p = Some pn →
  ∃ pn7, h7 !! p = Some pn7 ∧ isLeaf pn7 = isLeaf pn ∧ items pn7 = items pn ∧
        parent pn7 = parent pn ∧ bounds pn7 = bounds pn ∧
        children pn7 = (if decide (p = q) then children pn ++ [x] else children pn).
Proof.
  unfold h7. intros Hp. destruct (decide (p = q)) as [-> | Hne].
  - rewrite list_lookup_insert_eq by (by eapply lookup_lt_Some).
    assert (pn = qn) as -> by congruence. by eexists.
  - rewrite list_lookup_insert_ne by done. by exists pn.
Qed.

Lemma rt_adopt_Struct : Struct None h7 r N ht.
Proof.
  destruct rt_adopt_facts as (HxN & Hxr & HqN & Hht & Hql & Hnot & Hxq).
  split.
  - apply (st_nodup _ _ _ _ _ HS).
  - apply (st_root _ _ _ _ _ HS).
  - intros p Hp. destruct (st_in _ _ _ _ _ HS p Hp) as [pn Hpn].
    destruct (rt_adopt_fwd p pn Hpn) as (pn7 & -> & _). done.
  - intros n7 Hr. destruct (rt_adopt_view r n7 Hr) as (pn & Hpn & _ & _ & -> & _).
    by apply (st_root_par _ _ _ _ _ HS).
  - intros p n7 Hp Hpr _ Hn7.
    destruct (rt_adopt_view p n7 Hn7) as (pn & Hpn & _ & _ & -> & _).
    destruct (decide (p = x)) as [-> | Hpx].
    + assert (pn = xn) as -> by congruence.
      destruct (rt_adopt_fwd q qn Hq) as (qn7 & Hqn7 & E1 & _ & _ & _ & E2).
      exists q, qn7. rewrite E1, E2, decide_True by done.
      repeat split; try done. set_solver.
    + destruct (st_par _ _ _ _ _ HS p pn Hp Hpr) as (q' & qn' & H1 & H2 & H3 & H4 & H5);
        [congruence | done |].
      destruct (rt_adopt_fwd q' qn' H3) as (qn7 & Hqn7 & E1 & _ & _ & _ & E2).
      exists q', qn7. rewrite E1, E2. repeat split; try done.
      case_decide; set_solver.
  - intros p n7 Ho. done.
  - intros p n7 Hp Hn7 Hleaf.
    destruct (rt_adopt_view p n7 Hn7) as (pn & Hpn & E1 & -> & _).
    apply (st_leaf _ _ _ _ _ HS p pn Hp Hpn). congruence.
  - intros p n7 Hp Hn7 Hleaf.
    destruct (rt_adopt_view p n7 Hn7) as (pn & Hpn & E1 & _ & _ & _ & ->).
    destruct (st_node _ _ _ _ _ HS p pn Hp Hpn) as (Hne & Hnodup & Hch); [congruence |].
    assert (∀ c, c ∈ children pn →
              c ∈ N ∧ ht p = S (ht c) ∧ ∃ cn, h7 !! c = Some cn ∧ parent cn = Some p) as Hch7.
    { intros c Hc. destruct (Hch c Hc) as (HcN & Hhtc & cn & Hcn & Hcp).
      split; [done |]. split; [done |].
      destruct (rt_adopt_fwd c cn Hcn) as (cn7 & Hcn7 & _ & _ & Ep & _).
      exists cn7. split; [done |]. congruence. }
    case_decide as Hpq; [| done]. subst p. assert (pn = qn) as -> by congruence.
    split; [by destruct (children qn) |]. split.
    + apply NoDup_app. split; [done |]. split; [| apply NoDup_singleton].
      intros c Hc ->%list_elem_of_singleton. done.
    + intros c [Hc | ->%list_elem_of_singleton]%elem_of_app; [by apply Hch7 |].
      split; [done |]. split; [done |].
      destruct (rt_adopt_fwd x xn Hx) as (xn7 & Hxn7 & _ & _ & Ep & _).
      exists xn7. split; [done |]. congruence.
  - apply (st_ht _ _ _ _ _ HS).
  - unfold h7. rewrite length_insert. apply (st_fuel _ _ _ _ _ HS).
Qed.

Lemma rt_adopt_bounds_at c : bounds_at h7 c = bounds_at h c.
Proof.
  unfold bounds_at. destruct (h !! c) as [cn |] eqn:Hc.
  - destruct (rt_adopt_fwd c cn Hc) as (cn7 & -> & _ & _ & _ & E & _). done.
  - destruct (h7 !! c) as [cn7 |] eqn:Hc7; [| done].
    destruct (rt_adopt_view c cn7 Hc7) as (cn & Hcn & _). congruence.
Qed.

Lemma rt_adopt_BOK p : p ≠ q → BOK h p → BOK h7 p.
Proof.
  intros Hne. apply rt_BOK_ext. intros pn7 Hpn7.
  destruct (rt_adopt_view p pn7 Hpn7) as (pn & Hpn & E1 & E2 & _ & E4 & E5).
  rewrite decide_False in E5 by done.
  exists pn. repeat (split; [done |]). intros _ c _. apply rt_adopt_bounds_at.
Qed.

Lemma rt_adopt_all_items : all_items h7 N = all_items h N.
Proof.
  unfold all_items. apply list_bind_ext; [| done]. intros p. unfold leaf_items.
  destruct (h !! p) as [pn |] eqn:Hp.
  - destruct (rt_adopt_fwd p pn Hp) as (pn7 & -> & -> & -> & _). done.
  - destruct (h7 !! p) as [pn7 |] eqn:Hp7; [| done].
    destruct (rt_adopt_view p pn7 Hp7) as (pn & Hpn & _). congruence.
Qed.

Lemma rt_adopt_children : ∃ qn7, h7 !! q = Some qn7 ∧ children qn7 = children qn ++ [x].
Proof.
  destruct (rt_adopt_fwd q qn Hq) as (qn7 & Hqn7 & _ & _ & _ & _ & E).
  rewrite decide_True in E by done. eauto.
Qed.

End Adopt.

(** * Splitting the root: a new root over the two halves *)

Section NewRoot.
Context {D : Type}.
Implicit Types (p c : nat).

Variables (h : list (Node D)) (r : nat) (N : list nat) (ht : nat → nat).
Variables (x : nat) (xn rn : Node D).

Hypothesis HS : Struct (Some x) h r N ht.
Hypothesis Hx : h !! x = Some xn.
Hypothesis Hr : h !! r = Some rn.
Hypothesis Hht : ht x = ht r.
Hypothesis Hne : isLeaf rn = true → items rn ≠ [].

Let newRoot := length h.
Let h9 := <[x := set_parent xn (Some newRoot)]>
            (<[r := set_parent rn (Some newRoot)]>
               (h ++ [mkNode false zeroRect [r; x] [] None])).
Let ht' := ht_with ht newRoot (S (ht r)).

Lemma rt_newroot_facts :
  x ∈ N ∧ x ≠ r ∧ x < length h ∧ r < length h ∧
  (∀ q qn, q ∈ N → h !! q = Some qn → isLeaf qn = false → x ∉ children qn ∧ r ∉ children qn).
Proof.
  destruct (st_orph _ _ _ _ _ HS x xn eq_refl Hx) as (H1 & H2 & H3 & H4).
  split; [done |]. split; [done |].
  split; [by eapply lookup_lt_Some |]. split; [by eapply lookup_lt_Some |].
  intros q qn HqN Hqn Hleaf. split; [by eapply H3 |]. intros Hin.
  destruct (st_node _ _ _ _ _ HS q qn HqN Hqn Hleaf) as (_ & _ & Hch).
  destruct (Hch r Hin) as (_ & _ & cn & Hcn & Hcp).
  assert (cn = rn) as -> by congruence.
  rewrite (st_root_par _ _ _ _ _ HS rn Hr) in Hcp. done.
Qed.

Lemma rt_newroot_fresh p : p ∈ N → p ≠ newRoot.
Proof.
  intros Hp ->. destruct (st_in _ _ _ _ _ HS _ Hp) as [y Hy].
  apply lookup_lt_Some in Hy. unfold newRoot in Hy. lia.
Qed.

Lemma rt_newroot_ht p : p ∈ N → ht' p = ht p.
Proof.
  intros Hp. unfold ht', ht_with. rewrite decide_False; [done |]. by apply rt_newroot_fresh.
Qed.

Lemma rt_newroot_ht_new : ht' newRoot = S (ht r).
Proof. unfold ht', ht_with. by rewrite decide_True. Qed.

Lemma rt_newroot_new : h9 !! newRoot = Some (mkNode false zeroRect [r; x] [] None).
Proof.
  destruct rt_newroot_facts as (_ & _ & Hxl & Hrl & _). unfold h9.
  rewrite !list_lookup_insert_ne by (unfold newRoot; lia).
  by apply list_lookup_middle.
Qed.

Lemma rt_newroot_view p :
  p ∈ N →
  ∃ pn pn9, h !! p = Some pn ∧ h9 !! p = Some pn9 ∧
    isLeaf pn9 = isLeaf pn ∧ items pn9 = items pn ∧ children pn9 = children pn ∧
    bounds pn9 = bounds pn ∧
    parent pn9 = (if decide (p = r ∨ p = x) then Some newRoot else parent pn).
Proof.
  intros Hp. destruct (st_in _ _ _ _ _ HS _ Hp) as [pn Hpn].
  destruct rt_newroot_facts as (_ & Hxr & Hxl & Hrl & _).
  pose proof (lookup_lt_Some _ _ _ Hpn) as Hpl. unfold h9.
  destruct (decide (p = x)) as [-> | Hpx].
  - assert (pn = xn) as -> by congruence.
    exists xn, (set_parent xn (Some newRoot)).
    rewrite list_lookup_insert_eq by (rewrite length_insert, length_app; simpl; lia).
    rewrite decide_True by auto. done.
  - rewrite list_lookup_insert_ne by done.
    destruct (decide (p = r)) as [-> | Hpr].
    + assert (pn = rn) as -> by congruence.
      exists rn, (set_parent rn (Some newRoot)).
      rewrite list_lookup_insert_eq by (rewrite length_app; simpl; lia).
      rewrite decide_True by auto. done.
    + rewrite list_lookup_insert_ne by done. rewrite lookup_app_l by done.
      exists pn, pn. rewrite decide_False by (intros [? | ?]; done). done.
Qed.

Lemma rt_newroot_Struct : Struct None h9 newRoot (N ++ [newRoot]) ht'.
Proof.
  destruct rt_newroot_facts as (HxN & Hxr & Hxl & Hrl & Hnot).
  pose proof (st_root _ _ _ _ _ HS) as HrN.
  split.
  - apply NoDup_app. split; [apply (st_nodup _ _ _ _ _ HS) |]. split; [| apply NoDup_singleton].
    intros p Hp ->%list_elem_of_singleton. by apply (rt_newroot_fresh newRoot).
  - set_solver.
  - intros p [Hp | ->%list_elem_of_singleton]%elem_of_app.
    + destruct (rt_newroot_view p Hp) as (pn & pn9 & _ & -> & _). done.
    + rewrite rt_newroot_new. done.
  - intros n9. rewrite rt_newroot_new. by intros [= <-].
  - intros p n9 [Hp | ->%list_elem_of_singleton]%elem_of_app Hpr _ Hn9; [| done].
    destruct (rt_newroot_view p Hp) as (pn & pn9 & Hpn & Hpn9 & _ & _ & _ & _ & Hpar).
    assert (n9 = pn9) as -> by congruence. rewrite Hpar.
    case_decide as Hcase.
    + exists newRoot, (mkNode false zeroRect [r; x] [] None).
      split; [done |]. split; [set_solver |]. split; [apply rt_newroot_new |].
      split; [done |]. simpl. destruct Hcase as [-> | ->]; set_solver.
    + destruct (st_par _ _ _ _ _ HS p pn Hp) as (q & qn & H1 & H2 & H3 & H4 & H5);
        [tauto | intros [= ->]; tauto | done |].
      destruct (rt_newroot_view q H2) as (qn' & qn9 & Hqn' & Hqn9 & E1 & _ & E3 & _).
      assert (qn' = qn) as -> by congruence.
      exists q, qn9. rewrite E1, E3. repeat split; try done. set_solver.
  - intros p n9 Ho. done.
  - intros p n9 [Hp | ->%list_elem_of_singleton]%elem_of_app Hn9 Hleaf.
    + rewrite (rt_newroot_ht p Hp).
      destruct (rt_newroot_view p Hp) as (pn & pn9 & Hpn & Hpn9 & E1 & E2 & _).
      assert (n9 = pn9) as -> by congruence. rewrite E2.
      destruct (st_leaf _ _ _ _ _ HS p pn Hp Hpn) as [H0 Hni]; [congruence |].
      split; [done |]. intros _.
      destruct (decide (p = r)) as [-> | Hpr]; [| by apply Hni].
      assert (pn = rn) as -> by congruence. apply Hne. congruence.
    + rewrite rt_newroot_new in Hn9. by injection Hn9 as <-.
  - intros p n9 [Hp | ->%list_elem_of_singleton]%elem_of_app Hn9 Hleaf.
    + rewrite (rt_newroot_ht p Hp).
      destruct (rt_newroot_view p Hp) as (pn & pn9 & Hpn & Hpn9 & E1 & _ & E3 & _).
      assert (n9 = pn9) as -> by congruence. rewrite E3.
      assert (isLeaf pn = false) as Hl by congruence.
      destruct (st_node _ _ _ _ _ HS p pn Hp Hpn Hl) as (Hnn & Hnodup & Hch).
      split; [done |]. split; [done |]. intros c Hc.
      destruct (Hch c Hc) as (HcN & Hhtc & cn & Hcn & Hcp).
      split; [set_solver |]. rewrite (rt_newroot_ht c HcN). split; [done |].
      destruct (rt_newroot_view c HcN) as (cn' & cn9 & Hcn' & Hcn9 & _ & _ & _ & _ & Hpar).
      assert (cn' = cn) as -> by congruence.
      exists cn9. split; [done |]. rewrite Hpar.
      destruct (Hnot p pn Hp Hpn Hl) as [Hnx Hnr].
      rewrite decide_False; [done |]. intros [-> | ->]; done.
    + rewrite rt_newroot_new in Hn9. injection Hn9 as <-. simpl.
      split; [done |]. split.
      { apply NoDup_cons. split; [set_solver |]. apply NoDup_singleton. }
      rewrite rt_newroot_ht_new.
      intros c [-> | Hc]%elem_of_cons.
      * split; [set_solver |]. rewrite (rt_newroot_ht r HrN). split; [done |].
        destruct (rt_newroot_view r HrN) as (pn & pn9 & _ & Hpn9 & _ & _ & _ & _ & Hpar).
        exists pn9. split; [done |]. rewrite Hpar. by rewrite decide_True by auto.
      * apply list_elem_of_singleton in Hc as ->.
        split; [set_solver |]. rewrite (rt_newroot_ht x HxN). split; [by rewrite Hht |].
        destruct (rt_newroot_view x HxN) as (pn & pn9 & _ & Hpn9 & _ & _ & _ & _ & Hpar).
        exists pn9. split; [done |]. rewrite Hpar. by rewrite decide_True by auto.
  - intros p [Hp | ->%list_elem_of_singleton]%elem_of_app.
    + rewrite (rt_newroot_ht p Hp), rt_newroot_ht_new.
      pose proof (st_ht _ _ _ _ _ HS p Hp). lia.
    + done.
  - rewrite rt_newroot_ht_new. unfold h9. rewrite !length_insert, length_app. simpl.
    pose proof (st_fuel _ _ _ _ _ HS). lia.
Qed.

Lemma rt_newroot_bounds_at c : c ∈ N → bounds_at h9 c = bounds_at h c.
Proof.
  intros Hc. unfold bounds_at.
  destruct (rt_newroot_view c Hc) as (cn & cn9 & -> & -> & _ & _ & _ & E & _). done.
Qed.

Lemma rt_newroot_BOK p : p ∈ N → BOK h p → BOK h9 p.
Proof.
  intros Hp. apply rt_BOK_ext. intros pn9' Hpn9'.
  destruct (rt_newroot_view p Hp) as (pn & pn9 & Hpn & Hpn9 & E1 & E2 & E3 & E4 & _).
  assert (pn9' = pn9) as -> by congruence.
  exists pn. repeat (split; [done |]). intros Hleaf c Hcin.
  apply rt_newroot_bounds_at.
  destruct (st_node _ _ _ _ _ HS p pn Hp Hpn Hleaf) as (_ & _ & Hch).
  by destruct (Hch c Hcin) as (HcN & _).
Qed.

Lemma rt_newroot_all_items : all_items h9 (N ++ [newRoot]) = all_items h N.
Proof.
  unfold all_items. rewrite bind_app.
  change ([newRoot] ≫= leaf_items h9) with (leaf_items h9 newRoot ++ []).
  unfold leaf_items at 2. rewrite rt_newroot_new. simpl. rewrite app_nil_r.
  apply Forall_bind_ext, Forall_forall. intros p Hp. unfold leaf_items.
  destruct (rt_newroot_view p Hp) as (pn & pn9 & -> & -> & -> & -> & _). done.
Qed.

End NewRoot.

(** * Splitting a node *)

Section Split.
Context {D : Type}.
Implicit Types (h : list (Node D)) (nd : Node D) (N : list nat) (ht : nat → nat).
Implicit Types (p q r c : nat) (t : RTree D).

Lemma rt_reparent_spec x cs : ∀ h,
  (∀ c, c ∈ cs → is_Some (h !! c)) →
  ∃ h', foldl (λ (oh : option (list (Node D))) child,
                 h ← oh; modify h child (λ n, set_parent n (Some x))) (Some h) cs = Some h' ∧
        length h' = length h ∧
        ∀ p, h' !! p = if decide (p ∈ cs) then (λ n, set_parent n (Some x)) <$> h !! p
                       else h !! p.
Proof.
  induction cs as [| c cs IH]; intros h Hcs.
  - exists h. split; [done |]. split; [done |]. intros p.
    rewrite decide_False; [done |]. apply not_elem_of_nil.
  - destruct (Hcs c) as [cn Hcn]; [by left |].
    cbn [foldl]. cbn [mbind option_bind].
    rewrite (rt_modify_Some h c _ cn Hcn).
    destruct (IH (<[c := set_parent cn (Some x)]> h)) as (h' & Hrun & Hlen & Hlk).
    { intros c' Hc'. apply lookup_lt_is_Some. rewrite length_insert.
      apply lookup_lt_is_Some, Hcs. by right. }
    exists h'. split; [done |]. split; [by rewrite Hlen, length_insert |].
    intros p. rewrite Hlk. destruct (decide (p = c)) as [-> | Hne].
    + rewrite list_lookup_insert_eq by (by eapply lookup_lt_Some).
      destruct (decide (c ∈ c :: cs)) as [_ | Hn]; [| exfalso; apply Hn; by left].
      rewrite Hcn. by case_decide.
    + rewrite list_lookup_insert_ne by done.
      destruct (decide (p ∈ cs)) as [Hin | Hin].
      * destruct (decide (p ∈ c :: cs)) as [_ | Hn]; [done |]. exfalso. apply Hn. by right.
      * destruct (decide (p ∈ c :: cs)) as [[? | ?]%elem_of_cons | _]; done.
Qed.

(** The two halves of a node split at position [i]. *)
Definition split_left nd (i : nat) : Node D :=
  if isLeaf nd then set_items nd (take i (items nd))
  else set_children nd (take i (children nd)).

Definition split_right nd (i : nat) : Node D :=
  if isLeaf nd then mkNode true zeroRect [] (drop i (items nd)) (parent nd)
  else mkNode false zeroRect (drop i (children nd)) [] (parent nd).

(** The part of [splitNode] that deals the entries out. *)
Definition distribute h node nd (index : Z) : option (list (Node D)) :=
  let '(h3, newNode) := alloc h (mkNode (isLeaf nd) zeroRect [] [] (parent nd)) in
  if isLeaf nd then
    if decide (0 <= index <= len (items nd))%Z then
      let i := Z.to_nat index in
      h ← modify h3 newNode (λ n, set_items n (drop i (items nd)));
      modify h node (λ n, set_items n (take i (items n)))
    else None
  else
    if decide (0 <= index <= len (children nd))%Z then
      let i := Z.to_nat index in
      h ← modify h3 newNode (λ n, set_children n (drop i (children nd)));
      h ← modify h node (λ n, set_children n (take i (children n)));
      nn ← h !! newNode;
      foldl (λ (oh : option (list (Node D))) child,
               h ← oh; modify h child (λ n, set_parent n (Some newNode)))
            (Some h) (children nn)
    else None.

Lemma rt_distribute_spec h node nd index :
  h !! node = Some nd → (0 <= index <= Z.of_nat (count nd))%Z →
  (isLeaf nd = false → ∀ c, c ∈ children nd → c ≠ node ∧ is_Some (h !! c)) →
  let i := Z.to_nat index in
  ∃ h4, distribute h node nd index = Some h4 ∧
    length h4 = S (length h) ∧
    h4 !! node = Some (split_left nd i) ∧
    h4 !! length h = Some (split_right nd i) ∧
    (∀ p pn, p ∈ moved_of nd (split_right nd i) → h !! p = Some pn →
             h4 !! p = Some (set_parent pn (Some (length h)))) ∧
    (∀ p, p ≠ node → p ≠ length h → p ∉ moved_of nd (split_right nd i) →
          h4 !! p = h !! p).
Proof.
  intros Hnd Hidx Hcs i. pose proof (lookup_lt_Some _ _ _ Hnd) as Hlt.
  unfold distribute, alloc, split_left, split_right, moved_of, count in *.
  destruct (isLeaf nd) eqn:Hleaf.
  - rewrite decide_True by (unfold len; lia).
    cbn zeta. fold i.
    rewrite (rt_modify_Some _ (length h) _ (mkNode true zeroRect [] [] (parent nd)))
      by (by apply list_lookup_middle).
    cbn [mbind option_bind set_items isLeaf bounds children parent].
    rewrite (rt_modify_Some _ node _ nd).
    2:{ rewrite list_lookup_insert_ne by lia. by rewrite lookup_app_l. }
    eexists. split; [done |]. split.
    { rewrite !length_insert, length_app. simpl. lia. }
    split.
    { apply list_lookup_insert_eq. rewrite length_insert, length_app. simpl. lia. }
    split.
    { rewrite list_lookup_insert_ne by lia.
      rewrite list_lookup_insert_eq by (rewrite length_app; simpl; lia). done. }
    split; [by intros p pn ?%elem_of_nil |].
    intros p Hp1 Hp2 _. rewrite !list_lookup_insert_ne by done.
    destruct (decide (p < length h)); [by rewrite lookup_app_l |].
    rewrite !lookup_ge_None_2; [done | lia |]. rewrite length_app. simpl. lia.
  - rewrite decide_True by (unfold len; lia).
    cbn zeta. fold i.
    rewrite (rt_modify_Some _ (length h) _ (mkNode false zeroRect [] [] (parent nd)))
      by (by apply list_lookup_middle).
    cbn [mbind option_bind set_children isLeaf bounds items parent].
    rewrite (rt_modify_Some _ node _ nd).
    2:{ rewrite list_lookup_insert_ne by lia. by rewrite lookup_app_l. }
    cbn [mbind option_bind].
    pose (nn := @mkNode D false zeroRect (drop i (children nd)) [] (parent nd)).
    change (set_children (mkNode false zeroRect [] [] (parent nd)) (drop i (children nd)))
      with nn.
    set (hb := <[node := set_children nd (take i (children nd))]>
                 (<[length h := nn]> (h ++ [mkNode false zeroRect [] [] (parent nd)]))).
    assert (hb !! length h = Some nn) as Hnn.
    { unfold hb. rewrite list_lookup_insert_ne by lia.
      apply list_lookup_insert_eq. rewrite length_app. simpl. lia. }
    assert (hb !! node = Some (set_children nd (take i (children nd)))) as Hn1.
    { unfold hb. apply list_lookup_insert_eq. rewrite length_insert, length_app. simpl. lia. }
    assert (∀ p, p ≠ node → p ≠ length h → hb !! p = h !! p) as Hother.
    { intros p Hp1 Hp2. unfold hb. rewrite !list_lookup_insert_ne by done.
      destruct (decide (p < length h)); [by rewrite lookup_app_l |].
      rewrite !lookup_ge_None_2; [done | lia |]. rewrite length_app. simpl. lia. }
    assert (∀ c, c ∈ drop i (children nd) → c ≠ node ∧ c ≠ length h ∧ is_Some (h !! c)) as Hdrop.
    { intros c Hc. destruct (Hcs eq_refl c) as [H1 H2].
      { rewrite <-(take_drop i (children nd)). set_solver. }
      split; [done |]. split; [| done]. apply lookup_lt_is_Some in H2. lia. }
    rewrite Hnn. cbn [mbind option_bind children].
    destruct (rt_reparent_spec (length h) (drop i (children nd)) hb) as (h4 & Hrun & Hlen & Hlk).
    { intros c Hc. destruct (Hdrop c Hc) as (H1 & H2 & H3). by rewrite Hother. }
    exists h4. split; [exact Hrun |]. split.
    { rewrite Hlen. unfold hb. rewrite !length_insert, length_app. simpl. lia. }
    split.
    { rewrite Hlk, decide_False; [done |]. intros Hc. by destruct (Hdrop node Hc). }
    split.
    { rewrite Hlk, decide_False; [done |]. intros Hc. by destruct (Hdrop _ Hc) as (_ & ? & _). }
    split.
    + intros p pn Hp Hpn. cbn [children] in Hp. destruct (Hdrop p Hp) as (H1 & H2 & _).
      rewrite Hlk, decide_True by done. rewrite Hother by done. by rewrite Hpn.
    + intros p Hp1 Hp2 Hp3. cbn [children] in Hp3.
      rewrite Hlk, decide_False by done. by apply Hother.
Qed.

Lemma rt_split_halves nd i :
  0 < i < count nd →
  isLeaf (split_left nd i) = isLeaf nd ∧ isLeaf (split_right nd i) = isLeaf nd ∧
  parent (split_left nd i) = parent nd ∧ parent (split_right nd i) = parent nd ∧
  bounds (split_left nd i) = bounds nd ∧
  (isLeaf nd = true →
     items nd = items (split_left nd i) ++ items (split_right nd i) ∧
     items (split_left nd i) ≠ [] ∧ items (split_right nd i) ≠ []) ∧
  (isLeaf nd = false →
     children nd = children (split_left nd i) ++ children (split_right nd i) ∧
     children (split_left nd i) ≠ [] ∧ children (split_right nd i) ≠ []).
Proof.
  intros Hi. unfold split_left, split_right, count in *.
  destruct (isLeaf nd) eqn:Hleaf; cbn.
  - repeat split; try done.
    + by rewrite take_drop.
    + intros E%(f_equal length). rewrite length_take in E. simpl in E. lia.
    + intros E%(f_equal length). rewrite length_drop in E. simpl in E. lia.
  - repeat split; try done.
    + by rewrite take_drop.
    + intros E%(f_equal length). rewrite length_take in E. simpl in E. lia.
    + intros E%(f_equal length). rewrite length_drop in E. simpl in E. lia.
Qed.

Lemma rt_splitNode_spec fuel : ∀ t node N ht,
  Struct None (heap t) (root t) N ht → node ∈ N →
  (∀ p, p ∈ N → Chain (heap t) node p ∨ BOK (heap t) p) →
  (1 <= minEntries t)%Z → (minEntries t + minEntries t <= maxEntries t)%Z →
  (∀ nd, heap t !! node = Some nd → (maxEntries t < Z.of_nat (count nd))%Z) →
  ht (root t) - ht node < fuel →
  ∃ t' N' ht', splitNode fuel t node = Some t' ∧
    minEntries t' = minEntries t ∧ maxEntries t' = maxEntries t ∧ size t' = size t ∧
    Struct None (heap t') (root t') N' ht' ∧ (∀ p, p ∈ N' → BOK (heap t') p) ∧
    all_items (heap t') N' ≡ₚ all_items (heap t) N.
Proof.
  induction fuel as [| fuel IH]; intros t node N ht HS Hnode Hbok Hmn Hmx Hover Hfuel; [lia |].
  destruct (st_in _ _ _ _ _ HS node Hnode) as [nd0 Hnd0].
  pose proof (Hover nd0 Hnd0) as Hcount.
  destruct (rt_choose_spec t node nd0 Hnd0 Hmn) as (h2 & axis & nds & index & Hax & Hidx & Hre & Hrange).
  { lia. }
  { intros Hleaf c Hc.
    destruct (rt_Struct_children _ _ _ _ _ _ _ HS Hnode Hnd0 Hleaf c Hc) as (? & ? & _). done. }
  cbn [splitNode]. rewrite Hax. cbn [mbind option_bind]. rewrite Hidx. cbn [mbind option_bind].
  set (hs := <[node := nds]> (heap t)).
  assert (hs !! node = Some nds) as Hnds.
  { apply list_lookup_insert_eq. by eapply lookup_lt_Some. }
  cbn [heap set_heap]. rewrite Hnds. cbn [mbind option_bind]. unfold alloc at 1.
  match goal with
  | |- ∃ t' N' ht', (?e ≫= ?k) = _ ∧ _ =>
      change e with (distribute hs node nds index); set (K := k)
  end.
  pose proof (rt_count_reord _ _ Hre) as Hcnt.
  set (i := Z.to_nat index).
  assert (0 < i < count nds) as Hi by (unfold i; lia).
  assert (pw reord (heap t) hs) as Hpw.
  { apply (rt_pw_insert reord _ node nd0 nds); [apply rt_reord_refl | done | done]. }
  pose proof (rt_Struct_pw _ _ _ _ _ _ HS (rt_pw_reord_seqv _ _ Hpw)) as HSs.
  destruct (rt_distribute_spec hs node nds index Hnds) as
    (h4 & Hd & H4len & H4node & H4new & H4moved & H4rest); [lia | |].
  { intros Hleaf c Hc.
    destruct (rt_Struct_children _ _ _ _ _ _ _ HSs Hnode Hnds Hleaf c Hc) as (? & ? & _). done. }
  fold i in H4node, H4new, H4moved, H4rest.
  rewrite Hd. unfold K. clear K. cbn [mbind option_bind].
  set (nd1 := split_left nds i) in *. set (nn := split_right nds i) in *.
  destruct (rt_split_halves nds i Hi) as (D1 & D2 & D3 & D4 & D5 & DL & DI).
  fold nd1 nn in D1, D2, D3, D4, D5, DL, DI.
  pose proof (rt_dist_Struct hs h4 (root t) N ht node nds nd1 nn HSs Hnode Hnds
                D1 D2 D3 D4 D5 DL DI H4len H4node H4new H4moved H4rest) as HS4.
  pose proof (rt_dist_BOK hs h4 (root t) N ht node nds nd1 nn HSs Hnode Hnds
                D1 D2 D3 D4 D5 DL DI H4len H4node H4new H4moved H4rest) as HB4.
  pose proof (rt_dist_Chain hs h4 (root t) N ht node nds nd1 nn HSs Hnode Hnds
                D1 D2 D3 D4 D5 DL DI H4len H4node H4new H4moved H4rest) as HC4.
  pose proof (rt_dist_all_items hs h4 (root t) N ht node nds nd1 nn HSs Hnode Hnds
                D1 D2 D3 D4 D5 DL DI H4len H4node H4new H4moved H4rest) as HI4.
  set (newNode := length hs) in *.
  set (N4 := N ++ [newNode]) in *.
  set (ht4 := ht_with ht newNode (ht node)) in *.
  assert (∀ p, p ∈ N → ht4 p = ht p) as Hht4.
  { intros p Hp. unfold ht4, ht_with. rewrite decide_False; [done |]. intros ->.
    destruct (st_in _ _ _ _ _ HSs _ Hp) as [y Hy%lookup_lt_Some]. unfold newNode in Hy. lia. }
  assert (ht4 newNode = ht node) as Hht4n by (unfold ht4, ht_with; by rewrite decide_True).
  assert (∀ p, p ∈ N → p ∈ N4) as HN4 by (intros p Hp; unfold N4; set_solver).
  assert (newNode ∈ N4) as HnewN by (unfold N4; set_solver).
  pose proof (st_root _ _ _ _ _ HS) as HrN.
  (* the bounds of the node *)
  destruct (rt_updateBounds_spec (Some newNode) (root t) N4 ht4 (S (length h4)) h4 node HS4)
    as (h5 & Hub5 & Hs45 & Hok5); [by apply HN4 | | |].
  { intros x Hx Hl. assert (x = nd1) as -> by congruence.
    destruct DL as (_ & ? & _); [congruence | done]. }
  { pose proof (st_fuel _ _ _ _ _ HS4). lia. }
  rewrite Hub5. cbn [mbind option_bind].
  pose proof (rt_Struct_sbb _ _ _ _ _ _ HS4 Hs45) as HS5.
  (* the bounds of the new node *)
  destruct (rt_updateBounds_spec (Some newNode) (root t) N4 ht4 (S (length h5)) h5 newNode HS5)
    as (h6 & Hub6 & Hs56 & Hok6); [done | | |].
  { intros x Hx Hl. destruct (rt_sbb_fields _ _ _ _ _ Hs45 H4new Hx) as (E1 & _ & E3 & _).
    rewrite E3. destruct DL as (_ & _ & ?); [congruence | done]. }
  { pose proof (st_fuel _ _ _ _ _ HS5). lia. }
  rewrite Hub6. cbn [mbind option_bind].
  pose proof (rt_Struct_sbb _ _ _ _ _ _ HS5 Hs56) as HS6.
  pose proof (rt_sbb_trans _ _ _ Hs45 Hs56) as Hs46.
  assert (∀ p, p ∈ N4 → BOK h6 p) as Hbok6.
  { intros p Hp. apply Hok6; [done |].
    apply elem_of_app in Hp as [Hp | ->%list_elem_of_singleton]; [| left; constructor].
    right. apply Hok5; [by apply HN4 |].
    destruct (decide (p = node)) as [-> | Hne]; [left; constructor |].
    destruct (Hbok p Hp) as [Hc | Hb].
    - left. apply HC4. by apply (rt_Chain_pw (heap t)); [apply rt_pw_reord_seqv |].
    - right. apply HB4; [done | done |]. by apply (rt_BOK_reord (heap t)). }
  assert (all_items h6 N4 ≡ₚ all_items (heap t) N) as Hit6.
  { rewrite (rt_all_items_sbb h4 h6) by done. rewrite HI4.
    by apply rt_all_items_pw, rt_pw_reord_seqv. }
  destruct (proj2 Hs46 node nd1 H4node) as [b6 Hnd6].
  destruct (proj2 Hs46 newNode nn H4new) as [b6' Hnn6].
  rewrite Hnd6. cbn [mbind option_bind parent set_bounds].
  assert (parent nd1 = parent nd0) as Hpar10.
  { rewrite D3. by destruct Hre as [(_ & ? & _) _]. }
  rewrite Hpar10.
  destruct (parent nd0) as [q |] eqn:Hpar0.
  - (* the parent takes the new node *)
    destruct (rt_Struct_parent _ _ _ _ _ _ _ _ HS Hnode Hnd0 Hpar0) as (HqN & Hhtq & _).
    destruct (st_in _ _ _ _ _ HS6 q (HN4 q HqN)) as [qn6 Hqn6].
    rewrite (rt_modify_Some h6 q _ qn6 Hqn6). cbn [mbind option_bind].
    assert (parent (set_bounds nn b6') = Some q) as Hparx by (cbn; congruence).
    pose proof (rt_adopt_Struct h6 (root t) N4 ht4 newNode q _ qn6 HS6 Hnn6 Hparx Hqn6) as HS7.
    pose proof (rt_adopt_BOK h6 newNode q qn6 Hqn6) as HB7.
    pose proof (rt_adopt_all_items h6 N4 newNode q qn6 Hqn6) as HI7.
    destruct (rt_adopt_children h6 newNode q qn6 Hqn6) as (qn7 & Hqn7 & Hch7).
    destruct (rt_adopt_facts h6 (root t) N4 ht4 newNode q _ qn6 HS6 Hnn6 Hparx Hqn6)
      as (_ & _ & _ & _ & Hql6 & _).
    set (h7 := <[q := set_children qn6 (children qn6 ++ [newNode])]> h6) in *.
    rewrite Hqn7. cbn [mbind option_bind].
    assert (∀ p, p ∈ N4 → Chain h7 q p ∨ BOK h7 p) as Hbok7.
    { intros p Hp. destruct (decide (p = q)) as [-> | Hne]; [left; constructor |].
      right. apply HB7; [done |]. by apply Hbok6. }
    change (maxEntries (set_heap t hs)) with (maxEntries t).
    case_decide as Hbig.
    + destruct (IH (set_heap (set_heap t hs) h7) q N4 ht4) as
        (t' & N' & ht' & Hrun & E1 & E2 & E3 & HS' & Hbok' & Hit'); try done.
      * by apply HN4.
      * cbn. intros x Hx. assert (x = qn7) as -> by congruence.
        unfold count. assert (isLeaf qn7 = false) as ->.
        { unfold h7 in Hqn7. rewrite list_lookup_insert_eq in Hqn7 by (by eapply lookup_lt_Some).
          by injection Hqn7 as <-. }
        unfold len in Hbig. lia.
      * cbn. rewrite (Hht4 _ HrN), (Hht4 _ HqN).
        pose proof (st_ht _ _ _ _ _ HS q HqN). lia.
      * exists t', N', ht'. split; [done |]. repeat (split; [done |]).
        cbn in Hit'. rewrite Hit'. by rewrite HI7.
    + destruct (rt_updateBounds_spec None (root t) N4 ht4 (S (length h7)) h7 q HS7)
        as (h8 & Hub8 & Hs78 & Hok8); [by apply HN4 | | |].
      { intros x Hx Hl. assert (x = qn7) as -> by congruence.
        unfold h7 in Hqn7. rewrite list_lookup_insert_eq in Hqn7 by (by eapply lookup_lt_Some).
        injection Hqn7 as <-. cbn in Hl. congruence. }
      { pose proof (st_fuel _ _ _ _ _ HS7). lia. }
      rewrite Hub8. cbn [mbind option_bind].
      exists (set_heap (set_heap t hs) h8), N4, ht4. split; [done |].
      repeat (split; [done |]). cbn [heap set_heap root].
      split; [by eapply rt_Struct_sbb |]. split.
      * intros p Hp. apply Hok8; [done |]. by apply Hbok7.
      * rewrite (rt_all_items_sbb h7 h8) by done. by rewrite HI7.
  - (* the node was the root: a new root *)
    assert (node = root t) as Hroot.
    { destruct (decide (node = root t)) as [| Hne]; [done |].
      destruct (st_par _ _ _ _ _ HS node nd0 Hnode Hne) as (q & qn & Hq & _); [done | done |].
      congruence. }
    unfold alloc.
    set (newRoot := length h6).
    assert (node < length h6 ∧ newNode < length h6 ∧ node ≠ newNode) as (Hl1 & Hl2 & Hl3).
    { apply lookup_lt_Some in Hnd6, Hnn6. split; [done |]. split; [done |].
      apply lookup_lt_Some in Hnds. unfold newNode. lia. }
    rewrite (rt_modify_Some _ node _ (set_bounds nd1 b6)) by (by rewrite lookup_app_l).
    cbn [mbind option_bind].
    rewrite (rt_modify_Some _ newNode _ (set_bounds nn b6')).
    2:{ rewrite list_lookup_insert_ne by done. by rewrite lookup_app_l. }
    cbn [mbind option_bind].
    rewrite Hroot in Hnd6.
    assert (ht4 newNode = ht4 (root t)) as Hhtx.
    { rewrite Hht4n, (Hht4 _ HrN). by rewrite Hroot. }
    assert (isLeaf (set_bounds nd1 b6) = true → items (set_bounds nd1 b6) ≠ []) as Hne6.
    { cbn. intros Hl. destruct DL as (_ & ? & _); [congruence | done]. }
    pose proof (rt_newroot_Struct h6 (root t) N4 ht4 newNode _ _ HS6 Hnn6 Hnd6 Hhtx Hne6) as HS9.
    pose proof (rt_newroot_BOK h6 (root t) N4 ht4 newNode _ _ HS6 Hnn6 Hnd6 Hhtx) as HB9.
    pose proof (rt_newroot_all_items h6 (root t) N4 ht4 newNode _ _ HS6 Hnn6 Hnd6 Hhtx) as HI9.
    pose proof (rt_newroot_new h6 (root t) N4 ht4 newNode _ _ HS6 Hnn6 Hnd6 Hhtx) as Hnew9.
    rewrite Hroot.
    fold newRoot in HS9, HB9, HI9, Hnew9.
    set (h9 := <[newNode := set_parent (set_bounds nn b6') (Some newRoot)]>
                 (<[root t := set_parent (set_bounds nd1 b6) (Some newRoot)]>
                    (h6 ++ [mkNode false zeroRect [root t; newNode] [] None]))) in *.
    set (N9 := N4 ++ [newRoot]) in *.
    set (ht9 := ht_with ht4 newRoot (S (ht4 (root t)))) in *.
    destruct (rt_updateBounds_spec None newRoot N9 ht9 (S (length h9)) h9 newRoot HS9)
      as (h10 & Hub10 & Hs910 & Hok10); [unfold N9; set_solver | | |].
    { intros x Hx Hl. rewrite Hnew9 in Hx. injection Hx as <-. done. }
    { pose proof (st_fuel _ _ _ _ _ HS9). lia. }
    rewrite Hub10. cbn [mbind option_bind].
    exists (set_root (set_heap (set_heap t hs) h10) newRoot), N9, ht9. split; [done |].
    repeat (split; [done |]). cbn [heap set_heap root set_root].
    split; [by eapply rt_Struct_sbb |]. split.
    + intros p Hp. apply Hok10; [done |].
      apply elem_of_app in Hp as [Hp | ->%list_elem_of_singleton]; [| left; constructor].
      right. apply HB9; [done |]. by apply Hbok6.
    + rewrite (rt_all_items_sbb h9 h10) by done. by rewrite HI9.
Qed.

End Split.

(** * Insertion *)

Section Insertion.
Context {D : Type}.
Implicit Types (h : list (Node D)) (nd : Node D) (N : list nat) (ht : nat → nat).
Implicit Types (p q r : nat) (t : RTree D) (all : list (Item D)).

Lemma rt_choose_child_in h b cs best :
  choose_child h b cs = Some (Some best) → best ∈ cs.
Proof.
  unfold choose_child.
  match goal with |- (foldl ?f _ _ ≫= _) = _ → _ => set (F := f) end.
  assert (∀ cs' st st', foldl F (Some st) cs' = Some st' →
            ∀ c, fst (fst st') = Some c → fst (fst st) = Some c ∨ c ∈ cs') as Hgen.
  { induction cs' as [| c' cs' IH]; intros [[bo me] ma] st' Hrun c Hc.
    - simpl in Hrun. injection Hrun as <-. by left.
    - cbn [foldl] in Hrun. unfold F at 2 in Hrun. cbn [mbind option_bind] in Hrun.
      destruct (h !! c') as [cn |]; cbn [mbind option_bind] in Hrun.
      2:{ exfalso. clear -Hrun. induction cs' as [| x cs' IH']; [done |]. by apply IH'. }
      case_decide.
      + destruct (IH _ _ Hrun c Hc) as [Hfst | Hin]; [| right; by right].
        simpl in Hfst. injection Hfst as <-. right. by left.
      + destruct (IH _ _ Hrun c Hc) as [Hfst | Hin]; [by left | right; by right]. }
  intros Hrun. destruct (foldl F _ cs) as [st' |] eqn:Hf; [| done].
  cbn [mbind option_bind] in Hrun. injection Hrun as Hbest.
  destruct (Hgen cs _ _ Hf best Hbest) as [? | ?]; done.
Qed.

Lemma rt_chooseLeaf_in o r N ht b fuel : ∀ h p leaf,
  Struct o h r N ht → p ∈ N → chooseLeaf fuel h p b = Some leaf →
  leaf ∈ N ∧ ∃ nd, h !! leaf = Some nd ∧ isLeaf nd = true.
Proof.
  induction fuel as [| fuel IH]; intros h p leaf HS Hp Hrun; [done |].
  cbn [chooseLeaf] in Hrun. destruct (h !! p) as [nd |] eqn:Hnd; [| done].
  cbn [mbind option_bind] in Hrun. destruct (isLeaf nd) eqn:Hleaf.
  - injection Hrun as <-. split; [done |]. by exists nd.
  - destruct (choose_child h b (children nd)) as [[best |] |] eqn:Hcc; try done.
    cbn [mbind option_bind] in Hrun. apply rt_choose_child_in in Hcc.
    destruct (st_node _ _ _ _ _ HS p nd Hp Hnd Hleaf) as (_ & _ & Hch).
    destruct (Hch best Hcc) as (HbN & _). by eapply IH.
Qed.

(** ** Appending the item to the leaf *)

Lemma rt_append_Struct o h r N ht leaf nd its :
  Struct o h r N ht → h !! leaf = Some nd → its ≠ [] →
  Struct o (<[leaf := set_items nd its]> h) r N ht.
Proof.
  intros HS Hnd Hne. eapply rt_Struct_shape; [done |].
  apply (rt_pw_insert shape h leaf nd); [apply rt_shape_refl | done |].
  repeat split; try done.
Qed.

Lemma rt_append_bounds_at h leaf nd its c :
  h !! leaf = Some nd → bounds_at (<[leaf := set_items nd its]> h) c = bounds_at h c.
Proof.
  intros Hnd. unfold bounds_at. destruct (decide (c = leaf)) as [-> | Hne].
  - rewrite list_lookup_insert_eq by (by eapply lookup_lt_Some). by rewrite Hnd.
  - by rewrite list_lookup_insert_ne.
Qed.

Lemma rt_append_BOK h leaf nd its p :
  h !! leaf = Some nd → p ≠ leaf → BOK h p → BOK (<[leaf := set_items nd its]> h) p.
Proof.
  intros Hnd Hne. apply rt_BOK_ext. intros pn Hpn.
  rewrite list_lookup_insert_ne in Hpn by done. exists pn.
  repeat (split; [done |]). intros _ c _. by apply rt_append_bounds_at.
Qed.

Lemma rt_append_all_items o h r N ht leaf nd item :
  Struct o h r N ht → leaf ∈ N → h !! leaf = Some nd → isLeaf nd = true →
  all_items (<[leaf := set_items nd (items nd ++ [item])]> h) N ≡ₚ all_items h N ++ [item].
Proof.
  intros HS Hleaf Hnd Hl. unfold all_items.
  destruct (list_elem_of_split _ _ Hleaf) as (N1 & N2 & HN).
  pose proof (st_nodup _ _ _ _ _ HS) as Hnodup. rewrite HN in Hnodup.
  apply NoDup_app in Hnodup as (_ & Hdisj & [Hnot _]%NoDup_cons).
  set (h1 := <[leaf := set_items nd (items nd ++ [item])]> h).
  assert (∀ l, leaf ∉ l → l ≫= leaf_items h1 = l ≫= leaf_items h) as Hsame.
  { intros l Hl'. apply Forall_bind_ext, Forall_forall. intros p Hp. unfold leaf_items, h1.
    rewrite list_lookup_insert_ne; [done |]. by intros ->. }
  rewrite HN, !bind_app, !bind_cons. rewrite (Hsame N1), (Hsame N2); [| done |].
  2:{ intros Hin. by apply (Hdisj leaf); [| left]. }
  unfold leaf_items at 2 5. unfold h1.
  rewrite list_lookup_insert_eq by (by eapply lookup_lt_Some). rewrite Hnd.
  cbn [isLeaf set_items items]. rewrite Hl. rewrite <-!app_assoc.
  apply Permutation_app_head. apply Permutation_app_head. apply Permutation_app_comm.
Qed.

(** ** [Insert] keeps the invariant *)

Lemma rt_RInv_cfg t all :
  RInv t all →
  (minEntries t <= 0)%Z ∨
  (1 <= minEntries t ∧ minEntries t + minEntries t <= maxEntries t)%Z.
Proof.
  intros (Hcfg & _). destruct (decide (minEntries t <= 0)%Z); [by left |]. right.
  split; [lia |].
  destruct (decide (0 <= maxEntries t)%Z) as [Hpos | Hneg].
  - pose proof (Z.quot_rem' (maxEntries t) 2).
    pose proof (Z.rem_nonneg (maxEntries t) 2). lia.
  - assert (maxEntries t `quot` 2 <= 0 `quot` 2)%Z as Hle by (apply Z.quot_le_mono; lia).
    change (0 `quot` 2)%Z with 0%Z in Hle. lia.
Qed.

Lemma rt_Insert_spec t all item :
  RInv t all →
  (∀ t', Insert t item = Some t' →
         RInv t' (all ++ [item]) ∧ minEntries t' = minEntries t ∧
         maxEntries t' = maxEntries t) ∧
  ((1 <= minEntries t)%Z →
   is_Some (chooseLeaf (S (length (heap t))) (heap t) (root t) (Bounds item)) →
   is_Some (Insert t item)).
Proof.
  intros HI. pose proof (rt_RInv_cfg t all HI) as Hcfg.
  destruct HI as (Hq & Hsize & N & ht & HS & Hbok & Hitems).
  unfold Insert. cbn [heap root minEntries maxEntries size set_heap].
  destruct (chooseLeaf (S (length (heap t))) (heap t) (root t) (Bounds item))
    as [leaf |] eqn:Hcl.
  2:{ split; [done |]. by intros _ [? ?]. }
  cbn [mbind option_bind].
  destruct (rt_chooseLeaf_in _ _ _ _ _ _ _ _ _ HS (st_root _ _ _ _ _ HS) Hcl)
    as (HlN & nd & Hnd & Hleaf).
  rewrite (rt_modify_Some _ leaf _ nd Hnd). cbn [mbind option_bind].
  set (h1 := <[leaf := set_items nd (items nd ++ [item])]> (heap t)).
  assert (items nd ++ [item] ≠ []) as Hne by (by destruct (items nd)).
  pose proof (rt_append_Struct _ _ _ _ _ leaf nd _ HS Hnd Hne) as HS1. fold h1 in HS1.
  assert (h1 !! leaf = Some (set_items nd (items nd ++ [item]))) as Hnd1.
  { apply list_lookup_insert_eq. by eapply lookup_lt_Some. }
  destruct (rt_updateBounds_spec None (root t) N ht (S (length h1)) h1 leaf HS1 HlN)
    as (h2 & Hub & Hs12 & Hok2).
  { intros x Hx _. assert (x = set_items nd (items nd ++ [item])) as -> by congruence. done. }
  { pose proof (st_fuel _ _ _ _ _ HS1). lia. }
  rewrite Hub. cbn [mbind option_bind].
  pose proof (rt_Struct_sbb _ _ _ _ _ _ HS1 Hs12) as HS2.
  assert (∀ p, p ∈ N → BOK h2 p) as Hbok2.
  { intros p Hp. apply Hok2; [done |].
    destruct (decide (p = leaf)) as [-> | Hpl]; [left; constructor |].
    right. apply rt_append_BOK; [done | done |]. by apply Hbok. }
  assert (all_items h2 N ≡ₚ all ++ [item]) as Hit2.
  { rewrite (rt_all_items_sbb h1 h2) by done. unfold h1.
    rewrite (rt_append_all_items _ _ _ _ _ _ _ _ HS HlN Hnd Hleaf). by rewrite Hitems. }
  destruct (proj2 Hs12 _ _ Hnd1) as [b2 Hnd2]. rewrite Hnd2. cbn [mbind option_bind].
  cbn [items set_bounds set_items].
  set (t2 := mkTree h2 (root t) (minEntries t) (maxEntries t) (size t + 1)).
  assert (size t + 1 = len (all ++ [item]))%Z as Hsz.
  { rewrite Hsize. unfold len. rewrite length_app. simpl. lia. }
  case_decide as Hbig.
  - destruct Hcfg as [Hmn0 | [Hmn Hmx]].
    { rewrite rt_splitNode_None by done. split; [done |]. intros ?. lia. }
    destruct (rt_splitNode_spec (S (length h2)) t2 leaf N ht) as
      (t' & N' & ht' & Hrun & E1 & E2 & E3 & HS' & Hbok' & Hit'); try done.
    { intros p Hp. right. by apply Hbok2. }
    { cbn. intros x Hx. assert (x = set_bounds (set_items nd (items nd ++ [item])) b2) as ->
        by congruence.
      unfold count. cbn. rewrite Hleaf. unfold len in Hbig. lia. }
    { cbn. pose proof (st_fuel _ _ _ _ _ HS2). lia. }
    change (set_heap (mkTree (heap t) (root t) (minEntries t) (maxEntries t) (size t + 1)) h2)
      with t2.
    rewrite Hrun. split; [| by intros]. intros t'' [= <-].
    split; [| done]. split; [by rewrite E1, E2 |]. split; [by rewrite E3 |].
    exists N', ht'. split; [done |]. split; [done |]. by rewrite Hit'.
  - split; [| by intros]. intros t' [= <-]. split; [| done].
    split; [done |]. split; [done |]. exists N, ht. done.
Qed.

End Insertion.

(** * The nodes and the items below a node *)

Section Subtrees.
Context {D : Type}.
Implicit Types (h : list (Node D)) (nd : Node D) (N : list nat) (ht : nat → nat).
Implicit Types (p q r c : nat) (t : RTree D) (all : list (Item D)).






Section WithStruct.
Variables (h : list (Node D)) (r : nat) (N : list nat) (ht : nat → nat).
Hypothesis HS : Struct None h r N ht.














(** ** The bounds of a node cover what is below it *)

Hypothesis Hbok : ∀ p, p ∈ N → BOK h p.



(** ** Search *)




End WithStruct.

(** ** Trees built by insertions *)

Fixpoint insert_all t (its : list (Item D)) : option (RTree D) :=
  match its with
  | [] => Some t
  | it :: its' => t' ← Insert t it; insert_all t' its'
  end.





End Subtrees.

(** * Nearest neighbours: the best-first search *)

Section Nearest.
Context {D : Type}.
Implicit Types (nd : Node D) (p r c : nat) (all : list (Item D)).

(** ** The entry of the queue with the least distance *)



(** ** What the queue stands for *)

Section WithTree.
Variables (h : list (Node D)) (r : nat) (N : list nat) (ht : nat → nat).
Variable (pt : Point).
Hypothesis HS : Struct None h r N ht.
Hypothesis Hbok : ∀ p, p ∈ N → BOK h p.


















(** ** The loop *)


End WithTree.

(** ** [NearestNeighbor] *)



End Nearest.

(** * Insertion does not panic *)

(** [chooseLeaf] compares enlargements and areas with [math.MaxFloat64];
    a child is chosen as long as these stay below it, which they do for
    coordinates of magnitude at most [2^500]. *)
Definition coord_max : Z := 2 ^ 500.

Definition small (r : Rectangle) : Prop :=
  (- coord_max <= MinX r <= coord_max ∧ - coord_max <= MinY r <= coord_max ∧
   - coord_max <= MaxX r <= coord_max ∧ - coord_max <= MaxY r <= coord_max)%Z.

Lemma rt_coord_max_pos : (0 < coord_max)%Z.
Proof. by vm_compute. Qed.

Lemma rt_coord_max_float : (8 * (coord_max * coord_max) < MaxFloat64)%Z.
Proof. by vm_compute. Qed.

Lemma rt_small_zero : small zeroRect.
Proof. pose proof rt_coord_max_pos. unfold small, zeroRect. simpl. lia. Qed.

Lemma rt_small_Expand a b : small a → small b → small (Expand a b).
Proof. unfold small, Expand. simpl. lia. Qed.

Lemma rt_small_mbr bs : Forall small bs → small (mbr bs).
Proof.
  destruct bs as [| b bs]; [intros _; apply rt_small_zero |].
  intros [Hb Hbs]%Forall_cons. simpl. revert b Hb.
  induction Hbs as [| x bs Hx _ IH]; intros b Hb; [done |].
  simpl. apply IH. by apply rt_small_Expand.
Qed.

Lemma rt_small_enlargement a b :
  small a → small b → (EnlargementNeeded a b < MaxFloat64)%Z.
Proof.
  intros Ha Hb. pose proof rt_coord_max_float as HM. pose proof rt_coord_max_pos as HP.
  pose proof (rt_small_Expand a b Ha Hb) as Hu.
  unfold EnlargementNeeded, Area, Union.
  change (mkRect (Z.min (MinX a) (MinX b)) (Z.min (MinY a) (MinY b))
                 (Z.max (MaxX a) (MaxX b)) (Z.max (MaxY a) (MaxY b))) with (Expand a b).
  unfold small in *. set (B := coord_max) in *.
  set (u := Expand a b) in *.
  assert (∀ x y, - (2 * B) <= x <= 2 * B → - (2 * B) <= y <= 2 * B →
                 - (4 * (B * B)) <= x * y <= 4 * (B * B))%Z as Hprod by (intros; nia).
  pose proof (Hprod (MaxX u - MinX u) (MaxY u - MinY u) ltac:(lia) ltac:(lia))%Z.
  pose proof (Hprod (MaxX a - MinX a) (MaxY a - MinY a) ltac:(lia) ltac:(lia))%Z.
  lia.
Qed.

Section Totality.
Context {D : Type}.
Implicit Types (h : list (Node D)) (nd : Node D) (N : list nat) (ht : nat → nat).
Implicit Types (p r c : nat) (t : RTree D) (all : list (Item D)).

Lemma rt_choose_child_Some h b cs :
  cs ≠ [] → small b →
  (∀ c, c ∈ cs → ∃ cn, h !! c = Some cn ∧ small (bounds cn)) →
  ∃ best, choose_child h b cs = Some (Some best).
Proof.
  intros Hne Hb Hcs. unfold choose_child.
  match goal with |- ∃ best, (foldl ?f _ _ ≫= _) = _ => set (F := f) end.
  assert (∀ cs' st c0, fst (fst st) = Some c0 →
            (∀ c, c ∈ cs' → ∃ cn, h !! c = Some cn ∧ small (bounds cn)) →
            ∃ st' c1, foldl F (Some st) cs' = Some st' ∧ fst (fst st') = Some c1) as Hgen.
  { induction cs' as [| c cs' IH]; intros [[bo me] ma] c0 Hst Hcs'.
    - by exists (bo, me, ma), c0.
    - cbn [foldl]. unfold F at 2. cbn [mbind option_bind].
      destruct (Hcs' c) as (cn & -> & _); [by left |]. cbn [mbind option_bind].
      case_decide.
      + apply (IH _ c); [done |]. intros c' Hc'. apply Hcs'. by right.
      + apply (IH _ c0); [done |]. intros c' Hc'. apply Hcs'. by right. }
  destruct cs as [| c cs]; [done |].
  cbn [foldl]. unfold F at 2. cbn [mbind option_bind].
  destruct (Hcs c) as (cn & -> & Hsm); [by left |]. cbn [mbind option_bind].
  rewrite decide_True by (left; by apply rt_small_enlargement).
  destruct (Hgen cs (Some c, EnlargementNeeded (bounds cn) b, Area (bounds cn)) c eq_refl)
    as (st' & c1 & -> & Hc1).
  { intros c' Hc'. apply Hcs. by right. }
  cbn [mbind option_bind]. exists c1. by rewrite Hc1.
Qed.

Section WithTree.
Variables (h : list (Node D)) (r : nat) (N : list nat) (ht : nat → nat).
Hypothesis HS : Struct None h r N ht.
Hypothesis Hbok : ∀ p, p ∈ N → BOK h p.
Hypothesis Hsmall : ∀ it, it ∈ all_items h N → small (Bounds it).

Lemma rt_node_small n : ∀ p nd, p ∈ N → ht p < n → h !! p = Some nd → small (bounds nd).
Proof.
  induction n as [| n IH]; intros p nd Hp Hn Hnd; [lia |].
  rewrite (Hbok p Hp nd Hnd). apply rt_small_mbr. unfold entries_of.
  destruct (isLeaf nd) eqn:Hleaf.
  - apply Forall_fmap, Forall_forall. intros it Hit. apply Hsmall.
    unfold all_items. apply list_elem_of_bind. exists p. split; [| done].
    unfold leaf_items. by rewrite Hnd, Hleaf.
  - apply Forall_fmap, Forall_forall. intros c Hc.
    destruct (st_node _ _ _ _ _ HS p nd Hp Hnd Hleaf) as (_ & _ & Hch).
    destruct (Hch c Hc) as (HcN & Hht & cn & Hcn & _).
    unfold bounds_at, compose. rewrite Hcn. apply (IH c cn); [done | lia | done].
Qed.

Lemma rt_chooseLeaf_Some b fuel : ∀ p,
  small b → p ∈ N → ht p < fuel → is_Some (chooseLeaf fuel h p b).
Proof.
  induction fuel as [| fuel IH]; intros p Hb Hp Hf; [lia |].
  destruct (st_in _ _ _ _ _ HS p Hp) as [nd Hnd].
  cbn [chooseLeaf]. rewrite Hnd. cbn [mbind option_bind].
  destruct (isLeaf nd) eqn:Hleaf; [done |].
  destruct (st_node _ _ _ _ _ HS p nd Hp Hnd Hleaf) as (Hne & _ & Hch).
  destruct (rt_choose_child_Some h b (children nd) Hne Hb) as [best Hbest].
  { intros c Hc. destruct (Hch c Hc) as (HcN & Hht & cn & Hcn & _).
    exists cn. split; [done |]. apply (rt_node_small (S (ht c)) c cn); [done | lia | done]. }
  rewrite Hbest. cbn [mbind option_bind].
  apply rt_choose_child_in in Hbest. destruct (Hch best Hbest) as (HbN & Hht & _).
  apply IH; [done | done | lia].
Qed.

End WithTree.

Lemma rt_Insert_total t all item :
  RInv t all → (1 <= minEntries t)%Z →
  Forall (λ it, small (Bounds it)) all → small (Bounds item) →
  is_Some (Insert t item).
Proof.
  intros HI Hmn Hall Hit. apply (proj2 (rt_Insert_spec t all item HI) Hmn).
  destruct HI as (_ & _ & N & ht & HS & Hbok & Hitems).
  apply (rt_chooseLeaf_Some _ _ N ht HS Hbok).
  - intros it Hin. rewrite Forall_forall in Hall. apply Hall. by rewrite <-Hitems.
  - done.
  - apply (st_root _ _ _ _ _ HS).
  - pose proof (st_fuel _ _ _ _ _ HS). lia.
Qed.

Lemma rt_insert_all_total its : ∀ t all,
  RInv t all → (1 <= minEntries t)%Z →
  Forall (λ it, small (Bounds it)) all → Forall (λ it, small (Bounds it)) its →
  is_Some (insert_all t its).
Proof.
  induction its as [| it its IH]; intros t all HI Hmn Hall Hits; [done |].
  apply Forall_cons in Hits as [Hit Hits].
  destruct (rt_Insert_total t all it HI Hmn Hall Hit) as [t1 Hins].
  cbn [insert_all]. rewrite Hins. cbn [mbind option_bind].
  destruct (proj1 (rt_Insert_spec t all it HI) t1 Hins) as (HI1 & E1 & E2).
  apply (IH t1 (all ++ [it])); [done | lia | | done].
  apply Forall_app. split; [done |]. by apply Forall_singleton.
Qed.

Lemma rt_NewRTree_minEntries mn mx :
  (2 <= mx)%Z → (1 <= minEntries (NewRTree (D := D) mn mx) <= mx `quot` 2)%Z.
Proof.
  intros Hmx. unfold NewRTree. cbn [minEntries].
  assert (1 <= mx `quot` 2)%Z.
  { pose proof (Z.quot_rem' mx 2). pose proof (Z.rem_bound_pos mx 2). lia. }
  case_decide; lia.
Qed.

End Totality.

(** * The laws of the R-tree *)


Section Laws.
Context {D : Type}.
Implicit Types (T t : RTree D) (its : list (Item D)) (W : Rectangle) (pt : Point).






(** C10.  With [k ≤ 0], [NearestNeighbor] returns the empty sequence in every
    tree whose root is allocated. *)
Theorem rt_nearest_nonpositive t pt (k : Z) :
  is_Some (heap t !! root t) → (k <= 0)%Z → NearestNeighbor t pt k = Some [].
Proof.
  intros [rn Hrn] Hk. unfold NearestNeighbor. rewrite Hrn. cbn [mbind option_bind].
  cbn [nn_loop]. rewrite decide_False; [done |]. unfold len. simpl. lia.
Qed.

End Laws.

(** ** Instances *)

Definition demo_items : list (Item Z) :=
  [ mkItem (mkRect 0 0 1 1) 1; mkItem (mkRect 2 2 3 3) 2; mkItem (mkRect 5 5 6 6) 3;
    mkItem (mkRect 1 4 2 6) 4; mkItem (mkRect 7 0 9 2) 5; mkItem (mkRect 4 1 5 2) 6;
    mkItem (mkRect 3 3 4 4) 7; mkItem (mkRect 8 8 9 9) 8; mkItem (mkRect 0 7 1 9) 9;
    mkItem (mkRect 2 2 3 3) 10 ]%Z.

Definition demo_tree : RTree Z :=
  default (NewRTree 1 2) (insert_all (NewRTree 1 2) demo_items).




Definition demo_node : Node Z :=
  default (mkNode true zeroRect [] [] None) (heap demo_tree !! root demo_tree).


(** A leaf that overflows with three points on the diagonal: the margin sums
    along the two axes are equal. *)
Definition tie_items : list (Item Z) :=
  [mkItem (NewPoint 0 0) 1; mkItem (NewPoint 1 1) 2; mkItem (NewPoint 2 2) 3]%Z.

Definition tie_tree : RTree Z :=
  mkTree [mkNode true (mkRect 0 0 2 2) [] tie_items None] 0 1 2 3.

Lemma rt_tie_tree_reached :
  ∃ t, insert_all (NewRTree 1 2) (take 2 tie_items) = Some t ∧
       Insert t (mkItem (NewPoint 2 2) 3%Z) = splitNode 2 tie_tree 0.
Proof. eexists. split; [by vm_compute | by vm_compute]. Qed.



Lemma rt_nearest_nonpositive_witness :
  is_Some (heap demo_tree !! root demo_tree) ∧ (-1 <= 0)%Z ∧
  NearestNeighbor demo_tree (mkPoint 4 4) (-1) = Some [].
Proof.
  assert (is_Some (heap demo_tree !! root demo_tree)) as H
    by (exists demo_node; vm_compute; reflexivity).
  assert (-1 <= 0)%Z as Hk by lia.
  split; [exact H |]. split; [exact Hk |].
  exact (rt_nearest_nonpositive demo_tree (mkPoint 4 4) (-1) H Hk).
Defined.

End RTreeProofs.
